(** * SeaStore async cleaner: segment directory, space tracker, victim
    selection, backpressure gate and mount recovery.

    Shallow embedding of [crimson/os/seastore/async_cleaner.cc] and of the
    parts of [seastore_types.h] it relies on.  Fixed-width integers are [Z]
    with their wrap-around written out, [double] is the kernel's binary64
    [float], [ceph_assert]/[ceph_abort]/[assert] are the [None] of [option]. *)

From Stdlib Require Import ZArith Lia Bool List Floats.
From stdpp Require Import base option list.

Local Open Scope Z_scope.

(** ** Fixed-width arithmetic *)

Definition wrap (w x : Z) : Z := x mod 2 ^ w.
Definition wrap8 := wrap 8.
Definition wrap32 := wrap 32.
Definition wrap64 := wrap 64.

(** [static_cast<seastore_off_t>] of a 32-bit pattern (two's complement). *)
Definition to_int32 (x : Z) : Z :=
  let u := wrap32 x in if u <? 2 ^ 31 then u else u - 2 ^ 32.

(** [ceph_assert(b); k] *)
Notation "'assert!' b ';!' k" := (if b then k else None)
  (at level 10, b at level 99, k at level 200, only parsing).

Lemma wrap_small w x : 0 <= x < 2 ^ w -> wrap w x = x.
Proof. intros H. unfold wrap. now apply Z.mod_small. Qed.

Lemma wrap_range w x : 0 <= w -> 0 <= wrap w x < 2 ^ w.
Proof. intros Hw. unfold wrap. apply Z.mod_pos_bound. now apply Z.pow_pos_nonneg. Qed.

(** ** seastore_types.h *)

Definition DEVICE_ID_BITS : Z := 8.
Definition DEVICE_ID_MAX : Z := 255.
Definition DEVICE_ID_NULL : Z := DEVICE_ID_MAX.
Definition DEVICE_ID_MAX_VALID : Z := DEVICE_ID_MAX - 7.
Definition DEVICE_ID_MAX_VALID_SEGMENT : Z := Z.shiftr DEVICE_ID_MAX 1.

Inductive paddr_types_t := SEGMENT | RANDOM_BLOCK | RESERVED.

Definition device_id_to_paddr_type (id : Z) : paddr_types_t :=
  if DEVICE_ID_MAX_VALID <? id then RESERVED
  else if Z.land id 128 =? 0 then SEGMENT
  else RANDOM_BLOCK.

Definition SEGMENT_ID_BITS : Z := 32.
Definition DEVICE_SEGMENT_ID_BITS : Z := SEGMENT_ID_BITS - DEVICE_ID_BITS.
Definition DEVICE_SEGMENT_ID_MAX : Z := Z.shiftl 1 DEVICE_SEGMENT_ID_BITS - 1.

(** [segment_id_t] is its [internal_segment_id_t segment] field (uint32). *)
Definition segment_id_t := Z.

Definition make_internal (d_id s_id : Z) : segment_id_t :=
  wrap32 (Z.lor s_id (Z.shiftl d_id DEVICE_SEGMENT_ID_BITS)).

Definition device_id (segment : segment_id_t) : Z :=
  wrap8 (Z.shiftr segment DEVICE_SEGMENT_ID_BITS).

Definition device_segment_id (segment : segment_id_t) : Z :=
  Z.land segment (Z.shiftl 1 DEVICE_SEGMENT_ID_BITS - 1).

Definition MAX_SEG_ID : segment_id_t :=
  make_internal DEVICE_ID_MAX_VALID_SEGMENT DEVICE_SEGMENT_ID_MAX.
Definition NULL_SEG_ID : segment_id_t := MAX_SEG_ID.

Definition MAX_SEG_SEQ : Z := 2 ^ 32 - 1.
Definition NULL_SEG_SEQ : Z := MAX_SEG_SEQ.

Inductive segment_type_t := JOURNAL | OOL | NULL_SEG.
Inductive data_category_t := METADATA | DATA | NUM.

Definition MAX_SEG_OFF : Z := 2 ^ 31 - 1.
Definition SEGMENT_OFF_BITS : Z := 32.
Definition PADDR_BITS : Z := 64.
Definition BLOCK_OFF_BITS : Z := PADDR_BITS - DEVICE_ID_BITS.
Definition SEGMENT_OFF_MASK : Z := Z.shiftl 1 SEGMENT_OFF_BITS - 1.

(** [paddr_t] is its [internal_paddr_t internal_paddr] field (uint64). *)
Definition paddr_t := Z.

Definition make_seg_paddr (seg : segment_id_t) (offset : Z) : paddr_t :=
  Z.lor (Z.shiftl seg SEGMENT_OFF_BITS) (wrap32 offset).

Definition get_device_id (addr : paddr_t) : Z :=
  wrap8 (Z.shiftr addr BLOCK_OFF_BITS).

Definition get_addr_type (addr : paddr_t) : paddr_types_t :=
  device_id_to_paddr_type (get_device_id addr).

Definition get_segment_id (addr : paddr_t) : segment_id_t :=
  wrap32 (Z.shiftr addr SEGMENT_OFF_BITS).

Definition get_segment_off (addr : paddr_t) : Z :=
  to_int32 (Z.land addr SEGMENT_OFF_MASK).

Definition P_ADDR_MAX : paddr_t := Z.shiftl DEVICE_ID_MAX BLOCK_OFF_BITS.
Definition P_ADDR_NULL : paddr_t := P_ADDR_MAX.

Record journal_seq_t := mk_journal_seq {
  segment_seq : Z;
  offset : paddr_t;
}.

Definition JOURNAL_SEQ_MAX : journal_seq_t := mk_journal_seq MAX_SEG_SEQ P_ADDR_MAX.
Definition JOURNAL_SEQ_NULL : journal_seq_t := JOURNAL_SEQ_MAX.

Definition RECLAIM_GENERATIONS : Z := 3.
Definition NULL_GENERATION : Z := 255.

(** [sea_time_point] is the tick count of its [time_since_epoch()] (int64);
    [NULL_TIME] is the default-constructed time point. *)
Definition sea_time_point := Z.
Definition NULL_TIME : sea_time_point := 0.

(* Bit-level accessors stay folded under [simpl]. *)
Arguments wrap : simpl never.
Arguments to_int32 : simpl never.
Arguments make_internal : simpl never.
Arguments device_id : simpl never.
Arguments device_segment_id : simpl never.
Arguments make_seg_paddr : simpl never.
Arguments get_device_id : simpl never.
Arguments get_addr_type : simpl never.
Arguments get_segment_id : simpl never.
Arguments get_segment_off : simpl never.

#[global] Instance paddr_types_eq_dec : EqDecision paddr_types_t.
Proof. solve_decision. Defined.
#[global] Instance segment_type_eq_dec : EqDecision segment_type_t.
Proof. solve_decision. Defined.
#[global] Instance data_category_eq_dec : EqDecision data_category_t.
Proof. solve_decision. Defined.

(** *** segment_map_t *)

Section segment_map.
Context {T : Type}.

Record segment_map_t := mk_segment_map {
  device_to_segments : list (list T);
  total_segments : Z;
}.

Definition segment_map_clear : segment_map_t :=
  mk_segment_map (replicate (Z.to_nat DEVICE_ID_MAX_VALID) []) 0.

(** [device] is a [device_id_t], never negative;
    [device_to_segments[device]] past the end of the vector is undefined in
    the C++ and aborts here. *)
Definition add_device (m : segment_map_t) (device segments : Z) (init : T)
  : option segment_map_t :=
  assert! (device <=? DEVICE_ID_MAX_VALID) && (0 <=? device) ;!
  match device_to_segments m !! Z.to_nat device with
  | None => None
  | Some dev =>
    assert! bool_decide (length dev = 0%nat) ;!
    assert! 0 <? segments ;!
    Some (mk_segment_map
            (<[Z.to_nat device := replicate (Z.to_nat segments) init]>
               (device_to_segments m))
            (wrap64 (total_segments m + segments)))
  end.

(** [operator[]]: the debug assertion on the segment index, and an abort
    where the C++ would index past the outer vector. *)
Definition segment_map_get (m : segment_map_t) (id : segment_id_t) : option T :=
  match device_to_segments m !! Z.to_nat (device_id id) with
  | None => None
  | Some dev => dev !! Z.to_nat (device_segment_id id)
  end.

(** Assignment through the reference returned by [operator[]]. *)
Definition segment_map_set (m : segment_map_t) (id : segment_id_t) (x : T)
  : segment_map_t :=
  match device_to_segments m !! Z.to_nat (device_id id) with
  | None => m
  | Some dev =>
    mk_segment_map
      (<[Z.to_nat (device_id id) := <[Z.to_nat (device_segment_id id) := x]> dev]>
         (device_to_segments m))
      (total_segments m)
  end.

(** [begin() .. end()]: devices in increasing id, segments in increasing
    index, devices without segments skipped. *)
Definition segment_map_items (m : segment_map_t) : list (segment_id_t * T) :=
  concat (imap (fun d dev =>
                  imap (fun i x => (make_internal (Z.of_nat d) (Z.of_nat i), x)) dev)
               (device_to_segments m)).

Definition segment_map_size (m : segment_map_t) : Z := total_segments m.
End segment_map.

Arguments segment_map_t : clear implicits.

(** ** segment_info_t

    The struct is declared in async_cleaner.h, which is not among the
    sources; its fields are those that [set_open], [set_empty], [set_closed]
    and [init_closed] of async_cleaner.cc assign ([id], which only the
    printer reads, is left out). *)

Inductive segment_state_t := EMPTY | OPEN | CLOSED.

#[global] Instance segment_state_eq_dec : EqDecision segment_state_t.
Proof. solve_decision. Defined.

Record segment_info_t := mk_segment_info {
  state : segment_state_t;
  seq : Z;                      (* segment_seq_t, uint32 *)
  type : segment_type_t;
  category : data_category_t;
  generation : Z;               (* reclaim_gen_t, uint8 *)
  modify_time : sea_time_point;
  num_extents : Z;              (* std::size_t *)
  written_to : Z;               (* std::size_t *)
}.

Definition is_empty (i : segment_info_t) : bool := bool_decide (state i = EMPTY).
Definition is_open (i : segment_info_t) : bool := bool_decide (state i = OPEN).
Definition is_closed (i : segment_info_t) : bool := bool_decide (state i = CLOSED).

Definition is_journal (t : segment_type_t) : bool := bool_decide (t = JOURNAL).

(** The four assertions shared by [set_open] and [init_closed]. *)
Definition open_args_ok (_seq : Z) (_type : segment_type_t)
    (_category : data_category_t) (_generation : Z) : bool :=
  negb (_seq =? NULL_SEG_SEQ) && negb (bool_decide (_type = NULL_SEG)) &&
  negb (bool_decide (_category = NUM)) && (_generation <? RECLAIM_GENERATIONS).

Definition set_open (i : segment_info_t) (_seq : Z) (_type : segment_type_t)
    (_category : data_category_t) (_generation : Z) : option segment_info_t :=
  assert! open_args_ok _seq _type _category _generation ;!
  Some (mk_segment_info OPEN _seq _type _category _generation
          (modify_time i) (num_extents i) 0).

Definition set_empty (i : segment_info_t) : segment_info_t :=
  mk_segment_info EMPTY NULL_SEG_SEQ NULL_SEG NUM NULL_GENERATION NULL_TIME 0 0.

Definition set_closed (i : segment_info_t) : segment_info_t :=
  mk_segment_info CLOSED (seq i) (type i) (category i) (generation i)
    (modify_time i) (num_extents i) (written_to i).

Definition info_init_closed (i : segment_info_t) (_seq : Z) (_type : segment_type_t)
    (_category : data_category_t) (_generation : Z) (seg_size : Z)
  : option segment_info_t :=
  assert! open_args_ok _seq _type _category _generation ;!
  Some (mk_segment_info CLOSED _seq _type _category _generation
          (modify_time i) (num_extents i) seg_size).

(** The value [add_segment_manager] fills a new device with,
    [segment_info_t{}]: the fields [set_empty] assigns. *)
Definition segment_info_default : segment_info_t :=
  mk_segment_info EMPTY NULL_SEG_SEQ NULL_SEG NUM NULL_GENERATION NULL_TIME 0 0.

(** ** segments_info_t

    The members are those that [segments_info_t::reset] of async_cleaner.cc
    assigns. *)

Record segments_info_t := mk_segments_info {
  segments : segment_map_t segment_info_t;
  segment_size : Z;
  journal_segment_id : segment_id_t;
  num_in_journal_open : Z;
  num_type_journal : Z;
  num_type_ool : Z;
  num_open : Z;
  num_empty : Z;
  num_closed : Z;
  count_open_journal : Z;
  count_open_ool : Z;
  count_release_journal : Z;
  count_release_ool : Z;
  count_close_journal : Z;
  count_close_ool : Z;
  total_bytes : Z;
  avail_bytes_in_open : Z;
  modify_times : list sea_time_point;     (* std::multiset *)
}.

(** What a segment manager reports to [add_segment_manager]. *)
Record segment_manager_t := mk_segment_manager {
  sm_device_id : Z;
  sm_segment_size : Z;
  sm_num_segments : Z;
  sm_size : Z;
}.

(** [modify_times.erase(modify_times.find(t))]: one occurrence goes. *)
Fixpoint erase_one (t : sea_time_point) (l : list sea_time_point) : list sea_time_point :=
  match l with
  | [] => []
  | x :: l' => if x =? t then l' else x :: erase_one t l'
  end.

Definition reset : segments_info_t :=
  mk_segments_info segment_map_clear 0 NULL_SEG_ID 0 0 0 0 0 0 0 0 0 0 0 0 0 0 [].

Definition get_segment_size (s : segments_info_t) : Z := segment_size s.

Definition add_segment_manager (s : segments_info_t) (sm : segment_manager_t)
  : option segments_info_t :=
  let d_id := sm_device_id sm in
  let ssize := sm_segment_size sm in
  let nsegments := sm_num_segments sm in
  assert! (0 <? ssize) && (0 <? nsegments) && (0 <? sm_size sm) ;!
  match add_device (segments s) d_id nsegments segment_info_default with
  | None => None
  | Some segs =>
    assert! (segment_size s =? 0) || (segment_size s =? ssize) ;!
    Some (mk_segments_info segs ssize
            (journal_segment_id s) (num_in_journal_open s)
            (num_type_journal s) (num_type_ool s)
            (num_open s) (wrap64 (num_empty s + nsegments)) (num_closed s)
            (count_open_journal s) (count_open_ool s)
            (count_release_journal s) (count_release_ool s)
            (count_close_journal s) (count_close_ool s)
            (wrap64 (total_bytes s + sm_size sm)) (avail_bytes_in_open s)
            (modify_times s))
  end.

(** [mount]'s [segments.reset()] followed by one [add_segment_manager] per
    device. *)
Fixpoint add_segment_managers (s : segments_info_t) (sms : list segment_manager_t)
  : option segments_info_t :=
  match sms with
  | [] => Some s
  | sm :: sms' =>
    match add_segment_manager s sm with
    | None => None
    | Some s' => add_segment_managers s' sms'
    end
  end.

Definition get_num_segments (s : segments_info_t) : Z := segment_map_size (segments s).

(** Modelled from the spec: [get_available_bytes] is declared in
    async_cleaner.h, which is not among the sources; section 3 gives
    [available_bytes = empty * segment_size + avail_in_open], computed here in
    [std::size_t]. *)
Definition get_available_bytes (s : segments_info_t) : Z :=
  wrap64 (wrap64 (num_empty s * get_segment_size s) + avail_bytes_in_open s).

Section directory.
(** [get_submitted_journal_head() == JOURNAL_SEQ_NULL], from
    async_cleaner.h; [init_closed] only asserts it. *)
Variable submitted_journal_head_is_null : segments_info_t -> bool.

Definition init_closed (s : segments_info_t) (segment : segment_id_t)
    (_seq : Z) (_type : segment_type_t) (_category : data_category_t)
    (_generation : Z) : option segments_info_t :=
  match segment_map_get (segments s) segment with
  | None => None
  | Some segment_info =>
    assert! is_empty segment_info ;!
    assert! 0 <? num_empty s ;!
    assert! negb (is_journal _type) || submitted_journal_head_is_null s ;!
    assert! negb (modify_time segment_info =? NULL_TIME)
            || (num_extents segment_info =? 0) ;!
    match info_init_closed segment_info _seq _type _category _generation
            (get_segment_size s) with
    | None => None
    | Some segment_info' =>
      Some (mk_segments_info
              (segment_map_set (segments s) segment segment_info')
              (segment_size s)
              (journal_segment_id s) (num_in_journal_open s)
              (if is_journal _type then wrap64 (num_type_journal s + 1)
               else num_type_journal s)
              (if is_journal _type then num_type_ool s
               else wrap64 (num_type_ool s + 1))
              (num_open s) (num_empty s - 1) (wrap64 (num_closed s + 1))
              (count_open_journal s) (count_open_ool s)
              (count_release_journal s) (count_release_ool s)
              (count_close_journal s) (count_close_ool s)
              (total_bytes s) (avail_bytes_in_open s)
              (if modify_time segment_info =? NULL_TIME then modify_times s
               else modify_time segment_info :: modify_times s))
    end
  end.

(** The three assertions on the previously recorded journal segment. *)
Definition last_journal_segment_ok (s : segments_info_t) (_seq : Z) : bool :=
  match segment_map_get (segments s) (journal_segment_id s) with
  | None => false
  | Some last_journal_segment =>
    is_closed last_journal_segment &&
    is_journal (type last_journal_segment) &&
    (wrap32 (seq last_journal_segment + 1) =? _seq)
  end.

Definition mark_open (s : segments_info_t) (segment : segment_id_t)
    (_seq : Z) (_type : segment_type_t) (_category : data_category_t)
    (_generation : Z) : option segments_info_t :=
  match segment_map_get (segments s) segment with
  | None => None
  | Some segment_info =>
    assert! is_empty segment_info ;!
    assert! 0 <? num_empty s ;!
    assert! negb (is_journal _type)
            || (journal_segment_id s =? NULL_SEG_ID)
            || last_journal_segment_ok s _seq ;!
    match set_open segment_info _seq _type _category _generation with
    | None => None
    | Some segment_info' =>
      Some (mk_segments_info
              (segment_map_set (segments s) segment segment_info')
              (segment_size s)
              (if is_journal _type then segment else journal_segment_id s)
              (if is_journal _type then wrap64 (num_in_journal_open s + 1)
               else num_in_journal_open s)
              (if is_journal _type then wrap64 (num_type_journal s + 1)
               else num_type_journal s)
              (if is_journal _type then num_type_ool s
               else wrap64 (num_type_ool s + 1))
              (wrap64 (num_open s + 1)) (num_empty s - 1) (num_closed s)
              (if is_journal _type then wrap64 (count_open_journal s + 1)
               else count_open_journal s)
              (if is_journal _type then count_open_ool s
               else wrap64 (count_open_ool s + 1))
              (count_release_journal s) (count_release_ool s)
              (count_close_journal s) (count_close_ool s)
              (total_bytes s)
              (wrap64 (avail_bytes_in_open s + get_segment_size s))
              (modify_times s))
    end
  end.

Definition mark_empty (s : segments_info_t) (segment : segment_id_t)
  : option segments_info_t :=
  match segment_map_get (segments s) segment with
  | None => None
  | Some segment_info =>
    assert! is_closed segment_info ;!
    let _type := type segment_info in
    assert! negb (bool_decide (_type = NULL_SEG)) ;!
    assert! 0 <? num_closed s ;!
    assert! if is_journal _type then 0 <? num_type_journal s
            else 0 <? num_type_ool s ;!
    assert! if modify_time segment_info =? NULL_TIME
            then num_extents segment_info =? 0
            else bool_decide (modify_time segment_info ∈ modify_times s) ;!
    Some (mk_segments_info
            (segment_map_set (segments s) segment (set_empty segment_info))
            (segment_size s)
            (journal_segment_id s) (num_in_journal_open s)
            (if is_journal _type then num_type_journal s - 1
             else num_type_journal s)
            (if is_journal _type then num_type_ool s
             else num_type_ool s - 1)
            (num_open s) (wrap64 (num_empty s + 1)) (num_closed s - 1)
            (count_open_journal s) (count_open_ool s)
            (if is_journal _type then wrap64 (count_release_journal s + 1)
             else count_release_journal s)
            (if is_journal _type then count_release_ool s
             else wrap64 (count_release_ool s + 1))
            (count_close_journal s) (count_close_ool s)
            (total_bytes s) (avail_bytes_in_open s)
            (if modify_time segment_info =? NULL_TIME then modify_times s
             else erase_one (modify_time segment_info) (modify_times s)))
  end.

Definition mark_closed (s : segments_info_t) (segment : segment_id_t)
  : option segments_info_t :=
  match segment_map_get (segments s) segment with
  | None => None
  | Some segment_info =>
    assert! is_open segment_info ;!
    assert! 0 <? num_open s ;!
    assert! negb (is_journal (type segment_info))
            || (0 <? num_in_journal_open s) ;!
    assert! written_to segment_info <=? get_segment_size s ;!
    let seg_avail_bytes := get_segment_size s - written_to segment_info in
    assert! seg_avail_bytes <=? avail_bytes_in_open s ;!
    assert! negb (modify_time segment_info =? NULL_TIME)
            || (num_extents segment_info =? 0) ;!
    Some (mk_segments_info
            (segment_map_set (segments s) segment (set_closed segment_info))
            (segment_size s)
            (journal_segment_id s)
            (if is_journal (type segment_info) then num_in_journal_open s - 1
             else num_in_journal_open s)
            (num_type_journal s) (num_type_ool s)
            (num_open s - 1) (num_empty s) (wrap64 (num_closed s + 1))
            (count_open_journal s) (count_open_ool s)
            (count_release_journal s) (count_release_ool s)
            (if is_journal (type segment_info)
             then wrap64 (count_close_journal s + 1)
             else count_close_journal s)
            (if is_journal (type segment_info) then count_close_ool s
             else wrap64 (count_close_ool s + 1))
            (total_bytes s)
            (avail_bytes_in_open s - seg_avail_bytes)
            (if modify_time segment_info =? NULL_TIME then modify_times s
             else modify_time segment_info :: modify_times s))
  end.

(** [offset.as_seg_paddr()] carries the debug assertion that the address
    is segment-typed; [static_cast<std::size_t>] of a negative offset is
    its 64-bit wrap. *)
Definition update_written_to (s : segments_info_t) (_type : segment_type_t)
    (_offset : paddr_t) : option segments_info_t :=
  assert! bool_decide (get_addr_type _offset = SEGMENT) ;!
  let segment := get_segment_id _offset in
  match segment_map_get (segments s) segment with
  | None => None
  | Some segment_info =>
    assert! is_open segment_info ;!
    let new_written_to := wrap64 (get_segment_off _offset) in
    assert! new_written_to <=? get_segment_size s ;!
    assert! written_to segment_info <=? new_written_to ;!
    assert! bool_decide (_type = type segment_info) ;!
    let avail_deduction := new_written_to - written_to segment_info in
    assert! avail_deduction <=? avail_bytes_in_open s ;!
    Some (mk_segments_info
            (segment_map_set (segments s) segment
               (mk_segment_info (state segment_info) (seq segment_info)
                  (type segment_info) (category segment_info)
                  (generation segment_info) (modify_time segment_info)
                  (num_extents segment_info) new_written_to))
            (segment_size s)
            (journal_segment_id s) (num_in_journal_open s)
            (num_type_journal s) (num_type_ool s)
            (num_open s) (num_empty s) (num_closed s)
            (count_open_journal s) (count_open_ool s)
            (count_release_journal s) (count_release_ool s)
            (count_close_journal s) (count_close_ool s)
            (total_bytes s)
            (avail_bytes_in_open s - avail_deduction)
            (modify_times s))
  end.

(** The five SegmentDirectory operations as one step function. *)
Inductive directory_op :=
| OpInitClosed (segment : segment_id_t) (_seq : Z) (_type : segment_type_t)
               (_category : data_category_t) (_generation : Z)
| OpMarkOpen (segment : segment_id_t) (_seq : Z) (_type : segment_type_t)
             (_category : data_category_t) (_generation : Z)
| OpMarkClosed (segment : segment_id_t)
| OpMarkEmpty (segment : segment_id_t)
| OpUpdateWrittenTo (_type : segment_type_t) (_offset : paddr_t).

Definition run_op (s : segments_info_t) (op : directory_op)
  : option segments_info_t :=
  match op with
  | OpInitClosed segment q t c g => init_closed s segment q t c g
  | OpMarkOpen segment q t c g => mark_open s segment q t c g
  | OpMarkClosed segment => mark_closed s segment
  | OpMarkEmpty segment => mark_empty s segment
  | OpUpdateWrittenTo t o => update_written_to s t o
  end.

(** Arguments are values of their C++ types. *)
Definition op_well_typed (op : directory_op) : Prop :=
  match op with
  | OpInitClosed segment q _ _ g
  | OpMarkOpen segment q _ _ g =>
    0 <= segment < 2 ^ 32 /\ 0 <= q < 2 ^ 32 /\ 0 <= g < 2 ^ 8
  | OpMarkClosed segment | OpMarkEmpty segment => 0 <= segment < 2 ^ 32
  | OpUpdateWrittenTo _ o => 0 <= o < 2 ^ 64
  end.

(** A segment manager as [mount] can hand it over: a segment-typed
    device id, a segment count below the reserved index of
    [NULL_SEG_ID], a segment size that is a [seastore_off_t]. *)
Definition sm_well_typed (sm : segment_manager_t) : Prop :=
  0 <= sm_device_id sm <= DEVICE_ID_MAX_VALID_SEGMENT /\
  0 < sm_num_segments sm <= DEVICE_SEGMENT_ID_MAX /\
  0 < sm_segment_size sm <= MAX_SEG_OFF /\
  0 < sm_size sm < 2 ^ 64.

(** All that [update_modify_time] (declared in async_cleaner.h) can do to
    the directory between two operations: the [modify_time] and the
    [num_extents] of one segment take new values. *)
Definition with_modify_time (s : segments_info_t) (segment : segment_id_t)
    (tp : sea_time_point) (num : Z) : option segments_info_t :=
  match segment_map_get (segments s) segment with
  | None => None
  | Some segment_info =>
    Some (mk_segments_info
            (segment_map_set (segments s) segment
               (mk_segment_info (state segment_info) (seq segment_info)
                  (type segment_info) (category segment_info)
                  (generation segment_info) tp num (written_to segment_info)))
            (segment_size s)
            (journal_segment_id s) (num_in_journal_open s)
            (num_type_journal s) (num_type_ool s)
            (num_open s) (num_empty s) (num_closed s)
            (count_open_journal s) (count_open_ool s)
            (count_release_journal s) (count_release_ool s)
            (count_close_journal s) (count_close_ool s)
            (total_bytes s) (avail_bytes_in_open s) (modify_times s))
  end.

(** The states of the directory: [reset] and one [add_segment_manager] per
    device, then any sequence of the five operations, with modify times
    updated in between. *)
Inductive reachable : segments_info_t -> Prop :=
| reachable_init sms s :
    Forall sm_well_typed sms ->
    add_segment_managers reset sms = Some s ->
    reachable s
| reachable_step s op s' :
    reachable s -> op_well_typed op -> run_op s op = Some s' ->
    reachable s'
| reachable_modify_time s segment tp num s' :
    reachable s -> 0 <= segment < 2 ^ 32 ->
    with_modify_time s segment tp num = Some s' ->
    reachable s'.
End directory.

(** * SpaceTracker *)

(** ** SpaceTrackerDetailed::SegmentMap *)

Definition wrap_int64 (x : Z) : Z :=
  let u := wrap64 x in if u <? 2 ^ 63 then u else u - 2 ^ 64.

Arguments wrap_int64 : simpl never.

Record SegmentMap := mk_SegmentMap {
  used : Z;               (* int64_t *)
  bitmap : list bool;     (* std::vector<bool> *)
}.

(** Modelled from the spec: [SegmentMap::update_usage] and [get_usage] are
    defined in async_cleaner.h, which is not among the sources; section 4.2
    has the detailed variant keep a counter next to the bitmap, and
    [allocate]/[release] return the new usage. *)
Definition update_usage (m : SegmentMap) (delta : Z) : SegmentMap * Z :=
  let used' := wrap_int64 (used m + delta) in
  (mk_SegmentMap used' (bitmap m), used').

Definition SegmentMap_get_usage (m : SegmentMap) : Z := used m.

(** The loop [for (auto i = b; i < e; ++i)] of [allocate] ([v] true: a set
    bit is reported) and of [release] ([v] false: a clear bit is reported),
    [n] iterations from [i].  [error] is the local flag: it is raised with
    the ERROR line and guards nothing else.  Indexing the vector past its
    end is undefined in the C++ and aborts here. *)
Fixpoint set_blocks (v : bool) (i : nat) (n : nat) (bm : list bool) (error : bool)
  : option (list bool * bool) :=
  match n with
  | O => Some (bm, error)
  | S n' =>
    match bm !! i with
    | None => None
    | Some cur =>
      set_blocks v (S i) n' (<[i := v]> bm) (error || eqb cur v)
    end
  end.

(** Body shared by [allocate] and [release]: the two debug assertions on
    alignment, [b] and [e] in [uint32] arithmetic, the loop. *)
Definition mark_range (v : bool) (m : SegmentMap) (_offset len block_size : Z)
  : option (list bool * bool) :=
  assert! 0 <? block_size ;!
  let uoff := wrap32 _offset in
  assert! uoff mod block_size =? 0 ;!
  assert! len mod block_size =? 0 ;!
  let b := uoff / block_size in
  let e := wrap32 (uoff + len) / block_size in
  set_blocks v (Z.to_nat b) (Z.to_nat (e - b)) (bitmap m) false.

(** The result is the new map, the returned usage and whether the ERROR
    line was logged. *)
Definition SegmentMap_allocate (m : SegmentMap) (segment _offset len block_size : Z)
  : option (SegmentMap * Z * bool) :=
  match mark_range true m _offset len block_size with
  | None => None
  | Some (bm, error) =>
    let '(m', ret) := update_usage (mk_SegmentMap (used m) bm) len in
    Some (m', ret, error)
  end.

Definition SegmentMap_release (m : SegmentMap) (segment _offset len block_size : Z)
  : option (SegmentMap * Z * bool) :=
  match mark_range false m _offset len block_size with
  | None => None
  | Some (bm, error) =>
    let '(m', ret) := update_usage (mk_SegmentMap (used m) bm) (- len) in
    Some (m', ret, error)
  end.

(** ** The two trackers behind [SpaceTrackerI] *)

(** Modelled from the spec: [SpaceTrackerSimple], [SpaceTrackerDetailed] and
    their [allocate], [release] and [get_usage] are defined in
    async_cleaner.h, which is not among the sources.  Section 4.2: the coarse
    variant keeps one [live_bytes] per segment and adds or subtracts [len];
    the detailed variant keeps a [SegmentMap] per segment and passes the
    block size of the segment's device.  Section 7 makes a counter underflow
    fatal. *)
Inductive space_tracker_t :=
| SpaceTrackerSimple (live_bytes_by_segment : segment_map_t Z)
| SpaceTrackerDetailed (segment_usage : segment_map_t SegmentMap)
                       (block_size_by_segment_manager : list Z).

Definition simple_update_usage (live : segment_map_t Z) (segment : segment_id_t)
    (delta : Z) : option (segment_map_t Z * Z) :=
  match segment_map_get live segment with
  | None => None
  | Some live_bytes =>
    let live_bytes' := wrap_int64 (live_bytes + delta) in
    assert! 0 <=? live_bytes' ;!
    Some (segment_map_set live segment live_bytes', live_bytes')
  end.

Definition tracker_allocate (t : space_tracker_t) (segment : segment_id_t)
    (_offset len : Z) : option (space_tracker_t * Z * bool) :=
  match t with
  | SpaceTrackerSimple live =>
    match simple_update_usage live segment len with
    | None => None
    | Some (live', ret) => Some (SpaceTrackerSimple live', ret, false)
    end
  | SpaceTrackerDetailed usage block_sizes =>
    match segment_map_get usage segment,
          block_sizes !! Z.to_nat (device_id segment) with
    | Some m, Some block_size =>
      match SegmentMap_allocate m (device_segment_id segment) _offset len block_size with
      | None => None
      | Some (m', ret, error) =>
        Some (SpaceTrackerDetailed (segment_map_set usage segment m') block_sizes,
              ret, error)
      end
    | _, _ => None
    end
  end.

Definition tracker_release (t : space_tracker_t) (segment : segment_id_t)
    (_offset len : Z) : option (space_tracker_t * Z * bool) :=
  match t with
  | SpaceTrackerSimple live =>
    match simple_update_usage live segment (- len) with
    | None => None
    | Some (live', ret) => Some (SpaceTrackerSimple live', ret, false)
    end
  | SpaceTrackerDetailed usage block_sizes =>
    match segment_map_get usage segment,
          block_sizes !! Z.to_nat (device_id segment) with
    | Some m, Some block_size =>
      match SegmentMap_release m (device_segment_id segment) _offset len block_size with
      | None => None
      | Some (m', ret, error) =>
        Some (SpaceTrackerDetailed (segment_map_set usage segment m') block_sizes,
              ret, error)
      end
    | _, _ => None
    end
  end.

Definition get_usage (t : space_tracker_t) (segment : segment_id_t) : option Z :=
  match t with
  | SpaceTrackerSimple live => segment_map_get live segment
  | SpaceTrackerDetailed usage _ =>
    match segment_map_get usage segment with
    | None => None
    | Some m => Some (SegmentMap_get_usage m)
    end
  end.

(** * AsyncCleaner *)

(** ** Doubles *)

Definition DBL_MAX : float := 0x1.fffffffffffffp+1023%float.

(** The implicit conversion of an [int64] tick count to [double]: round to
    nearest, ties to even. *)
Definition double_of_int64 (z : Z) : float :=
  SF2Prim (binary_normalize prec emax z 0 false).

(** ** What a call into a collaborator resolves to: a value, an error of
    its errorator, or an abort *)

Inductive ct_error := enoent | enodata | input_output_error | other_error.

Inductive result (A : Type) :=
| Ok (a : A)
| Error (e : ct_error)
| Abort.

Arguments Ok {A} a.
Arguments Error {A} e.
Arguments Abort {A}.

(** ** The state of the cleaner *)

(** The counters of [stats] that the operations below touch; all are
    64-bit unsigned.  [segment_util] holds the bucket counts of the
    utilization histogram. *)
Record stats_t := mk_stats {
  used_bytes : Z;
  projected_used_bytes : Z;
  projected_count : Z;
  projected_used_bytes_sum : Z;
  io_count : Z;
  io_blocking_num : Z;
  io_blocked_count : Z;
  io_blocked_count_trim : Z;
  io_blocked_count_reclaim : Z;
  io_blocked_sum : Z;
  segment_util : list Z;
}.

(** [c_segments] is the member [segments] (the name is taken by the map
    inside [segments_info_t]); [blocked_io_wake] tells whether the optional
    promise holds a value; [gc_process_blocking] stands for the idle wait of
    the GC task. *)
Record cleaner_t := mk_cleaner {
  detailed : bool;
  c_segments : segments_info_t;
  space_tracker : space_tracker_t;
  stats : stats_t;
  init_complete : bool;
  disable_trim : bool;
  blocked_io_wake : bool;
  gc_process_blocking : bool;
  journal_head : journal_seq_t;
  journal_alloc_tail : journal_seq_t;
  journal_dirty_tail : journal_seq_t;
}.

Definition set_segments (c : cleaner_t) (s : segments_info_t) : cleaner_t :=
  mk_cleaner (detailed c) s (space_tracker c) (stats c) (init_complete c)
    (disable_trim c)
    (blocked_io_wake c) (gc_process_blocking c)
    (journal_head c) (journal_alloc_tail c) (journal_dirty_tail c).

Definition set_space_tracker (c : cleaner_t) (t : space_tracker_t) : cleaner_t :=
  mk_cleaner (detailed c) (c_segments c) t (stats c) (init_complete c)
    (disable_trim c)
    (blocked_io_wake c) (gc_process_blocking c)
    (journal_head c) (journal_alloc_tail c) (journal_dirty_tail c).

Definition set_stats (c : cleaner_t) (st : stats_t) : cleaner_t :=
  mk_cleaner (detailed c) (c_segments c) (space_tracker c) st (init_complete c)
    (disable_trim c)
    (blocked_io_wake c) (gc_process_blocking c)
    (journal_head c) (journal_alloc_tail c) (journal_dirty_tail c).

Definition set_blocked_io_wake (c : cleaner_t) (b : bool) : cleaner_t :=
  mk_cleaner (detailed c) (c_segments c) (space_tracker c) (stats c)
    (init_complete c) (disable_trim c) b (gc_process_blocking c)
    (journal_head c) (journal_alloc_tail c) (journal_dirty_tail c).

Definition set_used_bytes (st : stats_t) (v : Z) : stats_t :=
  mk_stats v (projected_used_bytes st) (projected_count st)
    (projected_used_bytes_sum st) (io_count st) (io_blocking_num st)
    (io_blocked_count st) (io_blocked_count_trim st) (io_blocked_count_reclaim st)
    (io_blocked_sum st) (segment_util st).

(** ** What async_cleaner.h declares

    The header is not among the sources.  The members of the cleaner that
    the functions of async_cleaner.cc call and that the header defines are
    the fields of this interface: every theorem below holds for any
    implementation of them. *)
Class async_cleaner_h := {
  should_block_on_trim : cleaner_t -> bool;
  should_block_on_reclaim : cleaner_t -> bool;
  should_block_on_gc : cleaner_t -> bool;
  calc_utilization : cleaner_t -> segment_id_t -> float;
  (* [None]: one of its assertions fails *)
  adjust_segment_util : stats_t -> float -> float -> option stats_t;
  maybe_wake_on_space_used : cleaner_t -> cleaner_t;
  maybe_wake_gc_blocked_io : cleaner_t -> cleaner_t;
  is_in_journal : segment_info_t -> journal_seq_t -> bool;
  get_journal_tail : cleaner_t -> journal_seq_t;
  submitted_journal_head_is_null : segments_info_t -> bool;
  update_modify_time :
    segments_info_t -> segment_id_t -> sea_time_point -> Z -> option segments_info_t;
  init_mark_segment_closed :
    cleaner_t -> segment_id_t -> Z -> segment_type_t -> data_category_t -> Z ->
    option cleaner_t;
  (* the tracker [mount] allocates: detailed or not, over the devices *)
  make_space_tracker : bool -> list segment_manager_t -> space_tracker_t;
  UTIL_BUCKETS : Z;
  (* [get_bucket_index(UTIL_STATE_EMPTY)] *)
  empty_bucket_index : Z;
  (* milliseconds to ticks of the clock, the [duration_cast] of
     [mod_to_timepoint] *)
  mod_to_timepoint : Z -> sea_time_point;
}.

(** Modelled from the spec: [get_time_bound] is defined in async_cleaner.h;
    section 4.1 has it return the minimum of the modify-time multiset.
    [NULL_TIME] stands for the empty multiset. *)
Definition get_time_bound (s : segments_info_t) : sea_time_point :=
  match modify_times s with
  | [] => NULL_TIME
  | t :: ts => foldr Z.min t ts
  end.

Inductive gc_formula_t := GREEDY | BENEFIT | COST_BENEFIT.

Definition gc_formula : gc_formula_t := COST_BENEFIT.

Section cleaner.
Context `{async_cleaner_h}.

(** ** calc_gc_benefit_cost *)

Definition calc_gc_benefit_cost_with (formula : gc_formula_t) (c : cleaner_t)
    (id : segment_id_t) (now_time bound_time : sea_time_point) : option float :=
  let util := calc_utilization c id in
  assert! (0 <=? util)%float && (util <? 1)%float ;!
  match formula with
  | GREEDY => Some (1 - util)%float
  | COST_BENEFIT =>
    if (util =? 0)%float then Some DBL_MAX
    else
      match segment_map_get (segments (c_segments c)) id with
      | None => None
      | Some info =>
        let age_segment := double_of_int64 (modify_time info) in
        let age_now := double_of_int64 now_time in
        if (age_segment <? age_now)%float
        then Some ((1 - util) * (age_now - age_segment) / (2 * util))%float
        else Some ((1 - util) / (2 * util))%float
      end
  | BENEFIT =>
    match segment_map_get (segments (c_segments c)) id with
    | None => None
    | Some info =>
      let modify_time := modify_time info in
      if negb (bound_time =? NULL_TIME) && negb (modify_time =? NULL_TIME)
         && (modify_time <? now_time)
      then
        assert! bound_time <=? modify_time ;!
        let age_bound := double_of_int64 bound_time in
        let age_now := double_of_int64 now_time in
        let age_segment := double_of_int64 modify_time in
        let age_factor := ((age_now - age_segment) / (age_now - age_bound))%float in
        Some ((1 - 2 * age_factor) * util * util + (2 * age_factor - 2) * util + 1)%float
      else
        let age_factor := 0.5%float in
        Some ((1 - 2 * age_factor) * util * util + (2 * age_factor - 2) * util + 1)%float
    end
  end.

Definition calc_gc_benefit_cost := calc_gc_benefit_cost_with gc_formula.

(** ** get_next_reclaim_segment *)

(** The loop over the segments: [id] and [max_benefit_cost] are its two
    locals. *)
Fixpoint reclaim_loop (c : cleaner_t) (now_time bound_time : sea_time_point)
    (items : list (segment_id_t * segment_info_t))
    (id : segment_id_t) (max_benefit_cost : float) : option (segment_id_t * float) :=
  match items with
  | [] => Some (id, max_benefit_cost)
  | (_id, segment_info) :: items' =>
    if is_closed segment_info
       && negb (is_in_journal segment_info (get_journal_tail c))
    then
      match calc_gc_benefit_cost c _id now_time bound_time with
      | None => None
      | Some benefit_cost =>
        if (max_benefit_cost <? benefit_cost)%float
        then reclaim_loop c now_time bound_time items' _id benefit_cost
        else reclaim_loop c now_time bound_time items' id max_benefit_cost
      end
    else reclaim_loop c now_time bound_time items' id max_benefit_cost
  end.

(** [clock_now] is what [seastar::lowres_system_clock::now()] returns;
    without a winner the function aborts. *)
Definition get_next_reclaim_segment (c : cleaner_t) (clock_now : sea_time_point)
  : option segment_id_t :=
  let now_time :=
    match gc_formula with GREEDY => NULL_TIME | _ => clock_now end in
  let bound_time :=
    match gc_formula with
    | BENEFIT => get_time_bound (c_segments c)
    | _ => NULL_TIME
    end in
  match reclaim_loop c now_time bound_time
          (segment_map_items (segments (c_segments c))) NULL_SEG_ID 0%float with
  | None => None
  | Some (id, _) => if id =? NULL_SEG_ID then None else Some id
  end.
End cleaner.

(** How an errorated operation of the cleaner ends: done, failed with an
    error of its errorator (the state as the failure left it), or aborted. *)
Inductive outcome :=
| Done (c : cleaner_t)
| Failed (e : ct_error) (c : cleaner_t)
| Aborted.

Section cleaner_operations.
Context `{async_cleaner_h}.

(** ** maybe_release_segment *)

(** [to_release] is [t.get_segment_to_release()], [released] what the
    device's [release_segment] resolves to. *)
Definition maybe_release_segment (c : cleaner_t) (to_release : segment_id_t)
    (released : result unit) : outcome :=
  if to_release =? NULL_SEG_ID then Done c
  else
    match released with
    | Error e => Failed e c
    | Abort => Aborted
    | Ok _ =>
      let old_usage := calc_utilization c to_release in
      if negb (old_usage =? 0)%float then Aborted
      else
        match mark_empty (c_segments c) to_release with
        | None => Aborted
        | Some s' =>
          let c1 := set_segments c s' in
          let new_usage := calc_utilization c1 to_release in
          match adjust_segment_util (stats c1) old_usage new_usage with
          | None => Aborted
          | Some st =>
            let c2 := set_stats c1 st in
            match get_usage (space_tracker c2) to_release with
            | Some usage =>
              if negb (usage =? 0) then Aborted
              else Done (maybe_wake_gc_blocked_io c2)
            | None => Aborted
            end
          end
        end
    end.

(** ** mark_space_used, mark_space_free *)

Definition mark_space_used (c : cleaner_t) (addr : paddr_t) (len : Z)
    (init_scan : bool) : option cleaner_t :=
  if negb (bool_decide (get_addr_type addr = SEGMENT)) then Some c
  else if negb init_scan && negb (init_complete c) then Some c
  else
    let segment := get_segment_id addr in
    let c1 := set_stats c (set_used_bytes (stats c)
                             (wrap64 (used_bytes (stats c) + len))) in
    let old_usage := calc_utilization c1 segment in
    match tracker_allocate (space_tracker c1) segment (get_segment_off addr) len with
    | None => None
    | Some (t', ret, _) =>
      let c2 := set_space_tracker c1 t' in
      let new_usage := calc_utilization c2 segment in
      match adjust_segment_util (stats c2) old_usage new_usage with
      | None => None
      | Some st =>
        let c3 := maybe_wake_on_space_used (set_stats c2 st) in
        assert! 0 <? ret ;!
        Some c3
      end
    end.

Definition mark_space_free (c : cleaner_t) (addr : paddr_t) (len : Z)
    (init_scan : bool) : option cleaner_t :=
  if negb (init_complete c) && negb init_scan then Some c
  else if negb (bool_decide (get_addr_type addr = SEGMENT)) then Some c
  else
    assert! len <=? used_bytes (stats c) ;!
    let segment := get_segment_id addr in
    let c1 := set_stats c (set_used_bytes (stats c) (used_bytes (stats c) - len)) in
    let old_usage := calc_utilization c1 segment in
    match tracker_release (space_tracker c1) segment (get_segment_off addr) len with
    | None => None
    | Some (t', ret, _) =>
      let c2 := set_space_tracker c1 t' in
      let new_usage := calc_utilization c2 segment in
      match adjust_segment_util (stats c2) old_usage new_usage with
      | None => None
      | Some st =>
        let c3 := maybe_wake_gc_blocked_io (set_stats c2 st) in
        assert! 0 <=? ret ;!
        Some c3
      end
    end.

(** ** reserve_projected_usage, release_projected_usage *)

(** Where the future returned by [reserve_projected_usage] stands: resolved,
    or suspended on the promise in [blocked_io_wake] ([is_blocked] is the
    local the continuation captured). *)
Inductive reserve_status :=
| ReserveResolved
| ReserveWaiting (is_blocked : bool).

Definition set_io_count (st : stats_t) (v : Z) : stats_t :=
  mk_stats (used_bytes st) (projected_used_bytes st) (projected_count st)
    (projected_used_bytes_sum st) v (io_blocking_num st)
    (io_blocked_count st) (io_blocked_count_trim st) (io_blocked_count_reclaim st)
    (io_blocked_sum st) (segment_util st).

Definition set_io_blocked_count_trim (st : stats_t) (v : Z) : stats_t :=
  mk_stats (used_bytes st) (projected_used_bytes st) (projected_count st)
    (projected_used_bytes_sum st) (io_count st) (io_blocking_num st)
    (io_blocked_count st) v (io_blocked_count_reclaim st)
    (io_blocked_sum st) (segment_util st).

Definition set_io_blocked_count_reclaim (st : stats_t) (v : Z) : stats_t :=
  mk_stats (used_bytes st) (projected_used_bytes st) (projected_count st)
    (projected_used_bytes_sum st) (io_count st) (io_blocking_num st)
    (io_blocked_count st) (io_blocked_count_trim st) v
    (io_blocked_sum st) (segment_util st).

(** [++io_blocking_num; ++io_blocked_count; io_blocked_sum += io_blocking_num] *)
Definition count_blocked (st : stats_t) : stats_t :=
  let blocking := wrap64 (io_blocking_num st + 1) in
  mk_stats (used_bytes st) (projected_used_bytes st) (projected_count st)
    (projected_used_bytes_sum st) (io_count st) blocking
    (wrap64 (io_blocked_count st + 1)) (io_blocked_count_trim st)
    (io_blocked_count_reclaim st)
    (wrap64 (io_blocked_sum st + blocking)) (segment_util st).

(** The counters bumped on entry, before the loop, and the local
    [is_blocked]. *)
Definition reserve_account (c : cleaner_t) : cleaner_t * bool :=
  let c1 := set_stats c (set_io_count (stats c) (wrap64 (io_count (stats c) + 1))) in
  let trim := should_block_on_trim c1 in
  let c2 :=
    if trim
    then set_stats c1 (set_io_blocked_count_trim (stats c1)
                         (wrap64 (io_blocked_count_trim (stats c1) + 1)))
    else c1 in
  let reclaim := should_block_on_reclaim c2 in
  let c3 :=
    if reclaim
    then set_stats c2 (set_io_blocked_count_reclaim (stats c2)
                         (wrap64 (io_blocked_count_reclaim (stats c2) + 1)))
    else c2 in
  let is_blocked := trim || reclaim in
  let c4 := if is_blocked then set_stats c3 (count_blocked (stats c3)) else c3 in
  (c4, is_blocked).

(** The continuation after [do_until]: the reservation is recorded. *)
Definition reserve_record (c : cleaner_t) (projected_usage : Z) (is_blocked : bool)
  : option cleaner_t :=
  assert! negb (blocked_io_wake c) ;!
  let st := stats c in
  let projected := wrap64 (projected_used_bytes st + projected_usage) in
  assert! negb is_blocked || (0 <? io_blocking_num st) ;!
  Some (set_stats c
          (mk_stats (used_bytes st) projected
             (wrap64 (projected_count st + 1))
             (wrap64 (projected_used_bytes_sum st + projected))
             (io_count st)
             (if is_blocked then io_blocking_num st - 1 else io_blocking_num st)
             (io_blocked_count st) (io_blocked_count_trim st)
             (io_blocked_count_reclaim st) (io_blocked_sum st) (segment_util st))).

(** One turn of [do_until]: the stop condition, then either the
    continuation or a fresh promise to wait on.  It runs on entry and again
    each time the promise is fulfilled. *)
Definition reserve_poll (c : cleaner_t) (projected_usage : Z) (is_blocked : bool)
  : option (cleaner_t * reserve_status) :=
  if negb (should_block_on_gc c)
  then
    match reserve_record c projected_usage is_blocked with
    | None => None
    | Some c' => Some (c', ReserveResolved)
    end
  else Some (set_blocked_io_wake c true, ReserveWaiting is_blocked).

Definition reserve_projected_usage (c : cleaner_t) (projected_usage : Z)
  : option (cleaner_t * reserve_status) :=
  if disable_trim c then Some (c, ReserveResolved)
  else
    assert! init_complete c ;!
    assert! negb (blocked_io_wake c) ;!
    let '(c1, is_blocked) := reserve_account c in
    reserve_poll c1 projected_usage is_blocked.

Definition release_projected_usage (c : cleaner_t) (projected_usage : Z)
  : option cleaner_t :=
  if disable_trim c then Some c
  else
    assert! init_complete c ;!
    assert! projected_usage <=? projected_used_bytes (stats c) ;!
    let st := stats c in
    Some (maybe_wake_gc_blocked_io
            (set_stats c
               (mk_stats (used_bytes st) (projected_used_bytes st - projected_usage)
                  (projected_count st) (projected_used_bytes_sum st) (io_count st)
                  (io_blocking_num st) (io_blocked_count st)
                  (io_blocked_count_trim st) (io_blocked_count_reclaim st)
                  (io_blocked_sum st) (segment_util st)))).
End cleaner_operations.

(** ** mount *)

(** The fields of the on-disk header and tail that [mount] reads. *)
Record segment_header_t := mk_segment_header {
  h_segment_seq : Z;
  h_segment_nonce : Z;
  h_type : segment_type_t;
  h_category : data_category_t;
  h_generation : Z;
}.

Record segment_tail_t := mk_segment_tail {
  t_segment_nonce : Z;
  t_modify_time : Z;            (* mod_time_point_t *)
  t_num_extents : Z;
}.

Record record_header_t := mk_record_header {
  rh_extents : Z;
  rh_modify_time : Z;           (* mod_time_point_t *)
}.

(** The segment manager group as [mount] uses it.  [scan_valid_records]
    hands the handler one record group after the other, here each as what
    [try_decode_record_headers] makes of it, and ends with its own error or
    none. *)
Record segment_manager_group_t := mk_segment_manager_group {
  get_segment_managers : list segment_manager_t;
  read_segment_header : segment_id_t -> result segment_header_t;
  read_segment_tail : segment_id_t -> result segment_tail_t;
  scan_valid_records :
    segment_id_t -> Z -> Z -> list (option (list record_header_t)) * option ct_error;
}.

Section mount_recovery.
Context `{async_cleaner_h}.
Variable sm_group : segment_manager_group_t.

(** The loop over the record headers of one group, in the handler. *)
Fixpoint scan_record_headers (c : cleaner_t) (segment_id : segment_id_t)
    (headers : list record_header_t) : outcome :=
  match headers with
  | [] => Done c
  | record_header :: headers' =>
    let modify_time := mod_to_timepoint (rh_modify_time record_header) in
    if (rh_extents record_header =? 0) || negb (modify_time =? NULL_TIME)
    then
      match update_modify_time (c_segments c) segment_id modify_time
              (rh_extents record_header) with
      | None => Aborted
      | Some s' => scan_record_headers (set_segments c s') segment_id headers'
      end
    else Failed input_output_error c
  end.

(** The handler over the record groups the scan finds. *)
Fixpoint scan_record_groups (c : cleaner_t) (segment_id : segment_id_t)
    (groups : list (option (list record_header_t))) : outcome :=
  match groups with
  | [] => Done c
  | None :: _ => Failed input_output_error c
  | Some headers :: groups' =>
    match scan_record_headers c segment_id headers with
    | Done c' => scan_record_groups c' segment_id groups'
    | o => o
    end
  end.

Definition mark_closed_from_header (c : cleaner_t) (segment_id : segment_id_t)
    (header : segment_header_t) : outcome :=
  match init_mark_segment_closed c segment_id (h_segment_seq header)
          (h_type header) (h_category header) (h_generation header) with
  | None => Aborted
  | Some c' => Done c'
  end.

Definition scan_no_tail_segment (c : cleaner_t) (segment_header : segment_header_t)
    (segment_id : segment_id_t) : outcome :=
  let '(groups, scan_error) :=
    scan_valid_records sm_group segment_id (h_segment_nonce segment_header)
      (get_segment_size (c_segments c)) in
  match scan_record_groups c segment_id groups with
  | Done c' =>
    match scan_error with
    | Some e => Failed e c'
    | None => mark_closed_from_header c' segment_id segment_header
    end
  | o => o
  end.

(** The continuation of [read_segment_tail]. *)
Definition mount_with_tail (c : cleaner_t) (segment_id : segment_id_t)
    (header : segment_header_t) (tail : segment_tail_t) : outcome :=
  if negb (t_segment_nonce tail =? h_segment_nonce header)
  then scan_no_tail_segment c header segment_id
  else
    let modify_time := mod_to_timepoint (t_modify_time tail) in
    let num_extents := t_num_extents tail in
    if ((modify_time =? NULL_TIME) && (num_extents =? 0))
       || (negb (modify_time =? NULL_TIME) && negb (num_extents =? 0))
    then
      match update_modify_time (c_segments c) segment_id modify_time num_extents with
      | None => Aborted
      | Some s' => mark_closed_from_header (set_segments c s') segment_id header
      end
    else Failed input_output_error c.

(** The inner [handle_error], on [read_segment_tail] and its continuation:
    ENODATA leads to the scan, every other error passes further. *)
Definition tail_handle_error (header : segment_header_t)
    (segment_id : segment_id_t) (o : outcome) : outcome :=
  match o with
  | Failed enodata c => scan_no_tail_segment c header segment_id
  | o => o
  end.

(** The continuation of [read_segment_header]. *)
Definition mount_with_header (c : cleaner_t) (segment_id : segment_id_t)
    (header : segment_header_t) : outcome :=
  if bool_decide (h_type header = NULL_SEG) then Aborted
  else
    tail_handle_error header segment_id
      match read_segment_tail sm_group segment_id with
      | Ok tail => mount_with_tail c segment_id header tail
      | Error e => Failed e c
      | Abort => Aborted
      end.

(** The outer [handle_error]: ENOENT and ENODATA resolve to
    [mount_ertr::now()], an I/O error passes further, anything else trips
    [assert_all]. *)
Definition mount_handle_error (o : outcome) : outcome :=
  match o with
  | Failed enoent c => Done c
  | Failed enodata c => Done c
  | Failed input_output_error c => Failed input_output_error c
  | Failed other_error _ => Aborted
  | o => o
  end.

(** The body of [do_for_each] for one segment. *)
Definition mount_segment (c : cleaner_t) (segment_id : segment_id_t) : outcome :=
  mount_handle_error
    match read_segment_header sm_group segment_id with
    | Ok header => mount_with_header c segment_id header
    | Error e => Failed e c
    | Abort => Aborted
    end.

Fixpoint mount_segments (c : cleaner_t) (ids : list segment_id_t) : outcome :=
  match ids with
  | [] => Done c
  | segment_id :: ids' =>
    match mount_segment c segment_id with
    | Done c' => mount_segments c' ids'
    | o => o
    end
  end.

(** [register_metrics]: every bucket at 0, then all segments in the bucket
    of the empty state. *)
Definition register_metrics (num_segments : Z) : list Z :=
  <[Z.to_nat empty_bucket_index := num_segments]>
    (replicate (Z.to_nat UTIL_BUCKETS) 0).

Definition mount (c : cleaner_t) : outcome :=
  let sms := get_segment_managers sm_group in
  match add_segment_managers reset sms with
  | None => Aborted
  | Some s =>
    let c0 :=
      mk_cleaner (detailed c) s (make_space_tracker (detailed c) sms)
        (mk_stats 0 0 0 0 0 0 0 0 0 0 (register_metrics (get_num_segments s)))
        false (disable_trim c) (blocked_io_wake c) (gc_process_blocking c)
        JOURNAL_SEQ_NULL JOURNAL_SEQ_NULL JOURNAL_SEQ_NULL in
    mount_segments c0 (map fst (segment_map_items (segments s)))
  end.
End mount_recovery.

(** * More of seastore_types.h *)

(** ** Reserved device ids and the masks of [paddr_t] *)

Definition DEVICE_ID_RECORD_RELATIVE : Z := DEVICE_ID_MAX - 1.
Definition DEVICE_ID_BLOCK_RELATIVE : Z := DEVICE_ID_MAX - 2.
Definition DEVICE_ID_DELAYED : Z := DEVICE_ID_MAX - 3.
Definition DEVICE_ID_FAKE : Z := DEVICE_ID_MAX - 4.
Definition DEVICE_ID_ZERO : Z := DEVICE_ID_MAX - 5.
Definition DEVICE_ID_ROOT : Z := DEVICE_ID_MAX - 6.

Definition has_seastore_off (id : Z) : bool :=
  (id =? DEVICE_ID_RECORD_RELATIVE) || (id =? DEVICE_ID_BLOCK_RELATIVE) ||
  (id =? DEVICE_ID_DELAYED) || (id =? DEVICE_ID_FAKE) || (id =? DEVICE_ID_ROOT).

Definition BLOCK_OFF_MAX : Z := Z.shiftr (2 ^ 64 - 1) DEVICE_ID_BITS.
Definition DEVICE_ID_MASK : Z :=
  Z.shiftl (Z.shiftl 1 DEVICE_ID_BITS - 1) BLOCK_OFF_BITS.
Definition BLOCK_OFF_MASK : Z := BLOCK_OFF_MAX.
Definition SEGMENT_ID_MASK : Z :=
  Z.shiftl (Z.shiftl 1 SEGMENT_ID_BITS - 1) SEGMENT_OFF_BITS.
Definition SEASTORE_OFF_MASK : Z := SEGMENT_OFF_MASK.

Definition MIN_SEG_ID : segment_id_t := make_internal 0 0.

(** ** The constructors with their debug assertions *)

(** [segment_id_t(internal_segment_id_t)] *)
Definition segment_id_of_internal (_segment : Z) : option segment_id_t :=
  assert! bool_decide (device_id_to_paddr_type (device_id _segment) = SEGMENT) ;!
  Some _segment.

(** [segment_id_t(device_id_t, device_segment_id_t)] *)
Definition segment_id_of (id _segment : Z) : option segment_id_t :=
  segment_id_of_internal (make_internal id _segment).

Definition get_block_off (addr : paddr_t) : Z := Z.land addr BLOCK_OFF_MASK.

Definition get_seastore_off (addr : paddr_t) : Z :=
  to_int32 (Z.land addr SEASTORE_OFF_MASK).

(** [paddr_t(internal_paddr_t val)]: the checks under [#ifndef NDEBUG]. *)
Definition paddr_of_internal (val : Z) : option paddr_t :=
  match device_id_to_paddr_type (get_device_id val) with
  | SEGMENT => assert! 0 <=? get_segment_off val ;! Some val
  | RANDOM_BLOCK => Some val
  | RESERVED =>
    assert! has_seastore_off (get_device_id val)
            || (Z.land val SEASTORE_OFF_MASK =? 0) ;!
    Some val
  end.

(** [paddr_t::make_seg_paddr(segment_id_t, seastore_off_t)] through the
    private constructor and [paddr_t(internal_paddr_t)]; [make_seg_paddr]
    above is the bit pattern it builds. *)
Definition paddr_seg (seg : segment_id_t) (_offset : Z) : option paddr_t :=
  paddr_of_internal (make_seg_paddr seg _offset).

(** [paddr_t::make_blk_paddr]: [offset] is a [block_off_t] (uint64). *)
Definition make_blk_paddr (device _offset : Z) : option paddr_t :=
  match paddr_of_internal
          (Z.lor (Z.shiftl device BLOCK_OFF_BITS) (Z.land _offset BLOCK_OFF_MASK)) with
  | None => None
  | Some p =>
    assert! bool_decide (get_addr_type p = RANDOM_BLOCK) ;!
    assert! _offset <=? BLOCK_OFF_MAX ;!
    Some p
  end.

(** [paddr_t::make_res_paddr]: [offset] is a [seastore_off_t] (int32), cast
    to [u_seastore_off_t]. *)
Definition make_res_paddr (device _offset : Z) : option paddr_t :=
  match paddr_of_internal
          (Z.lor (Z.shiftl device BLOCK_OFF_BITS) (wrap32 _offset)) with
  | None => None
  | Some p =>
    assert! bool_decide (get_addr_type p = RESERVED) ;!
    Some p
  end.

Definition make_record_relative_paddr (off : Z) : option paddr_t :=
  make_res_paddr DEVICE_ID_RECORD_RELATIVE off.
Definition make_block_relative_paddr (off : Z) : option paddr_t :=
  make_res_paddr DEVICE_ID_BLOCK_RELATIVE off.

Definition P_ADDR_MIN : paddr_t := 0.
Definition P_ADDR_ZERO : paddr_t := Z.shiftl DEVICE_ID_ZERO BLOCK_OFF_BITS.
Definition P_ADDR_ROOT : paddr_t := Z.shiftl DEVICE_ID_ROOT BLOCK_OFF_BITS.

(** ** Predicates of [paddr_t] *)

Definition is_delayed (addr : paddr_t) : bool :=
  get_device_id addr =? DEVICE_ID_DELAYED.
Definition is_block_relative (addr : paddr_t) : bool :=
  get_device_id addr =? DEVICE_ID_BLOCK_RELATIVE.
Definition is_record_relative (addr : paddr_t) : bool :=
  get_device_id addr =? DEVICE_ID_RECORD_RELATIVE.
Definition is_relative (addr : paddr_t) : bool :=
  is_block_relative addr || is_record_relative addr.
Definition is_null (addr : paddr_t) : bool := get_device_id addr =? DEVICE_ID_NULL.
Definition is_zero (addr : paddr_t) : bool := get_device_id addr =? DEVICE_ID_ZERO.
Definition is_root (addr : paddr_t) : bool := get_device_id addr =? DEVICE_ID_ROOT.
Definition is_real (addr : paddr_t) : bool :=
  negb (is_zero addr) && negb (is_null addr) && negb (is_root addr).
Definition is_absolute (addr : paddr_t) : bool :=
  negb (bool_decide (device_id_to_paddr_type (get_device_id addr) = RESERVED)).

(** ** Offsets

    [o] is a [seastore_off_t].  The sum or difference of two [int32] is
    computed in [int]: where it leaves the range of [int] the C++ is
    undefined, and the definitions below take the wrapped value, which the
    assertion after the sum refuses.  The theorems about these functions
    keep to sums inside the range. *)

(** [seg_paddr_t::set_segment_off] *)
Definition set_segment_off (addr : paddr_t) (off : Z) : option paddr_t :=
  assert! 0 <=? off ;!
  Some (Z.lor (Z.land addr SEGMENT_ID_MASK) (wrap32 off)).

(** [seg_paddr_t::add_offset] *)
Definition seg_add_offset (addr : paddr_t) (o : Z) : option paddr_t :=
  let off := to_int32 (get_segment_off addr + o) in
  assert! if 0 <=? o then get_segment_off addr <=? off
          else off <? get_segment_off addr ;!
  match segment_id_of_internal (get_segment_id addr) with
  | None => None
  | Some seg => paddr_seg seg off
  end.

(** [blk_paddr_t::add_offset]: the sum is a [block_off_t], [o] converted to
    uint64. *)
Definition blk_add_offset (addr : paddr_t) (o : Z) : option paddr_t :=
  let off := wrap64 (get_block_off addr + o) in
  assert! if 0 <=? o then get_block_off addr <=? off
          else off <? get_block_off addr ;!
  make_blk_paddr (get_device_id addr) off.

(** [res_paddr_t::add_offset] *)
Definition res_add_offset (addr : paddr_t) (o : Z) : option paddr_t :=
  assert! has_seastore_off (get_device_id addr) ;!
  let off := to_int32 (get_seastore_off addr + o) in
  assert! if 0 <=? o then get_seastore_off addr <=? off
          else off <? get_seastore_off addr ;!
  make_res_paddr (get_device_id addr) off.

(** [paddr_t::add_offset]: [PADDR_OPERATION] by address type. *)
Definition paddr_add_offset (addr : paddr_t) (o : Z) : option paddr_t :=
  match get_addr_type addr with
  | SEGMENT => seg_add_offset addr o
  | RANDOM_BLOCK => blk_add_offset addr o
  | RESERVED => res_add_offset addr o
  end.

(** [paddr_t::add_relative]; [o.as_res_paddr()] asserts the type. *)
Definition add_relative (addr o : paddr_t) : option paddr_t :=
  assert! is_relative o ;!
  assert! bool_decide (get_addr_type o = RESERVED) ;!
  paddr_add_offset addr (get_seastore_off o).

Definition add_block_relative (addr o : paddr_t) : option paddr_t :=
  assert! is_block_relative o ;!
  add_relative addr o.

Definition add_record_relative (addr o : paddr_t) : option paddr_t :=
  assert! is_record_relative o ;!
  add_relative addr o.

(** [paddr_t::maybe_relative_to] *)
Definition maybe_relative_to (addr base : paddr_t) : option paddr_t :=
  assert! negb (is_block_relative base) ;!
  if is_block_relative addr then add_block_relative base addr
  else Some addr.

(** [paddr_t::block_relative_to], through [res_paddr_t::block_relative_to]. *)
Definition block_relative_to (addr rhs : paddr_t) : option paddr_t :=
  assert! bool_decide (get_addr_type addr = RESERVED) ;!
  assert! bool_decide (get_addr_type rhs = RESERVED) ;!
  assert! is_record_relative rhs && is_record_relative addr ;!
  let off := to_int32 (get_seastore_off addr - get_seastore_off rhs) in
  assert! if 0 <=? get_seastore_off rhs then off <=? get_seastore_off addr
          else get_seastore_off addr <? off ;!
  make_res_paddr DEVICE_ID_BLOCK_RELATIVE off.

(** ** journal_seq_t *)

Definition JOURNAL_SEQ_MIN : journal_seq_t := mk_journal_seq 0 P_ADDR_MIN.

Definition journal_seq_add_offset (s : journal_seq_t) (o : Z) : option journal_seq_t :=
  match paddr_add_offset (offset s) o with
  | None => None
  | Some p => Some (mk_journal_seq (segment_seq s) p)
  end.

(** The lambda [to_pair] of [journal_seq_t::cmp]: an [int64_t] and a
    [segment_id_t].  The type of the address is one of the three, so the
    last branch of the source is dead. *)
Definition to_pair (addr : paddr_t) : Z * segment_id_t :=
  match get_addr_type addr with
  | SEGMENT => (get_segment_off addr, get_segment_id addr)
  | RANDOM_BLOCK => (get_block_off addr, MAX_SEG_ID)
  | RESERVED => (get_seastore_off addr, MAX_SEG_ID)
  end.

(** [operator<] of [std::pair]. *)
Definition pair_lt (a b : Z * segment_id_t) : bool :=
  (a.1 <? b.1) || (negb (b.1 <? a.1) && (a.2 <? b.2)).

Definition journal_seq_cmp (a other : journal_seq_t) : Z :=
  if segment_seq other <? segment_seq a then 1
  else if segment_seq a <? segment_seq other then -1
  else
    let left := to_pair (offset a) in
    let right := to_pair (offset other) in
    if pair_lt right left then 1
    else if pair_lt left right then -1
    else 0.

Definition journal_seq_eq (a o : journal_seq_t) : bool := journal_seq_cmp a o =? 0.
Definition journal_seq_ne (a o : journal_seq_t) : bool := negb (journal_seq_cmp a o =? 0).
Definition journal_seq_lt (a o : journal_seq_t) : bool := journal_seq_cmp a o <? 0.
Definition journal_seq_le (a o : journal_seq_t) : bool := journal_seq_cmp a o <=? 0.
Definition journal_seq_gt (a o : journal_seq_t) : bool := 0 <? journal_seq_cmp a o.
Definition journal_seq_ge (a o : journal_seq_t) : bool := 0 <=? journal_seq_cmp a o.

(** ** segment_map_t::contains *)

Definition segment_map_contains {T} (m : segment_map_t T) (id : segment_id_t) : bool :=
  match device_to_segments m !! Z.to_nat (device_id id) with
  | None => false
  | Some dev => device_segment_id id <? Z.of_nat (length dev)
  end.

(** ** segment_map_t: the ids of an iteration

    At each entry it stops at, [find_valid] builds the [segment_id_t] of
    the entry, whose constructor asserts a device of type SEGMENT: an
    iteration runs through when only such devices hold segments. *)
Definition iterator_ids_valid {T} (m : segment_map_t T) : bool :=
  forallb (fun p : segment_id_t * T =>
             bool_decide (device_id_to_paddr_type (device_id p.1) = SEGMENT))
          (segment_map_items m).

(** ** Extent types *)

Inductive extent_types_t :=
| ROOT | LADDR_INTERNAL | LADDR_LEAF | OMAP_INNER | OMAP_LEAF
| ONODE_BLOCK_STAGED | COLL_BLOCK | OBJECT_DATA_BLOCK | RETIRED_PLACEHOLDER
| ALLOC_INFO | JOURNAL_TAIL | TEST_BLOCK | TEST_BLOCK_PHYSICAL
| BACKREF_INTERNAL | BACKREF_LEAF | NONE.

Definition is_logical_type (t : extent_types_t) : bool :=
  match t with
  | ROOT | LADDR_INTERNAL | LADDR_LEAF | BACKREF_INTERNAL | BACKREF_LEAF => false
  | _ => true
  end.

Definition is_retired_placeholder (t : extent_types_t) : bool :=
  match t with RETIRED_PLACEHOLDER => true | _ => false end.

Definition is_lba_node (t : extent_types_t) : bool :=
  match t with LADDR_INTERNAL | LADDR_LEAF => true | _ => false end.

Definition is_backref_node (t : extent_types_t) : bool :=
  match t with BACKREF_INTERNAL | BACKREF_LEAF => true | _ => false end.

Definition get_extent_category (t : extent_types_t) : data_category_t :=
  match t with
  | OBJECT_DATA_BLOCK | COLL_BLOCK => DATA
  | _ => METADATA
  end.

(** ** get_average_time

    [c1] and [c2] are tick counts (the clock's [rep], int64), [n1] and [n2]
    are [std::size_t]: the divisions and the sum are computed in uint64. *)
Definition get_average_time (t1 n1 t2 n2 : Z) : option sea_time_point :=
  assert! negb (t1 =? NULL_TIME) ;!
  assert! negb (t2 =? NULL_TIME) ;!
  let new_size := wrap64 (n1 + n2) in
  assert! 0 <? new_size ;!
  let c1 := wrap64 t1 in
  let c2 := wrap64 t2 in
  let c_ret := wrap64 (wrap64 (c1 / new_size * n1) + wrap64 (c2 / new_size * n2)) in
  Some (wrap_int64 c_ret).

(** ** phy_tree_root_t *)

Record phy_tree_root_t := mk_phy_tree_root {
  root_addr : paddr_t;      (* paddr_le_t *)
  depth : Z;                (* depth_le_t *)
}.

(** [paddr_le_t::operator paddr_t()] builds the address with
    [paddr_t(internal_paddr_t)]. *)
Definition adjust_addrs_from_base (r : phy_tree_root_t) (base : paddr_t)
  : option phy_tree_root_t :=
  match paddr_of_internal (root_addr r) with
  | None => None
  | Some _root_addr =>
    if is_relative _root_addr
    then
      match add_record_relative base _root_addr with
      | None => None
      | Some a => Some (mk_phy_tree_root a (depth r))
      end
    else Some r
  end.

(** ** scan_valid_records_cursor *)

Record scan_valid_records_cursor (G : Type) := mk_scan_cursor {
  last_valid_header_found : bool;
  cursor_seq : journal_seq_t;
  last_committed : journal_seq_t;
  num_consumed_records : Z;
  pending_record_groups : list G;
}.

Arguments mk_scan_cursor {G}.
Arguments last_valid_header_found {G}.
Arguments cursor_seq {G}.
Arguments last_committed {G}.
Arguments num_consumed_records {G}.
Arguments pending_record_groups {G}.

Definition cursor_is_complete {G} (c : scan_valid_records_cursor G) : bool :=
  last_valid_header_found c && bool_decide (length (pending_record_groups c) = 0%nat).

(** [increment_seq]: [as_seg_paddr()] asserts the type of the address. *)
Definition increment_seq {G} (c : scan_valid_records_cursor G) (off : Z)
  : option (scan_valid_records_cursor G) :=
  let addr := offset (cursor_seq c) in
  assert! bool_decide (get_addr_type addr = SEGMENT) ;!
  match set_segment_off addr (to_int32 (get_segment_off addr + off)) with
  | None => None
  | Some addr' =>
    Some (mk_scan_cursor (last_valid_header_found c)
            (mk_journal_seq (segment_seq (cursor_seq c)) addr')
            (last_committed c) (num_consumed_records c) (pending_record_groups c))
  end.

Definition pop_record_group {G} (c : scan_valid_records_cursor G)
  : option (scan_valid_records_cursor G) :=
  match pending_record_groups c with
  | [] => None
  | _ :: rest =>
    Some (mk_scan_cursor (last_valid_header_found c) (cursor_seq c)
            (last_committed c) (wrap64 (num_consumed_records c + 1)) rest)
  end.

Arguments has_seastore_off : simpl never.
Arguments get_block_off : simpl never.
Arguments get_seastore_off : simpl never.
Arguments paddr_of_internal : simpl never.
Arguments to_pair : simpl never.

(** * More of the cleaner *)

Definition set_journal_dirty_tail (c : cleaner_t) (t : journal_seq_t) : cleaner_t :=
  mk_cleaner (detailed c) (c_segments c) (space_tracker c) (stats c)
    (init_complete c) (disable_trim c) (blocked_io_wake c) (gc_process_blocking c)
    (journal_head c) (journal_alloc_tail c) t.

Definition set_journal_alloc_tail (c : cleaner_t) (t : journal_seq_t) : cleaner_t :=
  mk_cleaner (detailed c) (c_segments c) (space_tracker c) (stats c)
    (init_complete c) (disable_trim c) (blocked_io_wake c) (gc_process_blocking c)
    (journal_head c) t (journal_dirty_tail c).

Definition set_init_complete (c : cleaner_t) (b : bool) : cleaner_t :=
  mk_cleaner (detailed c) (c_segments c) (space_tracker c) (stats c)
    b (disable_trim c) (blocked_io_wake c) (gc_process_blocking c)
    (journal_head c) (journal_alloc_tail c) (journal_dirty_tail c).

Section cleaner_journal.
Context `{async_cleaner_h}.

(** ** allocate_segment *)

(** The loop over the segments: the id of the first EMPTY one. *)
Fixpoint first_empty (items : list (segment_id_t * segment_info_t))
  : option segment_id_t :=
  match items with
  | [] => None
  | (seg_id, segment_info) :: items' =>
    if is_empty segment_info then Some seg_id else first_empty items'
  end.

(** Without an EMPTY segment the function aborts ("out of space"). *)
Definition allocate_segment (c : cleaner_t) (_seq : Z) (_type : segment_type_t)
    (_category : data_category_t) (_generation : Z)
  : option (cleaner_t * segment_id_t) :=
  assert! negb (_seq =? NULL_SEG_SEQ) ;!
  match first_empty (segment_map_items (segments (c_segments c))) with
  | None => None
  | Some seg_id =>
    let old_usage := calc_utilization c seg_id in
    match mark_open (c_segments c) seg_id _seq _type _category _generation with
    | None => None
    | Some s' =>
      let c1 := maybe_wake_on_space_used (set_segments c s') in
      let new_usage := calc_utilization c1 seg_id in
      match adjust_segment_util (stats c1) old_usage new_usage with
      | None => None
      | Some st => Some (set_stats c1 st, seg_id)
      end
    end
  end.

(** ** update_journal_tails *)

(** One of the two blocks of [update_journal_tails]: [current] is the
    member the block assigns, [store] the assignment.  The second block has
    the two assertions in the other order; either one aborts. *)
Definition update_tail (c : cleaner_t) (current : journal_seq_t)
    (store : cleaner_t -> journal_seq_t -> cleaner_t) (tail : journal_seq_t)
  : option cleaner_t :=
  if journal_seq_ne tail JOURNAL_SEQ_NULL
  then
    assert! negb (bool_decide (get_addr_type (offset tail) = RANDOM_BLOCK)) ;!
    assert! journal_seq_eq (journal_head c) JOURNAL_SEQ_NULL
            || journal_seq_ge (journal_head c) tail ;!
    if journal_seq_ne current JOURNAL_SEQ_NULL && journal_seq_gt current tail
    then None
    else Some (store c tail)
  else Some c.

Definition update_journal_tails (c : cleaner_t) (dirty_tail alloc_tail : journal_seq_t)
  : option cleaner_t :=
  if disable_trim c then Some c
  else
    match update_tail c (journal_dirty_tail c) set_journal_dirty_tail dirty_tail with
    | None => None
    | Some c1 =>
      match update_tail c1 (journal_alloc_tail c1) set_journal_alloc_tail alloc_tail with
      | None => None
      | Some c2 => Some (maybe_wake_gc_blocked_io (maybe_wake_on_space_used c2))
      end
    end.

(** ** complete_init

    [gc_process_start] is [gc_process.start()], of async_cleaner.h. *)
Definition complete_init (gc_process_start : cleaner_t -> cleaner_t) (c : cleaner_t)
  : option cleaner_t :=
  if disable_trim c then Some (set_init_complete c true)
  else
    let c1 := set_init_complete c true in
    assert! journal_seq_ne (journal_head c1) JOURNAL_SEQ_NULL ;!
    assert! journal_seq_ne (journal_alloc_tail c1) JOURNAL_SEQ_NULL ;!
    assert! journal_seq_ne (journal_dirty_tail c1) JOURNAL_SEQ_NULL ;!
    Some (gc_process_start c1).
End cleaner_journal.

(** ** SpaceTrackerSimple::equals, SpaceTrackerDetailed::equals *)

(** The loop over the two maps in step: [j] is dereferenced at each turn,
    and past the end of the other map [operator->] asserts. *)
Fixpoint equals_loop {A} (usage : A -> Z) (xs ys : list (segment_id_t * A))
    (all_match : bool) : option bool :=
  match xs with
  | [] => Some all_match
  | (_, x) :: xs' =>
    match ys with
    | [] => None
    | (_, y) :: ys' =>
      equals_loop usage xs' ys'
        (if negb (usage x =? usage y) then false else all_match)
    end
  end.

(** The size check ends in [assert(0)]; the [static_cast] of a tracker of
    the other class is undefined. *)
Definition tracker_equals (t other : space_tracker_t) : option bool :=
  match t, other with
  | SpaceTrackerSimple live, SpaceTrackerSimple other_live =>
    if negb (segment_map_size other_live =? segment_map_size live) then None
    else equals_loop (fun live_bytes => live_bytes)
           (segment_map_items live) (segment_map_items other_live) true
  | SpaceTrackerDetailed usage _, SpaceTrackerDetailed other_usage _ =>
    if negb (segment_map_size other_usage =? segment_map_size usage) then None
    else equals_loop SegmentMap_get_usage
           (segment_map_items usage) (segment_map_items other_usage) true
  | _, _ => None
  end.

(** * Verification *)

(** ** Sums over the segment map *)

Definition Zsum {A} (f : A -> Z) (l : list A) : Z :=
  foldr (fun x acc => f x + acc) 0 l.

Definition seg_sum {T} (f : T -> Z) (m : segment_map_t T) : Z :=
  Zsum (Zsum f) (device_to_segments m).

Definition seg_all {T} (P : T -> Prop) (m : segment_map_t T) : Prop :=
  Forall (Forall P) (device_to_segments m).

Lemma Zsum_insert {A} (f : A -> Z) (l : list A) (i : nat) (x y : A) :
  l !! i = Some x -> Zsum f (<[i:=y]> l) = Zsum f l - f x + f y.
Proof.
  revert i. induction l as [|a l IH]; intros [|i] H; simpl in *; try discriminate.
  - injection H as ->. lia.
  - rewrite (IH i H). lia.
Qed.

Lemma Zsum_ext {A} (f g : A -> Z) (l : list A) :
  (forall x, f x = g x) -> Zsum f l = Zsum g l.
Proof. intros H. induction l as [|a l IH]; simpl; [reflexivity|]. now rewrite H, IH. Qed.

Lemma Zsum_plus {A} (f g : A -> Z) (l : list A) :
  Zsum (fun x => f x + g x) l = Zsum f l + Zsum g l.
Proof. induction l as [|a l IH]; simpl; lia. Qed.

Lemma Zsum_replicate {A} (f : A -> Z) (n : nat) (x : A) :
  Zsum f (replicate n x) = Z.of_nat n * f x.
Proof. induction n as [|n IH]; simpl replicate; simpl Zsum; [lia|]. rewrite IH. lia. Qed.

Lemma Zsum_const_length {A} (l : list A) :
  Zsum (fun _ => 1) l = Z.of_nat (length l).
Proof. induction l as [|a l IH]; simpl Zsum; simpl length; lia. Qed.

Lemma Zsum_bound {A} (f : A -> Z) (b : Z) (l : list A) :
  0 <= b -> Forall (fun x => 0 <= f x <= b) l ->
  0 <= Zsum f l <= Z.of_nat (length l) * b.
Proof.
  intros Hb H. induction H as [|a l Ha _ IH]; simpl Zsum; simpl length; nia.
Qed.

Section segment_map_facts.
Context {T : Type}.
Implicit Types (m : segment_map_t T) (id : segment_id_t) (x : T).

Lemma seg_sum_set (f : T -> Z) m id x x' :
  segment_map_get m id = Some x ->
  seg_sum f (segment_map_set m id x') = seg_sum f m - f x + f x'.
Proof.
  unfold segment_map_get, segment_map_set, seg_sum.
  destruct (device_to_segments m !! Z.to_nat (device_id id)) as [dev|] eqn:Hd;
    [|discriminate].
  intros Hx. cbn [device_to_segments].
  rewrite (Zsum_insert _ _ _ dev) by assumption.
  rewrite (Zsum_insert f dev _ x) by assumption. lia.
Qed.

Lemma seg_all_set (P : T -> Prop) m id x' :
  seg_all P m -> P x' -> seg_all P (segment_map_set m id x').
Proof.
  unfold seg_all, segment_map_set. intros Hall Hx'.
  destruct (device_to_segments m !! Z.to_nat (device_id id)) as [dev|] eqn:Hd;
    [|assumption].
  cbn [device_to_segments]. apply Forall_insert; [assumption|].
  apply Forall_insert; [|assumption].
  eapply Forall_lookup_1 in Hall; eassumption.
Qed.

Lemma seg_all_get (P : T -> Prop) m id x :
  seg_all P m -> segment_map_get m id = Some x -> P x.
Proof.
  unfold seg_all, segment_map_get. intros Hall.
  destruct (device_to_segments m !! Z.to_nat (device_id id)) as [dev|] eqn:Hd;
    [|discriminate].
  intros Hx. eapply Forall_lookup_1 in Hall; [|eassumption].
  eapply Forall_lookup_1 in Hall; eassumption.
Qed.

Lemma seg_all_impl (P Q : T -> Prop) m :
  (forall x, P x -> Q x) -> seg_all P m -> seg_all Q m.
Proof.
  unfold seg_all. intros HPQ H.
  eapply Forall_impl; [exact H|]. intros dev Hdev.
  eapply Forall_impl; [exact Hdev|]. exact HPQ.
Qed.

Lemma total_segments_set m id x' :
  total_segments (segment_map_set m id x') = total_segments m.
Proof.
  unfold segment_map_set.
  now destruct (device_to_segments m !! Z.to_nat (device_id id)).
Qed.
End segment_map_facts.

(** ** C1: the aggregate counters of the segment directory *)

Definition indicator (b : bool) : Z := if b then 1 else 0.

Definition count_state (st : segment_state_t) (m : segment_map_t segment_info_t) : Z :=
  seg_sum (fun i => indicator (bool_decide (state i = st))) m.

(** [segment_size - written_to] of an OPEN segment, 0 of any other. *)
Definition open_avail (ssize : Z) (i : segment_info_t) : Z :=
  if is_open i then ssize - written_to i else 0.

Definition written_to_ok (ssize : Z) (i : segment_info_t) : Prop :=
  state i = OPEN -> 0 <= written_to i <= ssize.

Record directory_inv (s : segments_info_t) : Prop := mk_directory_inv {
  inv_empty : num_empty s = count_state EMPTY (segments s);
  inv_open : num_open s = count_state OPEN (segments s);
  inv_closed : num_closed s = count_state CLOSED (segments s);
  inv_total : get_num_segments s = seg_sum (fun _ => 1) (segments s);
  inv_avail : avail_bytes_in_open s = seg_sum (open_avail (segment_size s)) (segments s);
  inv_written : seg_all (written_to_ok (segment_size s)) (segments s);
  inv_devices : (length (device_to_segments (segments s)) <= 248)%nat;
  inv_device_len :
    Forall (fun dev : list segment_info_t => Z.of_nat (length dev) <= DEVICE_SEGMENT_ID_MAX)
           (device_to_segments (segments s));
  inv_ssize : 0 <= segment_size s <= MAX_SEG_OFF;
}.

(** The three equations of C1. *)
Definition counters_agree (s : segments_info_t) : Prop :=
  num_empty s + num_open s + num_closed s = get_num_segments s /\
  avail_bytes_in_open s = seg_sum (open_avail (segment_size s)) (segments s) /\
  get_available_bytes s = num_empty s * segment_size s + avail_bytes_in_open s.

Lemma Zsum_cons {A} (f : A -> Z) (x : A) (l : list A) :
  Zsum f (x :: l) = f x + Zsum f l.
Proof. reflexivity. Qed.

Lemma seg_sum_plus {T} (f g : T -> Z) (m : segment_map_t T) :
  seg_sum (fun x => f x + g x) m = seg_sum f m + seg_sum g m.
Proof.
  unfold seg_sum. rewrite <- Zsum_plus. apply Zsum_ext.
  intros dev. apply Zsum_plus.
Qed.

Lemma seg_sum_ext {T} (f g : T -> Z) (m : segment_map_t T) :
  (forall x, f x = g x) -> seg_sum f m = seg_sum g m.
Proof.
  intros H. unfold seg_sum. apply Zsum_ext. intros dev. now apply Zsum_ext.
Qed.

Lemma count_state_split (m : segment_map_t segment_info_t) :
  count_state EMPTY m + count_state OPEN m + count_state CLOSED m
  = seg_sum (fun _ => 1) m.
Proof.
  unfold count_state. rewrite <- !seg_sum_plus. apply seg_sum_ext.
  intros i. destruct (state i); reflexivity.
Qed.

Lemma seg_sum_nonneg {T} (f : T -> Z) (b : Z) (m : segment_map_t T) :
  0 <= b -> seg_all (fun x => 0 <= f x <= b) m ->
  0 <= seg_sum f m <= seg_sum (fun _ => 1) m * b.
Proof.
  unfold seg_all, seg_sum. intros Hb H.
  induction H as [|dev devs Hdev _ IH]; rewrite ?Zsum_cons; [cbn; lia|].
  pose proof (Zsum_bound f b dev Hb Hdev) as H1.
  rewrite (Zsum_const_length dev). nia.
Qed.

Lemma seg_count_bound {T} (m : segment_map_t T) :
  (length (device_to_segments m) <= 248)%nat ->
  Forall (fun dev : list T => Z.of_nat (length dev) <= DEVICE_SEGMENT_ID_MAX)
         (device_to_segments m) ->
  0 <= seg_sum (fun _ => 1) m <= 248 * DEVICE_SEGMENT_ID_MAX.
Proof.
  unfold seg_sum. intros Hlen H.
  assert (Hgen : 0 <= Zsum (Zsum (fun _ : T => 1)) (device_to_segments m)
                 <= Z.of_nat (length (device_to_segments m)) * DEVICE_SEGMENT_ID_MAX).
  { clear Hlen. induction H as [|dev devs Hdev _ IH]; rewrite ?Zsum_cons;
      cbn [length]; [cbn; lia|].
    rewrite (Zsum_const_length dev). lia. }
  assert (0 <= DEVICE_SEGMENT_ID_MAX) by (vm_compute; discriminate).
  nia.
Qed.

Lemma count_state_nonneg st (m : segment_map_t segment_info_t) :
  0 <= count_state st m <= seg_sum (fun _ => 1) m.
Proof.
  unfold count_state.
  pose proof (seg_sum_nonneg (fun i => indicator (bool_decide (state i = st))) 1 m) as H.
  assert (Hall : seg_all (fun i => 0 <= indicator (bool_decide (state i = st)) <= 1) m).
  { unfold seg_all. apply Forall_forall. intros dev _. apply Forall_forall.
    intros i _. destruct (bool_decide (state i = st)); cbn; lia. }
  specialize (H ltac:(lia) Hall). lia.
Qed.

Lemma open_avail_bound ssize (m : segment_map_t segment_info_t) :
  0 <= ssize -> seg_all (written_to_ok ssize) m ->
  0 <= seg_sum (open_avail ssize) m <= count_state OPEN m * ssize.
Proof.
  unfold seg_all, seg_sum, count_state, seg_sum. intros Hs H.
  induction H as [|dev devs Hdev _ IH]; rewrite ?Zsum_cons; [cbn; lia|].
  assert (0 <= Zsum (open_avail ssize) dev
          <= Zsum (fun i => indicator (bool_decide (state i = OPEN))) dev * ssize).
  { clear IH. induction Hdev as [|i dev Hi _ IH]; rewrite ?Zsum_cons; [cbn; lia|].
    unfold written_to_ok in Hi.
    assert (Hi' : 0 <= open_avail ssize i
                  <= indicator (bool_decide (state i = OPEN)) * ssize).
    { unfold open_avail, is_open.
      destruct (bool_decide_reflect (state i = OPEN)) as [Ho|Ho]; cbn [indicator];
        [specialize (Hi Ho)|]; lia. }
    nia. }
  lia.
Qed.

(** No counter of a consistent directory is near the end of [std::size_t]. *)
Lemma directory_inv_bounds s :
  directory_inv s ->
  0 <= seg_sum (fun _ => 1) (segments s) /\
  seg_sum (fun _ => 1) (segments s) * segment_size s < 2 ^ 63 /\
  seg_sum (fun _ => 1) (segments s) < 2 ^ 32.
Proof.
  intros [].
  pose proof (seg_count_bound (segments s) inv_devices0 inv_device_len0) as Hc.
  assert (HD : DEVICE_SEGMENT_ID_MAX = 2 ^ 24 - 1) by reflexivity.
  assert (HM : MAX_SEG_OFF = 2 ^ 31 - 1) by reflexivity.
  rewrite HD in Hc. rewrite HM in inv_ssize0.
  split; [lia|]. split; [nia|lia].
Qed.

Lemma directory_inv_counters s : directory_inv s -> counters_agree s.
Proof.
  intros Hinv. pose proof (directory_inv_bounds s Hinv) as (Hn & Hcap & _).
  destruct Hinv. unfold counters_agree.
  pose proof (count_state_split (segments s)) as Hsplit.
  pose proof (count_state_nonneg EMPTY (segments s)) as He.
  pose proof (count_state_nonneg OPEN (segments s)) as Ho.
  pose proof (count_state_nonneg CLOSED (segments s)) as Hc.
  pose proof (open_avail_bound (segment_size s) (segments s)
                ltac:(lia) inv_written0) as Ha.
  split; [lia|]. split; [assumption|].
  unfold get_available_bytes, get_segment_size, wrap64.
  rewrite inv_empty0, inv_avail0.
  assert (H1 : 0 <= count_state EMPTY (segments s) * segment_size s) by nia.
  assert (H2 : (count_state EMPTY (segments s) + count_state OPEN (segments s))
               * segment_size s
               <= seg_sum (fun _ => 1) (segments s) * segment_size s)
    by (apply Z.mul_le_mono_nonneg_r; lia).
  assert (H3 : (2 : Z) ^ 63 < 2 ^ 64) by reflexivity.
  rewrite (wrap_small 64 (count_state EMPTY (segments s) * segment_size s)) by lia.
  apply wrap_small. lia.
Qed.

Section segment_map_shape.
Context {T : Type}.
Implicit Types (m : segment_map_t T).

Lemma segment_map_set_length m id (x : T) :
  length (device_to_segments (segment_map_set m id x))
  = length (device_to_segments m).
Proof.
  unfold segment_map_set.
  destruct (device_to_segments m !! Z.to_nat (device_id id)); [|reflexivity].
  cbn [device_to_segments]. apply length_insert.
Qed.

Lemma segment_map_set_device_len m id (x : T) (b : Z) :
  Forall (fun dev : list T => Z.of_nat (length dev) <= b) (device_to_segments m) ->
  Forall (fun dev : list T => Z.of_nat (length dev) <= b)
         (device_to_segments (segment_map_set m id x)).
Proof.
  unfold segment_map_set. intros H.
  destruct (device_to_segments m !! Z.to_nat (device_id id)) as [dev|] eqn:Hd;
    [|assumption].
  cbn [device_to_segments]. apply Forall_insert; [assumption|].
  rewrite length_insert. eapply Forall_lookup_1 in H; eassumption.
Qed.

Lemma seg_sum_zero (f : T -> Z) m :
  seg_all (fun x => f x = 0) m -> seg_sum f m = 0.
Proof.
  unfold seg_all, seg_sum. intros H.
  induction H as [|dev devs Hdev _ IH]; [reflexivity|].
  rewrite Zsum_cons, IH.
  assert (Zsum f dev = 0); [|lia].
  induction Hdev as [|x dev Hx _ IHd]; [reflexivity|].
  rewrite Zsum_cons. lia.
Qed.
End segment_map_shape.

Lemma count_state_set st (m : segment_map_t segment_info_t) id x x' :
  segment_map_get m id = Some x ->
  count_state st (segment_map_set m id x')
  = count_state st m - indicator (bool_decide (state x = st))
    + indicator (bool_decide (state x' = st)).
Proof. intros H. unfold count_state. now rewrite (seg_sum_set _ m id x x'). Qed.

(** Facts every preservation proof starts from. *)
Lemma directory_inv_facts s :
  directory_inv s ->
  let n := seg_sum (fun _ => 1) (segments s) in
  0 <= n < 2 ^ 32 /\ n * segment_size s < 2 ^ 63 /\
  0 <= count_state EMPTY (segments s) <= n /\
  0 <= count_state OPEN (segments s) <= n /\
  0 <= count_state CLOSED (segments s) <= n /\
  0 <= seg_sum (open_avail (segment_size s)) (segments s)
    <= count_state OPEN (segments s) * segment_size s /\
  count_state EMPTY (segments s) + count_state OPEN (segments s)
    + count_state CLOSED (segments s) = n /\
  0 <= segment_size s < 2 ^ 31.
Proof.
  intros Hinv. pose proof (directory_inv_bounds s Hinv) as (Hn & Hcap & Hlt).
  pose proof (count_state_split (segments s)).
  pose proof (count_state_nonneg EMPTY (segments s)).
  pose proof (count_state_nonneg OPEN (segments s)).
  pose proof (count_state_nonneg CLOSED (segments s)).
  destruct Hinv.
  pose proof (open_avail_bound (segment_size s) (segments s)
                ltac:(lia) inv_written0).
  assert (MAX_SEG_OFF = 2 ^ 31 - 1) as HM by reflexivity.
  rewrite HM in inv_ssize0. cbv zeta. repeat split; try lia.
Qed.

(** Peel the assertions off a successful call. *)
Ltac peel H :=
  repeat match type of H with
         | match ?x with _ => _ end = Some _ =>
           let E := fresh "E" in destruct x eqn:E; try discriminate H
         end.

Ltac to_prop :=
  repeat match goal with
         | H : (_ && _) = true |- _ => apply andb_prop in H; destruct H
         | H : (_ || _) = true |- _ => apply orb_prop in H
         | H : negb _ = true |- _ => apply negb_true_iff in H
         | H : bool_decide _ = true |- _ => apply bool_decide_eq_true_1 in H
         | H : bool_decide _ = false |- _ => apply bool_decide_eq_false_1 in H
         | H : (_ <? _) = true |- _ => apply Z.ltb_lt in H
         | H : (_ <? _) = false |- _ => apply Z.ltb_ge in H
         | H : (_ <=? _) = true |- _ => apply Z.leb_le in H
         | H : (_ <=? _) = false |- _ => apply Z.leb_gt in H
         | H : (_ =? _) = true |- _ => apply Z.eqb_eq in H
         | H : (_ =? _) = false |- _ => apply Z.eqb_neq in H
         | H : is_empty _ = true |- _ => apply bool_decide_eq_true_1 in H
         | H : is_open _ = true |- _ => apply bool_decide_eq_true_1 in H
         | H : is_closed _ = true |- _ => apply bool_decide_eq_true_1 in H
         end.

Lemma indicator_eq {A} `{EqDecision A} (x y : A) :
  x = y -> indicator (bool_decide (x = y)) = 1.
Proof. intros H. now rewrite bool_decide_eq_true_2. Qed.

Lemma indicator_neq {A} `{EqDecision A} (x y : A) :
  x <> y -> indicator (bool_decide (x = y)) = 0.
Proof. intros H. now rewrite bool_decide_eq_false_2. Qed.

Ltac indicators :=
  repeat first [ rewrite indicator_eq by congruence
               | rewrite indicator_neq by congruence ].

Section directory_preservation.
Variable submitted_journal_head_is_null : segments_info_t -> bool.

Lemma mark_open_inv s segment q t c g s' :
  directory_inv s -> mark_open s segment q t c g = Some s' -> directory_inv s'.
Proof.
  intros Hinv H. pose proof (directory_inv_facts s Hinv) as F. cbv zeta in F.
  destruct F as (Fn & Fcap & Fe & Fo & Fc & Fa & Fsplit & Fss).
  destruct Hinv. unfold mark_open in H. peel H.
  unfold set_open in E3. peel E3. injection E3 as <-. injection H as <-.
  to_prop. unfold get_segment_size, wrap64 in *.
  constructor; unfold get_num_segments, segment_map_size in *;
    cbn [num_empty num_open num_closed segments segment_size avail_bytes_in_open];
    rewrite ?total_segments_set, ?segment_map_set_length.
  - rewrite (count_state_set _ _ _ _ _ E). cbn [state]. indicators. lia.
  - rewrite (count_state_set _ _ _ _ _ E). cbn [state]. indicators.
    rewrite wrap_small; lia.
  - rewrite (count_state_set _ _ _ _ _ E). cbn [state]. indicators. lia.
  - rewrite (seg_sum_set _ _ _ _ _ E). lia.
  - rewrite (seg_sum_set _ _ _ _ _ E). unfold open_avail at 2 3, is_open.
    cbn [state written_to].
    rewrite (bool_decide_eq_false_2 (state s0 = OPEN)) by congruence.
    rewrite (bool_decide_eq_true_2 (OPEN = OPEN)) by reflexivity.
    assert (count_state OPEN (segments s) * segment_size s
            <= (seg_sum (fun _ => 1) (segments s) - 1) * segment_size s)
      by (apply Z.mul_le_mono_nonneg_r; lia).
    rewrite wrap_small; lia.
  - apply seg_all_set; [assumption|]. unfold written_to_ok. cbn [state written_to]. lia.
  - assumption.
  - now apply segment_map_set_device_len.
  - assumption.
Qed.

Lemma init_closed_inv s segment q t c g s' :
  directory_inv s ->
  init_closed submitted_journal_head_is_null s segment q t c g = Some s' ->
  directory_inv s'.
Proof.
  intros Hinv H. pose proof (directory_inv_facts s Hinv) as F. cbv zeta in F.
  destruct F as (Fn & Fcap & Fe & Fo & Fc & Fa & Fsplit & Fss).
  destruct Hinv. unfold init_closed in H. peel H.
  unfold info_init_closed in E4. peel E4. injection E4 as <-. injection H as <-.
  to_prop. unfold get_segment_size, wrap64 in *.
  constructor; unfold get_num_segments, segment_map_size in *;
    cbn [num_empty num_open num_closed segments segment_size avail_bytes_in_open];
    rewrite ?total_segments_set, ?segment_map_set_length.
  - rewrite (count_state_set _ _ _ _ _ E). cbn [state]. indicators. lia.
  - rewrite (count_state_set _ _ _ _ _ E). cbn [state]. indicators. lia.
  - rewrite (count_state_set _ _ _ _ _ E). cbn [state]. indicators.
    rewrite wrap_small; lia.
  - rewrite (seg_sum_set _ _ _ _ _ E). lia.
  - rewrite (seg_sum_set _ _ _ _ _ E). unfold open_avail at 2 3, is_open.
    cbn [state written_to].
    rewrite (bool_decide_eq_false_2 (state s0 = OPEN)) by congruence.
    rewrite (bool_decide_eq_false_2 (CLOSED = OPEN)) by congruence. lia.
  - apply seg_all_set; [assumption|]. unfold written_to_ok. cbn [state]. congruence.
  - assumption.
  - now apply segment_map_set_device_len.
  - assumption.
Qed.

Lemma mark_closed_inv s segment s' :
  directory_inv s -> mark_closed s segment = Some s' -> directory_inv s'.
Proof.
  intros Hinv H. pose proof (directory_inv_facts s Hinv) as F. cbv zeta in F.
  destruct F as (Fn & Fcap & Fe & Fo & Fc & Fa & Fsplit & Fss).
  destruct Hinv. unfold mark_closed in H. peel H. injection H as <-.
  to_prop. unfold get_segment_size, wrap64 in *.
  constructor; unfold get_num_segments, segment_map_size in *;
    cbn [num_empty num_open num_closed segments segment_size avail_bytes_in_open];
    rewrite ?total_segments_set, ?segment_map_set_length.
  - rewrite (count_state_set _ _ _ _ _ E). cbn [state set_closed]. indicators. lia.
  - rewrite (count_state_set _ _ _ _ _ E). cbn [state set_closed]. indicators. lia.
  - rewrite (count_state_set _ _ _ _ _ E). cbn [state set_closed]. indicators.
    rewrite wrap_small; lia.
  - rewrite (seg_sum_set _ _ _ _ _ E). lia.
  - rewrite (seg_sum_set _ _ _ _ _ E). unfold open_avail at 2 3, is_open.
    cbn [state written_to set_closed].
    rewrite (bool_decide_eq_true_2 (state s0 = OPEN)) by congruence.
    rewrite (bool_decide_eq_false_2 (CLOSED = OPEN)) by congruence. lia.
  - apply seg_all_set; [assumption|]. unfold written_to_ok.
    cbn [state set_closed]. congruence.
  - assumption.
  - now apply segment_map_set_device_len.
  - assumption.
Qed.

Lemma mark_empty_inv s segment s' :
  directory_inv s -> mark_empty s segment = Some s' -> directory_inv s'.
Proof.
  intros Hinv H. pose proof (directory_inv_facts s Hinv) as F. cbv zeta in F.
  destruct F as (Fn & Fcap & Fe & Fo & Fc & Fa & Fsplit & Fss).
  destruct Hinv. unfold mark_empty in H. cbv zeta in H. peel H. injection H as <-.
  to_prop. unfold get_segment_size, wrap64 in *.
  constructor; unfold get_num_segments, segment_map_size in *;
    cbn [num_empty num_open num_closed segments segment_size avail_bytes_in_open];
    rewrite ?total_segments_set, ?segment_map_set_length.
  - rewrite (count_state_set _ _ _ _ _ E). cbn [state set_empty]. indicators.
    rewrite wrap_small; lia.
  - rewrite (count_state_set _ _ _ _ _ E). cbn [state set_empty]. indicators. lia.
  - rewrite (count_state_set _ _ _ _ _ E). cbn [state set_empty]. indicators. lia.
  - rewrite (seg_sum_set _ _ _ _ _ E). lia.
  - rewrite (seg_sum_set _ _ _ _ _ E). unfold open_avail at 2 3, is_open.
    cbn [state written_to set_empty].
    rewrite (bool_decide_eq_false_2 (state s0 = OPEN)) by congruence.
    rewrite (bool_decide_eq_false_2 (EMPTY = OPEN)) by congruence. lia.
  - apply seg_all_set; [assumption|]. unfold written_to_ok.
    cbn [state set_empty]. congruence.
  - assumption.
  - now apply segment_map_set_device_len.
  - assumption.
Qed.

Lemma update_written_to_inv s t o s' :
  directory_inv s -> update_written_to s t o = Some s' -> directory_inv s'.
Proof.
  intros Hinv H. pose proof (directory_inv_facts s Hinv) as F. cbv zeta in F.
  destruct F as (Fn & Fcap & Fe & Fo & Fc & Fa & Fsplit & Fss).
  destruct Hinv. unfold update_written_to in H. cbv zeta in H. peel H.
  injection H as <-.
  to_prop. unfold get_segment_size in *.
  pose proof (seg_all_get _ _ _ _ inv_written0 E0 E1) as Hw.
  constructor; unfold get_num_segments, segment_map_size in *;
    cbn [num_empty num_open num_closed segments segment_size avail_bytes_in_open];
    rewrite ?total_segments_set, ?segment_map_set_length.
  - rewrite (count_state_set _ _ _ _ _ E0). cbn [state]. indicators. lia.
  - rewrite (count_state_set _ _ _ _ _ E0). cbn [state]. indicators. lia.
  - rewrite (count_state_set _ _ _ _ _ E0). cbn [state]. indicators. lia.
  - rewrite (seg_sum_set _ _ _ _ _ E0). lia.
  - rewrite (seg_sum_set _ _ _ _ _ E0). unfold open_avail at 2 3, is_open.
    cbn [state written_to].
    rewrite !(bool_decide_eq_true_2 (state s0 = OPEN)) by congruence. lia.
  - apply seg_all_set; [assumption|]. unfold written_to_ok.
    cbn [state written_to]. intros _. lia.
  - assumption.
  - now apply segment_map_set_device_len.
  - assumption.
Qed.

Lemma with_modify_time_inv s segment tp num s' :
  directory_inv s -> with_modify_time s segment tp num = Some s' -> directory_inv s'.
Proof.
  intros Hinv H. destruct Hinv. unfold with_modify_time in H. peel H.
  injection H as <-.
  pose proof (seg_all_get _ _ _ _ inv_written0 E) as Hw.
  constructor; unfold get_num_segments, segment_map_size in *;
    cbn [num_empty num_open num_closed segments segment_size avail_bytes_in_open];
    rewrite ?total_segments_set, ?segment_map_set_length.
  - rewrite (count_state_set _ _ _ _ _ E). cbn [state]. lia.
  - rewrite (count_state_set _ _ _ _ _ E). cbn [state]. lia.
  - rewrite (count_state_set _ _ _ _ _ E). cbn [state]. lia.
  - rewrite (seg_sum_set _ _ _ _ _ E). lia.
  - rewrite (seg_sum_set _ _ _ _ _ E). unfold open_avail at 2 3, is_open.
    cbn [state written_to]. lia.
  - apply seg_all_set; [assumption|]. exact Hw.
  - assumption.
  - now apply segment_map_set_device_len.
  - assumption.
Qed.

Lemma run_op_inv s op s' :
  directory_inv s ->
  run_op submitted_journal_head_is_null s op = Some s' -> directory_inv s'.
Proof.
  destruct op; cbn [run_op]; eauto using init_closed_inv, mark_open_inv,
    mark_closed_inv, mark_empty_inv, update_written_to_inv.
Qed.
End directory_preservation.

(** *** The directory right after [reset] and [add_segment_manager] *)

Definition all_default (s : segments_info_t) : Prop :=
  seg_all (fun i => i = segment_info_default) (segments s).

Lemma reset_inv : directory_inv reset /\ all_default reset.
Proof.
  assert (Hall : all_default reset).
  { unfold all_default, seg_all, reset, segment_map_clear. cbn [segments device_to_segments].
    apply Forall_replicate. constructor. }
  split; [|exact Hall].
  assert (Hz : forall f : segment_info_t -> Z, seg_sum f (segments reset) = 0).
  { intros f. unfold seg_sum, reset, segment_map_clear. cbn [segments device_to_segments].
    rewrite Zsum_replicate. cbn [Zsum foldr]. lia. }
  constructor; unfold count_state; rewrite ?Hz; try reflexivity.
  - unfold seg_all, reset, segment_map_clear. cbn [segments device_to_segments].
    apply Forall_replicate. constructor.
  - unfold reset, segment_map_clear. cbn [segments device_to_segments].
    apply Forall_replicate. vm_compute. discriminate.
  - vm_compute. split; discriminate.
Qed.

Lemma add_segment_manager_inv s sm s' :
  sm_well_typed sm ->
  directory_inv s /\ all_default s ->
  add_segment_manager s sm = Some s' ->
  directory_inv s' /\ all_default s'.
Proof.
  intros (Hd & Hn & Hs & Hb) [Hinv Hall] H.
  pose proof (directory_inv_facts s Hinv) as F. cbv zeta in F.
  destruct F as (Fn & Fcap & Fe & Fo & Fc & Fa & Fsplit & Fss).
  unfold add_segment_manager in H. cbv zeta in H. peel H.
  unfold add_device in E0. peel E0. injection E0 as <-. injection H as <-.
  to_prop.
  assert (l = []) as -> by (now destruct l).
  assert (HD : DEVICE_SEGMENT_ID_MAX = 2 ^ 24 - 1) by reflexivity.
  assert (HM : MAX_SEG_OFF = 2 ^ 31 - 1) by reflexivity.
  set (devs' := <[Z.to_nat (sm_device_id sm) :=
                   replicate (Z.to_nat (sm_num_segments sm)) segment_info_default]>
                  (device_to_segments (segments s))).
  assert (Hsum : forall f : segment_info_t -> Z,
             Zsum (Zsum f) devs'
             = seg_sum f (segments s) + sm_num_segments sm * f segment_info_default).
  { intros f. unfold devs', seg_sum.
    rewrite (Zsum_insert _ _ _ [] _ E3), Zsum_replicate.
    cbn [Zsum foldr]. rewrite Z2Nat.id by lia. lia. }
  assert (Hall' : Forall (Forall (fun i => i = segment_info_default)) devs').
  { unfold devs'. apply Forall_insert; [exact Hall|]. now apply Forall_replicate. }
  split; [|exact Hall'].
  destruct Hinv. unfold wrap64.
  constructor; unfold get_num_segments, segment_map_size, count_state, seg_sum in *;
    cbn [num_empty num_open num_closed segments segment_size avail_bytes_in_open
         device_to_segments total_segments]; fold devs'; rewrite ?Hsum.
  - cbn [state segment_info_default]. indicators.
    unfold seg_sum. rewrite wrap_small; lia.
  - cbn [state segment_info_default]. indicators. unfold seg_sum. lia.
  - cbn [state segment_info_default]. indicators. unfold seg_sum. lia.
  - unfold seg_sum. rewrite wrap_small; lia.
  - rewrite inv_avail0.
    assert (Hz : forall ssize, seg_sum (open_avail ssize) (segments s) = 0).
    { intros ssize. apply seg_sum_zero.
      eapply seg_all_impl; [|exact Hall]. intros i ->. reflexivity. }
    pose proof (Hz (segment_size s)) as Z1.
    pose proof (Hz (sm_segment_size sm)) as Z2.
    unfold seg_sum in Z1, Z2. rewrite Z1, Z2.
    assert (open_avail (sm_segment_size sm) segment_info_default = 0) as ->
      by reflexivity.
    lia.
  - eapply (seg_all_impl _ _ (mk_segment_map devs' 0)); [|exact Hall'].
    intros i ->. unfold written_to_ok. cbn. discriminate.
  - unfold devs'. now rewrite length_insert.
  - unfold devs'. apply Forall_insert; [assumption|].
    rewrite length_replicate, Z2Nat.id; lia.
  - lia.
Qed.

Lemma add_segment_managers_inv sms : forall s s',
  Forall sm_well_typed sms ->
  directory_inv s /\ all_default s ->
  add_segment_managers s sms = Some s' ->
  directory_inv s' /\ all_default s'.
Proof.
  induction sms as [|sm sms IH]; intros s s' Hwt Hinv H; cbn [add_segment_managers] in H.
  - now injection H as <-.
  - destruct (add_segment_manager s sm) as [s1|] eqn:E; [|discriminate].
    inversion Hwt; subst.
    eapply IH; [eassumption| |eassumption].
    eapply add_segment_manager_inv; eassumption.
Qed.

Lemma reachable_directory_inv head_null s :
  reachable head_null s -> directory_inv s.
Proof.
  induction 1 as [sms s Hwt Hinit|s op s' _ IH _ Hrun|s segment tp num s' _ IH _ Hrun].
  - eapply add_segment_managers_inv; [exact Hwt|exact reset_inv|exact Hinit].
  - eapply run_op_inv; eassumption.
  - eapply with_modify_time_inv; eassumption.
Qed.

(** C1: in every state reachable from [reset] and [add_segment_manager] by
    [init_closed], [mark_open], [mark_closed], [mark_empty] and
    [update_written_to] (modify times changing in between),
    [num_empty + num_open + num_closed] is the number of
    segments, [avail_bytes_in_open] is the sum over the OPEN segments of
    [segment_size - written_to], and [get_available_bytes] is
    [num_empty * segment_size + avail_bytes_in_open] (no wrap-around); every
    operation that returns leads to a state with the same three equations. *)
Theorem directory_counters_invariant head_null s :
  reachable head_null s ->
  counters_agree s /\
  forall op s',
    op_well_typed op -> run_op head_null s op = Some s' -> counters_agree s'.
Proof.
  intros Hreach. split.
  - apply directory_inv_counters. eapply reachable_directory_inv; eassumption.
  - intros op s' Hwt Hrun. apply directory_inv_counters.
    eapply reachable_directory_inv. eapply reachable_step; eassumption.
Qed.

(** A run over one device of four 4 KiB segments: open segment 0 as the
    journal, write 1 KiB, open segment 1 out of line, close the journal
    segment. *)
Definition head_null_by_id (s : segments_info_t) : bool :=
  journal_segment_id s =? NULL_SEG_ID.

Definition example_devices : list segment_manager_t :=
  [mk_segment_manager 0 4096 4 16384].

Definition example_ops : list directory_op :=
  [OpMarkOpen 0 7 JOURNAL METADATA 0;
   OpUpdateWrittenTo JOURNAL (make_seg_paddr 0 1024);
   OpMarkOpen 1 0 OOL DATA 1;
   OpMarkClosed 0].

Fixpoint run_ops (head_null : segments_info_t -> bool) (s : segments_info_t)
    (ops : list directory_op) : option segments_info_t :=
  match ops with
  | [] => Some s
  | op :: ops' =>
    match run_op head_null s op with
    | None => None
    | Some s' => run_ops head_null s' ops'
    end
  end.

Lemma reachable_run_ops head_null ops : forall s s',
  reachable head_null s -> Forall op_well_typed ops ->
  run_ops head_null s ops = Some s' -> reachable head_null s'.
Proof.
  induction ops as [|op ops IH]; intros s s' Hs Hwt H; cbn [run_ops] in H.
  - now injection H as <-.
  - destruct (run_op head_null s op) as [s1|] eqn:E; [|discriminate].
    inversion Hwt; subst. eapply IH; [|eassumption|eassumption].
    eapply reachable_step; eassumption.
Defined.

Definition example_state : segments_info_t :=
  Eval vm_compute in
    match add_segment_managers reset example_devices with
    | Some s0 =>
      match run_ops head_null_by_id s0 example_ops with
      | Some s => s
      | None => reset
      end
    | None => reset
    end.

Lemma example_state_reachable : reachable head_null_by_id example_state.
Proof.
  destruct (add_segment_managers reset example_devices) as [s0|] eqn:E0;
    [|vm_compute in E0; discriminate].
  eapply (reachable_run_ops head_null_by_id example_ops s0).
  - eapply (reachable_init _ example_devices); [|exact E0].
    repeat constructor; vm_compute; congruence.
  - repeat constructor; vm_compute; congruence.
  - vm_compute in E0. injection E0 as <-. vm_compute. reflexivity.
Defined.

Lemma directory_counters_invariant_witness :
  reachable head_null_by_id example_state /\
  (counters_agree example_state /\
   forall op s',
     op_well_typed op -> run_op head_null_by_id example_state op = Some s' ->
     counters_agree s').
Proof.
  split; [exact example_state_reachable|].
  exact (directory_counters_invariant head_null_by_id example_state
           example_state_reachable).
Defined.

Example example_state_counters :
  num_empty example_state = 2 /\ num_open example_state = 1 /\
  num_closed example_state = 1 /\ avail_bytes_in_open example_state = 4096 /\
  get_available_bytes example_state = 12288.
Proof. vm_compute. repeat split. Qed.

(** ** C5: the journal segment *)

Definition is_segment_id (id : segment_id_t) : Prop := 0 <= id < 2 ^ 32.

Lemma device_id_spec id :
  is_segment_id id -> device_id id = id / 2 ^ 24 /\ 0 <= id / 2 ^ 24 < 2 ^ 8.
Proof.
  intros [H0 H1]. unfold device_id, wrap8, DEVICE_SEGMENT_ID_BITS, SEGMENT_ID_BITS,
    DEVICE_ID_BITS.
  change (32 - 8) with 24. rewrite Z.shiftr_div_pow2 by lia.
  assert (0 <= id / 2 ^ 24 < 2 ^ 8).
  { split; [apply Z.div_pos; lia|]. apply Z.div_lt_upper_bound; lia. }
  split; [now apply wrap_small|assumption].
Qed.

Lemma device_segment_id_spec id :
  device_segment_id id = id mod 2 ^ 24.
Proof.
  unfold device_segment_id, DEVICE_SEGMENT_ID_BITS, SEGMENT_ID_BITS, DEVICE_ID_BITS.
  change (Z.shiftl 1 (32 - 8) - 1) with (Z.ones 24).
  apply Z.land_ones. lia.
Qed.

Lemma segment_id_ext a b :
  is_segment_id a -> is_segment_id b ->
  device_id a = device_id b -> device_segment_id a = device_segment_id b -> a = b.
Proof.
  intros Ha Hb Hd Hs.
  destruct (device_id_spec a Ha) as [Ea _]. destruct (device_id_spec b Hb) as [Eb _].
  rewrite Ea, Eb in Hd. rewrite !device_segment_id_spec in Hs.
  rewrite (Z.div_mod a (2 ^ 24)), (Z.div_mod b (2 ^ 24)) by lia. congruence.
Qed.

Lemma device_id_nonneg id : 0 <= device_id id.
Proof. unfold device_id, wrap8. apply wrap_range. lia. Qed.

Lemma device_segment_id_nonneg id : 0 <= device_segment_id id.
Proof. rewrite device_segment_id_spec. apply Z.mod_pos_bound. lia. Qed.

Section segment_map_get_set.
Context {T : Type}.
Implicit Types (m : segment_map_t T) (x : T).

Lemma segment_map_get_set_eq m id x x0 :
  segment_map_get m id = Some x0 ->
  segment_map_get (segment_map_set m id x) id = Some x.
Proof.
  unfold segment_map_get, segment_map_set.
  destruct (device_to_segments m !! Z.to_nat (device_id id)) as [dev|] eqn:Hd;
    [|discriminate].
  intros Hx. cbn [device_to_segments].
  rewrite list_lookup_insert_eq by (eapply lookup_lt_Some; eassumption).
  apply list_lookup_insert_eq. eapply lookup_lt_Some; eassumption.
Qed.

Lemma segment_map_get_set_ne m id id' x :
  is_segment_id id -> is_segment_id id' -> id <> id' ->
  segment_map_get (segment_map_set m id x) id' = segment_map_get m id'.
Proof.
  intros Hid Hid' Hne. unfold segment_map_get, segment_map_set.
  destruct (device_to_segments m !! Z.to_nat (device_id id)) as [dev|] eqn:Hd;
    [|reflexivity].
  cbn [device_to_segments].
  destruct (decide (device_id id = device_id id')) as [Ed|Ed].
  - rewrite <- Ed.
    rewrite list_lookup_insert_eq by (eapply lookup_lt_Some; eassumption).
    rewrite Hd. apply list_lookup_insert_ne.
    intros Hs. apply Hne. apply segment_id_ext; try assumption.
    pose proof (device_segment_id_nonneg id).
    pose proof (device_segment_id_nonneg id'). lia.
  - rewrite list_lookup_insert_ne; [reflexivity|].
    pose proof (device_id_nonneg id). pose proof (device_id_nonneg id'). lia.
Qed.

Lemma segment_map_get_null m :
  Forall (fun dev : list T => Z.of_nat (length dev) <= DEVICE_SEGMENT_ID_MAX)
         (device_to_segments m) ->
  segment_map_get m NULL_SEG_ID = None.
Proof.
  intros H. unfold segment_map_get.
  destruct (device_to_segments m !! Z.to_nat (device_id NULL_SEG_ID)) as [dev|] eqn:Hd;
    [|reflexivity].
  eapply Forall_lookup_1 in H; [|exact Hd]. cbv beta in H.
  apply lookup_ge_None.
  assert (device_segment_id NULL_SEG_ID = DEVICE_SEGMENT_ID_MAX) as -> by reflexivity.
  lia.
Qed.
End segment_map_get_set.

Definition seq_ok (i : segment_info_t) : Prop :=
  state i <> EMPTY -> 0 <= seq i < NULL_SEG_SEQ.

Definition open_journal (s : segments_info_t) (id : segment_id_t) : Prop :=
  exists info, segment_map_get (segments s) id = Some info /\
               state info = OPEN /\ type info = JOURNAL.

Record journal_inv (s : segments_info_t) : Prop := mk_journal_inv {
  jinv_open : forall id, is_segment_id id -> open_journal s id ->
                         id = journal_segment_id s;
  jinv_seq : seg_all seq_ok (segments s);
}.

(** One segment changes: the open journal segments of the new map. *)
Lemma open_journal_set s segment x0 x' j' s' :
  is_segment_id segment ->
  segment_map_get (segments s) segment = Some x0 ->
  segments s' = segment_map_set (segments s) segment x' ->
  journal_segment_id s' = j' ->
  (state x' = OPEN -> type x' = JOURNAL -> segment = j') ->
  (forall id, is_segment_id id -> id <> segment -> open_journal s id -> id = j') ->
  forall id, is_segment_id id -> open_journal s' id -> id = journal_segment_id s'.
Proof.
  intros Hseg Hget Hsegs Hj Hnew Hold id Hid (info & Hi & Ho & Ht).
  rewrite Hj. rewrite Hsegs in Hi.
  destruct (decide (id = segment)) as [->|Hne].
  - rewrite (segment_map_get_set_eq _ _ _ _ Hget) in Hi. injection Hi as <-. auto.
  - rewrite segment_map_get_set_ne in Hi by auto.
    apply Hold; [assumption..|]. now exists info.
Qed.

Section journal_preservation.
Variable submitted_journal_head_is_null : segments_info_t -> bool.

Lemma mark_open_journal_inv s segment q t c g s' :
  is_segment_id segment -> 0 <= q < 2 ^ 32 ->
  directory_inv s -> journal_inv s ->
  mark_open s segment q t c g = Some s' -> journal_inv s'.
Proof.
  intros Hseg Hq Hdir [Hopen Hseq] H.
  pose proof (segment_map_get_null _ (inv_device_len _ Hdir)) as Hnull.
  unfold mark_open in H. peel H.
  unfold set_open in E3. peel E3. injection E3 as <-. injection H as <-.
  unfold open_args_ok in E4. to_prop. constructor.
  - eapply open_journal_set; [exact Hseg|exact E|reflexivity|reflexivity|..];
      cbn [state type journal_segment_id].
    + intros _ ->. reflexivity.
    + intros id Hid Hne Hoj. pose proof (Hopen id Hid Hoj) as Hj.
      destruct Hoj as (info & Hi & Ho & Ht).
      unfold is_journal in *.
      destruct (bool_decide_reflect (t = JOURNAL)) as [->|Hnj]; [|assumption].
      exfalso. destruct E2 as [E2|E2].
      * cbn in E2. to_prop. congruence.
      * unfold last_journal_segment_ok in E2. rewrite <- Hj, Hi in E2.
        to_prop. congruence.
  - cbn [segments]. apply seg_all_set; [assumption|].
    unfold seq_ok, NULL_SEG_SEQ, MAX_SEG_SEQ in *. cbn [state seq]. lia.
Qed.

Lemma init_closed_journal_inv s segment q t c g s' :
  is_segment_id segment -> 0 <= q < 2 ^ 32 ->
  journal_inv s ->
  init_closed submitted_journal_head_is_null s segment q t c g = Some s' ->
  journal_inv s'.
Proof.
  intros Hseg Hq [Hopen Hseq] H. unfold init_closed in H. peel H.
  unfold info_init_closed in E4. peel E4. injection E4 as <-. injection H as <-.
  unfold open_args_ok in E5. to_prop. constructor.
  - eapply open_journal_set; [exact Hseg|exact E|reflexivity|reflexivity|..];
      cbn [state type journal_segment_id].
    + discriminate.
    + intros id Hid _ Hoj. now apply Hopen.
  - cbn [segments]. apply seg_all_set; [assumption|].
    unfold seq_ok, NULL_SEG_SEQ, MAX_SEG_SEQ in *. cbn [state seq]. lia.
Qed.

Lemma mark_closed_journal_inv s segment s' :
  is_segment_id segment -> journal_inv s ->
  mark_closed s segment = Some s' -> journal_inv s'.
Proof.
  intros Hseg [Hopen Hseq] H. unfold mark_closed in H. peel H. injection H as <-.
  to_prop. constructor.
  - eapply open_journal_set; [exact Hseg|exact E|reflexivity|reflexivity|..];
      cbn [state type journal_segment_id set_closed].
    + discriminate.
    + intros id Hid _ Hoj. now apply Hopen.
  - cbn [segments]. apply seg_all_set; [assumption|].
    pose proof (seg_all_get _ _ _ _ Hseq E) as Hs.
    unfold seq_ok in *. cbn [state seq set_closed]. intros _. apply Hs. congruence.
Qed.

Lemma mark_empty_journal_inv s segment s' :
  is_segment_id segment -> journal_inv s ->
  mark_empty s segment = Some s' -> journal_inv s'.
Proof.
  intros Hseg [Hopen Hseq] H. unfold mark_empty in H. cbv zeta in H. peel H.
  injection H as <-. constructor.
  - eapply open_journal_set; [exact Hseg|exact E|reflexivity|reflexivity|..];
      cbn [state type journal_segment_id set_empty].
    + discriminate.
    + intros id Hid _ Hoj. now apply Hopen.
  - cbn [segments]. apply seg_all_set; [assumption|].
    unfold seq_ok. cbn [state set_empty]. congruence.
Qed.

Lemma update_written_to_journal_inv s t o s' :
  journal_inv s -> update_written_to s t o = Some s' -> journal_inv s'.
Proof.
  intros [Hopen Hseq] H. unfold update_written_to in H. cbv zeta in H. peel H.
  injection H as <-.
  assert (Hseg : is_segment_id (get_segment_id o)).
  { unfold is_segment_id, get_segment_id, wrap32. apply wrap_range. lia. }
  constructor.
  - eapply open_journal_set; [exact Hseg|exact E0|reflexivity|reflexivity|..];
      cbn [state type journal_segment_id].
    + intros Ho Ht. apply Hopen; [assumption|]. exists s0. auto.
    + intros id Hid _ Hoj. now apply Hopen.
  - cbn [segments]. apply seg_all_set; [assumption|].
    pose proof (seg_all_get _ _ _ _ Hseq E0) as Hs.
    unfold seq_ok in *. cbn [state seq]. exact Hs.
Qed.

Lemma with_modify_time_journal_inv s segment tp num s' :
  is_segment_id segment -> journal_inv s ->
  with_modify_time s segment tp num = Some s' -> journal_inv s'.
Proof.
  intros Hseg [Hopen Hseq] H. unfold with_modify_time in H. peel H.
  injection H as <-. constructor.
  - eapply open_journal_set; [exact Hseg|exact E|reflexivity|reflexivity|..];
      cbn [state type journal_segment_id].
    + intros Ho Ht. apply Hopen; [assumption|]. exists s0. auto.
    + intros id Hid _ Hoj. now apply Hopen.
  - cbn [segments]. apply seg_all_set; [assumption|].
    pose proof (seg_all_get _ _ _ _ Hseq E) as Hs.
    unfold seq_ok in *. cbn [state seq]. exact Hs.
Qed.

Lemma run_op_journal_inv s op s' :
  op_well_typed op -> directory_inv s -> journal_inv s ->
  run_op submitted_journal_head_is_null s op = Some s' -> journal_inv s'.
Proof.
  destruct op; cbn [run_op op_well_typed]; intros Hwt Hdir Hj H.
  - eapply init_closed_journal_inv; [| |exact Hj|exact H]; unfold is_segment_id; lia.
  - eapply mark_open_journal_inv; [| |exact Hdir|exact Hj|exact H];
      unfold is_segment_id; lia.
  - eapply mark_closed_journal_inv; eassumption.
  - eapply mark_empty_journal_inv; eassumption.
  - eapply update_written_to_journal_inv; eassumption.
Qed.

Lemma all_default_journal_inv s : all_default s -> journal_inv s.
Proof.
  intros Hall. constructor.
  - intros id _ (info & Hi & Ho & _).
    pose proof (seg_all_get _ _ _ _ Hall Hi) as ->. discriminate.
  - eapply seg_all_impl; [|exact Hall]. intros i ->. unfold seq_ok. cbn. congruence.
Qed.

Lemma reachable_journal_inv s :
  reachable submitted_journal_head_is_null s -> journal_inv s.
Proof.
  induction 1 as [sms s Hwt Hinit|s op s' Hreach IH Hwt Hrun
                  |s segment tp num s' Hreach IH Hseg Hrun].
  - apply all_default_journal_inv.
    eapply add_segment_managers_inv; [exact Hwt|exact reset_inv|exact Hinit].
  - eapply run_op_journal_inv; try eassumption.
    eapply reachable_directory_inv; eassumption.
  - eapply with_modify_time_journal_inv; eassumption.
Qed.
End journal_preservation.

(** C5: in every reachable state at most one journal segment is OPEN; a
    [mark_open] of a JOURNAL segment while a journal segment is recorded
    returns only if that previous segment is CLOSED, of type JOURNAL and has
    the sequence number one less than the new one, and aborts otherwise. *)
Theorem journal_single_open_contiguous head_null s :
  reachable head_null s ->
  (forall id1 id2,
      is_segment_id id1 -> is_segment_id id2 ->
      open_journal s id1 -> open_journal s id2 -> id1 = id2) /\
  (forall segment q c g s',
      journal_segment_id s <> NULL_SEG_ID ->
      mark_open s segment q JOURNAL c g = Some s' ->
      exists last,
        segment_map_get (segments s) (journal_segment_id s) = Some last /\
        state last = CLOSED /\ type last = JOURNAL /\ seq last + 1 = q) /\
  (forall segment q c g last,
      journal_segment_id s <> NULL_SEG_ID ->
      segment_map_get (segments s) (journal_segment_id s) = Some last ->
      state last <> CLOSED \/ seq last + 1 <> q ->
      mark_open s segment q JOURNAL c g = None).
Proof.
  intros Hreach.
  pose proof (reachable_journal_inv head_null s Hreach) as [Hopen Hseq].
  assert (Hprev : forall segment q c g s',
             journal_segment_id s <> NULL_SEG_ID ->
             mark_open s segment q JOURNAL c g = Some s' ->
             exists last,
               segment_map_get (segments s) (journal_segment_id s) = Some last /\
               state last = CLOSED /\ type last = JOURNAL /\ seq last + 1 = q).
  { intros segment q c g s' Hj H. unfold mark_open in H. peel H.
    clear H. rename E2 into E2'. unfold is_journal in E2'.
    rewrite (bool_decide_eq_true_2 (JOURNAL = JOURNAL)) in E2' by reflexivity.
    cbn [negb orb] in E2'. to_prop. destruct E2' as [E2'|E2']; [to_prop; contradiction|].
    unfold last_journal_segment_ok in E2'.
    destruct (segment_map_get (segments s) (journal_segment_id s)) as [last|] eqn:El;
      [|discriminate].
    unfold is_journal in E2'. to_prop. exists last. repeat split; try assumption.
    pose proof (seg_all_get _ _ _ _ Hseq El) as Hs. unfold seq_ok in Hs.
    specialize (Hs ltac:(congruence)).
    unfold NULL_SEG_SEQ, MAX_SEG_SEQ, wrap32 in *.
    match goal with
    | Hw : wrap 32 _ = q |- _ => rewrite wrap_small in Hw by lia; exact Hw
    end. }
  split; [|split].
  - intros id1 id2 H1 H2 Ho1 Ho2.
    rewrite (Hopen id1 H1 Ho1), (Hopen id2 H2 Ho2). reflexivity.
  - exact Hprev.
  - intros segment q c g last Hj Hl Hbad.
    destruct (mark_open s segment q JOURNAL c g) as [s'|] eqn:E; [|reflexivity].
    exfalso. destruct (Hprev _ _ _ _ _ Hj E) as (last' & Hl' & Hc & _ & Hq).
    rewrite Hl in Hl'. injection Hl' as <-. destruct Hbad; contradiction.
Qed.

Lemma journal_single_open_contiguous_witness :
  reachable head_null_by_id example_state /\
  ((forall id1 id2,
       is_segment_id id1 -> is_segment_id id2 ->
       open_journal example_state id1 -> open_journal example_state id2 ->
       id1 = id2) /\
   (forall segment q c g s',
       journal_segment_id example_state <> NULL_SEG_ID ->
       mark_open example_state segment q JOURNAL c g = Some s' ->
       exists last,
         segment_map_get (segments example_state)
           (journal_segment_id example_state) = Some last /\
         state last = CLOSED /\ type last = JOURNAL /\ seq last + 1 = q) /\
   (forall segment q c g last,
       journal_segment_id example_state <> NULL_SEG_ID ->
       segment_map_get (segments example_state)
         (journal_segment_id example_state) = Some last ->
       state last <> CLOSED \/ seq last + 1 <> q ->
       mark_open example_state segment q JOURNAL c g = None)).
Proof.
  split; [exact example_state_reachable|].
  exact (journal_single_open_contiguous head_null_by_id example_state
           example_state_reachable).
Defined.

(** After the journal segment 0 (sequence 7) is closed, segment 2 opens as
    the journal with sequence 8 and with no other. *)
Example journal_next_seq_opens :
  is_Some (mark_open example_state 2 8 JOURNAL METADATA 0) /\
  mark_open example_state 2 9 JOURNAL METADATA 0 = None.
Proof. split; [vm_compute; eauto|reflexivity]. Qed.

(** Scenario 3 of the spec: a second journal segment while one is OPEN. *)
Example journal_second_open_aborts :
  forall s0 s1,
    add_segment_managers reset example_devices = Some s0 ->
    mark_open s0 0 7 JOURNAL METADATA 0 = Some s1 ->
    mark_open s1 1 8 JOURNAL METADATA 0 = None.
Proof.
  intros s0 s1 H0 H1. vm_compute in H0. injection H0 as <-.
  vm_compute in H1. injection H1 as <-. reflexivity.
Qed.

(** ** C6, C7: the bitmap of the detailed tracker *)

(** What the loop leaves behind: the range holds [v], every other bit is
    untouched, and the flag tells whether a bit of the range held [v]
    already. *)
Definition in_range (i n j : nat) : Prop := (i <= j < i + n)%nat.

Lemma set_blocks_spec v n : forall i bm error,
  (i + n <= length bm)%nat ->
  exists bm' error',
    set_blocks v i n bm error = Some (bm', error') /\
    length bm' = length bm /\
    (forall j, in_range i n j -> bm' !! j = Some v) /\
    (forall j, ~ in_range i n j -> bm' !! j = bm !! j) /\
    (error' = true <->
     error = true \/ exists j, in_range i n j /\ bm !! j = Some v).
Proof.
  unfold in_range. induction n as [|n IH]; intros i bm error Hlen; cbn [set_blocks].
  - exists bm, error. repeat split; try tauto; try (intros; lia).
    intros [H|(j & Hj & _)]; [assumption|lia].
  - destruct (bm !! i) as [cur|] eqn:Hi;
      [|apply lookup_ge_None in Hi; lia].
    destruct (IH (S i) (<[i:=v]> bm) (error || eqb cur v)) as
        (bm' & error' & Hrun & Hl & Hin & Hout & Herr).
    { rewrite length_insert. lia. }
    exists bm', error'. rewrite length_insert in Hl.
    split; [exact Hrun|]. split; [exact Hl|]. split; [|split].
    + intros j Hj. destruct (decide (j = i)) as [->|Hne].
      * rewrite Hout by lia. apply list_lookup_insert_eq. lia.
      * apply Hin. lia.
    + intros j Hj. rewrite Hout by lia. apply list_lookup_insert_ne. lia.
    + rewrite Herr. rewrite orb_true_iff. split.
      * intros [[H|H]|(j & Hj & Hv)].
        -- now left.
        -- right. exists i. split; [lia|]. rewrite Hi.
           apply eqb_prop in H. now subst.
        -- right. exists j. split; [lia|].
           rewrite list_lookup_insert_ne in Hv by lia. exact Hv.
      * intros [H|(j & Hj & Hv)]; [now left; left|].
        destruct (decide (j = i)) as [->|Hne].
        -- left. right. rewrite Hi in Hv. injection Hv as ->. apply eqb_reflx.
        -- right. exists j. split; [lia|].
           rewrite list_lookup_insert_ne by lia. exact Hv.
Qed.

(** A block-aligned range inside the segment's bitmap. *)
Record range_ok (m : SegmentMap) (_offset len block_size : Z) : Prop := mk_range_ok {
  rng_block : 0 < block_size;
  rng_offset : 0 <= _offset /\ _offset mod block_size = 0;
  rng_len : 0 <= len /\ len mod block_size = 0;
  rng_fit : _offset + len < 2 ^ 32;
  rng_end : (_offset + len) / block_size <= Z.of_nat (length (bitmap m));
}.

Definition first_block (_offset block_size : Z) : nat := Z.to_nat (_offset / block_size).
Definition num_blocks (len block_size : Z) : nat := Z.to_nat (len / block_size).

(** The blocks [b, e) of the range. *)
Definition in_blocks (_offset len block_size : Z) (j : nat) : Prop :=
  in_range (first_block _offset block_size) (num_blocks len block_size) j.

Lemma mark_range_spec v m _offset len block_size :
  range_ok m _offset len block_size ->
  exists bm' error,
    mark_range v m _offset len block_size = Some (bm', error) /\
    length bm' = length (bitmap m) /\
    (forall j, in_blocks _offset len block_size j -> bm' !! j = Some v) /\
    (forall j, ~ in_blocks _offset len block_size j -> bm' !! j = bitmap m !! j) /\
    (error = true <->
     exists j, in_blocks _offset len block_size j /\ bitmap m !! j = Some v).
Proof.
  intros [Hb [Ho Hoa] [Hl Hla] Hfit Hend].
  unfold mark_range, in_blocks, first_block, num_blocks, wrap32.
  rewrite (wrap_small 32 _offset) by lia.
  rewrite (wrap_small 32 (_offset + len)) by lia.
  assert (Hdiv : (_offset + len) / block_size = _offset / block_size + len / block_size).
  { rewrite (Z.div_mod len block_size) at 1 by lia. rewrite Hla, Z.add_0_r.
    rewrite Z.mul_comm, Z.div_add by lia. reflexivity. }
  assert (0 <= _offset / block_size) by (apply Z.div_pos; lia).
  assert (0 <= len / block_size) by (apply Z.div_pos; lia).
  destruct (Z.ltb_spec 0 block_size); [|lia].
  destruct (Z.eqb_spec (_offset mod block_size) 0); [|lia].
  destruct (Z.eqb_spec (len mod block_size) 0); [|lia].
  cbv zeta. rewrite Hdiv.
  replace (_offset / block_size + len / block_size - _offset / block_size)
    with (len / block_size) by lia.
  destruct (set_blocks_spec v (Z.to_nat (len / block_size))
              (Z.to_nat (_offset / block_size)) (bitmap m) false)
    as (bm' & error & Hrun & Hlen & Hin & Hout & Herr).
  { lia. }
  exists bm', error. repeat split; try assumption.
  - intros He. apply Herr in He. destruct He as [He|He]; [discriminate|exact He].
  - intros Hx. apply Herr. now right.
Qed.

Lemma wrap_int64_small x : - 2 ^ 63 <= x < 2 ^ 63 -> wrap_int64 x = x.
Proof.
  intros H. unfold wrap_int64, wrap64, wrap.
  destruct (Z.neg_nonneg_cases x) as [Hx|Hx].
  - replace (x mod 2 ^ 64) with (x + 2 ^ 64).
    + destruct (Z.ltb_spec (x + 2 ^ 64) (2 ^ 63)); lia.
    + rewrite <- (Z_mod_plus_full x 1 (2 ^ 64)). symmetry. apply Z.mod_small. lia.
  - rewrite Z.mod_small by lia. destruct (Z.ltb_spec x (2 ^ 63)); lia.
Qed.

(** C6 (as the code has it): on a block-aligned range inside the bitmap,
    [allocate] returns with every bit of the range set and the usage raised
    by [len], [release] returns with every bit cleared and the usage lowered
    by [len]; a bit that was already set (already clear) only raises the
    logged error flag. *)
Theorem detailed_allocate_release_log_only m segment _offset len block_size :
  range_ok m _offset len block_size ->
  (exists m' error,
      SegmentMap_allocate m segment _offset len block_size
      = Some (m', wrap_int64 (used m + len), error) /\
      used m' = wrap_int64 (used m + len) /\
      length (bitmap m') = length (bitmap m) /\
      (forall j, in_blocks _offset len block_size j -> bitmap m' !! j = Some true) /\
      (forall j, ~ in_blocks _offset len block_size j ->
                 bitmap m' !! j = bitmap m !! j) /\
      (error = true <->
       exists j, in_blocks _offset len block_size j /\ bitmap m !! j = Some true)) /\
  (exists m' error,
      SegmentMap_release m segment _offset len block_size
      = Some (m', wrap_int64 (used m - len), error) /\
      used m' = wrap_int64 (used m - len) /\
      length (bitmap m') = length (bitmap m) /\
      (forall j, in_blocks _offset len block_size j -> bitmap m' !! j = Some false) /\
      (forall j, ~ in_blocks _offset len block_size j ->
                 bitmap m' !! j = bitmap m !! j) /\
      (error = true <->
       exists j, in_blocks _offset len block_size j /\ bitmap m !! j = Some false)).
Proof.
  intros Hok. split.
  - destruct (mark_range_spec true m _offset len block_size Hok)
      as (bm' & error & Hrun & Hlen & Hin & Hout & Herr).
    exists (mk_SegmentMap (wrap_int64 (used m + len)) bm'), error.
    unfold SegmentMap_allocate. rewrite Hrun. cbn [update_usage used bitmap].
    repeat split; try assumption; apply Herr.
  - destruct (mark_range_spec false m _offset len block_size Hok)
      as (bm' & error & Hrun & Hlen & Hin & Hout & Herr).
    exists (mk_SegmentMap (wrap_int64 (used m - len)) bm'), error.
    unfold SegmentMap_release. rewrite Hrun. cbn [update_usage used bitmap].
    repeat split; try assumption; apply Herr.
Qed.

(** A segment of two 4 KiB blocks with the first one live. *)
Definition example_segment_map : SegmentMap := mk_SegmentMap 4096 [true; false].

Lemma example_range_ok : range_ok example_segment_map 0 4096 4096.
Proof.
  constructor; [lia|split; [lia|reflexivity]|split; [lia|reflexivity]|lia|].
  vm_compute. discriminate.
Defined.

Lemma detailed_allocate_release_log_only_witness :
  range_ok example_segment_map 0 4096 4096 /\
  ((exists m' error,
       SegmentMap_allocate example_segment_map 0 0 4096 4096
       = Some (m', wrap_int64 (used example_segment_map + 4096), error) /\
       used m' = wrap_int64 (used example_segment_map + 4096) /\
       length (bitmap m') = length (bitmap example_segment_map) /\
       (forall j, in_blocks 0 4096 4096 j -> bitmap m' !! j = Some true) /\
       (forall j, ~ in_blocks 0 4096 4096 j ->
                  bitmap m' !! j = bitmap example_segment_map !! j) /\
       (error = true <->
        exists j, in_blocks 0 4096 4096 j /\
                  bitmap example_segment_map !! j = Some true)) /\
   (exists m' error,
       SegmentMap_release example_segment_map 0 0 4096 4096
       = Some (m', wrap_int64 (used example_segment_map - 4096), error) /\
       used m' = wrap_int64 (used example_segment_map - 4096) /\
       length (bitmap m') = length (bitmap example_segment_map) /\
       (forall j, in_blocks 0 4096 4096 j -> bitmap m' !! j = Some false) /\
       (forall j, ~ in_blocks 0 4096 4096 j ->
                  bitmap m' !! j = bitmap example_segment_map !! j) /\
       (error = true <->
        exists j, in_blocks 0 4096 4096 j /\
                  bitmap example_segment_map !! j = Some false))).
Proof.
  split; [exact example_range_ok|].
  exact (detailed_allocate_release_log_only example_segment_map 0 0 4096 4096
           example_range_ok).
Defined.

(** C6 as stated fails: allocating the block that is already set, and
    releasing the block that is clear, both return (the error is logged,
    the counter moves) where the claim has them abort. *)
Lemma allocate_set_block_does_not_abort :
  SegmentMap_allocate example_segment_map 0 0 4096 4096
  = Some (mk_SegmentMap 8192 [true; false], 8192, true) /\
  SegmentMap_release example_segment_map 0 4096 4096 4096
  = Some (mk_SegmentMap 0 [true; false], 0, true).
Proof. split; reflexivity. Qed.

(** ** C7: allocate then release *)

Section segment_map_overwrite.
Context {T : Type}.
Implicit Types (m : segment_map_t T) (x : T).

Lemma segment_map_set_set m id x y :
  segment_map_set (segment_map_set m id x) id y = segment_map_set m id y.
Proof.
  unfold segment_map_set.
  destruct (device_to_segments m !! Z.to_nat (device_id id)) as [dev|] eqn:Hd.
  - cbn [device_to_segments total_segments].
    rewrite list_lookup_insert_eq by (eapply lookup_lt_Some; eassumption).
    now rewrite !list_insert_insert_eq.
  - now rewrite Hd.
Qed.

Lemma segment_map_set_id m id x :
  segment_map_get m id = Some x -> segment_map_set m id x = m.
Proof.
  unfold segment_map_get, segment_map_set.
  destruct (device_to_segments m !! Z.to_nat (device_id id)) as [dev|] eqn:Hd;
    [|reflexivity].
  intros Hx. rewrite (list_insert_id dev _ x Hx).
  rewrite (list_insert_id _ _ dev Hd). now destruct m.
Qed.
End segment_map_overwrite.

(** What the round trip needs of the tracker: the segment is tracked, the
    counter is a live-byte count that [len] more does not overflow, and for
    the detailed tracker the range is block-aligned and inside the bitmap. *)
Definition tracker_ready (t : space_tracker_t) (segment : segment_id_t)
    (_offset len : Z) : Prop :=
  match t with
  | SpaceTrackerSimple live =>
    exists live_bytes,
      segment_map_get live segment = Some live_bytes /\
      0 <= len /\ 0 <= live_bytes /\ live_bytes + len < 2 ^ 63
  | SpaceTrackerDetailed usage block_sizes =>
    exists m block_size,
      segment_map_get usage segment = Some m /\
      block_sizes !! Z.to_nat (device_id segment) = Some block_size /\
      range_ok m _offset len block_size /\
      - 2 ^ 63 <= used m /\ used m + len < 2 ^ 63
  end.

(** The bits of the range of segment [segment], for the detailed tracker. *)
Definition range_clear (t : space_tracker_t) (segment : segment_id_t)
    (_offset len : Z) : Prop :=
  match t with
  | SpaceTrackerSimple _ => True
  | SpaceTrackerDetailed usage block_sizes =>
    forall m block_size j,
      segment_map_get usage segment = Some m ->
      block_sizes !! Z.to_nat (device_id segment) = Some block_size ->
      in_blocks _offset len block_size j -> bitmap m !! j <> Some true
  end.

(** C7 (as the code has it): [allocate] followed by [release] of the same
    block-aligned region returns, and [get_usage] of the segment is back at
    its value; the whole tracker, the bitmap included, is back in its prior
    state when no block of the region was set before the [allocate]. *)
Theorem allocate_release_roundtrip t segment _offset len :
  tracker_ready t segment _offset len ->
  exists t1 r1 e1 t2 r2 e2,
    tracker_allocate t segment _offset len = Some (t1, r1, e1) /\
    tracker_release t1 segment _offset len = Some (t2, r2, e2) /\
    get_usage t2 segment = get_usage t segment /\
    (range_clear t segment _offset len -> t2 = t).
Proof.
  destruct t as [live|usage block_sizes]; cbn [tracker_ready].
  - intros (live_bytes & Hget & Hl & Hb & Hs).
    cbn [tracker_allocate tracker_release]. unfold simple_update_usage.
    rewrite Hget. rewrite (wrap_int64_small (live_bytes + len)) by lia.
    destruct (Z.leb_spec 0 (live_bytes + len)); [|lia].
    do 6 eexists. split; [reflexivity|].
    cbn [tracker_release]. unfold simple_update_usage.
    rewrite (segment_map_get_set_eq _ _ _ _ Hget).
    replace (live_bytes + len + - len) with live_bytes by lia.
    rewrite (wrap_int64_small live_bytes) by lia.
    destruct (Z.leb_spec 0 live_bytes); [|lia].
    split; [reflexivity|].
    rewrite segment_map_set_set, (segment_map_set_id _ _ _ Hget). auto.
  - intros (m & block_size & Hget & Hbs & Hok & Hlo & Hhi).
    pose proof Hok as [Hb Ho Hl Hfit Hend].
    destruct (mark_range_spec true m _offset len block_size Hok)
      as (bm1 & e1 & Hrun1 & Hlen1 & Hin1 & Hout1 & Herr1).
    set (m1 := mk_SegmentMap (wrap_int64 (used m + len)) bm1).
    assert (Hok1 : range_ok m1 _offset len block_size).
    { constructor; try assumption. cbn [m1 bitmap]. now rewrite Hlen1. }
    destruct (mark_range_spec false m1 _offset len block_size Hok1)
      as (bm2 & e2 & Hrun2 & Hlen2 & Hin2 & Hout2 & Herr2).
    cbn [m1 bitmap] in Hlen2, Hout2.
    cbn [tracker_allocate tracker_release].
    rewrite Hget, Hbs. unfold SegmentMap_allocate. rewrite Hrun1.
    cbn [update_usage used bitmap]. fold m1.
    do 6 eexists. split; [reflexivity|].
    cbn [tracker_release].
    rewrite (segment_map_get_set_eq _ _ _ _ Hget), Hbs.
    unfold SegmentMap_release.
    rewrite Hrun2. cbn [update_usage used bitmap m1].
    rewrite (wrap_int64_small (used m + len)) by lia.
    replace (used m + len + - len) with (used m) by lia.
    rewrite (wrap_int64_small (used m)) by lia.
    split; [reflexivity|].
    rewrite segment_map_set_set. split.
    + cbn [get_usage]. rewrite (segment_map_get_set_eq _ _ _ _ Hget), Hget.
      reflexivity.
    + cbn [range_clear]. intros Hclear. f_equal.
      assert (bm2 = bitmap m) as ->.
      { apply list_eq. intros j.
        destruct (decide (in_blocks _offset len block_size j)) as [Hj|Hj].
        - rewrite (Hin2 j Hj).
          assert (Hlt : (j < length (bitmap m))%nat).
          { rewrite <- Hlen1. eapply lookup_lt_Some. apply (Hin1 j Hj). }
          destruct (lookup_lt_is_Some_2 _ _ Hlt) as [b Hbj].
          rewrite Hbj. destruct b; [|reflexivity].
          exfalso. exact (Hclear m block_size j Hget Hbs Hj Hbj).
        - rewrite (Hout2 j Hj). apply Hout1. exact Hj. }
      destruct m as [u bm]. cbn [used bitmap].
      apply (segment_map_set_id _ _ _ Hget).
Qed.

(** One device with one segment of two blocks, the first one live. *)
Definition example_tracker : space_tracker_t :=
  SpaceTrackerDetailed (mk_segment_map [[example_segment_map]] 1) [4096].

Lemma example_tracker_ready : tracker_ready example_tracker 0 4096 4096.
Proof.
  exists example_segment_map, 4096.
  split; [reflexivity|]. split; [reflexivity|]. split; [|cbn; lia].
  constructor; [lia|split; [lia|reflexivity]|split; [lia|reflexivity]|lia|].
  vm_compute. discriminate.
Defined.

Lemma allocate_release_roundtrip_witness :
  tracker_ready example_tracker 0 4096 4096 /\
  exists t1 r1 e1 t2 r2 e2,
    tracker_allocate example_tracker 0 4096 4096 = Some (t1, r1, e1) /\
    tracker_release t1 0 4096 4096 = Some (t2, r2, e2) /\
    get_usage t2 0 = get_usage example_tracker 0 /\
    (range_clear example_tracker 0 4096 4096 -> t2 = example_tracker).
Proof.
  split; [exact example_tracker_ready|].
  exact (allocate_release_roundtrip example_tracker 0 4096 4096 example_tracker_ready).
Defined.

(** C7 as stated fails for the bitmap: allocating and releasing the block
    that was already live leaves it clear. *)
Lemma roundtrip_clears_live_block :
  let t1 := SpaceTrackerDetailed
              (mk_segment_map [[mk_SegmentMap 8192 [true; false]]] 1) [4096] in
  let t2 := SpaceTrackerDetailed
              (mk_segment_map [[mk_SegmentMap 4096 [false; false]]] 1) [4096] in
  tracker_allocate example_tracker 0 0 4096 = Some (t1, 8192, true) /\
  tracker_release t1 0 0 4096 = Some (t2, 4096, false) /\
  t2 <> example_tracker.
Proof. cbv zeta. split; [reflexivity|]. split; [reflexivity|]. discriminate. Qed.

(** The coarse tracker of the same device. *)
Example simple_roundtrip :
  let t := SpaceTrackerSimple (mk_segment_map [[4096]] 1) in
  exists t1,
    tracker_allocate t 0 0 4096 = Some (t1, 8192, false) /\
    tracker_release t1 0 0 4096 = Some (t, 4096, false).
Proof. cbv zeta. eexists. split; reflexivity. Qed.

(** * An implementation of the header's members

    One implementation of [async_cleaner_h], after the spec's words where it
    has any (utilization is live bytes over segment size, a closed journal
    segment at or after the journal tail is in the journal, a wake-up clears
    the promise once the gate no longer blocks).  The theorems do not depend
    on it; the concrete runs below do. *)

Definition example_calc_utilization (c : cleaner_t) (id : segment_id_t) : float :=
  match get_usage (space_tracker c) id with
  | Some live_bytes =>
    (double_of_int64 live_bytes / double_of_int64 (segment_size (c_segments c)))%float
  | None => 0%float
  end.

Definition example_should_block_on_reclaim (c : cleaner_t) : bool :=
  get_available_bytes (c_segments c) <? projected_used_bytes (stats c).

Definition example_wake_gc_blocked_io (c : cleaner_t) : cleaner_t :=
  if init_complete c && negb (example_should_block_on_reclaim c) && blocked_io_wake c
  then set_blocked_io_wake c false
  else c.

Definition example_is_in_journal (info : segment_info_t) (tail : journal_seq_t) : bool :=
  is_journal (type info) && (segment_seq tail <=? seq info).

Definition example_update_modify_time (s : segments_info_t) (id : segment_id_t)
    (tp : sea_time_point) (num : Z) : option segments_info_t :=
  if num =? 0 then Some s else with_modify_time s id tp num.

Definition example_init_mark_segment_closed (c : cleaner_t) (segment : segment_id_t)
    (_seq : Z) (_type : segment_type_t) (_category : data_category_t)
    (_generation : Z) : option cleaner_t :=
  assert! negb (init_complete c) ;!
  match init_closed head_null_by_id (c_segments c) segment _seq _type _category
          _generation with
  | None => None
  | Some s' => Some (set_segments c s')
  end.

Definition example_make_space_tracker (detailed : bool)
    (sms : list segment_manager_t) : space_tracker_t :=
  match add_segment_managers reset sms with
  | Some s =>
    if detailed
    then SpaceTrackerDetailed
           (mk_segment_map
              (map (map (fun _ => mk_SegmentMap 0 (replicate 4 false)))
                   (device_to_segments (segments s)))
              (total_segments (segments s)))
           (replicate 248 1024)
    else SpaceTrackerSimple
           (mk_segment_map
              (map (map (fun _ => 0)) (device_to_segments (segments s)))
              (total_segments (segments s)))
  | None => SpaceTrackerSimple segment_map_clear
  end.

#[local] Instance example_header : async_cleaner_h := {|
  should_block_on_trim := fun _ => false;
  should_block_on_reclaim := example_should_block_on_reclaim;
  should_block_on_gc := example_should_block_on_reclaim;
  calc_utilization := example_calc_utilization;
  adjust_segment_util := fun st _ _ => Some st;
  maybe_wake_on_space_used := fun c => c;
  maybe_wake_gc_blocked_io := example_wake_gc_blocked_io;
  is_in_journal := example_is_in_journal;
  get_journal_tail := journal_dirty_tail;
  submitted_journal_head_is_null := head_null_by_id;
  update_modify_time := example_update_modify_time;
  init_mark_segment_closed := example_init_mark_segment_closed;
  make_space_tracker := example_make_space_tracker;
  UTIL_BUCKETS := 12;
  empty_bucket_index := 11;
  mod_to_timepoint := fun t => t * 1000000;
|}.

(** ** C9: a missing segment at mount *)

(** C9: when the header read of a segment ends in ENOENT or ENODATA, the
    loop body of [mount] for that segment is done with the cleaner exactly
    as it was (no transition, no accounting), and the loop goes on with the
    next segment; a device on which every header is missing mounts with the
    state untouched. *)
Theorem mount_missing_header_is_skipped `{async_cleaner_h}
    (sm_group : segment_manager_group_t) (c : cleaner_t) (segment_id : segment_id_t) :
  read_segment_header sm_group segment_id = Error enoent \/
  read_segment_header sm_group segment_id = Error enodata ->
  mount_segment sm_group c segment_id = Done c /\
  (forall ids,
      mount_segments sm_group c (segment_id :: ids) = mount_segments sm_group c ids) /\
  (forall ids,
      (forall id, id ∈ ids ->
                  read_segment_header sm_group id = Error enoent \/
                  read_segment_header sm_group id = Error enodata) ->
      mount_segments sm_group c ids = Done c).
Proof.
  intros Hmiss.
  assert (Hone : forall id c0,
             read_segment_header sm_group id = Error enoent \/
             read_segment_header sm_group id = Error enodata ->
             mount_segment sm_group c0 id = Done c0).
  { intros id c0 [E|E]; unfold mount_segment; rewrite E; reflexivity. }
  split; [now apply Hone|]. split.
  - intros ids. cbn [mount_segments]. now rewrite Hone.
  - intros ids. induction ids as [|id ids IH]; intros Hall; [reflexivity|].
    cbn [mount_segments]. rewrite Hone by (apply Hall; left).
    apply IH. intros id' Hin. apply Hall. now right.
Qed.

(** One device of four segments: segment 1 has no header (ENOENT), segment
    3 has no data (ENODATA), segments 0 and 2 are closed journal and OOL
    segments with matching tails. *)
Definition example_sm_group : segment_manager_group_t :=
  mk_segment_manager_group example_devices
    (fun id =>
       if id =? 0 then Ok (mk_segment_header 7 41 JOURNAL METADATA 0)
       else if id =? 1 then Error enoent
       else if id =? 2 then Ok (mk_segment_header 3 42 OOL DATA 1)
       else Error enodata)
    (fun id =>
       if id =? 0 then Ok (mk_segment_tail 41 1000 5)
       else Ok (mk_segment_tail 42 0 0))
    (fun _ _ _ => ([], None)).

Definition example_unmounted : cleaner_t :=
  mk_cleaner false reset (SpaceTrackerSimple segment_map_clear)
    (mk_stats 0 0 0 0 0 0 0 0 0 0 []) false false false false
    JOURNAL_SEQ_NULL JOURNAL_SEQ_NULL JOURNAL_SEQ_NULL.

Lemma mount_missing_header_is_skipped_witness :
  (read_segment_header example_sm_group 1 = Error enoent \/
   read_segment_header example_sm_group 1 = Error enodata) /\
  (mount_segment example_sm_group example_unmounted 1 = Done example_unmounted /\
   (forall ids,
       mount_segments example_sm_group example_unmounted (1 :: ids)
       = mount_segments example_sm_group example_unmounted ids) /\
   (forall ids,
       (forall id, id ∈ ids ->
                   read_segment_header example_sm_group id = Error enoent \/
                   read_segment_header example_sm_group id = Error enodata) ->
       mount_segments example_sm_group example_unmounted ids = Done example_unmounted)).
Proof.
  split; [left; reflexivity|].
  apply (mount_missing_header_is_skipped example_sm_group example_unmounted 1).
  left. reflexivity.
Defined.

(** The whole mount of that device: it is done, segments 0 and 2 are CLOSED,
    segments 1 and 3 are EMPTY and counted as such. *)
Example mount_example :
  exists c,
    mount example_sm_group example_unmounted = Done c /\
    num_empty (c_segments c) = 2 /\ num_closed (c_segments c) = 2 /\
    (state <$> segment_map_get (segments (c_segments c)) 0) = Some CLOSED /\
    (state <$> segment_map_get (segments (c_segments c)) 1) = Some EMPTY /\
    (state <$> segment_map_get (segments (c_segments c)) 2) = Some CLOSED /\
    (state <$> segment_map_get (segments (c_segments c)) 3) = Some EMPTY.
Proof. eexists. split; [vm_compute; reflexivity|]. vm_compute. repeat split. Qed.

(** ** C10: what mark_space_used and mark_space_free leave alone *)

(** C10: for an address that is not segment-backed, and for any address
    before initialization is complete without the [init_scan] flag,
    [mark_space_used] and [mark_space_free] return the cleaner exactly as it
    was (tracker, [used_bytes], utilization histogram and all the rest). *)
Theorem mark_space_frame `{async_cleaner_h}
    (c : cleaner_t) (addr : paddr_t) (len : Z) (init_scan : bool) :
  get_addr_type addr <> SEGMENT \/ (init_complete c = false /\ init_scan = false) ->
  mark_space_used c addr len init_scan = Some c /\
  mark_space_free c addr len init_scan = Some c.
Proof.
  unfold mark_space_used, mark_space_free. intros [Hty|[Hi Hs]].
  - rewrite (bool_decide_eq_false_2 _ Hty). cbn [negb].
    destruct (negb (init_complete c) && negb init_scan); split; reflexivity.
  - rewrite Hi, Hs. cbn [negb andb].
    destruct (negb (bool_decide (get_addr_type addr = SEGMENT))); split; reflexivity.
Qed.

(** The other way round: a call that changes the cleaner has a segment
    address and runs after initialization or with [init_scan]. *)
Lemma mark_space_change_needs_segment `{async_cleaner_h}
    (c c' : cleaner_t) (addr : paddr_t) (len : Z) (init_scan : bool) :
  mark_space_used c addr len init_scan = Some c' \/
  mark_space_free c addr len init_scan = Some c' ->
  c' <> c ->
  get_addr_type addr = SEGMENT /\ (init_complete c = true \/ init_scan = true).
Proof.
  intros Hrun Hne.
  assert (Hframe :
            get_addr_type addr <> SEGMENT \/
            (init_complete c = false /\ init_scan = false) -> False).
  { intros Hcond. unfold mark_space_used, mark_space_free in Hrun.
    destruct Hcond as [Hty|[Hi Hs]].
    - rewrite (bool_decide_eq_false_2 _ Hty) in Hrun. cbn [negb] in Hrun.
      destruct (negb (init_complete c) && negb init_scan);
        destruct Hrun as [Hrun|Hrun]; congruence.
    - rewrite Hi, Hs in Hrun. cbn [negb andb] in Hrun.
      destruct (negb (bool_decide (get_addr_type addr = SEGMENT)));
        destruct Hrun as [Hrun|Hrun]; congruence. }
  destruct (decide (get_addr_type addr = SEGMENT)) as [Hty|Hty]; [|tauto].
  split; [exact Hty|].
  destruct (init_complete c); [now left|]. destruct init_scan; [now right|].
  exfalso. apply Hframe. now right.
Qed.

(** The device of [example_devices] mounted, with initialization complete
    and 2 KiB live in the closed journal segment 0. *)
Definition example_cleaner : cleaner_t :=
  mk_cleaner false example_state
    (SpaceTrackerSimple (mk_segment_map (replicate 1 [2048; 0; 0; 0]) 4))
    (mk_stats 2048 0 0 0 0 0 0 0 0 0 [])
    true false false false
    (mk_journal_seq 7 (make_seg_paddr 0 1024))
    (mk_journal_seq 8 (make_seg_paddr 0 0))
    (mk_journal_seq 8 (make_seg_paddr 0 0)).

(** A random-block address: device id 128. *)
Definition example_blk_paddr : paddr_t := Z.shiftl 128 BLOCK_OFF_BITS.

Lemma mark_space_frame_witness :
  (get_addr_type example_blk_paddr <> SEGMENT \/
   (init_complete example_cleaner = false /\ true = false)) /\
  (mark_space_used example_cleaner example_blk_paddr 512 true = Some example_cleaner /\
   mark_space_free example_cleaner example_blk_paddr 512 true = Some example_cleaner).
Proof.
  assert (Hty : get_addr_type example_blk_paddr <> SEGMENT)
    by (vm_compute; discriminate).
  split; [left; exact Hty|].
  exact (mark_space_frame example_cleaner example_blk_paddr 512 true (or_introl Hty)).
Defined.

(** Before initialization completes, a segment address without [init_scan]
    is left alone too. *)
Example mark_space_before_init :
  mark_space_used example_unmounted (make_seg_paddr 1 0) 512 false
  = Some example_unmounted /\
  mark_space_free example_unmounted (make_seg_paddr 1 0) 512 false
  = Some example_unmounted.
Proof. split; reflexivity. Qed.

(** A segment address after initialization does change the state. *)
Example mark_space_used_segment_address :
  exists c',
    mark_space_used example_cleaner (make_seg_paddr 1 0) 512 false = Some c' /\
    used_bytes (stats c') = 2560 /\ get_usage (space_tracker c') 1 = Some 512 /\
    mark_space_used example_cleaner example_blk_paddr 512 false = Some example_cleaner.
Proof. eexists. split; [vm_compute; reflexivity|]. vm_compute. repeat split. Qed.

(** ** C4: releasing a segment *)

Lemma mark_empty_transition s segment s' :
  mark_empty s segment = Some s' ->
  exists info,
    segment_map_get (segments s) segment = Some info /\ state info = CLOSED /\
    segment_map_get (segments s') segment = Some (set_empty info).
Proof.
  intros H. unfold mark_empty in H. cbv zeta in H. peel H. injection H as <-.
  to_prop. exists s0. split; [reflexivity|]. split; [assumption|].
  cbn [segments]. eapply segment_map_get_set_eq. eassumption.
Qed.

(** C4: a release that completes started from a CLOSED segment whose live
    bytes in the tracker were 0 and left it EMPTY; with any other usage the
    release aborts; and with usage 0 (and so utilization 0) neither usage
    check fires: the release is then exactly [mark_empty], the histogram
    update and the wake-up. *)
Theorem release_requires_zero_usage `{async_cleaner_h}
    (c : cleaner_t) (to_release : segment_id_t) (released : result unit) :
  to_release <> NULL_SEG_ID ->
  (forall c',
      maybe_release_segment c to_release released = Done c' ->
      get_usage (space_tracker c) to_release = Some 0 /\
      exists info s' st,
        segment_map_get (segments (c_segments c)) to_release = Some info /\
        state info = CLOSED /\
        mark_empty (c_segments c) to_release = Some s' /\
        (state <$> segment_map_get (segments s') to_release) = Some EMPTY /\
        c' = maybe_wake_gc_blocked_io (set_stats (set_segments c s') st)) /\
  (released = Ok tt ->
   get_usage (space_tracker c) to_release <> Some 0 ->
   maybe_release_segment c to_release released = Aborted) /\
  (released = Ok tt ->
   get_usage (space_tracker c) to_release = Some 0 ->
   (calc_utilization c to_release =? 0)%float = true ->
   maybe_release_segment c to_release released
   = match mark_empty (c_segments c) to_release with
     | None => Aborted
     | Some s' =>
       match adjust_segment_util (stats c) (calc_utilization c to_release)
               (calc_utilization (set_segments c s') to_release) with
       | None => Aborted
       | Some st => Done (maybe_wake_gc_blocked_io (set_stats (set_segments c s') st))
       end
     end).
Proof.
  intros Hid. apply Z.eqb_neq in Hid.
  assert (Hdone : forall c',
             maybe_release_segment c to_release released = Done c' ->
             get_usage (space_tracker c) to_release = Some 0 /\
             exists info s' st,
               segment_map_get (segments (c_segments c)) to_release = Some info /\
               state info = CLOSED /\
               mark_empty (c_segments c) to_release = Some s' /\
               (state <$> segment_map_get (segments s') to_release) = Some EMPTY /\
               c' = maybe_wake_gc_blocked_io (set_stats (set_segments c s') st)).
  { intros c' Hrun. unfold maybe_release_segment in Hrun. rewrite Hid in Hrun.
    destruct released as [[]|e|]; try discriminate.
    destruct (negb (calc_utilization c to_release =? 0)%float); [discriminate|].
    destruct (mark_empty (c_segments c) to_release) as [s'|] eqn:Hme; [|discriminate].
    cbv zeta in Hrun. cbn [stats set_segments] in Hrun.
    destruct (adjust_segment_util _ _ _) as [st|] eqn:Hadj; [|discriminate].
    cbn [space_tracker set_stats set_segments] in Hrun.
    destruct (get_usage (space_tracker c) to_release) as [usage|] eqn:Hu; [|discriminate].
    destruct (Z.eqb_spec usage 0) as [->|Hne]; cbn [negb] in Hrun; [|discriminate].
    injection Hrun as <-. split; [reflexivity|].
    destruct (mark_empty_transition _ _ _ Hme) as (info & Hget & Hst & Hget').
    exists info, s', st. repeat split; try assumption.
    rewrite Hget'. reflexivity. }
  split; [exact Hdone|]. split.
  - intros -> Hu.
    destruct (maybe_release_segment c to_release (Ok tt)) as [c'|e c'|] eqn:Hrun;
      [| |reflexivity].
    + exfalso. apply Hu. now destruct (Hdone c' eq_refl).
    + unfold maybe_release_segment in Hrun. rewrite Hid in Hrun.
      repeat match type of Hrun with
             | match ?x with _ => _ end = _ => destruct x; try discriminate Hrun
             end.
  - intros -> Hu Hz. unfold maybe_release_segment. rewrite Hid, Hz. cbn [negb].
    destruct (mark_empty (c_segments c) to_release) as [s'|]; [|reflexivity].
    cbv zeta. cbn [stats set_segments].
    destruct (adjust_segment_util _ _ _) as [st|]; [|reflexivity].
    cbn [space_tracker set_stats set_segments]. rewrite Hu. reflexivity.
Qed.

(** The same device with every extent of segment 0 dead. *)
Definition example_reclaimed : cleaner_t :=
  set_stats
    (set_space_tracker example_cleaner
       (SpaceTrackerSimple (mk_segment_map (replicate 1 [0; 0; 0; 0]) 4)))
    (mk_stats 0 0 0 0 0 0 0 0 0 0 []).

Lemma release_requires_zero_usage_witness :
  0 <> NULL_SEG_ID /\
  (exists c', maybe_release_segment example_reclaimed 0 (Ok tt) = Done c') /\
  (forall c',
      maybe_release_segment example_reclaimed 0 (Ok tt) = Done c' ->
      get_usage (space_tracker example_reclaimed) 0 = Some 0 /\
      exists info s' st,
        segment_map_get (segments (c_segments example_reclaimed)) 0 = Some info /\
        state info = CLOSED /\
        mark_empty (c_segments example_reclaimed) 0 = Some s' /\
        (state <$> segment_map_get (segments s') 0) = Some EMPTY /\
        c' = maybe_wake_gc_blocked_io (set_stats (set_segments example_reclaimed s') st)).
Proof.
  assert (Hid : 0 <> NULL_SEG_ID) by (vm_compute; discriminate).
  split; [exact Hid|]. split; [eexists; vm_compute; reflexivity|].
  exact (proj1 (release_requires_zero_usage example_reclaimed 0 (Ok tt) Hid)).
Defined.

(** With 2 KiB still live in segment 0 the release aborts. *)
Example release_live_segment_aborts :
  maybe_release_segment example_cleaner 0 (Ok tt) = Aborted.
Proof. reflexivity. Qed.

(** ** C8: reserve_projected_usage *)

Lemma reserve_account_frame `{async_cleaner_h} (c : cleaner_t) :
  blocked_io_wake (fst (reserve_account c)) = blocked_io_wake c /\
  projected_used_bytes (stats (fst (reserve_account c)))
  = projected_used_bytes (stats c) /\
  (snd (reserve_account c) = true ->
   io_blocking_num (stats (fst (reserve_account c)))
   = wrap64 (io_blocking_num (stats c) + 1)).
Proof.
  unfold reserve_account. cbv zeta.
  destruct (should_block_on_trim _); cbn [orb];
    destruct (should_block_on_reclaim _); cbn [fst snd]; repeat split;
    try reflexivity; discriminate.
Qed.

Lemma reserve_record_spec (c c' : cleaner_t) (projected_usage : Z) (is_blocked : bool) :
  reserve_record c projected_usage is_blocked = Some c' ->
  blocked_io_wake c = false /\ blocked_io_wake c' = false /\
  projected_used_bytes (stats c')
  = wrap64 (projected_used_bytes (stats c) + projected_usage).
Proof.
  unfold reserve_record. cbv zeta.
  destruct (blocked_io_wake c) eqn:Hw; cbn [negb]; [discriminate|].
  destruct (negb is_blocked || (0 <? io_blocking_num (stats c))); [|discriminate].
  intros [= <-]. cbn. auto.
Qed.

(** C8 (as the code has it).  With [disable_trim] set,
    [reserve_projected_usage] resolves at once and leaves the cleaner as it
    was.  With trimming enabled it asserts on entry that initialization is
    complete and that no [blocked_io_wake] promise is pending; it resolves,
    on entry or on a later wake-up, only from a turn of its loop in which
    [should_block_on_gc] is false, and that turn asserts again that no
    promise is pending; on resolution exactly [projected_usage] is added to
    [projected_used_bytes].  While [should_block_on_gc] holds it installs
    the promise, records nothing and waits.  When the gate does not block it
    does resolve. *)
Theorem reserve_resolves_unblocked `{async_cleaner_h}
    (c : cleaner_t) (projected_usage : Z) :
  (disable_trim c = true ->
   reserve_projected_usage c projected_usage = Some (c, ReserveResolved)) /\
  (disable_trim c = false ->
   (blocked_io_wake c = true -> reserve_projected_usage c projected_usage = None) /\
   (init_complete c = false -> reserve_projected_usage c projected_usage = None) /\
   (forall c',
       reserve_projected_usage c projected_usage = Some (c', ReserveResolved) ->
       should_block_on_gc (fst (reserve_account c)) = false /\
       init_complete c = true /\
       blocked_io_wake c = false /\ blocked_io_wake c' = false /\
       projected_used_bytes (stats c')
       = wrap64 (projected_used_bytes (stats c) + projected_usage)) /\
   (forall c' is_blocked,
       reserve_projected_usage c projected_usage
       = Some (c', ReserveWaiting is_blocked) ->
       should_block_on_gc (fst (reserve_account c)) = true /\
       blocked_io_wake c = false /\ blocked_io_wake c' = true /\
       projected_used_bytes (stats c') = projected_used_bytes (stats c)) /\
   (forall cw is_blocked c',
       reserve_poll cw projected_usage is_blocked = Some (c', ReserveResolved) ->
       should_block_on_gc cw = false /\
       blocked_io_wake cw = false /\ blocked_io_wake c' = false /\
       projected_used_bytes (stats c')
       = wrap64 (projected_used_bytes (stats cw) + projected_usage)) /\
   (forall cw is_blocked,
       should_block_on_gc cw = false -> blocked_io_wake cw = true ->
       reserve_poll cw projected_usage is_blocked = None) /\
   (forall cw is_blocked c' st,
       reserve_poll cw projected_usage is_blocked = Some (c', st) ->
       should_block_on_gc cw = true ->
       st = ReserveWaiting is_blocked /\ blocked_io_wake c' = true /\
       projected_used_bytes (stats c') = projected_used_bytes (stats cw)) /\
   (init_complete c = true -> blocked_io_wake c = false ->
    0 <= io_blocking_num (stats c) < 2 ^ 64 - 1 ->
    should_block_on_gc (fst (reserve_account c)) = false ->
    exists c', reserve_projected_usage c projected_usage = Some (c', ReserveResolved))).
Proof.
  split.
  { intros Hdis. unfold reserve_projected_usage. now rewrite Hdis. }
  intros Hdis.
  destruct (reserve_account_frame c) as (Hw & Hp & Hn).
  assert (Hpoll : forall cw is_blocked c',
             reserve_poll cw projected_usage is_blocked = Some (c', ReserveResolved) ->
             should_block_on_gc cw = false /\
             blocked_io_wake cw = false /\ blocked_io_wake c' = false /\
             projected_used_bytes (stats c')
             = wrap64 (projected_used_bytes (stats cw) + projected_usage)).
  { intros cw b c' Hrun. unfold reserve_poll in Hrun.
    destruct (should_block_on_gc cw); cbn [negb] in Hrun; [discriminate|].
    destruct (reserve_record cw projected_usage b) as [c1|] eqn:Hrec; [|discriminate].
    injection Hrun as <-. split; [reflexivity|].
    now apply reserve_record_spec in Hrec. }
  unfold reserve_projected_usage. rewrite Hdis.
  destruct (reserve_account c) as [c1 is_blocked] eqn:Hacc. cbn [fst snd] in *.
  split; [|split; [|split; [|split; [|split; [|split; [|split]]]]]].
  - intros Hwc. rewrite Hwc. now destruct (init_complete c).
  - intros Hi. now rewrite Hi.
  - intros c' Hrun.
    destruct (init_complete c); [|discriminate].
    destruct (blocked_io_wake c) eqn:Hwc; cbn [negb] in Hrun; [discriminate|].
    destruct (Hpoll _ _ _ Hrun) as (Hg & _ & Hw' & Hp').
    rewrite Hp in Hp'. auto.
  - intros c' b Hrun.
    destruct (init_complete c); [|discriminate].
    destruct (blocked_io_wake c) eqn:Hwc; cbn [negb] in Hrun; [discriminate|].
    unfold reserve_poll in Hrun.
    destruct (should_block_on_gc c1); cbn [negb] in Hrun.
    + injection Hrun as <- <-. cbn. auto.
    + destruct (reserve_record c1 projected_usage is_blocked); discriminate.
  - exact Hpoll.
  - intros cw b Hg Hwc. unfold reserve_poll, reserve_record.
    now rewrite Hg, Hwc.
  - intros cw b c' st Hrun Hg. unfold reserve_poll in Hrun. rewrite Hg in Hrun.
    cbn [negb] in Hrun. injection Hrun as <- <-. cbn. auto.
  - intros Hi Hwc Hio Hg. rewrite Hi, Hwc. cbn [negb].
    unfold reserve_poll. rewrite Hg. cbn [negb].
    unfold reserve_record. rewrite Hw, Hwc. cbn [negb]. cbv zeta.
    destruct is_blocked; cbn [negb orb]; [|eauto].
    rewrite (Hn eq_refl). unfold wrap64. rewrite wrap_small by lia.
    destruct (Z.ltb_spec 0 (io_blocking_num (stats c) + 1)); [eauto|lia].
Qed.

(** [example_cleaner] entered with a promise still pending. *)
Definition example_pending : cleaner_t := set_blocked_io_wake example_cleaner true.

Lemma reserve_resolves_unblocked_witness :
  disable_trim example_cleaner = false /\
  (exists c',
      reserve_projected_usage example_cleaner 4096 = Some (c', ReserveResolved)) /\
  (forall c',
      reserve_projected_usage example_cleaner 4096 = Some (c', ReserveResolved) ->
      should_block_on_gc (fst (reserve_account example_cleaner)) = false /\
      init_complete example_cleaner = true /\
      blocked_io_wake example_cleaner = false /\ blocked_io_wake c' = false /\
      projected_used_bytes (stats c')
      = wrap64 (projected_used_bytes (stats example_cleaner) + 4096)) /\
  reserve_projected_usage example_pending 4096 = None.
Proof.
  destruct (reserve_resolves_unblocked example_cleaner 4096) as [_ Hon].
  destruct (Hon eq_refl) as (_ & _ & Hres & _).
  destruct (reserve_resolves_unblocked example_pending 4096) as [_ Hpend].
  destruct (Hpend eq_refl) as (Hentry & _).
  split; [reflexivity|]. split; [eexists; vm_compute; reflexivity|].
  split; [exact Hres|]. apply Hentry. reflexivity.
Defined.

(** The same cleaner with trimming disabled and more reserved than is
    available, so that the gate blocks. *)
Definition example_trim_disabled : cleaner_t :=
  mk_cleaner false example_state
    (SpaceTrackerSimple (mk_segment_map (replicate 1 [2048; 0; 0; 0]) 4))
    (mk_stats 2048 1048576 0 0 0 0 0 0 0 0 [])
    true true false false
    (mk_journal_seq 7 (make_seg_paddr 0 1024))
    (mk_journal_seq 8 (make_seg_paddr 0 0))
    (mk_journal_seq 8 (make_seg_paddr 0 0)).

(** C8 as stated fails: with [disable_trim] set the future resolves at
    once, in a state where [should_block_on_gc] is true, and nothing is
    added to [projected_used_bytes]. *)
Lemma reserve_with_trim_disabled :
  should_block_on_gc example_trim_disabled = true /\
  reserve_projected_usage example_trim_disabled 4096
  = Some (example_trim_disabled, ReserveResolved) /\
  projected_used_bytes (stats example_trim_disabled)
  <> wrap64 (projected_used_bytes (stats example_trim_disabled) + 4096).
Proof. split; [reflexivity|]. split; [reflexivity|]. vm_compute. discriminate. Qed.

(** Scenario 4 of the spec in small: the gate blocks, the caller waits on
    the promise; once the reservation of others is released the wake-up
    clears the promise and the next turn of the loop resolves. *)
Example reserve_waits_then_resolves :
  let blocked :=
    set_stats example_cleaner (mk_stats 2048 1048576 0 0 0 0 0 0 0 0 []) in
  exists waiting released resolved,
    reserve_projected_usage blocked 4096 = Some (waiting, ReserveWaiting true) /\
    blocked_io_wake waiting = true /\
    release_projected_usage waiting 1048576 = Some released /\
    blocked_io_wake released = false /\
    reserve_poll released 4096 true = Some (resolved, ReserveResolved) /\
    projected_used_bytes (stats resolved) = 4096.
Proof.
  cbv zeta. do 3 eexists.
  split; [vm_compute; reflexivity|]. split; [reflexivity|].
  split; [vm_compute; reflexivity|]. split; [reflexivity|].
  split; [vm_compute; reflexivity|]. reflexivity.
Qed.

(** ** The order of doubles *)

Lemma SFcompare_lt_le_trans a b c :
  SFcompare a b = Some Lt ->
  SFcompare b c = Some Lt \/ SFcompare b c = Some Eq ->
  SFcompare a c = Some Lt.
Proof.
  destruct a as [sa|sa| |sa ma ea], b as [sb|sb| |sb mb eb], c as [sc|sc| |sc mc ec];
    cbn [SFcompare]; try discriminate;
    try (destruct sa, sb, sc; cbn; intros Hab [Hbc|Hbc]; congruence).
  all: try (intros _ [Hbc|Hbc]; discriminate).
  change (PosDef.Pos.compare_cont Eq) with Pos.compare.
  destruct sa, sb, sc; intros Hab [Hbc|Hbc]; try discriminate; try reflexivity;
    destruct (Z.compare_spec ea eb), (Z.compare_spec eb ec); try discriminate;
    destruct (Z.compare_spec ea ec); try lia; try reflexivity; subst;
    destruct (Pos.compare_spec ma mb), (Pos.compare_spec mb mc); try discriminate;
    destruct (Pos.compare_spec ma mc); try lia; try reflexivity.
Qed.

Lemma SFcompare_irrefl a : SFcompare a a <> Some Lt.
Proof.
  destruct a as [s|s| |s m e]; cbn [SFcompare]; try discriminate.
  - destruct s; discriminate.
  - change (PosDef.Pos.compare_cont Eq) with Pos.compare.
    rewrite Z.compare_refl, Pos.compare_refl. destruct s; discriminate.
Qed.

Lemma SFltb_compare a b : SFltb a b = true <-> SFcompare a b = Some Lt.
Proof.
  unfold SFltb. destruct (SFcompare a b) as [[]|]; split; congruence.
Qed.

Lemma SFleb_compare a b :
  SFleb a b = true <-> SFcompare a b = Some Lt \/ SFcompare a b = Some Eq.
Proof.
  unfold SFleb. destruct (SFcompare a b) as [[]|]; split;
    try tauto; try congruence; intros [|]; congruence.
Qed.

Lemma double_lt_le_trans (a b c : float) :
  (a <? b)%float = true -> (b <=? c)%float = true -> (a <? c)%float = true.
Proof.
  rewrite !FloatAxioms.ltb_spec, FloatAxioms.leb_spec, !SFltb_compare, SFleb_compare.
  apply SFcompare_lt_le_trans.
Qed.

Lemma double_lt_le (a b : float) :
  (a <? b)%float = true -> (a <=? b)%float = true.
Proof. rewrite FloatAxioms.ltb_spec, FloatAxioms.leb_spec, SFltb_compare, SFleb_compare. auto. Qed.

Lemma double_lt_irrefl (a : float) : (a <? a)%float = false.
Proof.
  destruct (a <? a)%float eqn:E; [|reflexivity].
  rewrite FloatAxioms.ltb_spec, SFltb_compare in E. now apply SFcompare_irrefl in E.
Qed.

Lemma double_lt_not_ge (a b : float) :
  (a <? b)%float = true -> (b <=? a)%float = false.
Proof.
  intros Hlt. destruct (b <=? a)%float eqn:Hle; [|reflexivity].
  pose proof (double_lt_le_trans a b a Hlt Hle) as Haa.
  now rewrite double_lt_irrefl in Haa.
Qed.

Lemma double_lt_trans (a b c : float) :
  (a <? b)%float = true -> (b <? c)%float = true -> (a <? c)%float = true.
Proof. intros Hab Hbc. eapply double_lt_le_trans; eauto using double_lt_le. Qed.

(** A double equal to 0 (either zero) is in [0, 1). *)
Lemma double_zero_in_unit (u : float) :
  (u =? 0)%float = true -> ((0 <=? u) && (u <? 1))%float = true.
Proof.
  rewrite FloatAxioms.eqb_spec, FloatAxioms.leb_spec, FloatAxioms.ltb_spec.
  change (Prim2SF 0%float) with (S754_zero false).
  change (Prim2SF 1%float) with (S754_finite false 4503599627370496 (-52)).
  unfold SFeqb, SFleb, SFltb.
  destruct (Prim2SF u) as [s|s| |s m e]; cbn [SFcompare];
    try discriminate; try reflexivity.
  - destruct s; discriminate.
  - destruct s; discriminate.
Qed.

(** A double above 0 is not equal to 0 and is at least 0. *)
Lemma double_pos_nonzero (u : float) :
  (0 <? u)%float = true -> (u =? 0)%float = false /\ (0 <=? u)%float = true.
Proof.
  rewrite FloatAxioms.eqb_spec, FloatAxioms.leb_spec, FloatAxioms.ltb_spec.
  change (Prim2SF 0%float) with (S754_zero false).
  unfold SFeqb, SFleb, SFltb.
  destruct (Prim2SF u) as [s|s| |s m e]; cbn [SFcompare]; try discriminate;
    destruct s; try discriminate; auto.
Qed.

(** ** C2: the cost-benefit score *)

(** C2: under the default policy ([gc_formula] is COST_BENEFIT), for a
    segment of the directory with utilization [u], [age_segment] the double
    of its modify time and [age_now] the double of the current time: with
    [u = 0] the score is [DBL_MAX], the largest finite double (its successor
    is +infinity); with [0 < u < 1] it is
    [(1 - u) * (age_now - age_segment) / (2 * u)] when [age_now > age_segment]
    and [(1 - u) / (2 * u)] otherwise.  The comparisons and the arithmetic
    are those of [double]. *)
Theorem cost_benefit_score `{async_cleaner_h}
    (c : cleaner_t) (id : segment_id_t) (now_time bound_time : sea_time_point)
    (info : segment_info_t) :
  segment_map_get (segments (c_segments c)) id = Some info ->
  let u := calc_utilization c id in
  let age_segment := double_of_int64 (modify_time info) in
  let age_now := double_of_int64 now_time in
  ((u =? 0)%float = true ->
   calc_gc_benefit_cost c id now_time bound_time = Some DBL_MAX /\
   next_up DBL_MAX = infinity) /\
  ((0 <? u)%float = true -> (u <? 1)%float = true ->
   (age_segment <? age_now)%float = true ->
   calc_gc_benefit_cost c id now_time bound_time
   = Some ((1 - u) * (age_now - age_segment) / (2 * u))%float) /\
  ((0 <? u)%float = true -> (u <? 1)%float = true ->
   (age_segment <? age_now)%float = false ->
   calc_gc_benefit_cost c id now_time bound_time
   = Some ((1 - u) / (2 * u))%float).
Proof.
  intros Hget u age_segment age_now.
  unfold calc_gc_benefit_cost, calc_gc_benefit_cost_with, gc_formula.
  cbv zeta. fold u. rewrite Hget. fold age_segment age_now.
  split; [|split].
  - intros Hz. rewrite (double_zero_in_unit u Hz), Hz. split; reflexivity.
  - intros Hpos Hlt Hage.
    destruct (double_pos_nonzero u Hpos) as [Hnz Hge].
    rewrite Hge, Hlt, Hnz, Hage. reflexivity.
  - intros Hpos Hlt Hage.
    destruct (double_pos_nonzero u Hpos) as [Hnz Hge].
    rewrite Hge, Hlt, Hnz, Hage. reflexivity.
Qed.

Lemma cost_benefit_score_witness :
  segment_map_get (segments (c_segments example_cleaner)) 0
  = Some (mk_segment_info CLOSED 7 JOURNAL METADATA 0 0 0 1024) /\
  (calc_utilization example_cleaner 0 = 0.5%float /\
   calc_gc_benefit_cost example_cleaner 0 10 NULL_TIME = Some 5%float /\
   calc_gc_benefit_cost example_cleaner 0 (-3) NULL_TIME = Some 0.5%float /\
   calc_gc_benefit_cost example_cleaner 1 10 NULL_TIME = Some DBL_MAX).
Proof.
  assert (Hget : segment_map_get (segments (c_segments example_cleaner)) 0
                 = Some (mk_segment_info CLOSED 7 JOURNAL METADATA 0 0 0 1024))
    by reflexivity.
  split; [exact Hget|]. split; [reflexivity|].
  pose proof (cost_benefit_score example_cleaner 0 10 NULL_TIME _ Hget)
    as (_ & Hlater & _).
  pose proof (cost_benefit_score example_cleaner 0 (-3) NULL_TIME _ Hget)
    as (_ & _ & Hearlier).
  split; [|split].
  - rewrite (Hlater eq_refl eq_refl eq_refl). reflexivity.
  - rewrite (Hearlier eq_refl eq_refl eq_refl). reflexivity.
  - reflexivity.
Defined.

(** A closed segment last modified 1.7e18 ticks after the epoch: doubles of
    that size are 256 apart, so a clock 100 ticks later converts to the same
    double as the modify time. *)
Definition example_late_cleaner : cleaner_t :=
  match with_modify_time example_state 0 1700000000000000000 1 with
  | Some s => set_segments example_cleaner s
  | None => example_cleaner
  end.

(** C2 as stated fails: with [now > m] and [u = 0.5] the score is the
    fallback [(1 - u) / (2u) = 0.5] and not [(1 - u) * (now - m) / (2u) = 50],
    because the clock test is made on the doubles, which are equal here; and
    the score at [u = 0] is a finite double, below +infinity. *)
Lemma cost_benefit_clock_rounds :
  (exists info,
      segment_map_get (segments (c_segments example_late_cleaner)) 0 = Some info /\
      state info = CLOSED /\ modify_time info = 1700000000000000000) /\
  calc_utilization example_late_cleaner 0 = 0.5%float /\
  1700000000000000000 < 1700000000000000100 /\
  double_of_int64 1700000000000000100 = double_of_int64 1700000000000000000 /\
  calc_gc_benefit_cost example_late_cleaner 0 1700000000000000100 NULL_TIME
  = Some 0.5%float /\
  ((1 - 0.5) / (2 * 0.5))%float = 0.5%float /\
  ((1 - 0.5) * 100 / (2 * 0.5))%float = 50%float /\
  (0.5 =? 50)%float = false /\
  calc_utilization example_cleaner 1 = 0%float /\
  calc_gc_benefit_cost example_cleaner 1 10 NULL_TIME = Some DBL_MAX /\
  (DBL_MAX <? infinity)%float = true.
Proof.
  split; [eexists; repeat split; vm_compute; reflexivity|].
  repeat split; vm_compute; reflexivity.
Qed.

(** ** Victim selection: the loop *)

Section victim_selection.
Context `{async_cleaner_h}.
Variables (c : cleaner_t) (now_time bound_time : sea_time_point).

(** The segments the loop scores: CLOSED and not in the journal. *)
Definition candidate (p : segment_id_t * segment_info_t) : bool :=
  is_closed (snd p) && negb (is_in_journal (snd p) (get_journal_tail c)).

Definition score (p : segment_id_t * segment_info_t) : option float :=
  calc_gc_benefit_cost c (fst p) now_time bound_time.

(** Entry [k] of the iteration is a candidate with score [s]. *)
Definition scored_at (items : list (segment_id_t * segment_info_t)) (k : nat)
    (s : float) : Prop :=
  exists p, items !! k = Some p /\ candidate p = true /\ score p = Some s.

(** Entry [k] wins with score [s] over the start value [max0]: it beats
    [max0], no earlier candidate reaches [s], no later one exceeds it. *)
Definition wins_at (items : list (segment_id_t * segment_info_t))
    (max0 : float) (k : nat) (id : segment_id_t) (s : float) : Prop :=
  (exists info, items !! k = Some (id, info)) /\
  scored_at items k s /\
  (max0 <? s)%float = true /\
  (forall k' s', (k' < k)%nat -> scored_at items k' s' -> (s <=? s')%float = false) /\
  (forall k' s', (k < k')%nat -> scored_at items k' s' -> (s <? s')%float = false).

Lemma scored_at_cons p items k s :
  scored_at (p :: items) (S k) s <-> scored_at items k s.
Proof. unfold scored_at. cbn. tauto. Qed.

Lemma reclaim_loop_spec items : forall id0 max0 id max,
  reclaim_loop c now_time bound_time items id0 max0 = Some (id, max) ->
  (id = id0 /\ max = max0 /\
   forall k s, scored_at items k s -> (max0 <? s)%float = false) \/
  (exists k, wins_at items max0 k id max).
Proof.
  induction items as [|[_id info] items IH]; intros id0 max0 id max Hrun;
    cbn [reclaim_loop] in Hrun.
  - injection Hrun as <- <-. left. repeat split.
    intros k s (p & Hk & _). discriminate.
  - change (is_closed info && negb (is_in_journal info (get_journal_tail c)))
      with (candidate (_id, info)) in Hrun.
    destruct (candidate (_id, info)) eqn:Hcand.
    + change (calc_gc_benefit_cost c _id now_time bound_time)
        with (score (_id, info)) in Hrun.
      destruct (score (_id, info)) as [s|] eqn:Hs; [|discriminate].
      assert (Hhead : scored_at ((_id, info) :: items) 0 s).
      { exists (_id, info). auto. }
      destruct (max0 <? s)%float eqn:Hlt.
      * destruct (IH _ _ _ _ Hrun) as [(-> & -> & Hrest)|(k & Hi & Hsc & Hbeat & Hbefore & Hafter)].
        -- right. exists 0%nat. split; [eexists; reflexivity|].
           split; [exact Hhead|]. split; [exact Hlt|]. split.
           ++ intros k' s' Hk'. lia.
           ++ intros [|k'] s' Hk' Hsc'; [lia|].
              apply Hrest with k'. now apply scored_at_cons in Hsc'.
        -- right. exists (S k). split; [exact Hi|].
           split; [now apply scored_at_cons|].
           split; [eapply double_lt_trans; eassumption|]. split.
           ++ intros [|k'] s' Hk' Hsc'.
              ** destruct Hsc' as (p & Hp & _ & Hsp). injection Hp as <-.
                 rewrite Hs in Hsp. injection Hsp as <-.
                 now apply double_lt_not_ge.
              ** apply Hbefore with k'; [lia|]. now apply scored_at_cons in Hsc'.
           ++ intros [|k'] s' Hk' Hsc'; [lia|].
              apply Hafter with k'; [lia|]. now apply scored_at_cons in Hsc'.
      * destruct (IH _ _ _ _ Hrun) as [(-> & -> & Hrest)|(k & Hi & Hsc & Hbeat & Hbefore & Hafter)].
        -- left. repeat split. intros [|k'] s' Hsc'.
           ++ destruct Hsc' as (p & Hp & _ & Hsp). injection Hp as <-.
              rewrite Hs in Hsp. now injection Hsp as <-.
           ++ apply Hrest with k'. now apply scored_at_cons in Hsc'.
        -- right. exists (S k). split; [exact Hi|].
           split; [now apply scored_at_cons|]. split; [exact Hbeat|]. split.
           ++ intros [|k'] s' Hk' Hsc'.
              ** destruct Hsc' as (p & Hp & _ & Hsp). injection Hp as <-.
                 rewrite Hs in Hsp. injection Hsp as <-.
                 destruct (max <=? s)%float eqn:Hle; [|reflexivity].
                 pose proof (double_lt_le_trans _ _ _ Hbeat Hle). congruence.
              ** apply Hbefore with k'; [lia|]. now apply scored_at_cons in Hsc'.
           ++ intros [|k'] s' Hk' Hsc'; [lia|].
              apply Hafter with k'; [lia|]. now apply scored_at_cons in Hsc'.
    + destruct (IH _ _ _ _ Hrun) as [(-> & -> & Hrest)|(k & Hi & Hsc & Hbeat & Hbefore & Hafter)].
      * left. repeat split. intros [|k'] s' Hsc'.
        -- destruct Hsc' as (p & Hp & Hc & _). injection Hp as <-. congruence.
        -- apply Hrest with k'. now apply scored_at_cons in Hsc'.
      * right. exists (S k). split; [exact Hi|].
        split; [now apply scored_at_cons|]. split; [exact Hbeat|]. split.
        -- intros [|k'] s' Hk' Hsc'.
           ++ destruct Hsc' as (p & Hp & Hc & _). injection Hp as <-. congruence.
           ++ apply Hbefore with k'; [lia|]. now apply scored_at_cons in Hsc'.
        -- intros [|k'] s' Hk' Hsc'; [lia|].
           apply Hafter with k'; [lia|]. now apply scored_at_cons in Hsc'.
Qed.

(** Segments that are not candidates play no part. *)
Lemma reclaim_loop_filter items : forall id0 max0,
  reclaim_loop c now_time bound_time items id0 max0
  = reclaim_loop c now_time bound_time (filter (fun p => candidate p = true) items)
      id0 max0.
Proof.
  induction items as [|[_id info] items IH]; intros id0 max0; [reflexivity|].
  rewrite filter_cons. cbn [reclaim_loop].
  change (is_closed info && negb (is_in_journal info (get_journal_tail c)))
    with (candidate (_id, info)).
  destruct (decide (candidate (_id, info) = true)) as [Hc|Hc].
  - cbn [reclaim_loop].
    change (is_closed info && negb (is_in_journal info (get_journal_tail c)))
      with (candidate (_id, info)).
    rewrite Hc.
    destruct (calc_gc_benefit_cost c _id now_time bound_time); [|reflexivity].
    destruct (_ <? _)%float; apply IH.
  - apply not_true_is_false in Hc. rewrite Hc. apply IH.
Qed.

(** With every candidate scored the loop runs to its end. *)
Lemma reclaim_loop_total items : forall id0 max0,
  (forall p, p ∈ items -> candidate p = true -> is_Some (score p)) ->
  is_Some (reclaim_loop c now_time bound_time items id0 max0).
Proof.
  induction items as [|[_id info] items IH]; intros id0 max0 Hall;
    cbn [reclaim_loop]; [eauto|].
  change (is_closed info && negb (is_in_journal info (get_journal_tail c)))
    with (candidate (_id, info)).
  assert (Hrest : forall p, p ∈ items -> candidate p = true -> is_Some (score p)).
  { intros p Hp. apply Hall. now right. }
  destruct (candidate (_id, info)) eqn:Hc; [|now apply IH].
  destruct (Hall (_id, info) ltac:(left) Hc) as [s Hs].
  unfold score in Hs. cbn [fst] in Hs. rewrite Hs.
  destruct (_ <? _)%float; now apply IH.
Qed.
End victim_selection.

Lemma filter_no_candidate `{async_cleaner_h} (c : cleaner_t)
    (items : list (segment_id_t * segment_info_t)) :
  (forall p, p ∈ items -> candidate c p = false) ->
  filter (fun p => candidate c p = true) items = [].
Proof.
  induction items as [|p items IH]; intros Hall; [reflexivity|].
  rewrite filter_cons. destruct (decide (candidate c p = true)) as [Hc|Hc].
  - rewrite (Hall p ltac:(left)) in Hc. discriminate.
  - apply IH. intros q Hq. apply Hall. now right.
Qed.

(** The selector in terms of the iteration: the entry it returns wins over
    the start value 0, with no candidate it aborts, the entries that are not
    candidates play no part, and with a candidate of positive score, every
    candidate's score computed, it returns. *)
Lemma get_next_reclaim_segment_items `{async_cleaner_h}
    (c : cleaner_t) (clock_now : sea_time_point) :
  let items := segment_map_items (segments (c_segments c)) in
  (forall id,
      get_next_reclaim_segment c clock_now = Some id ->
      exists k s, wins_at c clock_now NULL_TIME items 0%float k id s) /\
  ((forall p, p ∈ items -> candidate c p = false) ->
   get_next_reclaim_segment c clock_now = None) /\
  get_next_reclaim_segment c clock_now
  = match reclaim_loop c clock_now NULL_TIME
            (filter (fun p => candidate c p = true) items) NULL_SEG_ID 0%float with
    | None => None
    | Some (id, _) => if id =? NULL_SEG_ID then None else Some id
    end /\
  ((forall p, p ∈ items -> candidate c p = true ->
              is_Some (score c clock_now NULL_TIME p)) ->
   (forall p, p ∈ items -> fst p <> NULL_SEG_ID) ->
   (exists k s, scored_at c clock_now NULL_TIME items k s /\ (0 <? s)%float = true) ->
   exists id, get_next_reclaim_segment c clock_now = Some id).
Proof.
  intros items. unfold get_next_reclaim_segment, gc_formula. cbv zeta. fold items.
  split; [|split; [|split]].
  - intros id Hrun.
    destruct (reclaim_loop c clock_now NULL_TIME items NULL_SEG_ID 0%float)
      as [[id' max]|] eqn:Hloop; [|discriminate].
    destruct (Z.eqb_spec id' NULL_SEG_ID) as [->|Hne]; [discriminate|].
    injection Hrun as ->.
    destruct (reclaim_loop_spec _ _ _ _ _ _ _ _ Hloop) as [(-> & _)|(k & Hwin)];
      [contradiction|].
    now exists k, max.
  - intros Hnone. rewrite reclaim_loop_filter, (filter_no_candidate c items Hnone).
    reflexivity.
  - now rewrite reclaim_loop_filter.
  - intros Hscores Hids (k & s & Hsc & Hpos).
    destruct (reclaim_loop_total c clock_now NULL_TIME items NULL_SEG_ID 0%float Hscores)
      as [[id max] Hloop].
    rewrite Hloop.
    destruct (reclaim_loop_spec _ _ _ _ _ _ _ _ Hloop) as [(_ & _ & Hall)|(k' & Hwin)].
    + rewrite (Hall k s Hsc) in Hpos. discriminate.
    + destruct Hwin as ((info & Hk') & _).
      assert (Hne : id <> NULL_SEG_ID).
      { apply (Hids (id, info)). eapply list_elem_of_lookup_2. exact Hk'. }
      apply Z.eqb_neq in Hne. rewrite Hne. eauto.
Qed.

(** Scenario 6 of the spec: two closed OOL segments of 5000 bytes at 20%
    utilization, segment 0 modified 10 s and segment 1 modified 1 s before
    now (11 s); segments 2 and 3 have no header. *)
Definition scenario6_sm_group : segment_manager_group_t :=
  mk_segment_manager_group [mk_segment_manager 0 5000 4 20000]
    (fun id =>
       if id =? 0 then Ok (mk_segment_header 1 41 OOL DATA 1)
       else if id =? 1 then Ok (mk_segment_header 2 42 OOL DATA 1)
       else Error enoent)
    (fun id =>
       if id =? 0 then Ok (mk_segment_tail 41 1000 3)
       else Ok (mk_segment_tail 42 10000 3))
    (fun _ _ _ => ([], None)).

Definition scenario6_with (live0 live1 : Z) : cleaner_t :=
  match mount scenario6_sm_group example_unmounted with
  | Done c =>
    set_space_tracker c
      (SpaceTrackerSimple (mk_segment_map (replicate 1 [live0; live1; 0; 0]) 4))
  | _ => example_unmounted
  end.

Definition scenario6 : cleaner_t := scenario6_with 1000 1000.

Definition scenario6_now : sea_time_point := 11000 * 1000000.

Example scenario6_picks_older :
  calc_gc_benefit_cost scenario6 0 scenario6_now NULL_TIME
  = Some 20000000000%float /\
  calc_gc_benefit_cost scenario6 1 scenario6_now NULL_TIME
  = Some 2000000000%float /\
  get_next_reclaim_segment scenario6 scenario6_now = Some 0.
Proof. repeat split; vm_compute; reflexivity. Qed.

(** With segment 1 empty of live data its score is [DBL_MAX] and it is
    picked; with equal scores the first one found is kept. *)
Example scenario6_zero_utilization_first :
  get_next_reclaim_segment (scenario6_with 1000 0) scenario6_now = Some 1 /\
  get_next_reclaim_segment (scenario6_with 0 0) scenario6_now = Some 0.
Proof. split; vm_compute; reflexivity. Qed.

(** No closed segment: the selector aborts. *)
Example no_candidate_aborts :
  get_next_reclaim_segment example_unmounted scenario6_now = None.
Proof. vm_compute. reflexivity. Qed.

(** * Further properties *)

(** ** A full cycle of one segment *)

(** [update_written_to] for each offset in turn. *)
Fixpoint apply_writes (s : segments_info_t) (_type : segment_type_t)
    (offsets : list paddr_t) : option segments_info_t :=
  match offsets with
  | [] => Some s
  | o :: offsets' =>
    match update_written_to s _type o with
    | None => None
    | Some s' => apply_writes s' _type offsets'
    end
  end.

(** [s'] is [s] with segment [id] rewritten: same segment size, same map but
    for the entry of [id], whose state is [st]. *)
Definition rewrites (s s' : segments_info_t) (id : segment_id_t)
    (st : segment_state_t) : Prop :=
  segment_size s' = segment_size s /\
  exists x, segments s' = segment_map_set (segments s) id x /\ state x = st.

Lemma rewrites_trans s s1 s2 id st1 st2 :
  rewrites s s1 id st1 -> rewrites s1 s2 id st2 -> rewrites s s2 id st2.
Proof.
  intros [Hs1 (x1 & Hm1 & _)] [Hs2 (x2 & Hm2 & Hst)]. split; [congruence|].
  exists x2. split; [|exact Hst]. rewrite Hm2, Hm1. apply segment_map_set_set.
Qed.

Lemma mark_open_rewrites s id q t c g s' :
  mark_open s id q t c g = Some s' ->
  rewrites s s' id OPEN /\
  exists x0, segment_map_get (segments s) id = Some x0 /\ state x0 = EMPTY.
Proof.
  intros H. unfold mark_open in H. peel H.
  unfold set_open in E3. peel E3. injection E3 as <-. injection H as <-.
  to_prop. split; [|eauto]. split; [reflexivity|]. eexists. split; reflexivity.
Qed.

Lemma update_written_to_rewrites s t o s' :
  update_written_to s t o = Some s' -> rewrites s s' (get_segment_id o) OPEN.
Proof.
  intros H. unfold update_written_to in H. cbv zeta in H. peel H. injection H as <-.
  to_prop. split; [reflexivity|]. eexists. split; [reflexivity|]. assumption.
Qed.

Lemma mark_closed_rewrites s id s' :
  mark_closed s id = Some s' -> rewrites s s' id CLOSED.
Proof.
  intros H. unfold mark_closed in H. cbv zeta in H. peel H. injection H as <-.
  split; [reflexivity|]. eexists. split; reflexivity.
Qed.

Lemma mark_empty_rewrites s id s' :
  mark_empty s id = Some s' -> rewrites s s' id EMPTY.
Proof.
  intros H. unfold mark_empty in H. cbv zeta in H. peel H. injection H as <-.
  split; [reflexivity|]. eexists. split; reflexivity.
Qed.

Lemma apply_writes_rewrites id t offsets : forall s s',
  Forall (fun o => get_segment_id o = id) offsets ->
  rewrites s s id OPEN ->
  apply_writes s t offsets = Some s' ->
  rewrites s s' id OPEN /\ (directory_inv s -> directory_inv s').
Proof.
  induction offsets as [|o offsets IH]; intros s s' Hids Hself H;
    cbn [apply_writes] in H.
  - injection H as <-. auto.
  - destruct (update_written_to s t o) as [s1|] eqn:E; [|discriminate].
    inversion Hids as [|? ? Ho Hrest]; subst.
    pose proof (update_written_to_rewrites _ _ _ _ E) as Hrw.
    assert (Hself1 : rewrites s1 s1 (get_segment_id o) OPEN).
    { destruct Hrw as [_ (x & Hm & Hst)]. split; [reflexivity|].
      exists x. split; [|exact Hst]. rewrite Hm. symmetry. apply segment_map_set_set. }
    destruct (IH s1 s' Hrest Hself1 H) as [Hrw' Hinv']. split.
    + eapply rewrites_trans; eassumption.
    + intros Hinv. apply Hinv'. eapply update_written_to_inv; eassumption.
Qed.

(** Open an EMPTY segment, write to it any number of times, close it and
    release it: the segment counts, [avail_bytes_in_open] and
    [get_available_bytes] are back at their values. *)
Theorem open_write_close_empty_restores s id q t c g offsets s1 s2 s3 s4 :
  directory_inv s ->
  Forall (fun o => get_segment_id o = id) offsets ->
  mark_open s id q t c g = Some s1 ->
  apply_writes s1 t offsets = Some s2 ->
  mark_closed s2 id = Some s3 ->
  mark_empty s3 id = Some s4 ->
  num_empty s4 = num_empty s /\ num_open s4 = num_open s /\
  num_closed s4 = num_closed s /\
  avail_bytes_in_open s4 = avail_bytes_in_open s /\
  get_available_bytes s4 = get_available_bytes s.
Proof.
  intros Hinv Hids H1 H2 H3 H4.
  destruct (mark_open_rewrites _ _ _ _ _ _ _ H1) as [Hrw1 (x0 & Hget & Hst0)].
  assert (Hself1 : rewrites s1 s1 id OPEN).
  { destruct Hrw1 as [_ (x & Hm & Hst)]. split; [reflexivity|].
    exists x. split; [|exact Hst]. rewrite Hm. symmetry. apply segment_map_set_set. }
  destruct (apply_writes_rewrites id t offsets s1 s2 Hids Hself1 H2) as [Hrw2 Hinv2].
  pose proof (mark_closed_rewrites _ _ _ H3) as Hrw3.
  pose proof (mark_empty_rewrites _ _ _ H4) as Hrw4.
  pose proof (rewrites_trans _ _ _ _ _ _ Hrw1
                (rewrites_trans _ _ _ _ _ _ Hrw2
                   (rewrites_trans _ _ _ _ _ _ Hrw3 Hrw4))) as [Hss (x & Hm & Hst)].
  assert (Hinv4 : directory_inv s4).
  { eapply mark_empty_inv; [|exact H4]. eapply mark_closed_inv; [|exact H3].
    apply Hinv2. eapply mark_open_inv; eassumption. }
  assert (Hcount : forall st, count_state st (segments s4) = count_state st (segments s)).
  { intros st. rewrite Hm, (count_state_set _ _ _ _ _ Hget), Hst0, Hst. lia. }
  assert (Havail : avail_bytes_in_open s4 = avail_bytes_in_open s).
  { rewrite (inv_avail _ Hinv4), (inv_avail _ Hinv), Hss, Hm.
    rewrite (seg_sum_set _ _ _ _ _ Hget). unfold open_avail at 2 3, is_open.
    rewrite Hst0, Hst.
    rewrite (bool_decide_eq_false_2 (EMPTY = OPEN)) by discriminate. lia. }
  assert (Hempty : num_empty s4 = num_empty s).
  { now rewrite (inv_empty _ Hinv4), (inv_empty _ Hinv), Hcount. }
  split; [exact Hempty|].
  split; [now rewrite (inv_open _ Hinv4), (inv_open _ Hinv), Hcount|].
  split; [now rewrite (inv_closed _ Hinv4), (inv_closed _ Hinv), Hcount|].
  split; [exact Havail|].
  unfold get_available_bytes, get_segment_size. now rewrite Hempty, Hss, Havail.
Qed.

Definition example_cycle : option segments_info_t :=
  match mark_open example_state 2 0 OOL DATA 1 with
  | None => None
  | Some s1 =>
    match apply_writes s1 OOL [make_seg_paddr 2 512; make_seg_paddr 2 1024] with
    | None => None
    | Some s2 =>
      match mark_closed s2 2 with
      | None => None
      | Some s3 => mark_empty s3 2
      end
    end
  end.

Lemma open_write_close_empty_restores_witness :
  exists s4,
    example_cycle = Some s4 /\
    num_empty s4 = num_empty example_state /\
    num_open s4 = num_open example_state /\
    num_closed s4 = num_closed example_state /\
    avail_bytes_in_open s4 = avail_bytes_in_open example_state /\
    get_available_bytes s4 = get_available_bytes example_state.
Proof.
  unfold example_cycle.
  destruct (mark_open example_state 2 0 OOL DATA 1) as [s1|] eqn:H1;
    [|vm_compute in H1; discriminate].
  destruct (apply_writes s1 OOL [make_seg_paddr 2 512; make_seg_paddr 2 1024])
    as [s2|] eqn:H2;
    [|vm_compute in H1; injection H1 as <-; vm_compute in H2; discriminate].
  destruct (mark_closed s2 2) as [s3|] eqn:H3;
    [|vm_compute in H1; injection H1 as <-; vm_compute in H2; injection H2 as <-;
      vm_compute in H3; discriminate].
  destruct (mark_empty s3 2) as [s4|] eqn:H4;
    [|vm_compute in H1; injection H1 as <-; vm_compute in H2; injection H2 as <-;
      vm_compute in H3; injection H3 as <-; vm_compute in H4; discriminate].
  exists s4. split; [reflexivity|].
  apply (open_write_close_empty_restores example_state 2 0 OOL DATA 1
           [make_seg_paddr 2 512; make_seg_paddr 2 1024] s1 s2 s3 s4).
  - exact (reachable_directory_inv head_null_by_id example_state
             example_state_reachable).
  - repeat constructor.
  - exact H1.
  - exact H2.
  - exact H3.
  - exact H4.
Defined.

(** ** Live bytes and the bitmap *)

Definition popcount (bm : list bool) : Z :=
  Zsum (fun b : bool => if b then 1 else 0) bm.

(** The counter of a [SegmentMap] is the number of set bits times the block
    size. *)
Definition usage_matches_bitmap (m : SegmentMap) (block_size : Z) : Prop :=
  used m = popcount (bitmap m) * block_size.

Lemma popcount_nonneg bm : 0 <= popcount bm.
Proof.
  unfold popcount. induction bm as [|b bm IH]; [cbn; lia|].
  rewrite Zsum_cons. destruct b; lia.
Qed.

Lemma set_blocks_error_sticky v n : forall i bm bm' error',
  set_blocks v i n bm true = Some (bm', error') -> error' = true.
Proof.
  induction n as [|n IH]; intros i bm bm' error' H; cbn [set_blocks] in H.
  - now injection H as _ <-.
  - destruct (bm !! i) as [cur|]; [|discriminate].
    cbn [orb] in H. eapply IH. exact H.
Qed.

Lemma set_blocks_popcount v n : forall i bm error bm',
  set_blocks v i n bm error = Some (bm', false) ->
  popcount bm' = popcount bm + (if v then Z.of_nat n else - Z.of_nat n).
Proof.
  induction n as [|n IH]; intros i bm error bm' H; cbn [set_blocks] in H.
  - injection H as <- _. destruct v; lia.
  - destruct (bm !! i) as [cur|] eqn:Hi; [|discriminate].
    destruct (error || eqb cur v) eqn:E.
    + apply set_blocks_error_sticky in H. discriminate.
    + apply IH in H. rewrite H. unfold popcount.
      rewrite (Zsum_insert _ bm i cur v Hi).
      apply orb_false_iff in E. destruct E as [_ E].
      destruct cur, v; cbn in E; try discriminate; lia.
Qed.

Lemma mark_range_unfold v m _offset len block_size :
  range_ok m _offset len block_size ->
  mark_range v m _offset len block_size
  = set_blocks v (first_block _offset block_size) (num_blocks len block_size)
      (bitmap m) false.
Proof.
  intros [Hb [Ho Hoa] [Hl Hla] Hfit Hend].
  unfold mark_range, first_block, num_blocks, wrap32.
  rewrite (wrap_small 32 _offset) by lia.
  rewrite (wrap_small 32 (_offset + len)) by lia.
  assert (Hdiv : (_offset + len) / block_size = _offset / block_size + len / block_size).
  { rewrite (Z.div_mod len block_size) at 1 by lia. rewrite Hla, Z.add_0_r.
    rewrite Z.mul_comm, Z.div_add by lia. reflexivity. }
  destruct (Z.ltb_spec 0 block_size); [|lia].
  destruct (Z.eqb_spec (_offset mod block_size) 0); [|lia].
  destruct (Z.eqb_spec (len mod block_size) 0); [|lia].
  cbv zeta. rewrite Hdiv.
  replace (_offset / block_size + len / block_size - _offset / block_size)
    with (len / block_size) by lia.
  reflexivity.
Qed.

(** An [allocate] or a [release] that logs no error keeps the counter equal
    to the number of set bits times the block size. *)
Theorem usage_matches_bitmap_preserved m segment _offset len block_size m' ret :
  range_ok m _offset len block_size ->
  usage_matches_bitmap m block_size ->
  used m + len < 2 ^ 63 ->
  SegmentMap_allocate m segment _offset len block_size = Some (m', ret, false) \/
  SegmentMap_release m segment _offset len block_size = Some (m', ret, false) ->
  usage_matches_bitmap m' block_size /\ ret = used m'.
Proof.
  intros Hok Hm Hmax Hrun.
  pose proof (popcount_nonneg (bitmap m)) as Hpop.
  pose proof Hok as [Hb [Ho Hoa] [Hl Hla] Hfit Hend].
  assert (Hlen : len = Z.of_nat (num_blocks len block_size) * block_size).
  { unfold num_blocks. rewrite Z2Nat.id by (apply Z.div_pos; lia).
    rewrite (Z.div_mod len block_size) at 1 by lia. lia. }
  assert (Hused : 0 <= used m) by (rewrite Hm; nia).
  unfold usage_matches_bitmap in *.
  unfold SegmentMap_allocate, SegmentMap_release in Hrun.
  destruct Hrun as [Hrun|Hrun].
  - rewrite (mark_range_unfold true m _ _ _ Hok) in Hrun.
    destruct (set_blocks true _ _ (bitmap m) false) as [[bm' error]|] eqn:E;
      [|discriminate].
    cbn [update_usage used bitmap] in Hrun. injection Hrun as <- <- ->.
    apply set_blocks_popcount in E. cbn [used bitmap].
    rewrite wrap_int64_small by lia. split; [|reflexivity]. rewrite E, Hm. lia.
  - rewrite (mark_range_unfold false m _ _ _ Hok) in Hrun.
    destruct (set_blocks false _ _ (bitmap m) false) as [[bm' error]|] eqn:E;
      [|discriminate].
    cbn [update_usage used bitmap] in Hrun. injection Hrun as <- <- ->.
    apply set_blocks_popcount in E. cbn [used bitmap].
    rewrite wrap_int64_small by lia. split; [|reflexivity]. rewrite E, Hm. lia.
Qed.

Lemma usage_matches_bitmap_preserved_witness :
  usage_matches_bitmap (mk_SegmentMap 8192 [true; true]) 4096 /\
  8192 = used (mk_SegmentMap 8192 [true; true]).
Proof.
  assert (Hok : range_ok example_segment_map 4096 4096 4096).
  { constructor; [lia|split; [lia|reflexivity]|split; [lia|reflexivity]|lia|].
    vm_compute. discriminate. }
  apply (usage_matches_bitmap_preserved example_segment_map 0 4096 4096 4096
           (mk_SegmentMap 8192 [true; true]) 8192 Hok).
  - reflexivity.
  - vm_compute. reflexivity.
  - left. reflexivity.
Defined.

(** With the error logged the counter and the bitmap part: allocating the
    block that is live already counts it twice. *)
Example logged_error_breaks_usage :
  usage_matches_bitmap example_segment_map 4096 /\
  exists m' ret,
    SegmentMap_allocate example_segment_map 0 0 4096 4096 = Some (m', ret, true) /\
    ~ usage_matches_bitmap m' 4096.
Proof.
  split; [reflexivity|]. do 2 eexists. split; [reflexivity|].
  vm_compute. discriminate.
Qed.

Lemma mark_space_change_needs_segment_witness :
  exists c',
    mark_space_used example_cleaner (make_seg_paddr 1 0) 512 false = Some c' /\
    c' <> example_cleaner /\
    get_addr_type (make_seg_paddr 1 0) = SEGMENT /\
    (init_complete example_cleaner = true \/ false = true).
Proof.
  destruct (mark_space_used example_cleaner (make_seg_paddr 1 0) 512 false)
    as [c'|] eqn:E; [|vm_compute in E; discriminate].
  assert (Hne : c' <> example_cleaner).
  { intros ->.
    apply (f_equal (fun o => match o with
                             | Some c => used_bytes (stats c)
                             | None => 0
                             end)) in E.
    vm_compute in E. discriminate. }
  exists c'. split; [reflexivity|]. split; [exact Hne|].
  exact (mark_space_change_needs_segment example_cleaner c' (make_seg_paddr 1 0)
           512 false (or_introl E) Hne).
Defined.

(** * Addresses and journal sequences *)

(** ** Bit patterns as quotient and remainder *)

Lemma lor_shiftl_add hi lo k :
  0 <= k -> 0 <= lo < 2 ^ k -> Z.lor (Z.shiftl hi k) lo = hi * 2 ^ k + lo.
Proof.
  intros Hk Hlo.
  assert (Hland : Z.land (Z.shiftl hi k) lo = 0).
  { apply Z.bits_inj'. intros n Hn. rewrite Z.land_spec, Z.bits_0.
    destruct (Z.ltb_spec n k) as [Hlt|Hge].
    - rewrite Z.shiftl_spec_low by assumption. reflexivity.
    - rewrite <- (Z.mod_small lo (2 ^ k)) by assumption.
      rewrite <- Z.land_ones by assumption.
      rewrite Z.land_spec, Z.ones_spec_high by lia.
      now rewrite !andb_false_r. }
  rewrite <- Z.lxor_lor by assumption.
  rewrite <- Z.add_nocarry_lxor by assumption.
  now rewrite Z.shiftl_mul_pow2 by assumption.
Qed.

Lemma to_int32_small x : - 2 ^ 31 <= x < 2 ^ 31 -> to_int32 x = x.
Proof.
  intros H. unfold to_int32, wrap32, wrap.
  destruct (Z.neg_nonneg_cases x) as [Hx|Hx].
  - replace (x mod 2 ^ 32) with (x + 2 ^ 32).
    + destruct (Z.ltb_spec (x + 2 ^ 32) (2 ^ 31)); lia.
    + rewrite <- (Z_mod_plus_full x 1 (2 ^ 32)). symmetry. apply Z.mod_small. lia.
  - rewrite Z.mod_small by lia. destruct (Z.ltb_spec x (2 ^ 31)); lia.
Qed.

Lemma to_int32_wrap32 x : to_int32 (wrap32 x) = to_int32 x.
Proof. unfold to_int32, wrap32, wrap. now rewrite Z.mod_mod by lia. Qed.

Lemma to_int32_range x : - 2 ^ 31 <= to_int32 x < 2 ^ 31.
Proof.
  unfold to_int32, wrap32, wrap.
  pose proof (Z.mod_pos_bound x (2 ^ 32) ltac:(lia)).
  destruct (Z.ltb_spec (x mod 2 ^ 32) (2 ^ 31)); lia.
Qed.

Lemma wrap32_to_int32 x : wrap32 (to_int32 x) = wrap32 x.
Proof.
  unfold to_int32, wrap32, wrap.
  destruct (Z.ltb_spec (x mod 2 ^ 32) (2 ^ 31)).
  - now rewrite Z.mod_mod by lia.
  - replace (x mod 2 ^ 32 - 2 ^ 32) with (x mod 2 ^ 32 + (-1) * 2 ^ 32) by lia.
    rewrite Z_mod_plus_full. now rewrite Z.mod_mod by lia.
Qed.

Definition is_paddr (p : paddr_t) : Prop := 0 <= p < 2 ^ 64.

Lemma get_device_id_spec p :
  is_paddr p -> get_device_id p = p / 2 ^ 56 /\ 0 <= p / 2 ^ 56 < 2 ^ 8.
Proof.
  intros [H0 H1]. unfold get_device_id, wrap8, BLOCK_OFF_BITS, PADDR_BITS, DEVICE_ID_BITS.
  change (64 - 8) with 56. rewrite Z.shiftr_div_pow2 by lia.
  assert (0 <= p / 2 ^ 56 < 2 ^ 8).
  { split; [apply Z.div_pos; lia|]. apply Z.div_lt_upper_bound; lia. }
  split; [now apply wrap_small|assumption].
Qed.

Lemma get_segment_id_spec p :
  is_paddr p -> get_segment_id p = p / 2 ^ 32 /\ is_segment_id (p / 2 ^ 32).
Proof.
  intros [H0 H1]. unfold get_segment_id, wrap32, SEGMENT_OFF_BITS.
  rewrite Z.shiftr_div_pow2 by lia.
  assert (0 <= p / 2 ^ 32 < 2 ^ 32).
  { split; [apply Z.div_pos; lia|]. apply Z.div_lt_upper_bound; lia. }
  split; [now apply wrap_small|assumption].
Qed.

Lemma get_segment_off_spec p : get_segment_off p = to_int32 (p mod 2 ^ 32).
Proof.
  unfold get_segment_off, SEGMENT_OFF_MASK, SEGMENT_OFF_BITS.
  change (Z.shiftl 1 32 - 1) with (Z.ones 32). now rewrite Z.land_ones by lia.
Qed.

Lemma get_seastore_off_spec p : get_seastore_off p = to_int32 (p mod 2 ^ 32).
Proof.
  unfold get_seastore_off, SEASTORE_OFF_MASK, SEGMENT_OFF_MASK, SEGMENT_OFF_BITS.
  change (Z.shiftl 1 32 - 1) with (Z.ones 32). now rewrite Z.land_ones by lia.
Qed.

Lemma get_block_off_spec p : get_block_off p = p mod 2 ^ 56.
Proof.
  unfold get_block_off. change BLOCK_OFF_MASK with (Z.ones 56).
  now rewrite Z.land_ones by lia.
Qed.

Lemma make_seg_paddr_spec seg off :
  make_seg_paddr seg off = seg * 2 ^ 32 + wrap32 off.
Proof.
  unfold make_seg_paddr, SEGMENT_OFF_BITS. apply lor_shiftl_add; [lia|].
  apply wrap_range. lia.
Qed.

Lemma make_seg_paddr_is_paddr seg off :
  is_segment_id seg -> is_paddr (make_seg_paddr seg off).
Proof.
  intros [H0 H1]. rewrite make_seg_paddr_spec.
  pose proof (wrap_range 32 off ltac:(lia)). unfold wrap32, is_paddr. lia.
Qed.

Lemma device_of_segment_of_paddr p :
  is_paddr p -> device_id (get_segment_id p) = get_device_id p.
Proof.
  intros Hp. destruct (get_segment_id_spec p Hp) as [-> Hs].
  destruct (device_id_spec _ Hs) as [-> _].
  destruct (get_device_id_spec p Hp) as [-> _].
  rewrite Z.div_div by lia. reflexivity.
Qed.

(** The type of a device id, by range. *)
Lemma device_id_type d :
  0 <= d < 256 ->
  device_id_to_paddr_type d =
    if d <? 128 then SEGMENT else if d <=? 248 then RANDOM_BLOCK else RESERVED.
Proof.
  intros Hd.
  assert (Hall : forallb (fun n : nat =>
            bool_decide (device_id_to_paddr_type (Z.of_nat n) =
              if Z.of_nat n <? 128 then SEGMENT
              else if Z.of_nat n <=? 248 then RANDOM_BLOCK else RESERVED))
            (List.seq 0 256) = true) by (vm_compute; reflexivity).
  rewrite forallb_forall in Hall.
  specialize (Hall (Z.to_nat d)). rewrite Z2Nat.id in Hall by lia.
  eapply bool_decide_eq_true_1. apply Hall. apply in_seq. lia.
Qed.

(** ** Segment ids *)

Lemma make_internal_spec d s :
  0 <= d < 2 ^ 8 -> 0 <= s < 2 ^ 24 -> make_internal d s = d * 2 ^ 24 + s.
Proof.
  intros Hd Hs. unfold make_internal, DEVICE_SEGMENT_ID_BITS, SEGMENT_ID_BITS,
    DEVICE_ID_BITS, wrap32. change (32 - 8) with 24.
  rewrite Z.lor_comm, lor_shiftl_add by lia. apply wrap_small. lia.
Qed.

Lemma make_internal_parts d s :
  0 <= d < 2 ^ 8 -> 0 <= s < 2 ^ 24 ->
  device_id (make_internal d s) = d /\
  device_segment_id (make_internal d s) = s /\
  is_segment_id (make_internal d s).
Proof.
  intros Hd Hs.
  assert (Hid : is_segment_id (make_internal d s)).
  { rewrite make_internal_spec by assumption. unfold is_segment_id. lia. }
  split; [|split; [|exact Hid]].
  - destruct (device_id_spec _ Hid) as [-> _]. rewrite make_internal_spec by assumption.
    rewrite Z.div_add_l by lia. rewrite Z.div_small by lia. lia.
  - rewrite device_segment_id_spec, make_internal_spec by assumption.
    rewrite Z.add_comm, Z_mod_plus_full. apply Z.mod_small. lia.
Qed.

Lemma make_internal_rebuild id :
  is_segment_id id -> make_internal (device_id id) (device_segment_id id) = id.
Proof.
  intros Hid. destruct (device_id_spec id Hid) as [E Hr].
  rewrite E, device_segment_id_spec.
  rewrite make_internal_spec; [|lia|apply Z.mod_pos_bound; lia].
  rewrite (Z.div_mod id (2 ^ 24)) at 3 by lia. lia.
Qed.

(** A segment id packs a device id and a device segment id: both are read
    back, every 32-bit id is rebuilt from its two parts, and the constructor
    accepts exactly the device ids below 128. *)
Theorem segment_id_roundtrip d s :
  0 <= d < 2 ^ 8 -> 0 <= s < 2 ^ 24 ->
  device_id (make_internal d s) = d /\
  device_segment_id (make_internal d s) = s /\
  is_segment_id (make_internal d s) /\
  segment_id_of d s = (if d <? 128 then Some (make_internal d s) else None) /\
  (forall id, is_segment_id id ->
              make_internal (device_id id) (device_segment_id id) = id).
Proof.
  intros Hd Hs. destruct (make_internal_parts d s Hd Hs) as (Hdev & Hseg & Hid).
  split; [exact Hdev|]. split; [exact Hseg|]. split; [exact Hid|]. split.
  { unfold segment_id_of, segment_id_of_internal. rewrite Hdev.
    rewrite device_id_type by lia.
    destruct (d <? 128); [reflexivity|]. now destruct (d <=? 248). }
  exact make_internal_rebuild.
Qed.

(** ** Segment addresses *)

Lemma make_seg_paddr_accessors seg off :
  is_segment_id seg ->
  get_segment_id (make_seg_paddr seg off) = seg /\
  get_segment_off (make_seg_paddr seg off) = to_int32 off /\
  get_device_id (make_seg_paddr seg off) = device_id seg.
Proof.
  intros Hseg. pose proof (make_seg_paddr_is_paddr seg off Hseg) as Hp.
  pose proof (wrap_range 32 off ltac:(lia)) as Hw. fold wrap32 in Hw.
  assert (Hid : get_segment_id (make_seg_paddr seg off) = seg).
  { destruct (get_segment_id_spec _ Hp) as [-> _]. rewrite make_seg_paddr_spec.
    rewrite Z.div_add_l by lia. rewrite Z.div_small by lia. lia. }
  split; [exact Hid|]. split.
  - rewrite get_segment_off_spec, make_seg_paddr_spec.
    rewrite Z.add_comm, Z_mod_plus_full. rewrite Z.mod_small by lia.
    apply to_int32_wrap32.
  - rewrite <- (device_of_segment_of_paddr _ Hp). now rewrite Hid.
Qed.

Lemma make_seg_paddr_rebuild p :
  is_paddr p -> make_seg_paddr (get_segment_id p) (get_segment_off p) = p.
Proof.
  intros Hp. destruct (get_segment_id_spec p Hp) as [E _].
  rewrite make_seg_paddr_spec, E, get_segment_off_spec, wrap32_to_int32.
  unfold wrap32, wrap. rewrite Z.mod_mod by lia.
  rewrite (Z.div_mod p (2 ^ 32)) at 3 by lia. lia.
Qed.

(** A segment address packs a segment id and an offset: both are read back,
    the address has the type of the segment's device, a negative offset is
    refused by the constructor, and every 64-bit address is rebuilt from its
    two parts. *)
Theorem seg_paddr_roundtrip seg off :
  is_segment_id seg -> device_id seg < 128 -> - 2 ^ 31 <= off < 2 ^ 31 ->
  paddr_seg seg off = (if 0 <=? off then Some (make_seg_paddr seg off) else None) /\
  get_addr_type (make_seg_paddr seg off) = SEGMENT /\
  get_segment_id (make_seg_paddr seg off) = seg /\
  get_segment_off (make_seg_paddr seg off) = off /\
  (forall p, is_paddr p -> make_seg_paddr (get_segment_id p) (get_segment_off p) = p).
Proof.
  intros Hseg Hdev Hoff.
  destruct (make_seg_paddr_accessors seg off Hseg) as (Hid & Ho & Hd).
  rewrite to_int32_small in Ho by assumption.
  assert (Hty : get_addr_type (make_seg_paddr seg off) = SEGMENT).
  { unfold get_addr_type. rewrite Hd. pose proof (device_id_nonneg seg).
    rewrite device_id_type by lia. destruct (Z.ltb_spec (device_id seg) 128); [reflexivity|lia]. }
  split.
  { unfold paddr_seg, paddr_of_internal. fold (get_addr_type (make_seg_paddr seg off)).
    rewrite Hty, Ho. reflexivity. }
  split; [exact Hty|]. split; [exact Hid|]. split; [exact Ho|].
  exact make_seg_paddr_rebuild.
Qed.

(** ** Offsets of addresses *)

Lemma dev_lor_spec dev lo :
  0 <= dev < 2 ^ 8 -> 0 <= lo < 2 ^ 56 ->
  Z.lor (Z.shiftl dev BLOCK_OFF_BITS) lo = dev * 2 ^ 56 + lo /\
  is_paddr (Z.lor (Z.shiftl dev BLOCK_OFF_BITS) lo) /\
  get_device_id (Z.lor (Z.shiftl dev BLOCK_OFF_BITS) lo) = dev /\
  get_block_off (Z.lor (Z.shiftl dev BLOCK_OFF_BITS) lo) = lo.
Proof.
  intros Hd Hlo.
  assert (E : Z.lor (Z.shiftl dev BLOCK_OFF_BITS) lo = dev * 2 ^ 56 + lo).
  { change BLOCK_OFF_BITS with 56. apply lor_shiftl_add; lia. }
  rewrite E.
  assert (Hp : is_paddr (dev * 2 ^ 56 + lo)) by (unfold is_paddr; lia).
  split; [reflexivity|]. split; [exact Hp|]. split.
  - destruct (get_device_id_spec _ Hp) as [-> _].
    rewrite Z.div_add_l by lia. rewrite Z.div_small by lia. lia.
  - rewrite get_block_off_spec. rewrite Z.add_comm, Z_mod_plus_full.
    apply Z.mod_small. lia.
Qed.

Lemma res_lor_spec dev off :
  0 <= dev < 2 ^ 8 ->
  is_paddr (Z.lor (Z.shiftl dev BLOCK_OFF_BITS) (wrap32 off)) /\
  get_device_id (Z.lor (Z.shiftl dev BLOCK_OFF_BITS) (wrap32 off)) = dev /\
  get_seastore_off (Z.lor (Z.shiftl dev BLOCK_OFF_BITS) (wrap32 off)) = to_int32 off.
Proof.
  intros Hd. pose proof (wrap_range 32 off ltac:(lia)) as Hw. fold wrap32 in Hw.
  destruct (dev_lor_spec dev (wrap32 off) Hd ltac:(lia)) as (E & Hp & Hdev & _).
  split; [exact Hp|]. split; [exact Hdev|].
  rewrite get_seastore_off_spec, E.
  replace (dev * 2 ^ 56) with (dev * 2 ^ 24 * 2 ^ 32) by lia.
  rewrite Z.add_comm, Z_mod_plus_full. rewrite Z.mod_small by lia.
  apply to_int32_wrap32.
Qed.

Lemma get_block_off_range p : 0 <= get_block_off p < 2 ^ 56.
Proof. rewrite get_block_off_spec. apply Z.mod_pos_bound. lia. Qed.

Lemma get_segment_off_range p : - 2 ^ 31 <= get_segment_off p < 2 ^ 31.
Proof. rewrite get_segment_off_spec. apply to_int32_range. Qed.

Lemma get_seastore_off_range p : - 2 ^ 31 <= get_seastore_off p < 2 ^ 31.
Proof. rewrite get_seastore_off_spec. apply to_int32_range. Qed.

Lemma get_device_id_range p : is_paddr p -> 0 <= get_device_id p < 2 ^ 8.
Proof. intros Hp. now destruct (get_device_id_spec p Hp) as [-> ?]. Qed.

Lemma to_int32_above x : 2 ^ 31 <= x < 2 ^ 32 -> to_int32 x = x - 2 ^ 32.
Proof.
  intros H. unfold to_int32, wrap32, wrap. rewrite Z.mod_small by lia.
  destruct (Z.ltb_spec x (2 ^ 31)); lia.
Qed.

Lemma to_int32_below x : - 2 ^ 32 <= x < - 2 ^ 31 -> to_int32 x = x + 2 ^ 32.
Proof.
  intros H. unfold to_int32, wrap32, wrap.
  replace (x mod 2 ^ 32) with (x + 2 ^ 32).
  - destruct (Z.ltb_spec (x + 2 ^ 32) (2 ^ 31)); lia.
  - rewrite <- (Z_mod_plus_full x 1 (2 ^ 32)). symmetry. apply Z.mod_small. lia.
Qed.

(** The three variants in closed form. *)
Lemma seg_add_offset_eval addr o :
  is_paddr addr -> get_addr_type addr = SEGMENT -> 0 <= get_segment_off addr ->
  - 2 ^ 31 <= o < 2 ^ 31 ->
  seg_add_offset addr o =
    if (0 <=? get_segment_off addr + o) && (get_segment_off addr + o <? 2 ^ 31)
    then Some (make_seg_paddr (get_segment_id addr) (get_segment_off addr + o))
    else None.
Proof.
  intros Hp Hty Hoff Ho. pose proof (get_segment_off_range addr) as Hr.
  destruct (get_segment_id_spec addr Hp) as [_ Hseg].
  assert (Hseg' : is_segment_id (get_segment_id addr)).
  { now destruct (get_segment_id_spec addr Hp) as [-> ?]. }
  assert (Hdty : device_id_to_paddr_type (device_id (get_segment_id addr)) = SEGMENT).
  { now rewrite device_of_segment_of_paddr by assumption. }
  unfold seg_add_offset, segment_id_of_internal, paddr_seg, paddr_of_internal.
  rewrite Hdty. rewrite bool_decide_eq_true_2 by reflexivity.
  destruct (make_seg_paddr_accessors (get_segment_id addr)
              (to_int32 (get_segment_off addr + o)) Hseg') as (_ & Eo & Ed).
  rewrite Ed, Hdty, Eo.
  set (off := get_segment_off addr) in *. 
  destruct (Z.leb_spec 0 (off + o)) as [H0|H0]; cbn [andb].
  - destruct (Z.ltb_spec (off + o) (2 ^ 31)) as [H1|H1].
    + rewrite !to_int32_small by lia.
      destruct (Z.leb_spec 0 o); [destruct (Z.leb_spec off (off + o)); [|lia]
                                 |destruct (Z.ltb_spec (off + o) off); [|lia]];
        destruct (Z.leb_spec 0 (off + o)); try lia; reflexivity.
    + rewrite (to_int32_above (off + o)) by lia.
      destruct (Z.leb_spec 0 o); [|lia].
      destruct (Z.leb_spec off (off + o - 2 ^ 32)); [lia|reflexivity].
  - rewrite (to_int32_small (off + o)) by lia.
    rewrite (to_int32_small (off + o)) by lia.
    destruct (Z.leb_spec 0 o); [lia|].
    destruct (Z.ltb_spec (off + o) off); [|lia].
    destruct (Z.leb_spec 0 (off + o)); [lia|reflexivity].
Qed.

Lemma make_blk_paddr_eval dev off :
  0 <= dev < 2 ^ 8 -> device_id_to_paddr_type dev = RANDOM_BLOCK ->
  make_blk_paddr dev off =
    if off <=? BLOCK_OFF_MAX
    then Some (Z.lor (Z.shiftl dev BLOCK_OFF_BITS) (Z.land off BLOCK_OFF_MASK))
    else None.
Proof.
  intros Hd Hty. unfold make_blk_paddr, paddr_of_internal, get_addr_type.
  assert (Hlo : 0 <= Z.land off BLOCK_OFF_MASK < 2 ^ 56).
  { change BLOCK_OFF_MASK with (Z.ones 56). rewrite Z.land_ones by lia.
    apply Z.mod_pos_bound. lia. }
  destruct (dev_lor_spec dev _ Hd Hlo) as (_ & _ & Hdev & _).
  rewrite Hdev, Hty. cbv beta iota. rewrite Hdev, Hty.
  rewrite bool_decide_eq_true_2 by reflexivity. reflexivity.
Qed.

Lemma blk_add_offset_eval addr o :
  is_paddr addr -> get_addr_type addr = RANDOM_BLOCK -> - 2 ^ 31 <= o < 2 ^ 31 ->
  blk_add_offset addr o =
    if (0 <=? get_block_off addr + o) && (get_block_off addr + o <=? BLOCK_OFF_MAX)
    then Some (Z.lor (Z.shiftl (get_device_id addr) BLOCK_OFF_BITS)
                 (get_block_off addr + o))
    else None.
Proof.
  intros Hp Hty Ho. pose proof (get_block_off_range addr) as Hr.
  pose proof (get_device_id_range addr Hp) as Hd.
  unfold blk_add_offset. rewrite make_blk_paddr_eval by assumption.
  set (off := get_block_off addr) in *. unfold wrap64, wrap.
  change BLOCK_OFF_MAX with (2 ^ 56 - 1).
  destruct (Z.leb_spec 0 (off + o)) as [H0|H0]; cbn [andb].
  - rewrite (Z.mod_small (off + o)) by lia.
    destruct (Z.leb_spec (off + o) (2 ^ 56 - 1)) as [H1|H1].
    + change BLOCK_OFF_MASK with (Z.ones 56). rewrite Z.land_ones by lia.
      rewrite (Z.mod_small (off + o)) by lia.
      destruct (Z.leb_spec 0 o); [destruct (Z.leb_spec off (off + o)); [|lia]
                                 |destruct (Z.ltb_spec (off + o) off); [|lia]];
        reflexivity.
    + destruct (Z.leb_spec 0 o); [destruct (Z.leb_spec off (off + o))|]; 
        try reflexivity; try lia.
  - replace ((off + o) mod 2 ^ 64) with (off + o + 2 ^ 64).
    + destruct (Z.leb_spec 0 o); [lia|].
      destruct (Z.ltb_spec (off + o + 2 ^ 64) off); [lia|reflexivity].
    + rewrite <- (Z_mod_plus_full (off + o) 1 (2 ^ 64)). symmetry.
      apply Z.mod_small. lia.
Qed.

Lemma make_res_paddr_eval dev off :
  0 <= dev < 2 ^ 8 -> device_id_to_paddr_type dev = RESERVED ->
  make_res_paddr dev off =
    if has_seastore_off dev || (wrap32 off =? 0)
    then Some (Z.lor (Z.shiftl dev BLOCK_OFF_BITS) (wrap32 off))
    else None.
Proof.
  intros Hd Hty. unfold make_res_paddr, paddr_of_internal, get_addr_type.
  destruct (res_lor_spec dev off Hd) as (Hp & Hdev & Hoff).
  rewrite Hdev, Hty.
  assert (Hmask : Z.land (Z.lor (Z.shiftl dev BLOCK_OFF_BITS) (wrap32 off))
                    SEASTORE_OFF_MASK = wrap32 off).
  { pose proof (wrap_range 32 off ltac:(lia)) as Hw. fold wrap32 in Hw.
    destruct (dev_lor_spec dev (wrap32 off) Hd ltac:(lia)) as (E & _).
    rewrite E. change SEASTORE_OFF_MASK with (Z.ones 32). rewrite Z.land_ones by lia.
    replace (dev * 2 ^ 56) with (dev * 2 ^ 24 * 2 ^ 32) by lia.
    rewrite Z.add_comm, Z_mod_plus_full. apply Z.mod_small. lia. }
  rewrite Hmask. cbv beta iota.
  destruct (has_seastore_off dev || (wrap32 off =? 0)); [|reflexivity].
  rewrite Hdev, Hty. rewrite bool_decide_eq_true_2 by reflexivity. reflexivity.
Qed.

Lemma res_add_offset_eval addr o :
  is_paddr addr -> get_addr_type addr = RESERVED -> - 2 ^ 31 <= o < 2 ^ 31 ->
  res_add_offset addr o =
    if has_seastore_off (get_device_id addr)
       && (- 2 ^ 31 <=? get_seastore_off addr + o)
       && (get_seastore_off addr + o <? 2 ^ 31)
    then Some (Z.lor (Z.shiftl (get_device_id addr) BLOCK_OFF_BITS)
                 (wrap32 (get_seastore_off addr + o)))
    else None.
Proof.
  intros Hp Hty Ho. pose proof (get_seastore_off_range addr) as Hr.
  pose proof (get_device_id_range addr Hp) as Hd.
  unfold res_add_offset.
  destruct (has_seastore_off (get_device_id addr)) eqn:Hhas; [|reflexivity].
  cbn [andb]. rewrite make_res_paddr_eval by assumption. rewrite Hhas. cbn [orb].
  set (off := get_seastore_off addr) in *.
  destruct (Z.leb_spec (- 2 ^ 31) (off + o)) as [H0|H0]; cbn [andb].
  - destruct (Z.ltb_spec (off + o) (2 ^ 31)) as [H1|H1].
    + rewrite !to_int32_small by lia.
      destruct (Z.leb_spec 0 o); [destruct (Z.leb_spec off (off + o)); [|lia]
                                 |destruct (Z.ltb_spec (off + o) off); [|lia]];
        reflexivity.
    + rewrite (to_int32_above (off + o)) by lia.
      destruct (Z.leb_spec 0 o); [|lia].
      destruct (Z.leb_spec off (off + o - 2 ^ 32)); [lia|reflexivity].
  - rewrite (to_int32_below (off + o)) by lia.
    destruct (Z.leb_spec 0 o); [lia|].
    destruct (Z.ltb_spec (off + o + 2 ^ 32) off); [lia|reflexivity].
Qed.

(** [add_offset] on a segment address: with the sum of the offsets inside
    [0, 2^31) the result is the address of the same segment at the summed
    offset; a sum below zero aborts. *)
Theorem segment_add_offset addr o :
  is_paddr addr -> get_addr_type addr = SEGMENT -> 0 <= get_segment_off addr ->
  - 2 ^ 31 <= o < 2 ^ 31 ->
  (0 <= get_segment_off addr + o < 2 ^ 31 ->
   exists p,
     paddr_add_offset addr o = Some p /\ is_paddr p /\
     get_addr_type p = SEGMENT /\
     get_segment_id p = get_segment_id addr /\
     get_segment_off p = get_segment_off addr + o) /\
  (get_segment_off addr + o < 0 -> paddr_add_offset addr o = None).
Proof.
  intros Hp Hty Hoff Ho. unfold paddr_add_offset. rewrite Hty.
  rewrite seg_add_offset_eval by assumption.
  assert (Hseg : is_segment_id (get_segment_id addr)).
  { now destruct (get_segment_id_spec addr Hp) as [-> ?]. }
  split.
  - intros [H0 H1].
    destruct (Z.leb_spec 0 (get_segment_off addr + o)); [|lia].
    destruct (Z.ltb_spec (get_segment_off addr + o) (2 ^ 31)); [|lia].
    cbn [andb]. eexists. split; [reflexivity|].
    destruct (make_seg_paddr_accessors (get_segment_id addr)
                (get_segment_off addr + o) Hseg) as (Ei & Eo & Ed).
    split; [now apply make_seg_paddr_is_paddr|]. split.
    + unfold get_addr_type. rewrite Ed, device_of_segment_of_paddr by assumption.
      exact Hty.
    + split; [exact Ei|]. rewrite Eo. apply to_int32_small. lia.
  - intros Hn.
    destruct (Z.leb_spec 0 (get_segment_off addr + o)); [lia|reflexivity].
Qed.

(** [add_offset] on a random-block address keeps the device and adds to the
    block offset when the sum is inside [0, BLOCK_OFF_MAX], and aborts when
    it is not; on a reserved address it aborts unless the device id is one
    that carries an offset, and then adds to the offset when the sum is an
    [int32]. *)
Theorem block_reserved_add_offset addr o :
  is_paddr addr -> - 2 ^ 31 <= o < 2 ^ 31 ->
  (get_addr_type addr = RANDOM_BLOCK ->
   if (0 <=? get_block_off addr + o) && (get_block_off addr + o <=? BLOCK_OFF_MAX)
   then exists p,
       paddr_add_offset addr o = Some p /\ is_paddr p /\
       get_device_id p = get_device_id addr /\
       get_block_off p = get_block_off addr + o
   else paddr_add_offset addr o = None) /\
  (get_addr_type addr = RESERVED ->
   (has_seastore_off (get_device_id addr) = false ->
    paddr_add_offset addr o = None) /\
   (has_seastore_off (get_device_id addr) = true ->
    - 2 ^ 31 <= get_seastore_off addr + o < 2 ^ 31 ->
    exists p,
      paddr_add_offset addr o = Some p /\ is_paddr p /\
      get_device_id p = get_device_id addr /\
      get_seastore_off p = get_seastore_off addr + o)).
Proof.
  intros Hp Ho. pose proof (get_device_id_range addr Hp) as Hd. split; intros Hty.
  - unfold paddr_add_offset. rewrite Hty, blk_add_offset_eval by assumption.
    destruct (Z.leb_spec 0 (get_block_off addr + o)) as [H0|H0]; [|reflexivity].
    destruct (Z.leb_spec (get_block_off addr + o) BLOCK_OFF_MAX) as [H1|H1];
      [|reflexivity].
    cbn [andb]. change BLOCK_OFF_MAX with (2 ^ 56 - 1) in H1.
    destruct (dev_lor_spec (get_device_id addr) (get_block_off addr + o) Hd
                ltac:(lia)) as (_ & Hp' & Hdev & Hoff).
    eexists. repeat split; try eassumption; apply Hp'.
  - unfold paddr_add_offset. rewrite Hty, res_add_offset_eval by assumption.
    split; intros Hhas; rewrite Hhas; [reflexivity|]. intros [H0 H1].
    destruct (Z.leb_spec (- 2 ^ 31) (get_seastore_off addr + o)); [|lia].
    destruct (Z.ltb_spec (get_seastore_off addr + o) (2 ^ 31)); [|lia].
    cbn [andb].
    destruct (res_lor_spec (get_device_id addr) (get_seastore_off addr + o) Hd)
      as (Hp' & Hdev & Hoff).
    eexists. split; [reflexivity|]. split; [exact Hp'|]. split; [exact Hdev|].
    rewrite Hoff. apply to_int32_small. lia.
Qed.

(** Two offsets added in turn are their sum added once. *)
Theorem paddr_add_offset_compose a o1 o2 b c :
  is_paddr a -> (get_addr_type a = SEGMENT -> 0 <= get_segment_off a) ->
  - 2 ^ 31 <= o1 < 2 ^ 31 -> - 2 ^ 31 <= o2 < 2 ^ 31 ->
  - 2 ^ 31 <= o1 + o2 < 2 ^ 31 ->
  paddr_add_offset a o1 = Some b -> paddr_add_offset b o2 = Some c ->
  paddr_add_offset a (o1 + o2) = Some c.
Proof.
  intros Hp Hvalid Ho1 Ho2 Ho12 Hab Hbc.
  pose proof (get_device_id_range a Hp) as Hd.
  unfold paddr_add_offset in Hab |- *.
  destruct (get_addr_type a) eqn:Hty.
  - specialize (Hvalid eq_refl).
    rewrite seg_add_offset_eval in Hab |- * by assumption.
    assert (Hseg : is_segment_id (get_segment_id a)).
    { now destruct (get_segment_id_spec a Hp) as [-> ?]. }
    destruct (Z.leb_spec 0 (get_segment_off a + o1)) as [H0|H0]; [|discriminate].
    destruct (Z.ltb_spec (get_segment_off a + o1) (2 ^ 31)) as [H1|H1]; [|discriminate].
    cbn [andb] in Hab. injection Hab as <-.
    destruct (make_seg_paddr_accessors (get_segment_id a)
                (get_segment_off a + o1) Hseg) as (Ei & Eo & Ed).
    rewrite to_int32_small in Eo by lia.
    assert (Htyb : get_addr_type (make_seg_paddr (get_segment_id a)
                                    (get_segment_off a + o1)) = SEGMENT).
    { unfold get_addr_type. rewrite Ed, device_of_segment_of_paddr by assumption.
      exact Hty. }
    unfold paddr_add_offset in Hbc. rewrite Htyb in Hbc.
    rewrite seg_add_offset_eval in Hbc;
      [|now apply make_seg_paddr_is_paddr|assumption|lia|assumption].
    rewrite Ei, Eo in Hbc. rewrite <- Hbc. now rewrite Z.add_assoc.
  - rewrite blk_add_offset_eval in Hab |- * by assumption.
    destruct (Z.leb_spec 0 (get_block_off a + o1)) as [H0|H0]; [|discriminate].
    destruct (Z.leb_spec (get_block_off a + o1) BLOCK_OFF_MAX) as [H1|H1];
      [|discriminate].
    cbn [andb] in Hab. injection Hab as <-.
    change BLOCK_OFF_MAX with (2 ^ 56 - 1) in H1.
    destruct (dev_lor_spec (get_device_id a) (get_block_off a + o1) Hd
                ltac:(lia)) as (_ & Hpb & Hdev & Hoff).
    assert (Htyb : get_addr_type (Z.lor (Z.shiftl (get_device_id a) BLOCK_OFF_BITS)
                                    (get_block_off a + o1)) = RANDOM_BLOCK).
    { unfold get_addr_type. rewrite Hdev. exact Hty. }
    unfold paddr_add_offset in Hbc. rewrite Htyb in Hbc.
    rewrite blk_add_offset_eval in Hbc by assumption.
    rewrite Hdev, Hoff in Hbc. rewrite <- Hbc. now rewrite Z.add_assoc.
  - rewrite res_add_offset_eval in Hab |- * by assumption.
    destruct (has_seastore_off (get_device_id a)) eqn:Hhas; [|discriminate].
    destruct (Z.leb_spec (- 2 ^ 31) (get_seastore_off a + o1)) as [H0|H0];
      [|discriminate].
    destruct (Z.ltb_spec (get_seastore_off a + o1) (2 ^ 31)) as [H1|H1];
      [|discriminate].
    cbn [andb] in Hab. injection Hab as <-.
    destruct (res_lor_spec (get_device_id a) (get_seastore_off a + o1) Hd)
      as (Hpb & Hdev & Hoff).
    rewrite to_int32_small in Hoff by lia.
    assert (Htyb : get_addr_type (Z.lor (Z.shiftl (get_device_id a) BLOCK_OFF_BITS)
                                    (wrap32 (get_seastore_off a + o1))) = RESERVED).
    { unfold get_addr_type. rewrite Hdev. exact Hty. }
    unfold paddr_add_offset in Hbc. rewrite Htyb in Hbc.
    rewrite res_add_offset_eval in Hbc by assumption.
    rewrite Hdev, Hoff, Hhas in Hbc. rewrite <- Hbc. now rewrite Z.add_assoc.
Qed.

Lemma paddr_of_internal_some v p : paddr_of_internal v = Some p -> p = v.
Proof.
  unfold paddr_of_internal. intros H.
  destruct (device_id_to_paddr_type (get_device_id v)).
  - destruct (0 <=? get_segment_off v); congruence.
  - congruence.
  - destruct (has_seastore_off (get_device_id v) || _); congruence.
Qed.

(** Whatever its type, an address keeps its device id under [add_offset]. *)
Lemma paddr_add_offset_device a o p :
  is_paddr a -> paddr_add_offset a o = Some p ->
  is_paddr p /\ get_device_id p = get_device_id a.
Proof.
  intros Hp H. pose proof (get_device_id_range a Hp) as Hd.
  unfold paddr_add_offset in H. destruct (get_addr_type a) eqn:Hty.
  - unfold seg_add_offset in H.
    destruct (if 0 <=? o then _ else _); [|discriminate].
    unfold segment_id_of_internal in H.
    destruct (bool_decide _); [|discriminate].
    unfold paddr_seg in H. apply paddr_of_internal_some in H. subst p.
    assert (Hseg : is_segment_id (get_segment_id a)).
    { now destruct (get_segment_id_spec a Hp) as [-> ?]. }
    destruct (make_seg_paddr_accessors (get_segment_id a)
                (to_int32 (get_segment_off a + o)) Hseg) as (_ & _ & Ed).
    split; [now apply make_seg_paddr_is_paddr|].
    rewrite Ed. now apply device_of_segment_of_paddr.
  - unfold blk_add_offset in H.
    destruct (if 0 <=? o then _ else _); [|discriminate].
    unfold make_blk_paddr in H.
    destruct (paddr_of_internal _) as [q|] eqn:Hq; [|discriminate].
    apply paddr_of_internal_some in Hq. subst q.
    destruct (bool_decide _); [|discriminate].
    destruct (_ <=? BLOCK_OFF_MAX); [|discriminate]. injection H as <-.
    assert (Hlo : 0 <= Z.land (wrap64 (get_block_off a + o)) BLOCK_OFF_MASK < 2 ^ 56).
    { change BLOCK_OFF_MASK with (Z.ones 56). rewrite Z.land_ones by lia.
      apply Z.mod_pos_bound. lia. }
    destruct (dev_lor_spec (get_device_id a) _ Hd Hlo) as (_ & Hp' & Hdev & _).
    split; assumption.
  - unfold res_add_offset in H.
    destruct (has_seastore_off (get_device_id a)); [|discriminate].
    destruct (if 0 <=? o then _ else _); [|discriminate].
    unfold make_res_paddr in H.
    destruct (paddr_of_internal _) as [q|] eqn:Hq; [|discriminate].
    apply paddr_of_internal_some in Hq. subst q.
    destruct (bool_decide _); [|discriminate]. injection H as <-.
    destruct (res_lor_spec (get_device_id a)
                (to_int32 (get_seastore_off a + o)) Hd) as (Hp' & Hdev & _).
    split; assumption.
Qed.

(** [maybe_relative_to] never returns a block-relative address: an address
    that is not block-relative comes back unchanged, a block-relative one is
    resolved to an address on the device of [base]. *)
Theorem maybe_relative_to_resolves addr base p :
  is_paddr base ->
  maybe_relative_to addr base = Some p ->
  is_block_relative p = false /\
  (is_block_relative addr = false -> p = addr) /\
  (is_block_relative addr = true -> get_device_id p = get_device_id base).
Proof.
  intros Hb H. unfold maybe_relative_to in H.
  destruct (is_block_relative base) eqn:Hbase; [discriminate|]. cbn [negb] in H.
  destruct (is_block_relative addr) eqn:Haddr.
  - unfold add_block_relative, add_relative in H. rewrite Haddr in H.
    destruct (is_relative addr); [|discriminate].
    destruct (bool_decide _); [|discriminate].
    destruct (paddr_add_offset_device _ _ _ Hb H) as [_ Hdev].
    split; [|split; [discriminate|intros _; exact Hdev]].
    unfold is_block_relative in *. now rewrite Hdev.
  - injection H as <-. split; [exact Haddr|]. split; [reflexivity|discriminate].
Qed.

(** The block-relative address of [a] from [base], both record-relative
    and with a difference of offsets that is an [int32], is that difference,
    and adding it back to [base] gives [a]. *)
Theorem block_relative_roundtrip x y a base :
  - 2 ^ 31 <= x < 2 ^ 31 -> - 2 ^ 31 <= y < 2 ^ 31 ->
  make_record_relative_paddr x = Some a ->
  make_record_relative_paddr y = Some base ->
  - 2 ^ 31 <= x - y < 2 ^ 31 ->
  exists r,
    block_relative_to a base = Some r /\
    make_block_relative_paddr (x - y) = Some r /\
    is_block_relative r = true /\ get_seastore_off r = x - y /\
    add_block_relative base r = Some a.
Proof.
  intros Hx Hy Ha Hb [H0 H1].
  unfold make_record_relative_paddr in Ha, Hb.
  rewrite make_res_paddr_eval in Ha, Hb by (try reflexivity; cbv; split; congruence).
  change (has_seastore_off DEVICE_ID_RECORD_RELATIVE) with true in Ha, Hb.
  cbn [orb] in Ha, Hb. injection Ha as <-. injection Hb as <-.
  destruct (res_lor_spec DEVICE_ID_RECORD_RELATIVE x ltac:(cbv; split; congruence))
    as (Hpa & Hda & Hoa).
  destruct (res_lor_spec DEVICE_ID_RECORD_RELATIVE y ltac:(cbv; split; congruence))
    as (Hpb & Hdb & Hob).
  rewrite to_int32_small in Hoa, Hob by assumption.
  set (a := Z.lor (Z.shiftl DEVICE_ID_RECORD_RELATIVE BLOCK_OFF_BITS) (wrap32 x)) in *.
  set (base := Z.lor (Z.shiftl DEVICE_ID_RECORD_RELATIVE BLOCK_OFF_BITS) (wrap32 y)) in *.
  assert (Hta : get_addr_type a = RESERVED) by (unfold get_addr_type; now rewrite Hda).
  assert (Htb : get_addr_type base = RESERVED) by (unfold get_addr_type; now rewrite Hdb).
  assert (Hrun : block_relative_to a base
                 = make_res_paddr DEVICE_ID_BLOCK_RELATIVE (x - y)).
  { unfold block_relative_to, is_record_relative.
    rewrite Hta, Htb, Hda, Hdb, Hoa, Hob.
    rewrite !bool_decide_eq_true_2 by reflexivity.
    change (DEVICE_ID_RECORD_RELATIVE =? DEVICE_ID_RECORD_RELATIVE) with true.
    cbn [andb]. rewrite !to_int32_small by lia.
    destruct (Z.leb_spec 0 y); [destruct (Z.leb_spec (x - y) x); [|lia]
                               |destruct (Z.ltb_spec x (x - y)); [|lia]];
      reflexivity. }
  rewrite Hrun.
  rewrite make_res_paddr_eval by (try reflexivity; cbv; split; congruence).
  change (has_seastore_off DEVICE_ID_BLOCK_RELATIVE) with true. cbn [orb].
  destruct (res_lor_spec DEVICE_ID_BLOCK_RELATIVE (x - y)
              ltac:(cbv; split; congruence)) as (Hpr & Hdr & Hor).
  rewrite to_int32_small in Hor by lia.
  eexists. split; [reflexivity|]. split.
  { unfold make_block_relative_paddr.
    rewrite make_res_paddr_eval by (try reflexivity; cbv; split; congruence).
    reflexivity. }
  split; [unfold is_block_relative; now rewrite Hdr|]. split; [exact Hor|].
  unfold add_block_relative, add_relative, is_relative, is_block_relative,
    get_addr_type.
  rewrite Hdr. change (DEVICE_ID_BLOCK_RELATIVE =? DEVICE_ID_BLOCK_RELATIVE) with true.
  cbn [orb]. rewrite bool_decide_eq_true_2 by reflexivity.
  rewrite Hor. unfold paddr_add_offset. rewrite Htb.
  rewrite res_add_offset_eval by (try assumption; lia).
  rewrite Hdb, Hob. change (has_seastore_off DEVICE_ID_RECORD_RELATIVE) with true.
  replace (y + (x - y)) with x by lia.
  destruct (Z.leb_spec (- 2 ^ 31) x); [|lia].
  destruct (Z.ltb_spec x (2 ^ 31)); [|lia]. reflexivity.
Qed.

(** ** The order of journal sequences *)

(** What [cmp] compares: the segment sequence, then the pair of [to_pair]. *)
Definition journal_seq_key (a : journal_seq_t) : Z * Z * Z :=
  (segment_seq a, (to_pair (offset a)).1, (to_pair (offset a)).2).

Definition key_lt (k1 k2 : Z * Z * Z) : Prop :=
  k1.1.1 < k2.1.1 \/
  (k1.1.1 = k2.1.1 /\ (k1.1.2 < k2.1.2 \/ (k1.1.2 = k2.1.2 /\ k1.2 < k2.2))).

Lemma journal_seq_cmp_spec a b :
  (journal_seq_cmp a b = 1 /\ key_lt (journal_seq_key b) (journal_seq_key a)) \/
  (journal_seq_cmp a b = -1 /\ key_lt (journal_seq_key a) (journal_seq_key b)) \/
  (journal_seq_cmp a b = 0 /\ journal_seq_key a = journal_seq_key b).
Proof.
  unfold journal_seq_cmp, journal_seq_key, key_lt, pair_lt. cbn [fst snd].
  destruct (to_pair (offset a)) as [x1 y1], (to_pair (offset b)) as [x2 y2].
  cbn [fst snd].
  destruct (Z.ltb_spec (segment_seq b) (segment_seq a)); [left; split; [reflexivity|lia]|].
  destruct (Z.ltb_spec (segment_seq a) (segment_seq b));
    [right; left; split; [reflexivity|lia]|].
  assert (segment_seq a = segment_seq b) as -> by lia.
  destruct (Z.ltb_spec x2 x1); cbn [orb negb andb];
    [left; split; [reflexivity|lia]|].
  destruct (Z.ltb_spec x1 x2); cbn [orb negb andb].
  - right; left. split; [reflexivity|lia].
  - assert (x1 = x2) as -> by lia.
    destruct (Z.ltb_spec y2 y1); [left; split; [reflexivity|lia]|].
    destruct (Z.ltb_spec y1 y2); [right; left; split; [reflexivity|lia]|].
    right; right. split; [reflexivity|]. f_equal. lia.
Qed.

Lemma key_lt_facts k1 k2 k3 :
  ~ key_lt k1 k1 /\ (key_lt k1 k2 -> ~ key_lt k2 k1) /\
  (key_lt k1 k2 -> key_lt k2 k3 -> key_lt k1 k3) /\
  (key_lt k1 k2 -> k1 <> k2).
Proof.
  destruct k1 as [[a1 b1] c1], k2 as [[a2 b2] c2], k3 as [[a3 b3] c3].
  unfold key_lt. cbn [fst snd]. repeat split; try lia.
  intros H E. injection E as -> -> ->. lia.
Qed.

(** [cmp] is a total preorder, and the six operators read it the usual
    way: it is reflexive, swapping the arguments negates it, [<=] is
    transitive and total, [<] is the negation of [>=] and [==] holds exactly
    when both [<=] and [>=] do. *)
Theorem journal_seq_cmp_order a b c :
  journal_seq_cmp a a = 0 /\
  journal_seq_cmp a b = - journal_seq_cmp b a /\
  (journal_seq_le a b = true -> journal_seq_le b c = true ->
   journal_seq_le a c = true) /\
  (journal_seq_le a b = true \/ journal_seq_le b a = true) /\
  journal_seq_lt a b = negb (journal_seq_ge a b) /\
  journal_seq_gt a b = journal_seq_lt b a /\
  journal_seq_ne a b = negb (journal_seq_eq a b) /\
  journal_seq_eq a b = journal_seq_le a b && journal_seq_ge a b.
Proof.
  unfold journal_seq_le, journal_seq_lt, journal_seq_ge, journal_seq_gt,
    journal_seq_ne, journal_seq_eq.
  pose proof (key_lt_facts (journal_seq_key a) (journal_seq_key b) (journal_seq_key c))
    as (Hirr & Hasym & Htrans & Hne).
  pose proof (key_lt_facts (journal_seq_key b) (journal_seq_key a) (journal_seq_key c))
    as (_ & Hasym' & Htrans' & Hne').
  pose proof (key_lt_facts (journal_seq_key b) (journal_seq_key c) (journal_seq_key a))
    as (_ & _ & Htrans'' & _).
  pose proof (key_lt_facts (journal_seq_key c) (journal_seq_key a) (journal_seq_key b))
    as (_ & _ & Htrans3 & _).
  destruct (journal_seq_cmp_spec a a) as [[_ H]|[[_ H]|[Eaa _]]]; try tauto.
  destruct (journal_seq_cmp_spec a b) as [[Eab Hab]|[[Eab Hab]|[Eab Hab]]];
    destruct (journal_seq_cmp_spec b a) as [[Eba Hba]|[[Eba Hba]|[Eba Hba]]];
    try (exfalso; tauto); try (exfalso; congruence);
    rewrite ?Eaa, ?Eab, ?Eba;
    (split; [reflexivity|]); (split; [reflexivity|]);
    (split; [|cbn; tauto]);
    destruct (journal_seq_cmp_spec b c) as [[Ebc Hbc]|[[Ebc Hbc]|[Ebc Hbc]]];
    destruct (journal_seq_cmp_spec a c) as [[Eac Hac]|[[Eac Hac]|[Eac Hac]]];
    rewrite ?Ebc, ?Eac; cbn; try tauto; try discriminate; exfalso;
    try (rewrite <- ?Hab, <- ?Hbc, <- ?Hac in *; tauto);
    try (rewrite ?Hab, ?Hbc, ?Hac in *; tauto).
Qed.

Lemma journal_seq_eq_key a b :
  journal_seq_eq a b = true <-> journal_seq_key a = journal_seq_key b.
Proof.
  unfold journal_seq_eq.
  pose proof (key_lt_facts (journal_seq_key a) (journal_seq_key b) (journal_seq_key a))
    as (Hirr & _ & _ & Hne).
  pose proof (key_lt_facts (journal_seq_key b) (journal_seq_key a) (journal_seq_key a))
    as (_ & _ & _ & Hne').
  destruct (journal_seq_cmp_spec a b) as [[E H]|[[E H]|[E H]]]; rewrite E; cbn.
  - split; [discriminate|]. intros K. symmetry in K. now apply Hne' in H.
  - split; [discriminate|]. intros K. now apply Hne in H.
  - tauto.
Qed.

(** Two positions at segment addresses compare equal only if they are the
    same position; [operator==] does not tell positions apart in general: a
    random-block address counts by its block offset alone, whatever its
    device, and the null position equals a position at the zero address. *)
Theorem journal_seq_eq_segment_addresses :
  (forall a b,
      is_paddr (offset a) -> is_paddr (offset b) ->
      get_addr_type (offset a) = SEGMENT -> get_addr_type (offset b) = SEGMENT ->
      (journal_seq_eq a b = true <-> a = b)) /\
  (forall q dev1 dev2 off p1 p2,
      make_blk_paddr dev1 off = Some p1 -> make_blk_paddr dev2 off = Some p2 ->
      0 <= dev1 < 2 ^ 8 -> 0 <= dev2 < 2 ^ 8 -> 0 <= off ->
      journal_seq_eq (mk_journal_seq q p1) (mk_journal_seq q p2) = true) /\
  journal_seq_eq JOURNAL_SEQ_NULL (mk_journal_seq MAX_SEG_SEQ P_ADDR_ZERO) = true.
Proof.
  split; [|split].
  - intros [sa pa] [sb pb] Hpa Hpb Hta Htb. cbn [offset] in *.
    rewrite journal_seq_eq_key. unfold journal_seq_key, to_pair.
    cbn [segment_seq offset]. rewrite Hta, Htb. cbn [fst snd].
    split.
    + intros E. injection E as -> Eo Ei. f_equal.
      rewrite <- (make_seg_paddr_rebuild pa Hpa), <- (make_seg_paddr_rebuild pb Hpb).
      now rewrite Eo, Ei.
    + intros E. now injection E as -> ->.
  - intros q dev1 dev2 off p1 p2 H1 H2 Hd1 Hd2 Hoff.
    rewrite journal_seq_eq_key. unfold journal_seq_key. cbn [segment_seq offset].
    assert (Hpair : forall dev p, 0 <= dev < 2 ^ 8 -> make_blk_paddr dev off = Some p ->
                                  to_pair p = (off, MAX_SEG_ID)).
    { intros dev p Hd H. unfold make_blk_paddr in H.
      destruct (paddr_of_internal _) as [v|] eqn:Hv; [|discriminate].
      apply paddr_of_internal_some in Hv. subst v.
      destruct (bool_decide _) eqn:Hty; [|discriminate].
      apply bool_decide_eq_true_1 in Hty.
      destruct (Z.leb_spec off BLOCK_OFF_MAX) as [Hmax|]; [|discriminate].
      injection H as <-. change BLOCK_OFF_MAX with (2 ^ 56 - 1) in Hmax.
      unfold to_pair. rewrite Hty.
      assert (Hlo : Z.land off BLOCK_OFF_MASK = off).
      { change BLOCK_OFF_MASK with (Z.ones 56). rewrite Z.land_ones by lia.
        apply Z.mod_small. lia. }
      rewrite Hlo.
      destruct (dev_lor_spec dev off Hd ltac:(lia)) as (_ & _ & _ & ->).
      reflexivity. }
    now rewrite (Hpair dev1 p1 Hd1 H1), (Hpair dev2 p2 Hd2 H2).
  - vm_compute. reflexivity.
Qed.

(** A position moved by [add_offset] compares to the old one as the offset
    compares to 0: later for a positive offset, earlier for a negative
    one. *)
Theorem journal_seq_add_offset_order s o s' :
  is_paddr (offset s) ->
  (get_addr_type (offset s) = SEGMENT -> 0 <= get_segment_off (offset s)) ->
  - 2 ^ 31 <= o < 2 ^ 31 ->
  journal_seq_add_offset s o = Some s' ->
  journal_seq_cmp s' s = Z.sgn o /\ segment_seq s' = segment_seq s.
Proof.
  intros Hp Hvalid Ho H. unfold journal_seq_add_offset in H.
  destruct (paddr_add_offset (offset s) o) as [p|] eqn:Hadd; [|discriminate].
  injection H as <-. cbn [segment_seq]. split; [|reflexivity].
  assert (Hkey : (to_pair p).1 = (to_pair (offset s)).1 + o /\
                 (to_pair p).2 = (to_pair (offset s)).2).
  { destruct (paddr_add_offset_device _ _ _ Hp Hadd) as [Hpp Hdev].
    assert (Hty : get_addr_type p = get_addr_type (offset s)).
    { unfold get_addr_type. now rewrite Hdev. }
    unfold to_pair. rewrite Hty. destruct (get_addr_type (offset s)) eqn:Ht.
    - specialize (Hvalid eq_refl).
      unfold paddr_add_offset in Hadd. rewrite Ht in Hadd.
      rewrite seg_add_offset_eval in Hadd by assumption.
      destruct (Z.leb_spec 0 (get_segment_off (offset s) + o)); [|discriminate].
      destruct (Z.ltb_spec (get_segment_off (offset s) + o) (2 ^ 31)); [|discriminate].
      cbn [andb] in Hadd. injection Hadd as <-.
      assert (Hseg : is_segment_id (get_segment_id (offset s))).
      { now destruct (get_segment_id_spec _ Hp) as [-> ?]. }
      destruct (make_seg_paddr_accessors (get_segment_id (offset s))
                  (get_segment_off (offset s) + o) Hseg) as (Ei & Eo & _).
      cbn [fst snd]. rewrite Ei, Eo. split; [|reflexivity].
      apply to_int32_small. lia.
    - pose proof (get_device_id_range _ Hp) as Hd.
      unfold paddr_add_offset in Hadd. rewrite Ht in Hadd.
      rewrite blk_add_offset_eval in Hadd by assumption.
      destruct (Z.leb_spec 0 (get_block_off (offset s) + o)); [|discriminate].
      destruct (Z.leb_spec (get_block_off (offset s) + o) BLOCK_OFF_MAX) as [H1|];
        [|discriminate].
      cbn [andb] in Hadd. injection Hadd as <-.
      change BLOCK_OFF_MAX with (2 ^ 56 - 1) in H1.
      destruct (dev_lor_spec (get_device_id (offset s))
                  (get_block_off (offset s) + o) Hd ltac:(lia)) as (_ & _ & _ & Eo).
      cbn [fst snd]. rewrite Eo. split; reflexivity.
    - pose proof (get_device_id_range _ Hp) as Hd.
      unfold paddr_add_offset in Hadd. rewrite Ht in Hadd.
      rewrite res_add_offset_eval in Hadd by assumption.
      destruct (has_seastore_off (get_device_id (offset s))); [|discriminate].
      destruct (Z.leb_spec (- 2 ^ 31) (get_seastore_off (offset s) + o)); [|discriminate].
      destruct (Z.ltb_spec (get_seastore_off (offset s) + o) (2 ^ 31)); [|discriminate].
      cbn [andb] in Hadd. injection Hadd as <-.
      destruct (res_lor_spec (get_device_id (offset s))
                  (get_seastore_off (offset s) + o) Hd) as (_ & _ & Eo).
      cbn [fst snd]. rewrite Eo. split; [|reflexivity].
      apply to_int32_small. lia. }
  destruct Hkey as [K1 K2].
  destruct (journal_seq_cmp_spec (mk_journal_seq (segment_seq s) p) s)
    as [[E H]|[[E H]|[E H]]]; rewrite E;
    unfold key_lt, journal_seq_key in H; cbn [segment_seq offset fst snd] in H.
  - rewrite K1, K2 in H. symmetry. apply Z.sgn_pos. lia.
  - rewrite K1, K2 in H. symmetry. apply Z.sgn_neg. lia.
  - pose proof (f_equal (fun k : Z * Z * Z => k.1.2) H) as H1.
    cbn beta in H1. cbn [fst snd] in H1. rewrite K1 in H1.
    symmetry. apply Z.sgn_null. lia.
Qed.

(** ** get_average_time *)

(** For two times after the epoch the result is the weighted mean of the
    two tick counts up to the rounding of the two divisions: it never
    exceeds the mean nor the later time, and falls short of the mean by less
    than [n1 + n2] ticks; the mean of a time with itself is that time
    rounded down to a multiple of [n1 + n2]. *)
Theorem get_average_time_bounds t1 n1 t2 n2 :
  0 < t1 < 2 ^ 63 -> 0 < t2 < 2 ^ 63 -> 0 <= n1 -> 0 <= n2 ->
  0 < n1 + n2 < 2 ^ 64 ->
  exists r,
    get_average_time t1 n1 t2 n2 = Some r /\
    r = t1 / (n1 + n2) * n1 + t2 / (n1 + n2) * n2 /\
    (n1 + n2) * r <= t1 * n1 + t2 * n2 < (n1 + n2) * (r + (n1 + n2)) /\
    Z.min t1 t2 - (n1 + n2) < r <= Z.max t1 t2 /\
    (t1 = t2 -> r = t1 - t1 mod (n1 + n2)).
Proof.
  intros Ht1 Ht2 Hn1 Hn2 HN. set (N := n1 + n2) in *.
  assert (HNn : n1 + n2 = N) by reflexivity.
  pose proof (Z.div_mod t1 N ltac:(lia)) as E1.
  pose proof (Z.div_mod t2 N ltac:(lia)) as E2.
  pose proof (Z.mod_pos_bound t1 N ltac:(lia)) as R1.
  pose proof (Z.mod_pos_bound t2 N ltac:(lia)) as R2.
  assert (Q1 : 0 <= t1 / N) by (apply Z.div_pos; lia).
  assert (Q2 : 0 <= t2 / N) by (apply Z.div_pos; lia).
  assert (Hmono : t1 <= t2 -> t1 / N <= t2 / N) by (intros; apply Z.div_le_mono; lia).
  assert (Hmono' : t2 <= t1 -> t2 / N <= t1 / N) by (intros; apply Z.div_le_mono; lia).
  set (q1 := t1 / N) in *. set (q2 := t2 / N) in *.
  set (r1 := t1 mod N) in *. set (r2 := t2 mod N) in *.
  assert (P1 : 0 <= q1 * n1 <= q1 * N).
  { split; [apply Z.mul_nonneg_nonneg; lia|apply Z.mul_le_mono_nonneg_l; lia]. }
  assert (P2 : 0 <= q2 * n2 <= q2 * N).
  { split; [apply Z.mul_nonneg_nonneg; lia|apply Z.mul_le_mono_nonneg_l; lia]. }
  assert (S1 : q1 * n1 + q1 * n2 = q1 * N) by (rewrite <- HNn; ring).
  assert (S2 : q2 * n1 + q2 * n2 = q2 * N) by (rewrite <- HNn; ring).
  assert (M1 : N * q1 = q1 * N) by ring. assert (M2 : N * q2 = q2 * N) by ring.
  assert (Bmax : q1 * n1 + q2 * n2 <= Z.max t1 t2).
  { destruct (Z.max_spec t1 t2) as [[Hlt ->]|[Hle ->]].
    - assert (q1 * n1 <= q2 * n1) by (apply Z.mul_le_mono_nonneg_r; lia). lia.
    - assert (q2 * n2 <= q1 * n2) by (apply Z.mul_le_mono_nonneg_r; lia). lia. }
  assert (Bmin : Z.min t1 t2 - N < q1 * n1 + q2 * n2).
  { destruct (Z.min_spec t1 t2) as [[Hlt ->]|[Hle ->]].
    - assert (q1 * n2 <= q2 * n2) by (apply Z.mul_le_mono_nonneg_r; lia). lia.
    - assert (q2 * n1 <= q1 * n1) by (apply Z.mul_le_mono_nonneg_r; lia). lia. }
  assert (Hmul : N * (q1 * n1 + q2 * n2)
                 = t1 * n1 + t2 * n2 - (r1 * n1 + r2 * n2)).
  { replace (N * (q1 * n1 + q2 * n2)) with ((N * q1) * n1 + (N * q2) * n2) by ring.
    replace (N * q1) with (t1 - r1) by lia. replace (N * q2) with (t2 - r2) by lia.
    ring. }
  assert (Hrem : 0 <= r1 * n1 + r2 * n2 < N * N).
  { assert (0 <= r1 * n1 <= (N - 1) * n1).
    { split; [apply Z.mul_nonneg_nonneg; lia|apply Z.mul_le_mono_nonneg_r; lia]. }
    assert (0 <= r2 * n2 <= (N - 1) * n2).
    { split; [apply Z.mul_nonneg_nonneg; lia|apply Z.mul_le_mono_nonneg_r; lia]. }
    assert ((N - 1) * n1 + (N - 1) * n2 = N * N - N) by (rewrite <- HNn; ring).
    lia. }
  exists (q1 * n1 + q2 * n2). split.
  { unfold get_average_time, NULL_TIME.
    destruct (Z.eqb_spec t1 0); [lia|]. destruct (Z.eqb_spec t2 0); [lia|].
    cbn [negb]. rewrite HNn. unfold wrap64.
    rewrite (wrap_small 64 N) by lia.
    destruct (Z.ltb_spec 0 N); [|lia].
    rewrite (wrap_small 64 t1), (wrap_small 64 t2) by lia. fold q1 q2.
    rewrite (wrap_small 64 (q1 * n1)), (wrap_small 64 (q2 * n2)) by lia.
    rewrite wrap_small by lia. rewrite wrap_int64_small by lia. reflexivity. }
  split; [reflexivity|]. split.
  { replace (N * (q1 * n1 + q2 * n2 + N))
      with (N * (q1 * n1 + q2 * n2) + N * N) by ring. lia. }
  split; [lia|].
  intros <-. change q2 with q1. fold r1. rewrite S1. lia.
Qed.

(** Without a time or without extents the function aborts. *)
Example get_average_time_preconditions t n1 n2 :
  get_average_time NULL_TIME n1 t n2 = None /\
  get_average_time t n1 NULL_TIME n2 = None /\
  get_average_time t 0 t 0 = None.
Proof.
  unfold get_average_time. repeat split.
  - destruct (t =? NULL_TIME); reflexivity.
  - destruct (t =? NULL_TIME); reflexivity.
Qed.

(** ** Extent types *)

(** The nodes of the LBA tree and of the backref tree are the physical
    types besides the root: no type is both, neither is logical, and the
    two types of category DATA, like the retired placeholder, are logical. *)
Theorem extent_type_classes t :
  (is_logical_type t = false <->
   t = ROOT \/ is_lba_node t = true \/ is_backref_node t = true) /\
  ~ (is_lba_node t = true /\ is_backref_node t = true) /\
  (get_extent_category t = DATA -> is_logical_type t = true) /\
  (is_retired_placeholder t = true ->
   is_logical_type t = true /\ get_extent_category t = METADATA).
Proof.
  destruct t; cbn; repeat split; try tauto; try discriminate;
    try (intros [H|[H|H]]; discriminate); intros [H1 H2]; discriminate.
Qed.

(** ** phy_tree_root_t *)

Lemma paddr_add_offset_checked a o p :
  paddr_add_offset a o = Some p -> paddr_of_internal p = Some p.
Proof.
  unfold paddr_add_offset. intros H. destruct (get_addr_type a).
  - unfold seg_add_offset in H.
    destruct (if 0 <=? o then _ else _); [|discriminate].
    destruct (segment_id_of_internal _); [|discriminate].
    unfold paddr_seg in H. pose proof (paddr_of_internal_some _ _ H). now subst p.
  - unfold blk_add_offset in H.
    destruct (if 0 <=? o then _ else _); [|discriminate].
    unfold make_blk_paddr in H.
    destruct (paddr_of_internal _) as [q|] eqn:Hq; [|discriminate].
    destruct (bool_decide _); [|discriminate].
    destruct (_ <=? BLOCK_OFF_MAX); [|discriminate]. injection H as <-.
    pose proof (paddr_of_internal_some _ _ Hq). now subst q.
  - unfold res_add_offset in H.
    destruct (has_seastore_off _); [|discriminate].
    destruct (if 0 <=? o then _ else _); [|discriminate].
    unfold make_res_paddr in H.
    destruct (paddr_of_internal _) as [q|] eqn:Hq; [|discriminate].
    destruct (bool_decide _); [|discriminate]. injection H as <-.
    pose proof (paddr_of_internal_some _ _ Hq). now subst q.
Qed.

(** [adjust_addrs_from_base] against a base that is not relative is
    idempotent: the adjusted root is on the device of the base and is left
    alone by a second call; a root that is not relative is not touched, and
    a block-relative root trips the assertion of [add_record_relative]. *)
Theorem adjust_addrs_from_base_idempotent r base :
  is_paddr base -> is_relative base = false ->
  (forall r1, adjust_addrs_from_base r base = Some r1 ->
              adjust_addrs_from_base r1 base = Some r1 /\
              depth r1 = depth r /\
              (is_relative (root_addr r) = true ->
               get_device_id (root_addr r1) = get_device_id base) /\
              (is_relative (root_addr r) = false -> r1 = r)) /\
  (is_block_relative (root_addr r) = true -> adjust_addrs_from_base r base = None).
Proof.
  intros Hb Hrel. split.
  - intros r1 H. unfold adjust_addrs_from_base in H.
    destruct (paddr_of_internal (root_addr r)) as [a|] eqn:Ha; [|discriminate].
    pose proof (paddr_of_internal_some _ _ Ha). subst a.
    destruct (is_relative (root_addr r)) eqn:Hr.
    + destruct (add_record_relative base (root_addr r)) as [p|] eqn:Hp; [|discriminate].
      injection H as <-. cbn [root_addr depth].
      unfold add_record_relative, add_relative in Hp.
      destruct (is_record_relative (root_addr r)); [|discriminate].
      rewrite Hr in Hp. destruct (bool_decide _); [|discriminate].
      destruct (paddr_add_offset_device _ _ _ Hb Hp) as [_ Hdev].
      assert (Hnr : is_relative p = false).
      { unfold is_relative, is_block_relative, is_record_relative in *.
        now rewrite Hdev. }
      split; [|split; [reflexivity|split; [intros _; exact Hdev|discriminate]]].
      unfold adjust_addrs_from_base. cbn [root_addr depth].
      rewrite (paddr_add_offset_checked _ _ _ Hp), Hnr. reflexivity.
    + injection H as <-. split; [|split; [reflexivity|split; [discriminate|reflexivity]]].
      unfold adjust_addrs_from_base. now rewrite Ha, Hr.
  - intros Hblk. unfold adjust_addrs_from_base.
    destruct (paddr_of_internal (root_addr r)) as [a|] eqn:Ha; [|reflexivity].
    pose proof (paddr_of_internal_some _ _ Ha). subst a.
    unfold is_relative. rewrite Hblk. cbn [orb].
    unfold add_record_relative.
    assert (Hrr : is_record_relative (root_addr r) = false).
    { unfold is_block_relative, is_record_relative in *.
      apply Z.eqb_eq in Hblk. rewrite Hblk. reflexivity. }
    now rewrite Hrr.
Qed.

(** ** The scan cursor *)

Lemma land_segment_id_mask a :
  is_paddr a -> Z.land a SEGMENT_ID_MASK = a / 2 ^ 32 * 2 ^ 32.
Proof.
  intros [H0 H1].
  assert (E : Z.land a SEGMENT_ID_MASK = Z.ldiff (Z.land a (Z.ones 64)) (Z.ones 32)).
  { change SEGMENT_ID_MASK with (Z.ldiff (Z.ones 64) (Z.ones 32)).
    apply Z.bits_inj'. intros n Hn.
    rewrite !Z.land_spec, !Z.ldiff_spec, Z.land_spec.
    now rewrite andb_assoc. }
  rewrite E, Z.land_ones, Z.mod_small by lia.
  rewrite Z.ldiff_ones_r by lia.
  now rewrite Z.shiftl_mul_pow2, Z.shiftr_div_pow2 by lia.
Qed.

(** [increment_seq] moves the address of the cursor as [add_offset] moves
    an address, for a sum of the offsets that is an [int32]: to the same
    segment at the summed offset, or to an abort when the sum is below zero;
    nothing else of the cursor changes. *)
Theorem increment_seq_as_add_offset {G} (c : scan_valid_records_cursor G) (o : Z) :
  is_paddr (offset (cursor_seq c)) ->
  get_addr_type (offset (cursor_seq c)) = SEGMENT ->
  0 <= get_segment_off (offset (cursor_seq c)) ->
  - 2 ^ 31 <= o < 2 ^ 31 ->
  get_segment_off (offset (cursor_seq c)) + o < 2 ^ 31 ->
  increment_seq c o =
    match paddr_add_offset (offset (cursor_seq c)) o with
    | Some p =>
      Some (mk_scan_cursor (last_valid_header_found c)
              (mk_journal_seq (segment_seq (cursor_seq c)) p)
              (last_committed c) (num_consumed_records c) (pending_record_groups c))
    | None => None
    end.
Proof.
  intros Hp Hty Hoff Ho Hsum. set (addr := offset (cursor_seq c)) in *.
  pose proof (get_segment_off_range addr) as Hr.
  unfold paddr_add_offset. rewrite Hty, seg_add_offset_eval by assumption.
  unfold increment_seq. fold addr. rewrite bool_decide_eq_true_2 by assumption.
  unfold set_segment_off. rewrite land_segment_id_mask by assumption.
  destruct (get_segment_id_spec addr Hp) as [Eid _].
  destruct (Z.leb_spec 0 (get_segment_off addr + o)) as [H0|H0]; cbn [andb].
  - destruct (Z.ltb_spec (get_segment_off addr + o) (2 ^ 31)) as [H1|H1].
    + rewrite to_int32_small by lia.
      destruct (Z.leb_spec 0 (get_segment_off addr + o)); [|lia].
      rewrite make_seg_paddr_spec, Eid.
      pose proof (wrap_range 32 (get_segment_off addr + o) ltac:(lia)) as Hw.
      fold wrap32 in Hw.
      replace (Z.lor (addr / 2 ^ 32 * 2 ^ 32) (wrap32 (get_segment_off addr + o)))
        with (addr / 2 ^ 32 * 2 ^ 32 + wrap32 (get_segment_off addr + o));
        [reflexivity|].
      rewrite <- (Z.shiftl_mul_pow2 (addr / 2 ^ 32) 32) by lia.
      rewrite lor_shiftl_add by lia. now rewrite Z.shiftl_mul_pow2 by lia.
    + lia.
  - rewrite to_int32_small by lia.
    destruct (Z.leb_spec 0 (get_segment_off addr + o)); [lia|reflexivity].
Qed.

(** ** segment_map_t: devices, lookup and iteration *)

Lemma length_concat_imap {A B} (l : list (list A)) : forall g : nat -> list A -> list B,
  (forall d dev, length (g d dev) = length dev) ->
  Z.of_nat (length (concat (imap g l))) = Zsum (fun dev => Z.of_nat (length dev)) l.
Proof.
  induction l as [|dev devs IH]; intros g Hg; [reflexivity|].
  cbn [imap concat]. rewrite length_app, Nat2Z.inj_add, Zsum_cons, Hg.
  f_equal. apply IH. intros d dev'. apply Hg.
Qed.

Section segment_map_lookup.
Context {T : Type}.
Implicit Types (m : segment_map_t T) (x : T).

Lemma segment_map_contains_get m id :
  segment_map_contains m id = true <-> segment_map_get m id <> None.
Proof.
  unfold segment_map_contains, segment_map_get.
  destruct (device_to_segments m !! Z.to_nat (device_id id)) as [dev|];
    [|split; [discriminate|congruence]].
  pose proof (device_segment_id_nonneg id).
  destruct (Z.ltb_spec (device_segment_id id) (Z.of_nat (length dev))) as [Hlt|Hge].
  - split; [|reflexivity]. intros _.
    destruct (dev !! Z.to_nat (device_segment_id id)) eqn:E; [discriminate|].
    apply lookup_ge_None in E. lia.
  - split; [discriminate|]. intros Hn. exfalso. apply Hn.
    apply lookup_ge_None. lia.
Qed.

(** A device added to the map holds [init] at each of its segments, is
    contained from then on and cannot be added again; the entries of the
    other devices are as they were and the size grows by the number of
    segments. *)
Theorem add_device_lookup m (device segments_ : Z) (init : T) m' :
  add_device m device segments_ init = Some m' ->
  (forall i, 0 <= i < segments_ -> i < 2 ^ 24 ->
             segment_map_get m' (make_internal device i) = Some init /\
             segment_map_contains m' (make_internal device i) = true) /\
  (forall id, device_id id <> device ->
              segment_map_get m' id = segment_map_get m id) /\
  (forall id, device_id id = device -> segment_map_get m id = None) /\
  segment_map_size m' = wrap64 (segment_map_size m + segments_) /\
  (forall n' init', add_device m' device n' init' = None).
Proof.
  intros H. unfold add_device in H.
  destruct (Z.leb_spec device DEVICE_ID_MAX_VALID) as [Hmax|]; [|discriminate].
  destruct (Z.leb_spec 0 device) as [Hmin|]; [|discriminate]. cbn [andb] in H.
  destruct (device_to_segments m !! Z.to_nat device) as [dev|] eqn:Hdev; [|discriminate].
  destruct (bool_decide (length dev = 0%nat)) eqn:Hlen; [|discriminate].
  apply bool_decide_eq_true_1 in Hlen.
  destruct (Z.ltb_spec 0 segments_) as [Hpos|]; [|discriminate].
  injection H as <-. change DEVICE_ID_MAX_VALID with 248 in Hmax.
  pose proof (lookup_lt_Some _ _ _ Hdev) as Hlt.
  split; [|split; [|split; [|split]]].
  - intros i Hi Hi24.
    destruct (make_internal_parts device i ltac:(lia) ltac:(lia))
      as (Ed & Es & _).
    assert (Hget : segment_map_get
                     (mk_segment_map
                        (<[Z.to_nat device := replicate (Z.to_nat segments_) init]>
                           (device_to_segments m))
                        (wrap64 (total_segments m + segments_)))
                     (make_internal device i) = Some init).
    { unfold segment_map_get. cbn [device_to_segments]. rewrite Ed, Es.
      rewrite list_lookup_insert_eq by assumption.
      apply lookup_replicate_2. lia. }
    split; [exact Hget|]. apply segment_map_contains_get. now rewrite Hget.
  - intros id Hne. unfold segment_map_get. cbn [device_to_segments].
    pose proof (device_id_nonneg id).
    rewrite list_lookup_insert_ne by lia. reflexivity.
  - intros id <-. unfold segment_map_get. rewrite Hdev.
    apply lookup_ge_None. lia.
  - reflexivity.
  - intros n' init'. unfold add_device. cbn [device_to_segments].
    destruct ((device <=? DEVICE_ID_MAX_VALID) && (0 <=? device)); [|reflexivity].
    rewrite list_lookup_insert_eq by assumption.
    rewrite bool_decide_eq_false_2; [reflexivity|].
    rewrite length_replicate. lia.
Qed.

Lemma segment_map_items_get m id x :
  (length (device_to_segments m) <= 256)%nat ->
  Forall (fun dev : list T => Z.of_nat (length dev) <= 2 ^ 24) (device_to_segments m) ->
  In (id, x) (segment_map_items m) <->
  is_segment_id id /\ segment_map_get m id = Some x.
Proof.
  intros Houter Hinner. unfold segment_map_items. rewrite in_concat. split.
  - intros (l & Hl & Hx). apply list_elem_of_In in Hl, Hx.
    apply elem_of_lookup_imap in Hl. destruct Hl as (d & dev & -> & Hd).
    apply elem_of_lookup_imap in Hx. destruct Hx as (i & y & E & Hi).
    injection E as -> ->.
    pose proof (lookup_lt_Some _ _ _ Hd) as Hdlt.
    pose proof (lookup_lt_Some _ _ _ Hi) as Hilt.
    eapply Forall_lookup_1 in Hinner; [|exact Hd]. cbv beta in Hinner.
    destruct (make_internal_parts (Z.of_nat d) (Z.of_nat i) ltac:(lia) ltac:(lia))
      as (Ed & Es & Hid).
    split; [exact Hid|]. unfold segment_map_get.
    rewrite Ed, Es, !Nat2Z.id, Hd. exact Hi.
  - intros [Hid Hget]. unfold segment_map_get in Hget.
    destruct (device_to_segments m !! Z.to_nat (device_id id)) as [dev|] eqn:Hd;
      [|discriminate].
    exists (imap (fun i y => (make_internal (Z.of_nat (Z.to_nat (device_id id)))
                                (Z.of_nat i), y)) dev).
    split; apply list_elem_of_In; apply elem_of_lookup_imap.
    + exists (Z.to_nat (device_id id)), dev. split; [reflexivity|exact Hd].
    + exists (Z.to_nat (device_segment_id id)), x. split; [|exact Hget].
      f_equal. pose proof (device_id_nonneg id). pose proof (device_segment_id_nonneg id).
      rewrite !Z2Nat.id by lia.
      symmetry. now apply make_internal_rebuild.
Qed.

Lemma iterator_ids_valid_in m id x :
  iterator_ids_valid m = true -> In (id, x) (segment_map_items m) ->
  segment_id_of_internal id = Some id.
Proof.
  intros Hvalid Hin. unfold iterator_ids_valid in Hvalid.
  rewrite forallb_forall in Hvalid. specialize (Hvalid _ Hin). cbn [fst] in Hvalid.
  unfold segment_id_of_internal. now rewrite Hvalid.
Qed.

(** Iteration over a map whose segments are all on devices of type SEGMENT
    visits what [operator[]] finds: a pair is among the items exactly when
    its id is a 32-bit id that the map holds with that value, every id
    visited is one the constructor of [segment_id_t] accepts, and the items
    are as many as the segments of all devices. *)
Theorem segment_map_items_lookup m :
  (length (device_to_segments m) <= 256)%nat ->
  Forall (fun dev : list T => Z.of_nat (length dev) <= 2 ^ 24) (device_to_segments m) ->
  iterator_ids_valid m = true ->
  (forall id x,
      In (id, x) (segment_map_items m) <->
      is_segment_id id /\ segment_map_get m id = Some x) /\
  (forall id x,
      In (id, x) (segment_map_items m) -> segment_id_of_internal id = Some id) /\
  Z.of_nat (length (segment_map_items m)) = seg_sum (fun _ => 1) m.
Proof.
  intros Houter Hinner Hvalid. split; [|split].
  - intros id x. now apply segment_map_items_get.
  - intros id x. now apply iterator_ids_valid_in.
  - unfold segment_map_items, seg_sum.
    rewrite length_concat_imap by (intros; apply length_imap).
    apply Zsum_ext. intros dev. symmetry. apply Zsum_const_length.
Qed.
End segment_map_lookup.

(** * The cleaner: allocation, journal tails, comparison of trackers *)

(** ** allocate_segment *)

Lemma first_empty_some items : forall id,
  first_empty items = Some id ->
  exists before info after,
    items = before ++ (id, info) :: after /\
    Forall (fun p : segment_id_t * segment_info_t => state p.2 <> EMPTY) before /\
    state info = EMPTY.
Proof.
  induction items as [|[seg_id info] items IH]; intros id H; cbn [first_empty] in H;
    [discriminate|].
  unfold is_empty in H. destruct (decide (state info = EMPTY)) as [He|Hne].
  - rewrite bool_decide_eq_true_2 in H by assumption. injection H as <-.
    exists [], info, items. repeat split; [constructor|assumption].
  - rewrite bool_decide_eq_false_2 in H by assumption.
    destruct (IH id H) as (before & info' & after & -> & Hb & Hi).
    exists ((seg_id, info) :: before), info', after. repeat split; [|assumption].
    constructor; assumption.
Qed.

Lemma first_empty_none items :
  Forall (fun p : segment_id_t * segment_info_t => state p.2 <> EMPTY) items ->
  first_empty items = None.
Proof.
  induction 1 as [|[seg_id info] items Hne _ IH]; [reflexivity|].
  cbn [first_empty]. unfold is_empty. cbn [snd] in Hne.
  now rewrite bool_decide_eq_false_2 by assumption.
Qed.

(** In a directory whose segments are all on devices of type SEGMENT,
    [allocate_segment] returns the first EMPTY segment of the iteration and
    leaves it OPEN with the sequence, type, category and generation asked
    for, nothing written and one EMPTY segment less; with no EMPTY segment
    left it aborts.  The wake-up of the GC process is assumed to leave the
    directory alone. *)
Theorem allocate_segment_first_empty `{async_cleaner_h} (c : cleaner_t)
    (q : Z) (t : segment_type_t) (cat : data_category_t) (g : Z) :
  (forall c0, c_segments (maybe_wake_on_space_used c0) = c_segments c0) ->
  iterator_ids_valid (segments (c_segments c)) = true ->
  (forall c' id,
      allocate_segment c q t cat g = Some (c', id) ->
      (exists before info after,
          segment_map_items (segments (c_segments c)) = before ++ (id, info) :: after /\
          Forall (fun p : segment_id_t * segment_info_t => state p.2 <> EMPTY) before /\
          state info = EMPTY) /\
      (exists info',
          segment_map_get (segments (c_segments c')) id = Some info' /\
          state info' = OPEN /\ seq info' = q /\ type info' = t /\
          category info' = cat /\ generation info' = g /\ written_to info' = 0) /\
      num_empty (c_segments c') = num_empty (c_segments c) - 1) /\
  (Forall (fun p : segment_id_t * segment_info_t => state p.2 <> EMPTY)
          (segment_map_items (segments (c_segments c))) ->
   allocate_segment c q t cat g = None).
Proof.
  intros Hwake _. split.
  - intros c' id Hrun. unfold allocate_segment in Hrun.
    destruct (negb (q =? NULL_SEG_SEQ)); [|discriminate].
    destruct (first_empty _) as [seg_id|] eqn:Hfirst; [|discriminate].
    destruct (mark_open (c_segments c) seg_id q t cat g) as [s'|] eqn:Hopen;
      [|discriminate].
    destruct (adjust_segment_util _ _ _) as [st|]; [|discriminate].
    injection Hrun as <- <-.
    split; [now apply first_empty_some|].
    assert (Hseg : c_segments
                     (set_stats (maybe_wake_on_space_used (set_segments c s')) st) = s').
    { cbn [set_stats c_segments]. now rewrite Hwake. }
    rewrite Hseg. unfold mark_open in Hopen.
    destruct (segment_map_get (segments (c_segments c)) seg_id) as [info|] eqn:Hget;
      [|discriminate].
    destruct (is_empty info); [|discriminate].
    destruct (0 <? num_empty (c_segments c)); [|discriminate].
    destruct (negb (is_journal t) || _ || _); [|discriminate].
    unfold set_open in Hopen.
    destruct (open_args_ok q t cat g); [|discriminate].
    injection Hopen as <-. cbn [segments num_empty]. split; [|reflexivity].
    eexists. split; [eapply segment_map_get_set_eq; exact Hget|].
    cbn. repeat split.
  - intros Hnone. unfold allocate_segment.
    rewrite (first_empty_none _ Hnone). now destruct (negb (q =? NULL_SEG_SEQ)).
Qed.

(** ** update_journal_tails *)

(** A wrapper of the cleaner that leaves the three journal positions
    alone. *)
Definition keeps_journal (f : cleaner_t -> cleaner_t) : Prop :=
  forall c, journal_head (f c) = journal_head c /\
            journal_alloc_tail (f c) = journal_alloc_tail c /\
            journal_dirty_tail (f c) = journal_dirty_tail c.

(** What one block of [update_journal_tails] does to the tail it owns. *)
Definition tail_moved (head old tail result : journal_seq_t) : Prop :=
  (journal_seq_eq tail JOURNAL_SEQ_NULL = true -> result = old) /\
  (journal_seq_ne tail JOURNAL_SEQ_NULL = true ->
   result = tail /\
   get_addr_type (offset tail) <> RANDOM_BLOCK /\
   (journal_seq_ne old JOURNAL_SEQ_NULL = true -> journal_seq_le old tail = true) /\
   (journal_seq_ne head JOURNAL_SEQ_NULL = true -> journal_seq_le tail head = true)).

Lemma journal_seq_cmp_swap a b : journal_seq_cmp a b = - journal_seq_cmp b a.
Proof.
  pose proof (key_lt_facts (journal_seq_key a) (journal_seq_key b) (journal_seq_key a))
    as (Hirr & Hasym & _ & Hne).
  pose proof (key_lt_facts (journal_seq_key b) (journal_seq_key a) (journal_seq_key a))
    as (_ & _ & _ & Hne').
  destruct (journal_seq_cmp_spec a b) as [[Eab Hab]|[[Eab Hab]|[Eab Hab]]];
    destruct (journal_seq_cmp_spec b a) as [[Eba Hba]|[[Eba Hba]|[Eba Hba]]];
    rewrite Eab, Eba; try reflexivity; exfalso; try tauto; try congruence.
Qed.

Lemma update_tail_spec (c : cleaner_t) current store tail c' :
  update_tail c current store tail = Some c' ->
  (journal_seq_eq tail JOURNAL_SEQ_NULL = true /\ c' = c) \/
  (journal_seq_ne tail JOURNAL_SEQ_NULL = true /\ c' = store c tail /\
   get_addr_type (offset tail) <> RANDOM_BLOCK /\
   (journal_seq_ne current JOURNAL_SEQ_NULL = true ->
    journal_seq_le current tail = true) /\
   (journal_seq_ne (journal_head c) JOURNAL_SEQ_NULL = true ->
    journal_seq_le tail (journal_head c) = true)).
Proof.
  unfold update_tail, journal_seq_ne, journal_seq_eq, journal_seq_le, journal_seq_ge,
    journal_seq_gt.
  intros H. destruct (Z.eqb_spec (journal_seq_cmp tail JOURNAL_SEQ_NULL) 0) as [E|E];
    cbn [negb] in H.
  - injection H as <-. now left.
  - right. split; [reflexivity|].
    destruct (bool_decide (get_addr_type (offset tail) = RANDOM_BLOCK)) eqn:Hty;
      [discriminate|]. apply bool_decide_eq_false_1 in Hty. cbn [negb] in H.
    destruct ((journal_seq_cmp (journal_head c) JOURNAL_SEQ_NULL =? 0)
              || (0 <=? journal_seq_cmp (journal_head c) tail)) eqn:Hhead;
      [|discriminate].
    destruct (negb (journal_seq_cmp current JOURNAL_SEQ_NULL =? 0)
              && (0 <? journal_seq_cmp current tail)) eqn:Hback; [discriminate|].
    injection H as <-. split; [reflexivity|]. split; [exact Hty|]. split.
    + intros Hcur. rewrite Hcur in Hback. cbn [andb] in Hback.
      apply Z.ltb_ge in Hback. now apply Z.leb_le.
    + intros Hh. apply negb_true_iff in Hh. rewrite Hh in Hhead. cbn [orb] in Hhead.
      apply Z.leb_le in Hhead. apply Z.leb_le. rewrite journal_seq_cmp_swap. lia.
Qed.

(** With trimming disabled [update_journal_tails] does nothing.  Otherwise a
    tail given as the null position is left as it was, and a tail that is
    set is not behind the one it replaces nor ahead of the journal head
    (whenever those are set); a tail that would move backwards, or beyond
    the head, aborts.  The journal head is never changed.  The two wake-ups
    are assumed to leave the journal positions alone. *)
Theorem update_journal_tails_forward `{async_cleaner_h} (c : cleaner_t)
    (dirty_tail alloc_tail : journal_seq_t) :
  keeps_journal maybe_wake_on_space_used ->
  keeps_journal maybe_wake_gc_blocked_io ->
  (disable_trim c = true -> update_journal_tails c dirty_tail alloc_tail = Some c) /\
  (forall c',
      disable_trim c = false ->
      update_journal_tails c dirty_tail alloc_tail = Some c' ->
      journal_head c' = journal_head c /\
      tail_moved (journal_head c) (journal_dirty_tail c) dirty_tail
        (journal_dirty_tail c') /\
      tail_moved (journal_head c) (journal_alloc_tail c) alloc_tail
        (journal_alloc_tail c')) /\
  (disable_trim c = false ->
   (journal_seq_ne dirty_tail JOURNAL_SEQ_NULL = true /\
    journal_seq_ne (journal_dirty_tail c) JOURNAL_SEQ_NULL = true /\
    journal_seq_gt (journal_dirty_tail c) dirty_tail = true) \/
   (journal_seq_ne dirty_tail JOURNAL_SEQ_NULL = true /\
    journal_seq_ne (journal_head c) JOURNAL_SEQ_NULL = true /\
    journal_seq_lt (journal_head c) dirty_tail = true) ->
   update_journal_tails c dirty_tail alloc_tail = None).
Proof.
  intros Hw1 Hw2. split; [|split].
  - intros Hd. unfold update_journal_tails. now rewrite Hd.
  - intros c' Hd Hrun. unfold update_journal_tails in Hrun. rewrite Hd in Hrun.
    destruct (update_tail c _ _ dirty_tail) as [c1|] eqn:H1; [|discriminate].
    destruct (update_tail c1 _ _ alloc_tail) as [c2|] eqn:H2; [|discriminate].
    injection Hrun as <-.
    destruct (Hw2 (maybe_wake_on_space_used c2)) as (-> & -> & ->).
    destruct (Hw1 c2) as (-> & -> & ->).
    apply update_tail_spec in H1, H2.
    assert (Hc1 : journal_head c1 = journal_head c /\
                  journal_alloc_tail c1 = journal_alloc_tail c).
    { destruct H1 as [[_ ->]|(_ & -> & _)]; split; reflexivity. }
    destruct Hc1 as [Hh1 Ha1]. rewrite Hh1, Ha1 in H2.
    assert (Hnull : forall x, journal_seq_eq x JOURNAL_SEQ_NULL = true ->
                              journal_seq_ne x JOURNAL_SEQ_NULL = true -> False).
    { unfold journal_seq_eq, journal_seq_ne. intros x E N. rewrite E in N. discriminate. }
    split; [|split].
    + destruct H2 as [[_ ->]|(_ & -> & _)]; exact Hh1.
    + assert (Hd2 : journal_dirty_tail c2 = journal_dirty_tail c1).
      { destruct H2 as [[_ ->]|(_ & -> & _)]; reflexivity. }
      rewrite Hd2. unfold tail_moved.
      destruct H1 as [[E ->]|(N & -> & Hty & Hold & Hhead)].
      * split; [reflexivity|]. intros N. exfalso. eapply Hnull; eassumption.
      * split; [intros E; exfalso; eapply Hnull; eassumption|].
        intros _. cbn [set_journal_dirty_tail journal_dirty_tail]. auto.
    + unfold tail_moved.
      destruct H2 as [[E ->]|(N & -> & Hty & Hold & Hhead)].
      * split; [intros _; exact Ha1|]. intros N. exfalso. eapply Hnull; eassumption.
      * split; [intros E; exfalso; eapply Hnull; eassumption|].
        intros _. cbn [set_journal_alloc_tail journal_alloc_tail]. auto.
  - intros Hd Hbad. unfold update_journal_tails. rewrite Hd.
    assert (Hnone : update_tail c (journal_dirty_tail c) set_journal_dirty_tail
                      dirty_tail = None).
    { unfold update_tail.
      destruct Hbad as [(N & No & Hgt)|(N & Nh & Hlt)]; rewrite N.
      - destruct (negb (bool_decide _)); [|reflexivity].
        destruct (_ || _); [|reflexivity]. now rewrite No, Hgt.
      - destruct (negb (bool_decide _)); [|reflexivity].
        unfold journal_seq_ne in Nh. apply negb_true_iff in Nh.
        unfold journal_seq_eq. rewrite Nh. cbn [orb].
        unfold journal_seq_lt in Hlt. apply Z.ltb_lt in Hlt.
        unfold journal_seq_ge.
        destruct (Z.leb_spec 0 (journal_seq_cmp (journal_head c) dirty_tail));
          [lia|reflexivity]. }
    now rewrite Hnone.
Qed.

(** ** equals *)

Lemma equals_loop_spec {A} (usage : A -> Z) xs : forall ys all_match,
  length xs = length ys ->
  equals_loop usage xs ys all_match =
    Some (all_match && bool_decide (map (fun p => usage p.2) xs
                                    = map (fun p => usage p.2) ys)).
Proof.
  induction xs as [|[i x] xs IH]; intros [|[j y] ys] am Hlen;
    try discriminate; cbn [equals_loop length map].
  - now rewrite bool_decide_eq_true_2, andb_true_r by reflexivity.
  - cbn [length] in Hlen. rewrite IH by congruence. cbn [snd]. f_equal.
    destruct (Z.eqb_spec (usage x) (usage y)) as [E|E]; cbn [negb].
    + rewrite E. destruct am; cbn [andb]; [|reflexivity].
      apply bool_decide_ext. split; [congruence|]. intros K. now injection K.
    + cbn [andb]. rewrite (bool_decide_eq_false_2 (usage x :: _ = usage y :: _));
        [now rewrite andb_false_r|].
      intros K. now injection K.
Qed.

Lemma equals_loop_short {A} (usage : A -> Z) xs : forall ys all_match,
  (length ys < length xs)%nat -> equals_loop usage xs ys all_match = None.
Proof.
  induction xs as [|[i x] xs IH]; intros [|[j y] ys] am Hlen;
    cbn [length] in Hlen; try lia; cbn [equals_loop]; [reflexivity|].
  apply IH. lia.
Qed.

(** The usages of a tracker in iteration order. *)
Definition tracker_usages (t : space_tracker_t) : list Z :=
  match t with
  | SpaceTrackerSimple live => map (fun p => p.2) (segment_map_items live)
  | SpaceTrackerDetailed usage _ =>
    map (fun p => SegmentMap_get_usage p.2) (segment_map_items usage)
  end.

Definition tracker_size (t : space_tracker_t) : Z :=
  match t with
  | SpaceTrackerSimple live => segment_map_size live
  | SpaceTrackerDetailed usage _ => segment_map_size usage
  end.

Definition tracker_ids_valid (t : space_tracker_t) : bool :=
  match t with
  | SpaceTrackerSimple live => iterator_ids_valid live
  | SpaceTrackerDetailed usage _ => iterator_ids_valid usage
  end.

Definition same_tracker_class (t other : space_tracker_t) : bool :=
  match t, other with
  | SpaceTrackerSimple _, SpaceTrackerSimple _ => true
  | SpaceTrackerDetailed _ _, SpaceTrackerDetailed _ _ => true
  | _, _ => false
  end.

(** Two trackers of one class, with their segments on devices of type
    SEGMENT, that iterate over as many segments are equal exactly when their
    usages agree segment by segment in iteration order: neither the segment
    ids nor, for the detailed tracker, the bitmaps and block sizes are
    compared.  Different sizes abort, and so does a tracker that runs out of
    segments before the other. *)
Theorem tracker_equals_usages (t other : space_tracker_t) :
  same_tracker_class t other = true ->
  tracker_ids_valid t = true -> tracker_ids_valid other = true ->
  (tracker_size other <> tracker_size t -> tracker_equals t other = None) /\
  (tracker_size other = tracker_size t ->
   length (tracker_usages t) = length (tracker_usages other) ->
   tracker_equals t other
   = Some (bool_decide (tracker_usages t = tracker_usages other))) /\
  (tracker_size other = tracker_size t ->
   (length (tracker_usages other) < length (tracker_usages t))%nat ->
   tracker_equals t other = None).
Proof.
  intros Hclass _ _.
  destruct t as [live|usage bs], other as [live'|usage' bs'];
    try discriminate; cbn [tracker_size tracker_usages tracker_equals];
    (split; [|split]).
  - intros Hne. destruct (Z.eqb_spec (segment_map_size live') (segment_map_size live));
      [contradiction|reflexivity].
  - intros -> Hlen. rewrite Z.eqb_refl. cbn [negb].
    rewrite !length_map in Hlen. now rewrite equals_loop_spec.
  - intros -> Hlen. rewrite Z.eqb_refl. cbn [negb].
    rewrite !length_map in Hlen. now apply equals_loop_short.
  - intros Hne. destruct (Z.eqb_spec (segment_map_size usage') (segment_map_size usage));
      [contradiction|reflexivity].
  - intros -> Hlen. rewrite Z.eqb_refl. cbn [negb].
    rewrite !length_map in Hlen. now rewrite equals_loop_spec.
  - intros -> Hlen. rewrite Z.eqb_refl. cbn [negb].
    rewrite !length_map in Hlen. now apply equals_loop_short.
Qed.

(** * The segment directory: space and type accounting *)

Lemma available_bytes_exact s :
  directory_inv s ->
  get_available_bytes s = num_empty s * segment_size s + avail_bytes_in_open s.
Proof. intros Hinv. now destruct (directory_inv_counters s Hinv) as (_ & _ & ?). Qed.

(** What each operation does to the available bytes: opening an EMPTY
    segment leaves them as they are, a write takes the bytes it advances
    [written_to] by, closing takes what was left unwritten in the segment,
    releasing gives a whole segment back, and a segment found closed at
    mount takes a whole segment. *)
Theorem available_bytes_by_operation head_null s :
  directory_inv s ->
  (forall id q t c g s',
      mark_open s id q t c g = Some s' ->
      get_available_bytes s' = get_available_bytes s) /\
  (forall t o s',
      update_written_to s t o = Some s' ->
      exists info,
        segment_map_get (segments s) (get_segment_id o) = Some info /\
        written_to info <= get_segment_off o <= segment_size s /\
        get_available_bytes s'
        = get_available_bytes s - (get_segment_off o - written_to info)) /\
  (forall id s',
      mark_closed s id = Some s' ->
      exists info,
        segment_map_get (segments s) id = Some info /\
        get_available_bytes s'
        = get_available_bytes s - (segment_size s - written_to info)) /\
  (forall id s',
      mark_empty s id = Some s' ->
      get_available_bytes s' = get_available_bytes s + segment_size s) /\
  (forall id q t c g s',
      init_closed head_null s id q t c g = Some s' ->
      get_available_bytes s' = get_available_bytes s - segment_size s).
Proof.
  intros Hinv. pose proof (directory_inv_facts s Hinv) as F. cbv zeta in F.
  destruct F as (Fn & Fcap & Fe & Fo & Fc & Fa & Fsplit & Fss).
  pose proof (available_bytes_exact s Hinv) as Hs.
  pose proof (inv_empty s Hinv) as He. pose proof (inv_open s Hinv) as Ho.
  pose proof (inv_avail s Hinv) as Ha.
  split; [|split; [|split; [|split]]].
  - intros id q t c g s' H.
    rewrite (available_bytes_exact s' (mark_open_inv _ _ _ _ _ _ _ Hinv H)), Hs.
    unfold mark_open in H. peel H. unfold set_open in E3. peel E3.
    injection H as <-. cbn [num_empty segment_size avail_bytes_in_open].
    unfold get_segment_size, wrap64. rewrite wrap_small by nia. lia.
  - intros t o s' H.
    pose proof (available_bytes_exact s' (update_written_to_inv _ _ _ _ Hinv H)) as Hs'.
    unfold update_written_to in H. cbv zeta in H. peel H. injection H as <-.
    to_prop. exists s0. split; [reflexivity|].
    unfold get_segment_size, wrap64 in *.
    pose proof (get_segment_off_range o) as Hr.
    assert (Hoff : 0 <= get_segment_off o).
    { destruct (Z_lt_le_dec (get_segment_off o) 0) as [Hneg|]; [|assumption].
      exfalso. unfold wrap in *.
      replace (get_segment_off o mod 2 ^ 64) with (get_segment_off o + 2 ^ 64) in *;
        [lia|].
      rewrite <- (Z_mod_plus_full (get_segment_off o) 1 (2 ^ 64)). symmetry.
      apply Z.mod_small. lia. }
    rewrite (wrap_small 64 (get_segment_off o)) in * by lia.
    split; [lia|]. rewrite Hs', Hs.
    cbn [num_empty segment_size avail_bytes_in_open]. lia.
  - intros id s' H.
    pose proof (available_bytes_exact s' (mark_closed_inv _ _ _ Hinv H)) as Hs'.
    unfold mark_closed in H. cbv zeta in H. peel H. injection H as <-.
    exists s0. split; [reflexivity|]. rewrite Hs', Hs.
    cbn [num_empty segment_size avail_bytes_in_open]. unfold get_segment_size. lia.
  - intros id s' H.
    pose proof (available_bytes_exact s' (mark_empty_inv _ _ _ Hinv H)) as Hs'.
    unfold mark_empty in H. cbv zeta in H. peel H. injection H as <-.
    rewrite Hs', Hs. cbn [num_empty segment_size avail_bytes_in_open].
    unfold wrap64. rewrite wrap_small by lia. lia.
  - intros id q t c g s' H.
    pose proof (available_bytes_exact s'
                  (init_closed_inv head_null _ _ _ _ _ _ _ Hinv H)) as Hs'.
    unfold init_closed in H. peel H. unfold info_init_closed in E4. peel E4.
    injection H as <-. rewrite Hs', Hs.
    cbn [num_empty segment_size avail_bytes_in_open]. lia.
Qed.

(** ** Counters by segment type *)

Definition is_type_journal (i : segment_info_t) : Z :=
  indicator (negb (is_empty i) && is_journal (type i)).
Definition is_type_ool (i : segment_info_t) : Z :=
  indicator (negb (is_empty i) && negb (is_journal (type i))).
Definition is_journal_open (i : segment_info_t) : Z :=
  indicator (is_open i && is_journal (type i)).

Record type_inv (s : segments_info_t) : Prop := mk_type_inv {
  tinv_journal : num_type_journal s = seg_sum is_type_journal (segments s);
  tinv_ool : num_type_ool s = seg_sum is_type_ool (segments s);
  tinv_open : num_in_journal_open s = seg_sum is_journal_open (segments s);
  tinv_one : seg_sum is_journal_open (segments s) <= 1;
}.

Lemma seg_all_of_get {T} (P : T -> Prop) (m : segment_map_t T) :
  (length (device_to_segments m) <= 256)%nat ->
  Forall (fun dev : list T => Z.of_nat (length dev) <= 2 ^ 24) (device_to_segments m) ->
  (forall id x, is_segment_id id -> segment_map_get m id = Some x -> P x) ->
  seg_all P m.
Proof.
  intros Houter Hinner H. unfold seg_all.
  apply Forall_lookup_2. intros d dev Hd. apply Forall_lookup_2. intros i x Hi.
  pose proof (lookup_lt_Some _ _ _ Hd) as Hdlt.
  pose proof (lookup_lt_Some _ _ _ Hi) as Hilt.
  eapply Forall_lookup_1 in Hinner; [|exact Hd]. cbv beta in Hinner.
  destruct (make_internal_parts (Z.of_nat d) (Z.of_nat i) ltac:(lia) ltac:(lia))
    as (Ed & Es & Hid).
  apply (H (make_internal (Z.of_nat d) (Z.of_nat i)) x Hid).
  unfold segment_map_get. rewrite Ed, Es, !Nat2Z.id, Hd. exact Hi.
Qed.

Lemma indicator_sum_bound (f : segment_info_t -> bool) (m : segment_map_t segment_info_t) :
  0 <= seg_sum (fun i => indicator (f i)) m <= seg_sum (fun _ => 1) m.
Proof.
  pose proof (seg_sum_nonneg (fun i => indicator (f i)) 1 m) as H.
  assert (Hall : seg_all (fun i => 0 <= indicator (f i) <= 1) m).
  { unfold seg_all. apply Forall_forall. intros dev _. apply Forall_forall.
    intros i _. destruct (f i); cbn; lia. }
  specialize (H ltac:(lia) Hall). lia.
Qed.

Lemma type_sums_bound (m : segment_map_t segment_info_t) :
  0 <= seg_sum is_type_journal m <= seg_sum (fun _ => 1) m /\
  0 <= seg_sum is_type_ool m <= seg_sum (fun _ => 1) m /\
  0 <= seg_sum is_journal_open m <= seg_sum (fun _ => 1) m.
Proof.
  repeat split;
    first [ apply (indicator_sum_bound (fun i => negb (is_empty i) && is_journal (type i)))
          | apply (indicator_sum_bound
                     (fun i => negb (is_empty i) && negb (is_journal (type i))))
          | apply (indicator_sum_bound (fun i => is_open i && is_journal (type i))) ].
Qed.

Lemma type_sums_by_state (m : segment_map_t segment_info_t) :
  seg_sum is_type_journal m + seg_sum is_type_ool m
  = count_state OPEN m + count_state CLOSED m.
Proof.
  unfold count_state. rewrite <- !seg_sum_plus. apply seg_sum_ext.
  intros i. unfold is_type_journal, is_type_ool, is_empty, is_journal.
  destruct (state i), (type i); reflexivity.
Qed.

(** No journal segment is OPEN when [mark_open] lets a JOURNAL segment in. *)
Lemma no_open_journal s q :
  directory_inv s -> journal_inv s ->
  (journal_segment_id s =? NULL_SEG_ID) || last_journal_segment_ok s q = true ->
  seg_sum is_journal_open (segments s) = 0.
Proof.
  intros Hinv Hj Hlast. apply seg_sum_zero.
  apply seg_all_of_get.
  - pose proof (inv_devices s Hinv). lia.
  - eapply Forall_impl; [exact (inv_device_len s Hinv)|].
    intros dev Hdev. cbv beta in Hdev.
    change DEVICE_SEGMENT_ID_MAX with (2 ^ 24 - 1) in Hdev. lia.
  - intros id x Hid Hget. unfold is_journal_open, is_open, is_journal.
    destruct (decide (state x = OPEN)) as [Ho|Ho];
      [|now rewrite (bool_decide_eq_false_2 _ Ho)].
    destruct (decide (type x = JOURNAL)) as [Ht|Ht];
      [|now rewrite (bool_decide_eq_false_2 _ Ht), andb_false_r].
    exfalso.
    assert (Hid' : id = journal_segment_id s).
    { apply (jinv_open s Hj id Hid). now exists x. }
    apply orb_prop in Hlast. destruct Hlast as [Hnull|Hok].
    + apply Z.eqb_eq in Hnull. rewrite Hid', Hnull in Hget.
      rewrite segment_map_get_null in Hget by exact (inv_device_len s Hinv).
      discriminate.
    + unfold last_journal_segment_ok in Hok. rewrite <- Hid', Hget in Hok.
      unfold is_closed in Hok. rewrite Ho in Hok. discriminate.
Qed.

Ltac decide_consts :=
  repeat match goal with
         | |- context [bool_decide (?a = ?b)] =>
           first [ rewrite (bool_decide_eq_true_2 (a = b)) by congruence
                 | rewrite (bool_decide_eq_false_2 (a = b)) by congruence ]
         end.

Ltac type_sums :=
  unfold is_type_journal, is_type_ool, is_journal_open, is_empty, is_open, is_closed,
    is_journal in *;
  cbn [state type set_empty set_closed] in *.

Section type_preservation.
Variable submitted_journal_head_is_null : segments_info_t -> bool.

Lemma mark_open_type_inv s segment q t c g s' :
  directory_inv s -> journal_inv s -> type_inv s ->
  mark_open s segment q t c g = Some s' -> type_inv s'.
Proof.
  intros Hinv Hj [Tj To Tjo T1] H.
  pose proof (directory_inv_facts s Hinv) as F. cbv zeta in F.
  destruct F as (Fn & _).
  pose proof (type_sums_bound (segments s)) as (Bj & Bo & Bjo).
  unfold mark_open in H. peel H. unfold set_open in E3. peel E3.
  injection E3 as <-. injection H as <-.
  apply bool_decide_eq_true_1 in E0.
  assert (Hzero : is_journal t = true -> seg_sum is_journal_open (segments s) = 0).
  { intros Ht. rewrite Ht in E2. cbn [negb orb] in E2.
    eapply no_open_journal; eassumption. }
  unfold wrap64.
  constructor; cbn [num_type_journal num_type_ool num_in_journal_open segments];
    rewrite (seg_sum_set _ _ _ _ _ E); type_sums; rewrite E0;
    destruct (is_journal t) eqn:Ht; unfold is_journal in Ht; rewrite ?Ht;
    decide_consts; cbn [negb andb indicator];
    rewrite ?wrap_small by lia; try specialize (Hzero Ht); try lia.
Qed.

Lemma init_closed_type_inv s segment q t c g s' :
  directory_inv s -> type_inv s ->
  init_closed submitted_journal_head_is_null s segment q t c g = Some s' ->
  type_inv s'.
Proof.
  intros Hinv [Tj To Tjo T1] H.
  pose proof (directory_inv_facts s Hinv) as F. cbv zeta in F.
  destruct F as (Fn & _).
  pose proof (type_sums_bound (segments s)) as (Bj & Bo & Bjo).
  unfold init_closed in H. peel H. unfold info_init_closed in E4. peel E4.
  injection E4 as <-. injection H as <-.
  apply bool_decide_eq_true_1 in E0. unfold wrap64.
  constructor; cbn [num_type_journal num_type_ool num_in_journal_open segments];
    rewrite (seg_sum_set _ _ _ _ _ E); type_sums; rewrite E0;
    destruct (is_journal t) eqn:Ht; unfold is_journal in Ht; rewrite ?Ht;
    decide_consts; cbn [negb andb indicator];
    rewrite ?wrap_small by lia; lia.
Qed.

Lemma mark_closed_type_inv s segment s' :
  type_inv s -> mark_closed s segment = Some s' -> type_inv s'.
Proof.
  intros [Tj To Tjo T1] H.
  pose proof (type_sums_bound (segments s)) as (Bj & Bo & Bjo).
  unfold mark_closed in H. cbv zeta in H. peel H. injection H as <-.
  apply bool_decide_eq_true_1 in E0.
  constructor; cbn [num_type_journal num_type_ool num_in_journal_open segments];
    rewrite (seg_sum_set _ _ _ _ _ E); type_sums; rewrite E0;
    destruct (bool_decide (type s0 = JOURNAL));
    decide_consts; cbn [negb andb indicator]; lia.
Qed.

Lemma mark_empty_type_inv s segment s' :
  type_inv s -> mark_empty s segment = Some s' -> type_inv s'.
Proof.
  intros [Tj To Tjo T1] H.
  pose proof (type_sums_bound (segments s)) as (Bj & Bo & Bjo).
  unfold mark_empty in H. cbv zeta in H. peel H. injection H as <-.
  apply bool_decide_eq_true_1 in E0.
  constructor; cbn [num_type_journal num_type_ool num_in_journal_open segments];
    rewrite (seg_sum_set _ _ _ _ _ E); type_sums; rewrite E0;
    destruct (bool_decide (type s0 = JOURNAL));
    decide_consts; cbn [negb andb indicator]; lia.
Qed.

Lemma update_written_to_type_inv s t o s' :
  type_inv s -> update_written_to s t o = Some s' -> type_inv s'.
Proof.
  intros [Tj To Tjo T1] H.
  unfold update_written_to in H. cbv zeta in H. peel H. injection H as <-.
  constructor; cbn [num_type_journal num_type_ool num_in_journal_open segments];
    rewrite (seg_sum_set _ _ _ _ _ E0); type_sums; lia.
Qed.

Lemma with_modify_time_type_inv s segment tp num s' :
  type_inv s -> with_modify_time s segment tp num = Some s' -> type_inv s'.
Proof.
  intros [Tj To Tjo T1] H.
  unfold with_modify_time in H. peel H. injection H as <-.
  constructor; cbn [num_type_journal num_type_ool num_in_journal_open segments];
    rewrite (seg_sum_set _ _ _ _ _ E); type_sums; lia.
Qed.

Lemma add_segment_managers_type_counters sms : forall s s',
  add_segment_managers s sms = Some s' ->
  num_type_journal s' = num_type_journal s /\ num_type_ool s' = num_type_ool s /\
  num_in_journal_open s' = num_in_journal_open s.
Proof.
  induction sms as [|sm sms IH]; intros s s' H; cbn [add_segment_managers] in H.
  - now injection H as <-.
  - destruct (add_segment_manager s sm) as [s1|] eqn:E; [|discriminate].
    destruct (IH _ _ H) as (-> & -> & ->).
    unfold add_segment_manager in E. cbv zeta in E. peel E. injection E as <-.
    repeat split.
Qed.

Lemma reachable_type_inv s :
  reachable submitted_journal_head_is_null s -> type_inv s.
Proof.
  induction 1 as [sms s Hwt Hinit|s op s' Hreach IH Hwt Hrun
                  |s segment tp num s' Hreach IH Hseg Hrun].
  - destruct (add_segment_managers_inv sms reset s Hwt reset_inv Hinit) as [_ Hall].
    destruct (add_segment_managers_type_counters _ _ _ Hinit) as (Hj & Ho & Hjo).
    assert (Hz : forall f : segment_info_t -> Z,
               f segment_info_default = 0 -> seg_sum f (segments s) = 0).
    { intros f Hf. apply seg_sum_zero. eapply seg_all_impl; [|exact Hall].
      now intros i ->. }
    constructor; rewrite ?Hj, ?Ho, ?Hjo, Hz by reflexivity; cbn; lia.
  - pose proof (reachable_directory_inv _ _ Hreach) as Hinv.
    pose proof (reachable_journal_inv _ _ Hreach) as Hj.
    destruct op; cbn [run_op] in Hrun;
      eauto using init_closed_type_inv, mark_open_type_inv, mark_closed_type_inv,
        mark_empty_type_inv, update_written_to_type_inv.
  - eapply with_modify_time_type_inv; eassumption.
Qed.
End type_preservation.

(** In every reachable state [num_type_journal] and [num_type_ool] count
    the segments that are not EMPTY by type, so that together they are
    [num_open + num_closed], and [num_in_journal_open] counts the OPEN
    journal segments, of which there is at most one. *)
Theorem type_counters_invariant head_null s :
  reachable head_null s ->
  num_type_journal s = seg_sum is_type_journal (segments s) /\
  num_type_ool s = seg_sum is_type_ool (segments s) /\
  num_type_journal s + num_type_ool s = num_open s + num_closed s /\
  num_in_journal_open s = seg_sum is_journal_open (segments s) /\
  0 <= num_in_journal_open s <= 1.
Proof.
  intros Hreach.
  destruct (reachable_type_inv head_null s Hreach) as [Tj To Tjo T1].
  pose proof (reachable_directory_inv _ _ Hreach) as Hinv.
  pose proof (type_sums_bound (segments s)) as (_ & _ & Bjo).
  split; [exact Tj|]. split; [exact To|]. split.
  - rewrite Tj, To, (inv_open s Hinv), (inv_closed s Hinv). apply type_sums_by_state.
  - split; [exact Tjo|]. lia.
Qed.

(** ** The directory right after the devices are added *)

Lemma add_segment_manager_size s sm s' :
  add_segment_manager s sm = Some s' ->
  segment_size s' = sm_segment_size sm /\ 0 < segment_size s' /\
  (segment_size s <> 0 -> segment_size s' = segment_size s) /\
  total_bytes s' = wrap64 (total_bytes s + sm_size sm).
Proof.
  intros H. unfold add_segment_manager in H. cbv zeta in H. peel H.
  injection H as <-. to_prop. cbn [segment_size total_bytes].
  repeat split; lia.
Qed.

Lemma add_segment_managers_size sms : forall s s',
  add_segment_managers s sms = Some s' ->
  0 < segment_size s ->
  segment_size s' = segment_size s /\
  (forall sm, sm ∈ sms -> sm_segment_size sm = segment_size s).
Proof.
  induction sms as [|sm sms IH]; intros s s' H Hpos; cbn [add_segment_managers] in H.
  - injection H as <-. split; [reflexivity|]. intros sm Hin. inversion Hin.
  - destruct (add_segment_manager s sm) as [s1|] eqn:E; [|discriminate].
    destruct (add_segment_manager_size _ _ _ E) as (E1 & Hp1 & Hkeep & _).
    specialize (Hkeep ltac:(lia)).
    destruct (IH _ _ H Hp1) as [Hs' Hall]. split; [congruence|].
    intros sm' Hin. apply elem_of_cons in Hin. destruct Hin as [->|Hin].
    + congruence.
    + rewrite (Hall _ Hin). exact Hkeep.
Qed.

Lemma add_segment_managers_total_bytes sms : forall s s',
  add_segment_managers s sms = Some s' ->
  total_bytes s' = wrap64 (total_bytes s + Zsum sm_size sms) \/
  (sms = [] /\ s' = s).
Proof.
  induction sms as [|sm sms IH]; intros s s' H; cbn [add_segment_managers] in H.
  - injection H as <-. now right.
  - left. destruct (add_segment_manager s sm) as [s1|] eqn:E; [|discriminate].
    destruct (add_segment_manager_size _ _ _ E) as (_ & _ & _ & Et).
    rewrite Zsum_cons.
    destruct (IH _ _ H) as [->|[-> ->]].
    + rewrite Et. unfold wrap64, wrap. rewrite Zplus_mod_idemp_l. f_equal. lia.
    + rewrite Et. cbn [Zsum foldr]. f_equal. lia.
Qed.

(** A device slot that holds segments. *)
Definition device_used (s : segments_info_t) (d : Z) : Prop :=
  exists dev, device_to_segments (segments s) !! Z.to_nat d = Some dev /\
              length dev <> 0%nat.

Lemma add_segment_manager_devices s sm s' :
  add_segment_manager s sm = Some s' ->
  0 <= sm_device_id sm /\ ~ device_used s (sm_device_id sm) /\
  device_used s' (sm_device_id sm) /\
  (forall d, device_used s d -> device_used s' d).
Proof.
  intros H. unfold add_segment_manager in H. cbv zeta in H. peel H.
  unfold add_device in E0. peel E0. injection E0 as <-. injection H as <-.
  to_prop. unfold device_used. cbn [segments device_to_segments].
  pose proof (lookup_lt_Some _ _ _ E3) as Hlt.
  split; [lia|]. split; [|split].
  - intros (dev & Hd & Hlen). congruence.
  - eexists. split; [apply list_lookup_insert_eq; exact Hlt|].
    rewrite length_replicate. lia.
  - intros d (dev & Hd & Hlen).
    destruct (decide (Z.to_nat d = Z.to_nat (sm_device_id sm))) as [Heq|Hne].
    + rewrite Heq in Hd. congruence.
    + exists dev. split; [|exact Hlen]. rewrite list_lookup_insert_ne by congruence.
      exact Hd.
Qed.

Lemma add_segment_managers_devices sms : forall s s',
  add_segment_managers s sms = Some s' ->
  NoDup (map sm_device_id sms) /\
  (forall sm, sm ∈ sms -> ~ device_used s (sm_device_id sm)) /\
  (forall d, device_used s d -> device_used s' d).
Proof.
  induction sms as [|sm sms IH]; intros s s' H; cbn [add_segment_managers] in H.
  - injection H as <-. split; [constructor|]. split; [|auto].
    intros sm Hin. inversion Hin.
  - destruct (add_segment_manager s sm) as [s1|] eqn:E; [|discriminate].
    destruct (add_segment_manager_devices _ _ _ E) as (Hpos & Hfree & Hused & Hkeep).
    destruct (IH _ _ H) as (Hnd & Hfree' & Hkeep').
    split; [|split].
    + cbn [map]. constructor; [|exact Hnd].
      intros Hin. apply list_elem_of_fmap in Hin. destruct Hin as (sm' & Heq & Hin).
      apply (Hfree' sm' Hin). now rewrite <- Heq.
    + intros sm' Hin. apply elem_of_cons in Hin. destruct Hin as [->|Hin];
        [exact Hfree|].
      intros Hu. apply (Hfree' sm' Hin). now apply Hkeep.
    + intros d Hd. apply Hkeep'. now apply Hkeep.
Qed.

(** After [reset] and one [add_segment_manager] per device every segment is
    EMPTY with the fields of a default [segment_info_t], all segments count
    as empty and all their bytes as available; the devices that got through
    have one segment size and pairwise distinct ids. *)
Theorem add_segment_managers_fresh sms s :
  Forall sm_well_typed sms ->
  add_segment_managers reset sms = Some s ->
  seg_all (fun i => i = segment_info_default) (segments s) /\
  num_empty s = get_num_segments s /\ num_open s = 0 /\ num_closed s = 0 /\
  avail_bytes_in_open s = 0 /\
  get_available_bytes s = get_num_segments s * segment_size s /\
  (forall sm, sm ∈ sms -> sm_segment_size sm = segment_size s) /\
  NoDup (map sm_device_id sms) /\
  total_bytes s = wrap64 (Zsum sm_size sms).
Proof.
  intros Hwt H.
  destruct (add_segment_managers_inv sms reset s Hwt reset_inv H) as [Hinv Hall].
  pose proof (directory_inv_counters s Hinv) as (Hsum & _ & Havail).
  assert (Hz : forall (f : segment_info_t -> Z),
             f segment_info_default = 0 -> seg_sum f (segments s) = 0).
  { intros f Hf. apply seg_sum_zero. eapply seg_all_impl; [|exact Hall].
    now intros i ->. }
  assert (Ho : num_open s = 0).
  { rewrite (inv_open s Hinv). unfold count_state. now apply Hz. }
  assert (Hc : num_closed s = 0).
  { rewrite (inv_closed s Hinv). unfold count_state. now apply Hz. }
  assert (Ha : avail_bytes_in_open s = 0).
  { rewrite (inv_avail s Hinv). now apply Hz. }
  split; [exact Hall|]. split; [lia|]. split; [exact Ho|]. split; [exact Hc|].
  split; [exact Ha|]. split; [rewrite Havail; f_equal; lia|].
  destruct (add_segment_managers_devices _ _ _ H) as (Hnd & _).
  split; [|split; [exact Hnd|]].
  - destruct sms as [|sm sms]; [intros sm Hin; inversion Hin|].
    cbn [add_segment_managers] in H.
    destruct (add_segment_manager reset sm) as [s1|] eqn:E; [|discriminate].
    destruct (add_segment_manager_size _ _ _ E) as (E1 & Hp1 & _).
    destruct (add_segment_managers_size _ _ _ H Hp1) as [Hs Hrest].
    intros sm' Hin. apply elem_of_cons in Hin. destruct Hin as [->|Hin].
    + congruence.
    + rewrite (Hrest _ Hin). congruence.
  - destruct (add_segment_managers_total_bytes _ _ _ H) as [->|[-> ->]];
      reflexivity.
Qed.

(** ** Writes to one segment compose *)

(** Two writes to a segment are the second one alone, and a write behind
    the first one aborts: [written_to] never decreases. *)
Theorem update_written_to_compose s t o1 o2 s1 :
  update_written_to s t o1 = Some s1 ->
  get_segment_id o2 = get_segment_id o1 ->
  (forall s2, update_written_to s1 t o2 = Some s2 ->
              update_written_to s t o2 = Some s2) /\
  (wrap64 (get_segment_off o2) < wrap64 (get_segment_off o1) ->
   update_written_to s1 t o2 = None).
Proof.
  intros H1 Hid. unfold update_written_to in H1. cbv zeta in H1. peel H1.
  injection H1 as <-.
  set (x1 := mk_segment_info (state s0) (seq s0) (type s0) (category s0)
               (generation s0) (modify_time s0) (num_extents s0)
               (wrap64 (get_segment_off o1))) in *.
  assert (Hget1 : segment_map_get (segment_map_set (segments s) (get_segment_id o1) x1)
                    (get_segment_id o1) = Some x1).
  { eapply segment_map_get_set_eq. exact E0. }
  split.
  - intros s2 H2. unfold update_written_to in H2 |- *. cbv zeta in H2 |- *.
    cbn [segments segment_size avail_bytes_in_open get_segment_size] in H2.
    rewrite Hid in H2 |- *. rewrite Hget1 in H2. rewrite E0.
    destruct (bool_decide (get_addr_type o2 = SEGMENT)); [|discriminate].
    unfold is_open in *. cbn [state type written_to x1] in H2.
    rewrite E1 in H2 |- *. unfold get_segment_size in *.
    destruct (Z.leb_spec (wrap64 (get_segment_off o2)) (segment_size s)); [|discriminate].
    destruct (Z.leb_spec (wrap64 (get_segment_off o1)) (wrap64 (get_segment_off o2)));
      [|discriminate].
    rewrite E4 in H2 |- *.
    destruct (Z.leb_spec (wrap64 (get_segment_off o2) - wrap64 (get_segment_off o1))
                (avail_bytes_in_open s
                 - (wrap64 (get_segment_off o1) - written_to s0))); [|discriminate].
    to_prop.
    destruct (Z.leb_spec (written_to s0) (wrap64 (get_segment_off o2))); [|lia].
    destruct (Z.leb_spec (wrap64 (get_segment_off o2) - written_to s0)
                (avail_bytes_in_open s)); [|lia].
    injection H2 as <-. f_equal.
    rewrite segment_map_set_set. cbn [num_in_journal_open num_type_journal num_type_ool
      num_open num_empty num_closed count_open_journal count_open_ool
      count_release_journal count_release_ool count_close_journal count_close_ool
      total_bytes journal_segment_id modify_times].
    f_equal. lia.
  - intros Hback. unfold update_written_to. cbv zeta.
    cbn [segments segment_size avail_bytes_in_open get_segment_size].
    rewrite Hid, Hget1.
    destruct (bool_decide (get_addr_type o2 = SEGMENT)); [|reflexivity].
    destruct (is_open x1); [|reflexivity].
    destruct (_ <=? segment_size s); [|reflexivity].
    cbn [written_to x1].
    destruct (Z.leb_spec (wrap64 (get_segment_off o1)) (wrap64 (get_segment_off o2)));
      [lia|reflexivity].
Qed.

(** * Mount and initialization *)

Lemma mount_segments_all_missing `{async_cleaner_h}
    (sm_group : segment_manager_group_t) (ids : list segment_id_t) : forall c,
  (forall id, read_segment_header sm_group id = Error enoent \/
              read_segment_header sm_group id = Error enodata) ->
  mount_segments sm_group c ids = Done c.
Proof.
  induction ids as [|id ids IH]; intros c Hall; [reflexivity|].
  cbn [mount_segments]. unfold mount_segment.
  destruct (Hall id) as [E|E]; rewrite E; cbn [mount_handle_error]; now apply IH.
Qed.

(** Mounting segment devices on which no segment has a header: whatever
    the cleaner held before, it ends with the directory of the freshly added
    devices (every segment EMPTY), zeroed counters, initialization not
    complete and the journal head and tails at the null position; from
    there [complete_init] aborts unless trimming is disabled. *)
Theorem mount_blank_devices `{async_cleaner_h}
    (sm_group : segment_manager_group_t) (c : cleaner_t) (s : segments_info_t) :
  (forall id, read_segment_header sm_group id = Error enoent \/
              read_segment_header sm_group id = Error enodata) ->
  Forall sm_well_typed (get_segment_managers sm_group) ->
  add_segment_managers reset (get_segment_managers sm_group) = Some s ->
  exists c',
    mount sm_group c = Done c' /\
    c_segments c' = s /\
    space_tracker c' = make_space_tracker (detailed c) (get_segment_managers sm_group) /\
    init_complete c' = false /\
    journal_head c' = JOURNAL_SEQ_NULL /\
    journal_alloc_tail c' = JOURNAL_SEQ_NULL /\
    journal_dirty_tail c' = JOURNAL_SEQ_NULL /\
    used_bytes (stats c') = 0 /\ projected_used_bytes (stats c') = 0 /\
    (forall gc_process_start,
        complete_init gc_process_start c'
        = if disable_trim c then Some (set_init_complete c' true) else None).
Proof.
  intros Hmiss _ Hadd. unfold mount. rewrite Hadd.
  rewrite mount_segments_all_missing by assumption.
  eexists. split; [reflexivity|]. cbn [c_segments space_tracker init_complete
    journal_head journal_alloc_tail journal_dirty_tail stats used_bytes
    projected_used_bytes].
  repeat (split; [reflexivity|]).
  intros gc_process_start. unfold complete_init. cbn [disable_trim].
  destruct (disable_trim c); [reflexivity|].
  cbn [set_init_complete journal_head].
  assert (journal_seq_ne JOURNAL_SEQ_NULL JOURNAL_SEQ_NULL = false) as ->
    by (vm_compute; reflexivity).
  reflexivity.
Qed.

(** What the first segment with a header does to the mount when the
    header or the tail is not as it should be: a header of type NULL_SEG
    aborts; a tail of the same nonce whose modify time and extent count
    disagree (one null, the other not) fails the mount with an I/O error,
    the cleaner as it was and the later segments not read; an I/O error of
    the header read does the same, and any other error of it but ENOENT and
    ENODATA aborts. *)
Theorem mount_segment_failures `{async_cleaner_h}
    (sm_group : segment_manager_group_t) (c : cleaner_t)
    (segment_id : segment_id_t) (ids : list segment_id_t) :
  (forall header,
      read_segment_header sm_group segment_id = Ok header ->
      h_type header = NULL_SEG ->
      mount_segments sm_group c (segment_id :: ids) = Aborted) /\
  (forall header tail,
      read_segment_header sm_group segment_id = Ok header ->
      h_type header <> NULL_SEG ->
      read_segment_tail sm_group segment_id = Ok tail ->
      t_segment_nonce tail = h_segment_nonce header ->
      (mod_to_timepoint (t_modify_time tail) = NULL_TIME /\ t_num_extents tail <> 0) \/
      (mod_to_timepoint (t_modify_time tail) <> NULL_TIME /\ t_num_extents tail = 0) ->
      mount_segments sm_group c (segment_id :: ids) = Failed input_output_error c) /\
  (read_segment_header sm_group segment_id = Error input_output_error ->
   mount_segments sm_group c (segment_id :: ids) = Failed input_output_error c) /\
  (read_segment_header sm_group segment_id = Error other_error ->
   mount_segments sm_group c (segment_id :: ids) = Aborted).
Proof.
  split; [|split; [|split]].
  - intros header Hh Hty. cbn [mount_segments]. unfold mount_segment, mount_with_header.
    rewrite Hh, Hty. rewrite bool_decide_eq_true_2 by reflexivity. reflexivity.
  - intros header tail Hh Hty Ht Hnonce Hbad. cbn [mount_segments].
    unfold mount_segment, mount_with_header, mount_with_tail.
    rewrite Hh, Ht, Hnonce. rewrite bool_decide_eq_false_2 by assumption.
    rewrite Z.eqb_refl. cbn [negb].
    destruct Hbad as [[Hm Hn]|[Hm Hn]].
    + rewrite Hm. apply Z.eqb_neq in Hn. rewrite Hn. reflexivity.
    + apply Z.eqb_neq in Hm. rewrite Hm, Hn. reflexivity.
  - intros Hh. cbn [mount_segments]. unfold mount_segment. now rewrite Hh.
  - intros Hh. cbn [mount_segments]. unfold mount_segment. now rewrite Hh.
Qed.

(** ** Reserving and releasing projected usage *)

(** A reservation that resolves at once and its release leave
    [projected_used_bytes] where it was; the release aborts rather than go
    below zero, so that a reservation that wrapped the counter cannot be
    released.  The wake-up is assumed to leave the counter alone. *)
Theorem reserve_release_roundtrip `{async_cleaner_h}
    (c c1 c2 : cleaner_t) (projected_usage : Z) :
  (forall c0, projected_used_bytes (stats (maybe_wake_gc_blocked_io c0))
              = projected_used_bytes (stats c0)) ->
  0 <= projected_usage < 2 ^ 64 ->
  0 <= projected_used_bytes (stats c) < 2 ^ 64 ->
  reserve_projected_usage c projected_usage = Some (c1, ReserveResolved) ->
  release_projected_usage c1 projected_usage = Some c2 ->
  projected_used_bytes (stats c2) = projected_used_bytes (stats c) /\
  (disable_trim c = false ->
   projected_used_bytes (stats c1) = projected_used_bytes (stats c) + projected_usage).
Proof.
  intros Hwake Hp Hu Hres Hrel. unfold reserve_projected_usage in Hres.
  destruct (disable_trim c) eqn:Hd.
  - injection Hres as <-. unfold release_projected_usage in Hrel. rewrite Hd in Hrel.
    injection Hrel as <-. split; [reflexivity|discriminate].
  - destruct (init_complete c); [|discriminate].
    destruct (negb (blocked_io_wake c)); [|discriminate].
    pose proof (reserve_account_frame c) as (_ & Hacc & _).
    assert (Hd0 : disable_trim (fst (reserve_account c)) = false).
    { rewrite <- Hd. unfold reserve_account. cbv zeta.
      destruct (should_block_on_trim _); cbn [orb];
        destruct (should_block_on_reclaim _); reflexivity. }
    destruct (reserve_account c) as [c0 is_blocked]. cbn [fst snd] in Hacc, Hd0.
    unfold reserve_poll in Hres.
    destruct (negb (should_block_on_gc c0)); [|discriminate].
    destruct (reserve_record c0 projected_usage is_blocked) as [c'|] eqn:Hrec;
      [|discriminate].
    injection Hres as <-.
    destruct (reserve_record_spec _ _ _ _ Hrec) as (_ & _ & Hproj).
    rewrite Hacc in Hproj.
    assert (Hd' : disable_trim c' = false).
    { unfold reserve_record in Hrec. cbv zeta in Hrec. peel Hrec.
      injection Hrec as <-. exact Hd0. }
    unfold release_projected_usage in Hrel. rewrite Hd' in Hrel.
    destruct (init_complete c'); [|discriminate].
    destruct (Z.leb_spec projected_usage (projected_used_bytes (stats c'))) as [Hle|];
      [|discriminate].
    injection Hrel as <-. rewrite Hwake. cbn [set_stats stats projected_used_bytes].
    rewrite Hproj in Hle |- *. unfold wrap64, wrap in *.
    destruct (Z_lt_le_dec (projected_used_bytes (stats c) + projected_usage) (2 ^ 64))
      as [Hlt|Hge].
    + rewrite Z.mod_small in * by lia. split; [lia|intros _; reflexivity].
    + exfalso.
      replace ((projected_used_bytes (stats c) + projected_usage) mod 2 ^ 64)
        with (projected_used_bytes (stats c) + projected_usage - 2 ^ 64) in Hle;
        [lia|].
      rewrite <- (Z_mod_plus_full _ (-1) (2 ^ 64)). symmetry.
      apply Z.mod_small. lia.
Qed.

(** * Iteration order and the segment that is allocated *)

Definition ascending (l : list Z) : Prop :=
  forall i j x y, (i < j)%nat -> l !! i = Some x -> l !! j = Some y -> x < y.

Lemma ascending_app l1 l2 :
  ascending l1 -> ascending l2 ->
  (forall x y, x ∈ l1 -> y ∈ l2 -> x < y) ->
  ascending (l1 ++ l2).
Proof.
  unfold ascending. intros H1 H2 H12 i j x y Hij Hi Hj.
  destruct (decide (j < length l1)%nat) as [Hj1|Hj1].
  - rewrite lookup_app_l in Hi, Hj by lia. exact (H1 i j x y Hij Hi Hj).
  - rewrite lookup_app_r in Hj by lia.
    destruct (decide (i < length l1)%nat) as [Hi1|Hi1].
    + rewrite lookup_app_l in Hi by lia.
      apply H12; eapply list_elem_of_lookup_2; eassumption.
    + rewrite lookup_app_r in Hi by lia.
      exact (H2 (i - length l1)%nat (j - length l1)%nat x y ltac:(lia) Hi Hj).
Qed.

Section iteration_order.
Context {T : Type}.

(** The items of the devices [l], the first of which has id [k]. *)
Definition items_from (k : nat) (l : list (list T)) : list (segment_id_t * T) :=
  concat (imap (fun d dev =>
                  imap (fun i x => (make_internal (Z.of_nat (k + d)) (Z.of_nat i), x)) dev)
               l).

Lemma items_from_cons k dev l :
  items_from k (dev :: l)
  = imap (fun i x => (make_internal (Z.of_nat k) (Z.of_nat i), x)) dev
    ++ items_from (S k) l.
Proof.
  unfold items_from. cbn [imap concat]. f_equal.
  - apply imap_ext. intros i x _. now rewrite Nat.add_0_r.
  - f_equal. apply imap_ext. intros d dev' _. cbn [compose].
    apply imap_ext. intros i x _. now rewrite Nat.add_succ_r.
Qed.

Lemma items_from_ascending l : forall k,
  (k + length l <= 256)%nat ->
  Forall (fun dev : list T => Z.of_nat (length dev) <= 2 ^ 24) l ->
  ascending (map fst (items_from k l)) /\
  (forall id, id ∈ map fst (items_from k l) -> Z.of_nat k * 2 ^ 24 <= id).
Proof.
  induction l as [|dev devs IH]; intros k Hk Hlen.
  - split; [intros i j x y _ Hi; discriminate|]. intros id Hin. inversion Hin.
  - inversion Hlen as [|? ? Hdev Hdevs]; subst. cbn [length] in Hk.
    destruct (IH (S k) ltac:(lia) Hdevs) as [Hasc Hlow].
    rewrite items_from_cons, map_app.
    assert (Hblock : forall i id,
               map fst (imap (fun i x => (make_internal (Z.of_nat k) (Z.of_nat i), x)) dev)
               !! i = Some id ->
               id = Z.of_nat k * 2 ^ 24 + Z.of_nat i /\ (i < length dev)%nat).
    { intros i id Hi. rewrite list_lookup_fmap, list_lookup_imap in Hi.
      destruct (dev !! i) as [x|] eqn:Hx; [|discriminate].
      cbn in Hi. injection Hi as <-.
      pose proof (lookup_lt_Some _ _ _ Hx). split; [|assumption].
      apply make_internal_spec; lia. }
    split.
    + apply ascending_app.
      * intros i j x y Hij Hi Hj.
        destruct (Hblock _ _ Hi) as [-> _]. destruct (Hblock _ _ Hj) as [-> _]. lia.
      * exact Hasc.
      * intros x y Hx Hy. apply list_elem_of_lookup_1 in Hx. destruct Hx as [i Hi].
        destruct (Hblock _ _ Hi) as [-> Hilt]. specialize (Hlow y Hy). lia.
    + intros id Hin. apply elem_of_app in Hin. destruct Hin as [Hin|Hin].
      * apply list_elem_of_lookup_1 in Hin. destruct Hin as [i Hi].
        destruct (Hblock _ _ Hi) as [-> _]. lia.
      * specialize (Hlow id Hin). lia.
Qed.

Lemma segment_map_items_ascending (m : segment_map_t T) :
  (length (device_to_segments m) <= 256)%nat ->
  Forall (fun dev : list T => Z.of_nat (length dev) <= 2 ^ 24) (device_to_segments m) ->
  ascending (map fst (segment_map_items m)).
Proof.
  intros Houter Hinner.
  exact (proj1 (items_from_ascending (device_to_segments m) 0 ltac:(lia) Hinner)).
Qed.
End iteration_order.

(** The iteration over the segments is in increasing id order, so the
    segment that [allocate_segment] opens is the EMPTY segment of least
    id; in a directory whose segments are all on devices of type SEGMENT it
    is an id the constructor of [segment_id_t] accepts. *)
Theorem allocate_segment_least_id `{async_cleaner_h} (c : cleaner_t)
    (q : Z) (t : segment_type_t) (cat : data_category_t) (g : Z)
    (c' : cleaner_t) (id : segment_id_t) :
  directory_inv (c_segments c) ->
  iterator_ids_valid (segments (c_segments c)) = true ->
  allocate_segment c q t cat g = Some (c', id) ->
  ascending (map fst (segment_map_items (segments (c_segments c)))) /\
  is_segment_id id /\ segment_id_of_internal id = Some id /\
  (exists info, segment_map_get (segments (c_segments c)) id = Some info /\
                state info = EMPTY) /\
  (forall id' info',
      is_segment_id id' ->
      segment_map_get (segments (c_segments c)) id' = Some info' ->
      state info' = EMPTY -> id <= id').
Proof.
  intros Hinv Hvalid Hrun.
  assert (Houter : (length (device_to_segments (segments (c_segments c))) <= 256)%nat).
  { pose proof (inv_devices _ Hinv). lia. }
  assert (Hinner : Forall (fun dev : list segment_info_t =>
                             Z.of_nat (length dev) <= 2 ^ 24)
                     (device_to_segments (segments (c_segments c)))).
  { eapply Forall_impl; [exact (inv_device_len _ Hinv)|].
    intros dev Hdev. cbv beta in Hdev.
    change DEVICE_SEGMENT_ID_MAX with (2 ^ 24 - 1) in Hdev. lia. }
  pose proof (segment_map_items_ascending _ Houter Hinner) as Hasc.
  unfold allocate_segment in Hrun.
  destruct (negb (q =? NULL_SEG_SEQ)); [|discriminate].
  destruct (first_empty _) as [seg_id|] eqn:Hfirst; [|discriminate].
  destruct (mark_open _ _ _ _ _ _) as [s'|]; [|discriminate].
  destruct (adjust_segment_util _ _ _) as [st|]; [|discriminate].
  injection Hrun as _ <-.
  destruct (first_empty_some _ _ Hfirst) as (before & info & after & Hitems & Hbefore & Hinfo).
  assert (Hat : segment_map_items (segments (c_segments c)) !! length before
                = Some (seg_id, info)).
  { rewrite Hitems. rewrite lookup_app_r by lia. now rewrite Nat.sub_diag. }
  assert (Hin : In (seg_id, info) (segment_map_items (segments (c_segments c)))).
  { apply list_elem_of_In. eapply list_elem_of_lookup_2. exact Hat. }
  pose proof (iterator_ids_valid_in _ _ _ Hvalid Hin) as Hctor.
  apply segment_map_items_get in Hin; [|assumption..]. destruct Hin as [Hid Hget].
  split; [exact Hasc|]. split; [exact Hid|]. split; [exact Hctor|].
  split; [now exists info|].
  intros id' info' Hid' Hget' Hempty.
  assert (Hin' : In (id', info') (segment_map_items (segments (c_segments c)))).
  { apply segment_map_items_get; auto. }
  apply list_elem_of_In, list_elem_of_lookup_1 in Hin'. destruct Hin' as [j Hj].
  destruct (lt_eq_lt_dec j (length before)) as [[Hlt|Heq]|Hgt].
  - exfalso. rewrite Hitems, lookup_app_l in Hj by assumption.
    eapply Forall_lookup_1 in Hbefore; [|exact Hj]. now apply Hbefore.
  - subst j. rewrite Hat in Hj. injection Hj as -> _. lia.
  - apply Z.lt_le_incl.
    apply (Hasc (length before) j); [exact Hgt| |];
      rewrite list_lookup_fmap; [now rewrite Hat|now rewrite Hj].
Qed.


(** * Concrete runs *)

(** Segment 5 of device 1, and the address 4 KiB into it. *)
Definition example_segment_id : segment_id_t := Eval vm_compute in make_internal 1 5.
Definition example_seg_paddr : paddr_t :=
  Eval vm_compute in make_seg_paddr example_segment_id 4096.

Lemma segment_id_roundtrip_witness :
  (0 <= 1 < 2 ^ 8) /\ (0 <= 5 < 2 ^ 24) /\
  device_id (make_internal 1 5) = 1 /\
  device_segment_id (make_internal 1 5) = 5 /\
  segment_id_of 1 5 = Some example_segment_id.
Proof.
  assert (H1 : 0 <= 1 < 2 ^ 8) by lia. assert (H2 : 0 <= 5 < 2 ^ 24) by lia.
  destruct (segment_id_roundtrip 1 5 H1 H2) as (Ed & Es & _ & Eof & _).
  split; [exact H1|]. split; [exact H2|]. split; [exact Ed|]. split; [exact Es|].
  exact Eof.
Defined.

Lemma seg_paddr_roundtrip_witness :
  is_segment_id example_segment_id /\ device_id example_segment_id < 128 /\
  paddr_seg example_segment_id 4096 = Some example_seg_paddr /\
  get_segment_id example_seg_paddr = example_segment_id /\
  get_segment_off example_seg_paddr = 4096.
Proof.
  assert (H1 : is_segment_id example_segment_id)
    by (unfold is_segment_id, example_segment_id; lia).
  assert (H2 : device_id example_segment_id < 128) by (vm_compute; reflexivity).
  destruct (seg_paddr_roundtrip example_segment_id 4096 H1 H2 ltac:(lia))
    as (Es & _ & Ei & Eo & _).
  split; [exact H1|]. split; [exact H2|]. split; [exact Es|].
  split; [exact Ei|exact Eo].
Defined.

Lemma example_seg_paddr_valid :
  is_paddr example_seg_paddr /\ get_addr_type example_seg_paddr = SEGMENT /\
  0 <= get_segment_off example_seg_paddr.
Proof.
  split; [unfold is_paddr, example_seg_paddr; lia|].
  split; [vm_compute; reflexivity|vm_compute; discriminate].
Defined.

Lemma segment_add_offset_witness :
  exists p,
    paddr_add_offset example_seg_paddr 512 = Some p /\
    get_segment_id p = get_segment_id example_seg_paddr /\
    get_segment_off p = get_segment_off example_seg_paddr + 512.
Proof.
  destruct example_seg_paddr_valid as (Hp & Hty & Hoff).
  destruct (segment_add_offset example_seg_paddr 512 Hp Hty Hoff ltac:(lia))
    as [Hin _].
  destruct (Hin ltac:(vm_compute; split; [discriminate|reflexivity]))
    as (p & Hrun & _ & _ & Ei & Eo).
  exists p. split; [exact Hrun|]. split; [exact Ei|exact Eo].
Defined.

(** One byte below the start of the segment [add_offset] aborts. *)
Example segment_add_offset_out_of_range :
  paddr_add_offset example_seg_paddr (- 4097) = None /\
  paddr_add_offset example_seg_paddr (- 4096)
  = Some (make_seg_paddr example_segment_id 0).
Proof. repeat split; vm_compute; reflexivity. Qed.

Lemma block_reserved_add_offset_witness :
  exists p,
    paddr_add_offset example_blk_paddr 512 = Some p /\
    get_device_id p = get_device_id example_blk_paddr /\
    get_block_off p = get_block_off example_blk_paddr + 512.
Proof.
  assert (Hp : is_paddr example_blk_paddr)
    by (vm_compute; split; [discriminate|reflexivity]).
  destruct (block_reserved_add_offset example_blk_paddr 512 Hp ltac:(lia))
    as [Hblk _].
  specialize (Hblk ltac:(vm_compute; reflexivity)).
  change ((0 <=? get_block_off example_blk_paddr + 512)
          && (get_block_off example_blk_paddr + 512 <=? BLOCK_OFF_MAX))
    with true in Hblk.
  destruct Hblk as (p & Hrun & _ & Ed & Eo).
  exists p. split; [exact Hrun|]. split; [exact Ed|exact Eo].
Defined.

Lemma paddr_add_offset_compose_witness :
  paddr_add_offset example_seg_paddr 100 = Some (make_seg_paddr example_segment_id 4196) /\
  paddr_add_offset (make_seg_paddr example_segment_id 4196) (- 50)
  = Some (make_seg_paddr example_segment_id 4146) /\
  paddr_add_offset example_seg_paddr (100 + - 50)
  = Some (make_seg_paddr example_segment_id 4146).
Proof.
  destruct example_seg_paddr_valid as (Hp & _ & Hoff).
  assert (H1 : paddr_add_offset example_seg_paddr 100
               = Some (make_seg_paddr example_segment_id 4196))
    by (vm_compute; reflexivity).
  assert (H2 : paddr_add_offset (make_seg_paddr example_segment_id 4196) (- 50)
               = Some (make_seg_paddr example_segment_id 4146))
    by (vm_compute; reflexivity).
  split; [exact H1|]. split; [exact H2|].
  exact (paddr_add_offset_compose example_seg_paddr 100 (- 50) _ _ Hp
           (fun _ => Hoff) ltac:(lia) ltac:(lia) ltac:(lia) H1 H2).
Defined.

(** A block-relative address 64 bytes on. *)
Definition example_block_relative : paddr_t :=
  Eval vm_compute in
    match make_block_relative_paddr 64 with Some p => p | None => P_ADDR_NULL end.

Lemma maybe_relative_to_resolves_witness :
  maybe_relative_to example_block_relative example_seg_paddr
  = Some (make_seg_paddr example_segment_id 4160) /\
  is_block_relative (make_seg_paddr example_segment_id 4160) = false /\
  get_device_id (make_seg_paddr example_segment_id 4160)
  = get_device_id example_seg_paddr.
Proof.
  destruct example_seg_paddr_valid as (Hp & _ & _).
  assert (H : maybe_relative_to example_block_relative example_seg_paddr
              = Some (make_seg_paddr example_segment_id 4160))
    by (vm_compute; reflexivity).
  destruct (maybe_relative_to_resolves _ _ _ Hp H) as (Hn & _ & Hd).
  split; [exact H|]. split; [exact Hn|]. apply Hd. vm_compute. reflexivity.
Defined.

Definition example_record_relative (off : Z) : paddr_t :=
  match make_record_relative_paddr off with Some p => p | None => P_ADDR_NULL end.

Lemma block_relative_roundtrip_witness :
  exists r,
    block_relative_to (example_record_relative 4096) (example_record_relative 1024)
    = Some r /\
    get_seastore_off r = 4096 - 1024 /\
    add_block_relative (example_record_relative 1024) r
    = Some (example_record_relative 4096).
Proof.
  assert (H1 : make_record_relative_paddr 4096 = Some (example_record_relative 4096))
    by (vm_compute; reflexivity).
  assert (H2 : make_record_relative_paddr 1024 = Some (example_record_relative 1024))
    by (vm_compute; reflexivity).
  destruct (block_relative_roundtrip 4096 1024 _ _ ltac:(lia) ltac:(lia) H1 H2
              ltac:(lia)) as (r & Hr & _ & _ & Eo & Eback).
  exists r. split; [exact Hr|]. split; [exact Eo|exact Eback].
Defined.

(** Positions on different random-block devices that compare equal. *)
Example journal_seq_eq_across_devices :
  journal_seq_eq (mk_journal_seq 7 (Z.shiftl 128 BLOCK_OFF_BITS + 16))
                 (mk_journal_seq 7 (Z.shiftl 129 BLOCK_OFF_BITS + 16)) = true /\
  mk_journal_seq 7 (Z.shiftl 128 BLOCK_OFF_BITS + 16)
  <> mk_journal_seq 7 (Z.shiftl 129 BLOCK_OFF_BITS + 16).
Proof. split; [vm_compute; reflexivity|]. vm_compute. discriminate. Qed.

Lemma journal_seq_add_offset_order_witness :
  exists s',
    journal_seq_add_offset (mk_journal_seq 7 example_seg_paddr) 512 = Some s' /\
    journal_seq_cmp s' (mk_journal_seq 7 example_seg_paddr) = Z.sgn 512 /\
    segment_seq s' = 7.
Proof.
  destruct example_seg_paddr_valid as (Hp & _ & Hoff).
  destruct (journal_seq_add_offset (mk_journal_seq 7 example_seg_paddr) 512)
    as [s'|] eqn:E; [|vm_compute in E; discriminate].
  destruct (journal_seq_add_offset_order (mk_journal_seq 7 example_seg_paddr) 512 s'
              Hp (fun _ => Hoff) ltac:(lia) E) as [Hc Hs].
  exists s'. split; [reflexivity|]. split; [exact Hc|exact Hs].
Defined.

Lemma get_average_time_bounds_witness :
  exists r,
    get_average_time 1000 3 2000 1 = Some r /\
    r = 1000 / (3 + 1) * 3 + 2000 / (3 + 1) * 1 /\
    Z.min 1000 2000 - (3 + 1) < r <= Z.max 1000 2000.
Proof.
  destruct (get_average_time_bounds 1000 3 2000 1 ltac:(lia) ltac:(lia) ltac:(lia)
              ltac:(lia) ltac:(lia)) as (r & Hr & Er & _ & Hb & _).
  exists r. split; [exact Hr|]. split; [exact Er|exact Hb].
Defined.

Example get_average_time_rounds_down :
  get_average_time 1003 1 1003 2 = Some 1002.
Proof. vm_compute. reflexivity. Qed.

(** A tree root 4 KiB into the record, adjusted to the record at
    [example_seg_paddr]. *)
Lemma adjust_addrs_from_base_idempotent_witness :
  exists r1,
    adjust_addrs_from_base (mk_phy_tree_root (example_record_relative 4096) 2)
      example_seg_paddr = Some r1 /\
    adjust_addrs_from_base r1 example_seg_paddr = Some r1 /\
    depth r1 = 2 /\
    get_device_id (root_addr r1) = get_device_id example_seg_paddr.
Proof.
  destruct example_seg_paddr_valid as (Hp & _ & _).
  destruct (adjust_addrs_from_base_idempotent
              (mk_phy_tree_root (example_record_relative 4096) 2) example_seg_paddr Hp
              ltac:(vm_compute; reflexivity)) as [Hadj _].
  destruct (adjust_addrs_from_base (mk_phy_tree_root (example_record_relative 4096) 2)
              example_seg_paddr) as [r1|] eqn:E; [|vm_compute in E; discriminate].
  destruct (Hadj r1 eq_refl) as (H2 & Hd & Hdev & _).
  exists r1. split; [reflexivity|]. split; [exact H2|]. split; [exact Hd|].
  apply Hdev. vm_compute. reflexivity.
Defined.

Definition example_cursor : scan_valid_records_cursor unit :=
  mk_scan_cursor false (mk_journal_seq 7 example_seg_paddr) JOURNAL_SEQ_NULL 0 [].

Lemma increment_seq_as_add_offset_witness :
  increment_seq example_cursor 512
  = Some (mk_scan_cursor false
            (mk_journal_seq 7 (make_seg_paddr example_segment_id 4608))
            JOURNAL_SEQ_NULL 0 []).
Proof.
  destruct example_seg_paddr_valid as (Hp & Hty & Hoff).
  rewrite (increment_seq_as_add_offset example_cursor 512 Hp Hty Hoff ltac:(lia)
             ltac:(vm_compute; reflexivity)).
  vm_compute. reflexivity.
Defined.

Lemma add_device_lookup_witness :
  exists m' : segment_map_t Z,
    add_device segment_map_clear 1 4 0 = Some m' /\
    segment_map_get m' (make_internal 1 3) = Some 0 /\
    segment_map_contains m' (make_internal 1 3) = true /\
    segment_map_size m' = 4 /\
    add_device m' 1 8 0 = None.
Proof.
  destruct (add_device (@segment_map_clear Z) 1 4 0) as [m'|] eqn:E;
    [|vm_compute in E; discriminate].
  destruct (add_device_lookup _ _ _ _ _ E) as (Hget & _ & _ & Hsize & Hdup).
  destruct (Hget 3 ltac:(lia) ltac:(lia)) as [Hg Hc].
  exists m'. split; [reflexivity|]. split; [exact Hg|]. split; [exact Hc|].
  split; [exact Hsize|apply Hdup].
Defined.

Definition example_live_bytes : segment_map_t Z :=
  mk_segment_map [[10; 20]; []; [30]] 3.

Lemma segment_map_items_lookup_witness :
  (In (make_internal 2 0, 30) (segment_map_items example_live_bytes) <->
   is_segment_id (make_internal 2 0) /\
   segment_map_get example_live_bytes (make_internal 2 0) = Some 30) /\
  Z.of_nat (length (segment_map_items example_live_bytes))
  = seg_sum (fun _ => 1) example_live_bytes.
Proof.
  destruct (segment_map_items_lookup example_live_bytes
              ltac:(cbn; lia)
              ltac:(repeat constructor; cbn; lia)
              ltac:(vm_compute; reflexivity)) as (Hin & _ & Hlen).
  split; [apply Hin|exact Hlen].
Defined.

Lemma example_directory_inv : directory_inv example_state.
Proof.
  exact (reachable_directory_inv head_null_by_id example_state example_state_reachable).
Defined.

(** [example_cleaner] has segments 2 and 3 EMPTY: segment 2 is allocated. *)
Lemma allocate_segment_first_empty_witness :
  exists c',
    allocate_segment example_cleaner 8 JOURNAL METADATA 0 = Some (c', 2) /\
    (exists info',
        segment_map_get (segments (c_segments c')) 2 = Some info' /\
        state info' = OPEN /\ seq info' = 8 /\ type info' = JOURNAL /\
        category info' = METADATA /\ generation info' = 0 /\ written_to info' = 0) /\
    num_empty (c_segments c') = num_empty (c_segments example_cleaner) - 1.
Proof.
  destruct (@allocate_segment_first_empty example_header example_cleaner 8 JOURNAL
              METADATA 0 (fun _ => eq_refl) ltac:(vm_compute; reflexivity))
    as [Hrun _].
  destruct (allocate_segment example_cleaner 8 JOURNAL METADATA 0) as [[c' id]|] eqn:E;
    [|vm_compute in E; discriminate].
  assert (Hid : id = 2).
  { apply (f_equal (fun o => match o with Some (_, i) => i | None => 0 end)) in E.
    vm_compute in E. congruence. }
  subst id. destruct (Hrun c' 2 eq_refl) as (_ & Hinfo & Hn).
  exists c'. split; [reflexivity|]. split; [exact Hinfo|exact Hn].
Defined.

Example allocate_segment_out_of_space :
  forall c1 c2,
    allocate_segment example_cleaner 8 JOURNAL METADATA 0 = Some (c1, 2) ->
    allocate_segment c1 0 OOL DATA 1 = Some (c2, 3) ->
    allocate_segment c2 1 OOL DATA 1 = None.
Proof.
  intros c1 c2 H1 H2. vm_compute in H1. injection H1 as <-.
  vm_compute in H2. injection H2 as <-. vm_compute. reflexivity.
Qed.

Lemma example_wake_keeps_journal : keeps_journal example_wake_gc_blocked_io.
Proof.
  intros c. unfold example_wake_gc_blocked_io.
  destruct (init_complete c && negb (example_should_block_on_reclaim c)
            && blocked_io_wake c); repeat split.
Defined.

(** The cleaner with both tails at the start of journal segment 0 and the
    head 1 KiB into it. *)
Definition example_journal_cleaner : cleaner_t :=
  set_journal_dirty_tail
    (set_journal_alloc_tail example_cleaner (mk_journal_seq 7 (make_seg_paddr 0 0)))
    (mk_journal_seq 7 (make_seg_paddr 0 0)).

Lemma update_journal_tails_forward_witness :
  exists c',
    update_journal_tails example_journal_cleaner
      (mk_journal_seq 7 (make_seg_paddr 0 512)) JOURNAL_SEQ_NULL = Some c' /\
    journal_head c' = journal_head example_journal_cleaner /\
    journal_dirty_tail c' = mk_journal_seq 7 (make_seg_paddr 0 512) /\
    journal_alloc_tail c' = journal_alloc_tail example_journal_cleaner.
Proof.
  destruct (@update_journal_tails_forward example_header example_journal_cleaner
              (mk_journal_seq 7 (make_seg_paddr 0 512)) JOURNAL_SEQ_NULL
              (fun c => conj eq_refl (conj eq_refl eq_refl))
              example_wake_keeps_journal) as (_ & Hrun & _).
  destruct (update_journal_tails example_journal_cleaner
              (mk_journal_seq 7 (make_seg_paddr 0 512)) JOURNAL_SEQ_NULL)
    as [c'|] eqn:E; [|vm_compute in E; discriminate].
  destruct (Hrun c' eq_refl eq_refl) as (Hh & [_ Hd] & [Ha _]).
  exists c'. split; [reflexivity|]. split; [exact Hh|]. split.
  - apply Hd. vm_compute. reflexivity.
  - apply Ha. vm_compute. reflexivity.
Defined.

(** A tail behind the current one, and a tail beyond the head. *)
Example update_journal_tails_backwards_aborts :
  update_journal_tails
    (set_journal_dirty_tail example_journal_cleaner
       (mk_journal_seq 7 (make_seg_paddr 0 512)))
    (mk_journal_seq 7 (make_seg_paddr 0 256)) JOURNAL_SEQ_NULL = None /\
  update_journal_tails example_journal_cleaner
    (mk_journal_seq 7 (make_seg_paddr 0 2048)) JOURNAL_SEQ_NULL = None.
Proof. split; vm_compute; reflexivity. Qed.

Lemma tracker_equals_usages_witness :
  tracker_equals (SpaceTrackerSimple example_live_bytes)
    (SpaceTrackerSimple (mk_segment_map [[10]; [20; 30]] 3)) = Some true /\
  tracker_equals (SpaceTrackerSimple example_live_bytes)
    (SpaceTrackerSimple (mk_segment_map [[10; 20]] 2)) = None.
Proof.
  destruct (tracker_equals_usages (SpaceTrackerSimple example_live_bytes)
              (SpaceTrackerSimple (mk_segment_map [[10]; [20; 30]] 3)) eq_refl
              ltac:(vm_compute; reflexivity) ltac:(vm_compute; reflexivity))
    as (_ & Heq & _).
  destruct (tracker_equals_usages (SpaceTrackerSimple example_live_bytes)
              (SpaceTrackerSimple (mk_segment_map [[10; 20]] 2)) eq_refl
              ltac:(vm_compute; reflexivity) ltac:(vm_compute; reflexivity))
    as (Hne & _ & _).
  split.
  - rewrite (Heq eq_refl eq_refl). reflexivity.
  - apply Hne. vm_compute. discriminate.
Defined.

(** The detailed tracker is compared by its counters: the bitmaps may
    differ. *)
Example detailed_equals_ignores_bitmaps :
  tracker_equals
    (SpaceTrackerDetailed (mk_segment_map [[mk_SegmentMap 4096 [true; false]]] 1) [4096])
    (SpaceTrackerDetailed (mk_segment_map [[mk_SegmentMap 4096 [false; true]]] 1) [4096])
  = Some true.
Proof. reflexivity. Qed.

Lemma available_bytes_by_operation_witness :
  exists s',
    mark_open example_state 2 8 JOURNAL METADATA 0 = Some s' /\
    get_available_bytes s' = get_available_bytes example_state.
Proof.
  destruct (available_bytes_by_operation head_null_by_id example_state
              example_directory_inv) as (Hopen & _).
  destruct (mark_open example_state 2 8 JOURNAL METADATA 0) as [s'|] eqn:E;
    [|vm_compute in E; discriminate].
  exists s'. split; [reflexivity|]. exact (Hopen 2 8 JOURNAL METADATA 0 s' E).
Defined.

Example available_bytes_example :
  exists s1 s2 s3,
    mark_open example_state 2 8 JOURNAL METADATA 0 = Some s1 /\
    update_written_to s1 JOURNAL (make_seg_paddr 2 1024) = Some s2 /\
    mark_closed s2 2 = Some s3 /\
    get_available_bytes example_state = 12288 /\ get_available_bytes s1 = 12288 /\
    get_available_bytes s2 = 11264 /\ get_available_bytes s3 = 8192.
Proof.
  do 3 eexists. split; [vm_compute; reflexivity|].
  split; [vm_compute; reflexivity|]. split; [vm_compute; reflexivity|].
  vm_compute. repeat split.
Qed.

Lemma type_counters_invariant_witness :
  num_type_journal example_state + num_type_ool example_state
  = num_open example_state + num_closed example_state /\
  0 <= num_in_journal_open example_state <= 1.
Proof.
  destruct (type_counters_invariant head_null_by_id example_state
              example_state_reachable) as (_ & _ & Hsum & _ & Hone).
  split; [exact Hsum|exact Hone].
Defined.

Lemma example_devices_well_typed : Forall sm_well_typed example_devices.
Proof. repeat constructor; vm_compute; congruence. Defined.

Lemma add_segment_managers_fresh_witness :
  exists s,
    add_segment_managers reset example_devices = Some s /\
    num_empty s = get_num_segments s /\ num_open s = 0 /\ num_closed s = 0 /\
    get_available_bytes s = get_num_segments s * segment_size s /\
    NoDup (map sm_device_id example_devices).
Proof.
  destruct (add_segment_managers reset example_devices) as [s|] eqn:E;
    [|vm_compute in E; discriminate].
  destruct (add_segment_managers_fresh example_devices s example_devices_well_typed E)
    as (_ & He & Ho & Hc & _ & Ha & _ & Hnd & _).
  exists s. split; [reflexivity|]. repeat split; assumption.
Defined.

(** Two devices of different segment sizes, and one device twice. *)
Example add_segment_managers_rejects :
  add_segment_managers reset
    [mk_segment_manager 0 4096 4 16384; mk_segment_manager 1 8192 4 32768] = None /\
  add_segment_managers reset
    [mk_segment_manager 0 4096 4 16384; mk_segment_manager 0 4096 4 16384] = None.
Proof. split; vm_compute; reflexivity. Qed.

(** Segment 1 of [example_state] is OPEN, of type OOL, with nothing
    written. *)
Lemma update_written_to_compose_witness :
  exists s1 s2,
    update_written_to example_state OOL (make_seg_paddr 1 512) = Some s1 /\
    update_written_to s1 OOL (make_seg_paddr 1 1024) = Some s2 /\
    update_written_to example_state OOL (make_seg_paddr 1 1024) = Some s2 /\
    update_written_to s2 OOL (make_seg_paddr 1 512) = None.
Proof.
  destruct (update_written_to example_state OOL (make_seg_paddr 1 512)) as [s1|] eqn:E1;
    [|vm_compute in E1; discriminate].
  destruct (update_written_to s1 OOL (make_seg_paddr 1 1024)) as [s2|] eqn:E2;
    [|vm_compute in E1; injection E1 as <-; vm_compute in E2; discriminate].
  destruct (update_written_to_compose example_state OOL (make_seg_paddr 1 512)
              (make_seg_paddr 1 1024) s1 E1 ltac:(vm_compute; reflexivity))
    as [Hcomp _].
  pose proof (Hcomp s2 E2) as E12.
  destruct (update_written_to_compose example_state OOL (make_seg_paddr 1 1024)
              (make_seg_paddr 1 512) s2 E12 ltac:(vm_compute; reflexivity))
    as [_ Hback].
  exists s1, s2. split; [reflexivity|]. split; [exact E2|]. split; [exact E12|].
  apply Hback. vm_compute. reflexivity.
Defined.

(** The devices of [example_devices] without a header on any segment. *)
Definition blank_sm_group : segment_manager_group_t :=
  mk_segment_manager_group example_devices
    (fun _ => Error enoent) (fun _ => Error enodata) (fun _ _ _ => ([], None)).

Lemma mount_blank_devices_witness :
  exists s c',
    add_segment_managers reset example_devices = Some s /\
    mount blank_sm_group example_cleaner = Done c' /\
    c_segments c' = s /\ init_complete c' = false /\
    journal_head c' = JOURNAL_SEQ_NULL /\ used_bytes (stats c') = 0 /\
    complete_init (fun c => c) c' = None.
Proof.
  destruct (add_segment_managers reset example_devices) as [s|] eqn:E;
    [|vm_compute in E; discriminate].
  destruct (@mount_blank_devices example_header blank_sm_group example_cleaner s
              (fun _ => or_introl eq_refl) example_devices_well_typed E)
    as (c' & Hm & Hs & _ & Hi & Hh & _ & _ & Hu & _ & Hci).
  exists s, c'. split; [reflexivity|]. split; [exact Hm|]. split; [exact Hs|].
  split; [exact Hi|]. split; [exact Hh|]. split; [exact Hu|]. apply Hci.
Defined.

Lemma example_wake_keeps_projected c0 :
  projected_used_bytes (stats (example_wake_gc_blocked_io c0))
  = projected_used_bytes (stats c0).
Proof.
  unfold example_wake_gc_blocked_io.
  destruct (init_complete c0 && negb (example_should_block_on_reclaim c0)
            && blocked_io_wake c0); reflexivity.
Defined.

Lemma reserve_release_roundtrip_witness :
  exists c1 c2,
    reserve_projected_usage example_cleaner 100 = Some (c1, ReserveResolved) /\
    release_projected_usage c1 100 = Some c2 /\
    projected_used_bytes (stats c1) = projected_used_bytes (stats example_cleaner) + 100 /\
    projected_used_bytes (stats c2) = projected_used_bytes (stats example_cleaner).
Proof.
  destruct (reserve_projected_usage example_cleaner 100) as [[c1 st]|] eqn:E1;
    [|vm_compute in E1; discriminate].
  assert (Hst : st = ReserveResolved).
  { apply (f_equal (fun o => match o with Some (_, r) => r | None => ReserveResolved end))
      in E1. vm_compute in E1. congruence. }
  subst st.
  destruct (release_projected_usage c1 100) as [c2|] eqn:E2;
    [|vm_compute in E1; injection E1 as <-; vm_compute in E2; discriminate].
  destruct (@reserve_release_roundtrip example_header example_cleaner c1 c2 100
              example_wake_keeps_projected ltac:(lia)
              ltac:(vm_compute; split; [discriminate|reflexivity]) E1 E2)
    as [Hback Hfwd].
  exists c1, c2. split; [reflexivity|]. split; [exact E2|].
  split; [apply Hfwd; reflexivity|exact Hback].
Defined.

Lemma allocate_segment_least_id_witness :
  exists c',
    allocate_segment example_cleaner 8 JOURNAL METADATA 0 = Some (c', 2) /\
    (forall id' info',
        is_segment_id id' ->
        segment_map_get (segments (c_segments example_cleaner)) id' = Some info' ->
        state info' = EMPTY -> 2 <= id').
Proof.
  destruct (allocate_segment example_cleaner 8 JOURNAL METADATA 0) as [[c' id]|] eqn:E;
    [|vm_compute in E; discriminate].
  assert (Hid : id = 2).
  { apply (f_equal (fun o => match o with Some (_, i) => i | None => 0 end)) in E.
    vm_compute in E. congruence. }
  subst id.
  destruct (@allocate_segment_least_id example_header example_cleaner 8 JOURNAL
              METADATA 0 c' 2 example_directory_inv ltac:(vm_compute; reflexivity) E)
    as (_ & _ & _ & _ & Hleast).
  exists c'. split; [reflexivity|exact Hleast].
Defined.

(** * Magnitudes of binary64 results

    What the arithmetic of [SpecFloat] does to the sign and the magnitude
    of its operands, as far as the score of a segment needs it. *)

(** ** Number of binary digits *)

Definition digits (m : positive) : Z := Zpos (digits2_pos m).

Lemma digits_bounds m : 2 ^ (digits m - 1) <= Zpos m < 2 ^ digits m.
Proof.
  unfold digits. induction m as [m IH|m IH|]; cbn [digits2_pos].
  - rewrite Pos2Z.inj_succ.
    replace (Z.succ (Zpos (digits2_pos m)) - 1) with (Z.succ (Zpos (digits2_pos m) - 1))
      by lia.
    rewrite !Z.pow_succ_r by lia. lia.
  - rewrite Pos2Z.inj_succ.
    replace (Z.succ (Zpos (digits2_pos m)) - 1) with (Z.succ (Zpos (digits2_pos m) - 1))
      by lia.
    rewrite !Z.pow_succ_r by lia. lia.
  - cbn. lia.
Qed.

Lemma digits_pos m : 1 <= digits m.
Proof. unfold digits. lia. Qed.

Lemma digits_ge m k : 0 <= k -> 2 ^ k <= Zpos m -> k + 1 <= digits m.
Proof.
  intros Hk Hm. pose proof (digits_bounds m) as [_ Hup]. pose proof (digits_pos m).
  destruct (Z.le_gt_cases (k + 1) (digits m)) as [|Hlt]; [assumption|exfalso].
  assert (2 ^ digits m <= 2 ^ k) by (apply Z.pow_le_mono_r; lia). lia.
Qed.

Lemma digits_le m k : Zpos m < 2 ^ k -> digits m <= k.
Proof.
  intros Hm. pose proof (digits_bounds m) as [Hlow _]. pose proof (digits_pos m).
  destruct (Z.le_gt_cases (digits m) k) as [|Hlt]; [assumption|exfalso].
  assert (2 ^ k <= 2 ^ (digits m - 1)) by (apply Z.pow_le_mono_r; lia). lia.
Qed.

Lemma digits_unique m d : 2 ^ (d - 1) <= Zpos m < 2 ^ d -> digits m = d.
Proof.
  intros [Hlow Hup]. pose proof (digits_le m d Hup).
  destruct (Z.le_gt_cases 1 d) as [Hd|Hd].
  - pose proof (digits_ge m (d - 1) ltac:(lia) Hlow). lia.
  - pose proof (digits_pos m). lia.
Qed.

(** Dropping [k] low bits. *)
Lemma digits_div_pow2 m k :
  0 <= k < digits m ->
  exists m', Zpos m / 2 ^ k = Zpos m' /\ digits m' = digits m - k.
Proof.
  intros Hk. pose proof (digits_bounds m) as [Hlow Hup].
  assert (Hp : 0 < 2 ^ k) by (apply Z.pow_pos_nonneg; lia).
  assert (Hq : 2 ^ (digits m - k - 1) <= Zpos m / 2 ^ k < 2 ^ (digits m - k)).
  { split.
    - apply Z.div_le_lower_bound; [assumption|].
      rewrite <- Z.pow_add_r by lia. now replace (k + (digits m - k - 1)) with (digits m - 1) by lia.
    - apply Z.div_lt_upper_bound; [assumption|].
      rewrite <- Z.pow_add_r by lia. now replace (k + (digits m - k)) with (digits m) by lia. }
  assert (0 < 2 ^ (digits m - k - 1)) by (apply Z.pow_pos_nonneg; lia).
  destruct (Zpos m / 2 ^ k) as [|m'|m'] eqn:E; try lia.
  exists m'. split; [reflexivity|]. now apply digits_unique.
Qed.

(** Appending [k] zero bits. *)
Lemma digits_mul_pow2 m m' k :
  0 <= k -> Zpos m' = Zpos m * 2 ^ k -> digits m' = digits m + k.
Proof.
  intros Hk E. pose proof (digits_bounds m) as [Hlow Hup]. pose proof (digits_pos m).
  assert (Hp : 0 < 2 ^ k) by (apply Z.pow_pos_nonneg; lia).
  apply digits_unique. rewrite E.
  replace (digits m + k - 1) with (digits m - 1 + k) by lia.
  rewrite !Z.pow_add_r by lia. nia.
Qed.

Lemma digits_mul m1 m2 :
  digits m1 + digits m2 - 1 <= digits (m1 * m2) <= digits m1 + digits m2.
Proof.
  pose proof (digits_bounds m1) as [L1 U1]. pose proof (digits_bounds m2) as [L2 U2].
  pose proof (digits_pos m1). pose proof (digits_pos m2).
  assert (0 < 2 ^ (digits m1 - 1)) by (apply Z.pow_pos_nonneg; lia).
  assert (0 < 2 ^ (digits m2 - 1)) by (apply Z.pow_pos_nonneg; lia).
  split.
  - assert (2 ^ (digits m1 + digits m2 - 2) <= Zpos (m1 * m2)).
    { replace (digits m1 + digits m2 - 2) with ((digits m1 - 1) + (digits m2 - 1)) by lia.
      rewrite Z.pow_add_r, Pos2Z.inj_mul by lia. nia. }
    pose proof (digits_ge (m1 * m2) (digits m1 + digits m2 - 2) ltac:(lia) ltac:(assumption)).
    lia.
  - apply digits_le. rewrite Z.pow_add_r, Pos2Z.inj_mul by lia. nia.
Qed.

Lemma digits_succ m : digits m <= digits (m + 1) <= digits m + 1.
Proof.
  pose proof (digits_bounds m) as [L U]. pose proof (digits_pos m). split.
  - pose proof (digits_ge (m + 1) (digits m - 1) ltac:(lia) ltac:(lia)). lia.
  - apply digits_le. rewrite Z.pow_add_r by lia. change (2 ^ 1) with 2. lia.
Qed.

(** ** Shifting right *)

Lemma shr_1_m mrs : 0 <= shr_m mrs -> shr_m (shr_1 mrs) = shr_m mrs / 2.
Proof.
  destruct mrs as [m r s]. cbn [shr_m shr_1]. intros Hm.
  destruct m as [|[p|p|]|p]; cbn [shr_m]; try lia.
  - reflexivity.
  - apply Z.div_unique with 1; lia.
  - apply Z.div_unique with 0; lia.
  - reflexivity.
Qed.

Lemma shr_1_nonneg mrs : 0 <= shr_m mrs -> 0 <= shr_m (shr_1 mrs).
Proof. intros Hm. rewrite shr_1_m by assumption. apply Z.div_pos; lia. Qed.

Lemma iter_shr_m p : forall mrs,
  0 <= shr_m mrs ->
  shr_m (SpecFloat.iter_pos shr_1 p mrs) = shr_m mrs / 2 ^ Zpos p.
Proof.
  induction p as [p IH|p IH|]; intros mrs Hm; cbn [SpecFloat.iter_pos].
  - assert (Hp : 0 < 2 ^ Zpos p) by (apply Z.pow_pos_nonneg; lia).
    assert (H1 : 0 <= shr_m (shr_1 mrs)) by now apply shr_1_nonneg.
    assert (H2 : 0 <= shr_m (SpecFloat.iter_pos shr_1 p (shr_1 mrs))).
    { rewrite IH by assumption. apply Z.div_pos; assumption. }
    rewrite IH, IH, shr_1_m by assumption.
    rewrite !Z.div_div by lia.
    f_equal. rewrite <- Z.pow_add_r by lia. rewrite <- Z.pow_succ_r by lia.
    f_equal. lia.
  - assert (Hp : 0 < 2 ^ Zpos p) by (apply Z.pow_pos_nonneg; lia).
    assert (H2 : 0 <= shr_m (SpecFloat.iter_pos shr_1 p mrs)).
    { rewrite IH by assumption. apply Z.div_pos; assumption. }
    rewrite IH, IH by assumption.
    rewrite Z.div_div by lia.
    f_equal. rewrite <- Z.pow_add_r by lia. f_equal. lia.
  - rewrite shr_1_m by assumption. reflexivity.
Qed.

Lemma shr_spec mrs e n :
  0 <= shr_m mrs ->
  shr_m (fst (shr mrs e n)) = shr_m mrs / 2 ^ Z.max n 0 /\
  snd (shr mrs e n) = e + Z.max n 0.
Proof.
  intros Hm. unfold shr. destruct n as [|p|p]; cbn [fst snd].
  - rewrite Z.max_id. cbn. rewrite Z.div_1_r. lia.
  - rewrite Z.max_l by lia. split; [now apply iter_shr_m|reflexivity].
  - rewrite Z.max_r by lia. cbn. rewrite Z.div_1_r. lia.
Qed.

Lemma shr_record_of_loc_m m l : shr_m (shr_record_of_loc m l) = m.
Proof. destruct l as [|[]]; reflexivity. Qed.

Lemma round_nearest_even_cases mx lx :
  round_nearest_even mx lx = mx \/ round_nearest_even mx lx = mx + 1.
Proof.
  destruct lx as [|[]]; cbn [round_nearest_even]; auto.
  destruct (Z.even mx); auto.
Qed.

(** ** Rounding a positive mantissa *)

Abbreviation fexp64 := (fexp prec emax).

Lemma fexp64_eq x : fexp64 x = Z.max (x - 53) (-1074).
Proof. reflexivity. Qed.

(** [shr_fexp] on a positive mantissa whose magnitude is above the least
    exponent: the magnitude stays, the exponent becomes at least the
    canonical one. *)
Lemma shr_fexp_pos m e l :
  -1073 <= digits m + e ->
  exists m',
    shr_m (fst (shr_fexp prec emax (Zpos m) e l)) = Zpos m' /\
    digits m' + snd (shr_fexp prec emax (Zpos m) e l) = digits m + e /\
    snd (shr_fexp prec emax (Zpos m) e l) = Z.max e (fexp64 (digits m + e)).
Proof.
  intros HM. unfold shr_fexp. cbn [Zdigits2]. fold (digits m).
  set (n := fexp64 (digits m + e) - e).
  destruct (shr_spec (shr_record_of_loc (Zpos m) l) e n) as [Hm He].
  { rewrite shr_record_of_loc_m. lia. }
  rewrite shr_record_of_loc_m in Hm. rewrite Hm, He.
  assert (Hn : 0 <= Z.max n 0 < digits m).
  { subst n. rewrite fexp64_eq. pose proof (digits_pos m). lia. }
  destruct (digits_div_pow2 m (Z.max n 0) Hn) as (m' & Em & Ed).
  exists m'. split; [exact Em|]. split; [lia|]. subst n. lia.
Qed.

Lemma round_pos sx m e l :
  -1073 <= digits m + e ->
  exists m2 e2,
    digits m + e <= digits m2 + e2 <= digits m + e + 1 /\
    e2 = Z.max e (fexp64 (digits m2 + e2)) /\
    binary_round_aux prec emax sx (Zpos m) e l
    = if e2 <=? 971 then S754_finite sx m2 e2 else S754_infinity sx.
Proof.
  intros HM. unfold binary_round_aux.
  destruct (shr_fexp_pos m e l HM) as (m1 & Em1 & Ed1 & Ee1).
  destruct (shr_fexp prec emax (Zpos m) e l) as [mrs' e'] eqn:E1.
  cbn [fst snd] in Em1, Ed1, Ee1. rewrite Em1.
  assert (Hr : exists r1, round_nearest_even (Zpos m1) (loc_of_shr_record mrs') = Zpos r1 /\
                          digits m1 <= digits r1 <= digits m1 + 1).
  { destruct (round_nearest_even_cases (Zpos m1) (loc_of_shr_record mrs')) as [->| ->].
    - exists m1. split; [reflexivity|lia].
    - exists (m1 + 1)%positive. split; [reflexivity|apply digits_succ]. }
  destruct Hr as (r1 & -> & Hd1).
  destruct (shr_fexp_pos r1 e' loc_Exact ltac:(lia)) as (m2 & Em2 & Ed2 & Ee2).
  destruct (shr_fexp prec emax (Zpos r1) e' loc_Exact) as [mrs'' e''] eqn:E2.
  cbn [fst snd] in Em2, Ed2, Ee2. rewrite Em2.
  exists m2, e''. split; [lia|]. split.
  - rewrite !fexp64_eq in *. lia.
  - reflexivity.
Qed.

(** ** Aligning and normalizing *)

Lemma pos_iter_xO m d : Zpos (Pos.iter xO m d) = Zpos m * 2 ^ Zpos d.
Proof.
  induction d as [|d IH] using Pos.peano_ind.
  - cbn. lia.
  - rewrite Pos.iter_succ, Pos2Z.inj_succ, Z.pow_succ_r by lia.
    change (Zpos (Pos.iter xO m d)~0) with (2 * Zpos (Pos.iter xO m d)). lia.
Qed.

Lemma shl_align_spec m e e' :
  Zpos (fst (shl_align m e e')) = Zpos m * 2 ^ Z.max (e - e') 0 /\
  snd (shl_align m e e') = Z.min e e'.
Proof.
  unfold shl_align. destruct (e' - e) as [|d|d] eqn:E; cbn [fst snd].
  - rewrite Z.max_r by lia. cbn. lia.
  - rewrite Z.max_r by lia. cbn. lia.
  - rewrite Z.max_l by lia. rewrite pos_iter_xO.
    replace (e - e') with (Zpos d) by lia. lia.
Qed.

Lemma shl_align_digits m e e' :
  digits (fst (shl_align m e e')) + snd (shl_align m e e') = digits m + e.
Proof.
  destruct (shl_align_spec m e e') as [Hm He].
  rewrite (digits_mul_pow2 m _ (Z.max (e - e') 0) ltac:(lia) Hm), He. lia.
Qed.

(** A positive sign and a magnitude of at least [k]: the value is at least
    [2 ^ (k - 1)]. *)
Definition pos_big (k : Z) (x : spec_float) : Prop :=
  match x with
  | S754_infinity false => True
  | S754_finite false m e => k <= digits m + e
  | _ => False
  end.

(** A magnitude of at least [k], whatever the sign. *)
Definition big (k : Z) (x : spec_float) : Prop :=
  match x with
  | S754_infinity _ => True
  | S754_finite _ m e => k <= digits m + e
  | _ => False
  end.

Lemma pos_big_weaken k k' x : k' <= k -> pos_big k x -> pos_big k' x.
Proof. destruct x as [|[]| |[] m e]; cbn; try tauto; lia. Qed.

Lemma big_weaken k k' x : k' <= k -> big k x -> big k' x.
Proof. destruct x as [|[]| |[] m e]; cbn; try tauto; lia. Qed.

Lemma binary_round_spec sx m e :
  -1073 <= digits m + e ->
  exists m2 e2,
    digits m + e <= digits m2 + e2 <= digits m + e + 1 /\
    e2 = fexp64 (digits m2 + e2) /\
    binary_round prec emax sx m e
    = if e2 <=? 971 then S754_finite sx m2 e2 else S754_infinity sx.
Proof.
  intros HM. unfold binary_round. cbn [Zdigits2]. fold (digits m).
  pose proof (shl_align_digits m e (fexp64 (digits m + e))) as Hd.
  destruct (shl_align_spec m e (fexp64 (digits m + e))) as [_ He].
  destruct (shl_align m e (fexp64 (digits m + e))) as [mz ez].
  cbn [fst snd] in Hd, He.
  destruct (round_pos sx mz ez loc_Exact ltac:(lia)) as (m2 & e2 & Hmag & He2 & Hrun).
  exists m2, e2. split; [lia|]. split; [|exact Hrun].
  rewrite !fexp64_eq in *. lia.
Qed.

Lemma binary_round_valid sx m e :
  -1073 <= digits m + e -> valid_binary (binary_round prec emax sx m e) = true.
Proof.
  intros HM. destruct (binary_round_spec sx m e HM) as (m2 & e2 & _ & He2 & ->).
  destruct (Z.leb_spec e2 971) as [Hle|]; [|reflexivity].
  cbn [SpecFloat.valid_binary]. unfold bounded, canonical_mantissa.
  fold (digits m2). rewrite <- He2, Z.eqb_refl. cbn [andb].
  apply Z.leb_le. exact Hle.
Qed.

Lemma binary_round_big sx m e :
  -1073 <= digits m + e -> big (digits m + e) (binary_round prec emax sx m e).
Proof.
  intros HM. destruct (binary_round_spec sx m e HM) as (m2 & e2 & Hmag & _ & ->).
  destruct (e2 <=? 971); cbn; [lia|exact I].
Qed.

Lemma binary_round_pos_big m e :
  -1073 <= digits m + e -> pos_big (digits m + e) (binary_round prec emax false m e).
Proof.
  intros HM. destruct (binary_round_spec false m e HM) as (m2 & e2 & Hmag & _ & ->).
  destruct (e2 <=? 971); cbn; [lia|exact I].
Qed.

(** ** The conversion of a tick count *)

Lemma double_of_int64_spec z :
  Prim2SF (double_of_int64 z) = binary_normalize prec emax z 0 false /\
  (Prim2SF (double_of_int64 z) = S754_zero false \/
   big 1 (Prim2SF (double_of_int64 z))).
Proof.
  assert (Hv : valid_binary (binary_normalize prec emax z 0 false) = true).
  { destruct z as [|p|p]; cbn [binary_normalize]; [reflexivity| |];
      apply binary_round_valid; pose proof (digits_pos p); lia. }
  unfold double_of_int64. rewrite (Prim2SF_SF2Prim _ Hv). split; [reflexivity|].
  destruct z as [|p|p]; cbn [binary_normalize]; [now left| |]; right;
    pose proof (digits_pos p);
    (apply big_weaken with (digits p + 0); [lia|]); apply binary_round_big; lia.
Qed.

(** ** Valid operands and their order *)

Lemma valid_finite s m e :
  valid_binary (S754_finite s m e) = true ->
  fexp64 (digits m + e) = e /\ e <= 971.
Proof.
  cbn [SpecFloat.valid_binary]. unfold bounded, canonical_mantissa. fold (digits m).
  rewrite andb_true_iff, Z.eqb_eq, Z.leb_le. tauto.
Qed.

(** The order of [SFcompare] on two positive operands. *)
Definition finite_lt (m1 : positive) (e1 : Z) (m2 : positive) (e2 : Z) : Prop :=
  e1 < e2 \/ (e1 = e2 /\ Zpos m1 < Zpos m2).

Lemma SFcompare_finite_pos m1 e1 m2 e2 :
  SFcompare (S754_finite false m1 e1) (S754_finite false m2 e2) = Some Lt ->
  finite_lt m1 e1 m2 e2.
Proof.
  cbn [SFcompare]. change (PosDef.Pos.compare_cont Eq) with Pos.compare.
  unfold finite_lt. destruct (Z.compare_spec e1 e2); try discriminate; [|lia].
  destruct (Pos.compare_spec m1 m2) as [| Hm |]; try discriminate.
  apply Pos2Z.pos_lt_pos in Hm. auto.
Qed.

Lemma SFcompare_finite_neg m1 e1 m2 e2 :
  SFcompare (S754_finite true m1 e1) (S754_finite true m2 e2) = Some Lt ->
  finite_lt m2 e2 m1 e1.
Proof.
  cbn [SFcompare]. change (PosDef.Pos.compare_cont Eq) with Pos.compare.
  unfold finite_lt. destruct (Z.compare_spec e1 e2); try discriminate; [|lia].
  destruct (Pos.compare_spec m1 m2) as [| |Hm]; try discriminate.
  apply Pos2Z.pos_lt_pos in Hm. subst. auto.
Qed.

(** For canonical mantissas that order is the order of the values. *)
Lemma finite_lt_aligned m1 e1 m2 e2 :
  fexp64 (digits m1 + e1) = e1 -> fexp64 (digits m2 + e2) = e2 ->
  finite_lt m1 e1 m2 e2 ->
  Zpos (fst (shl_align m1 e1 (Z.min e2 e1)))
  < Zpos (fst (shl_align m2 e2 (Z.min e2 e1))).
Proof.
  intros C1 C2 Hlt. rewrite !fexp64_eq in *.
  destruct (shl_align_spec m1 e1 (Z.min e2 e1)) as [-> _].
  destruct (shl_align_spec m2 e2 (Z.min e2 e1)) as [-> _].
  destruct Hlt as [He|[-> Hm]].
  - rewrite Z.min_r by lia. rewrite (Z.max_r (e1 - e1)) by lia.
    rewrite (Z.max_l (e2 - e1)) by lia. rewrite Z.pow_0_r, Z.mul_1_r.
    pose proof (digits_bounds m1) as [_ U1]. pose proof (digits_bounds m2) as [L2 _].
    assert (Hd2 : digits m2 = 53) by lia. assert (Hd1 : digits m1 <= 53) by lia.
    rewrite Hd2 in L2. change (2 ^ (53 - 1)) with 4503599627370496 in L2.
    assert (Zpos m1 < 2 ^ 53).
    { eapply Z.lt_le_trans; [exact U1|]. apply Z.pow_le_mono_r; lia. }
    assert (2 ^ 1 <= 2 ^ (e2 - e1)) by (apply Z.pow_le_mono_r; lia).
    change (2 ^ 1) with 2 in *. change (2 ^ 53) with 9007199254740992 in *. nia.
  - rewrite Z.min_id, Z.sub_diag, Z.max_id, Z.pow_0_r. lia.
Qed.

(** Zero, or of absolute value at least 1. *)
Definition zero_or_big (x : spec_float) : Prop :=
  match x with
  | S754_zero _ => True
  | _ => big 1 x
  end.

Lemma normalize_pos_big D e :
  0 < D -> -52 <= e -> pos_big (-51) (binary_normalize prec emax D e false).
Proof.
  intros HD He. destruct D as [|D'|D']; try lia. cbn [binary_normalize].
  pose proof (digits_pos D').
  apply pos_big_weaken with (digits D' + e); [lia|].
  apply binary_round_pos_big. lia.
Qed.

(** The difference of two such operands, the greater one first, is
    positive and no smaller than [2 ^ -52]. *)
Lemma SFsub_gt x y :
  valid_binary x = true -> valid_binary y = true ->
  zero_or_big x -> zero_or_big y ->
  SFcompare y x = Some Lt ->
  pos_big (-51) (SFsub prec emax x y).
Proof.
  intros Vx Vy Bx By Hlt.
  destruct x as [sx|sx| |sx mx ex], y as [sy|sy| |sy my ey];
    cbn [zero_or_big big] in Bx, By; try contradiction;
    cbn [SFcompare] in Hlt; try discriminate.
  - (* zero - infinity *) destruct sy; [exact I|discriminate].
  - (* zero - finite *) destruct sy; [|discriminate]. cbn. lia.
  - (* infinity - zero *) destruct sx; [discriminate|exact I].
  - (* infinity - infinity *) destruct sy, sx; try discriminate. exact I.
  - (* infinity - finite *) destruct sx; [discriminate|exact I].
  - (* finite - zero *) destruct sx; [discriminate|]. cbn. lia.
  - (* finite - infinity *) destruct sy; [exact I|discriminate].
  - (* finite - finite *)
    destruct (valid_finite _ _ _ Vx) as [Cx _].
    destruct (valid_finite _ _ _ Vy) as [Cy _].
    assert (Hex : -52 <= ex) by (rewrite fexp64_eq in Cx; lia).
    assert (Hey : -52 <= ey) by (rewrite fexp64_eq in Cy; lia).
    cbn [SFsub]. cbv zeta. apply normalize_pos_big; [|lia].
    destruct sx, sy; cbn [cond_Zopp].
    + apply SFcompare_finite_neg in Hlt.
      pose proof (finite_lt_aligned mx ex my ey Cx Cy Hlt) as H.
      rewrite (Z.min_comm ey ex) in H. lia.
    + discriminate.
    + lia.
    + apply SFcompare_finite_pos in Hlt.
      pose proof (finite_lt_aligned my ey mx ex Cy Cx Hlt) as H. lia.
Qed.

(** ** The operands of the score *)

(** A utilization that passes the assertion of [calc_gc_benefit_cost] and
    is not zero: a positive double below 1. *)
Lemma unit_interval_finite (u : float) :
  ((0 <=? u) && (u <? 1))%float = true -> (u =? 0)%float = false ->
  exists m e,
    Prim2SF u = S754_finite false m e /\
    fexp64 (digits m + e) = e /\ digits m + e <= 0 /\
    finite_lt m e 4503599627370496 (-52).
Proof.
  rewrite andb_true_iff, FloatAxioms.leb_spec, FloatAxioms.ltb_spec,
    FloatAxioms.eqb_spec.
  pose proof (Prim2SF_valid u) as Hv.
  change (Prim2SF 0%float) with (S754_zero false).
  change (Prim2SF 1%float) with (S754_finite false 4503599627370496 (-52)).
  unfold SFleb, SFltb, SFeqb.
  destruct (Prim2SF u) as [s|s| |s m e]; cbn [SFcompare].
  - intros _. discriminate.
  - destruct s; intros [? ?]; discriminate.
  - intros [? ?]; discriminate.
  - destruct s; [intros [? ?]; discriminate|]. intros [_ Hlt] _.
    assert (Hc : SFcompare (S754_finite false m e)
                   (S754_finite false 4503599627370496 (-52)) = Some Lt).
    { cbn [SFcompare].
      destruct (e ?= -52);
        [destruct (PosDef.Pos.compare_cont Eq m 4503599627370496)|..];
        try discriminate; reflexivity. }
    apply SFcompare_finite_pos in Hc.
    destruct (valid_finite _ _ _ Hv) as [Hcan _].
    exists m, e. split; [reflexivity|]. split; [exact Hcan|]. split; [|exact Hc].
    rewrite fexp64_eq in Hcan. destruct Hc as [He|[-> Hm]]; [lia|].
    assert (digits m <= 52); [|lia]. apply digits_le.
    change (2 ^ 52) with 4503599627370496. lia.
Qed.

(** [1 - u] is positive and no smaller than [2 ^ -53]. *)
Lemma one_minus_pos_big m e :
  fexp64 (digits m + e) = e -> finite_lt m e 4503599627370496 (-52) ->
  pos_big (-52)
    (SFsub prec emax (S754_finite false 4503599627370496 (-52)) (S754_finite false m e)).
Proof.
  intros Hcan Hlt. rewrite fexp64_eq in Hcan.
  cbn [SFsub]. cbv zeta. cbn [cond_Zopp].
  assert (He : e <= -52) by (destruct Hlt as [|[-> _]]; lia).
  rewrite (Z.min_r (-52) e) by lia.
  destruct (shl_align_spec 4503599627370496 (-52) e) as [-> _].
  destruct (shl_align_spec m e e) as [-> _].
  rewrite (Z.max_l (-52 - e)) by lia.
  rewrite Z.sub_diag, Z.max_id, Z.pow_0_r, Z.mul_1_r.
  pose proof (digits_bounds m) as [_ Um]. pose proof (digits_pos m).
  assert (Hm53 : Zpos m < 2 ^ 53).
  { eapply Z.lt_le_trans; [exact Um|]. apply Z.pow_le_mono_r; lia. }
  change (2 ^ 53) with 9007199254740992 in Hm53.
  change 4503599627370496 with (2 ^ 52) at 1.
  rewrite <- Z.pow_add_r by lia. replace (52 + (-52 - e)) with (- e) by lia.
  set (D := 2 ^ (- e) - Zpos m).
  assert (Hfinish : forall k, 0 <= k -> 2 ^ k <= D -> -53 <= k + e ->
                    pos_big (-52) (binary_normalize prec emax D e false)).
  { intros k Hk HD Hke.
    assert (0 < 2 ^ k) by (apply Z.pow_pos_nonneg; lia).
    destruct D as [|D'|D'] eqn:ED; try lia. cbn [binary_normalize].
    pose proof (digits_ge D' k Hk HD) as Hdig.
    apply pos_big_weaken with (digits D' + e); [lia|].
    apply binary_round_pos_big. lia. }
  destruct (Z.le_gt_cases e (-54)) as [H54|H54].
  - apply (Hfinish (- e - 1)); [lia| |lia]. subst D.
    assert (E : 2 ^ (- e) = 2 ^ (- e - 1) * 2 ^ 1)
      by (rewrite <- Z.pow_add_r by lia; f_equal; lia).
    change (2 ^ 1) with 2 in E.
    assert (2 ^ 53 <= 2 ^ (- e - 1)) by (apply Z.pow_le_mono_r; lia).
    change (2 ^ 53) with 9007199254740992 in *. lia.
  - apply (Hfinish 0); [lia| |lia]. subst D. rewrite Z.pow_0_r.
    destruct Hlt as [Hlt|[-> Hlt]].
    + replace e with (-53) by lia. change (2 ^ (- -53)) with 9007199254740992. lia.
    + change (2 ^ (- -52)) with 4503599627370496. lia.
Qed.

(** [2 * u] is a finite positive double below 4. *)
Lemma twice_finite m e :
  fexp64 (digits m + e) = e -> digits m + e <= 0 ->
  exists m2 e2,
    SFmul prec emax (S754_finite false 4503599627370496 (-51)) (S754_finite false m e)
    = S754_finite false m2 e2 /\
    digits m2 + e2 <= 2.
Proof.
  intros Hcan Hmag. rewrite fexp64_eq in Hcan. cbn [SFmul xorb].
  pose proof (digits_pos m).
  assert (Hd : digits (4503599627370496 * m) = digits m + 52).
  { apply digits_mul_pow2; [lia|]. rewrite Pos2Z.inj_mul.
    change (Zpos 4503599627370496) with (2 ^ 52). lia. }
  destruct (round_pos false (4503599627370496 * m) (-51 + e) loc_Exact ltac:(lia))
    as (m2 & e2 & Hm2 & He2 & ->).
  rewrite fexp64_eq in He2.
  destruct (Z.leb_spec e2 971); [|lia].
  exists m2, e2. split; [reflexivity|lia].
Qed.

(** ** Products and quotients *)

Lemma SFmul_pos_big k1 k2 x y :
  pos_big k1 x -> pos_big k2 y -> -1072 <= k1 + k2 ->
  pos_big (k1 + k2 - 1) (SFmul prec emax x y).
Proof.
  intros Hx Hy Hk.
  destruct x as [|[]| |[] m1 e1], y as [|[]| |[] m2 e2]; cbn [pos_big] in Hx, Hy;
    try contradiction; cbn [SFmul xorb]; try exact I.
  pose proof (digits_mul m1 m2) as [Hlow _].
  destruct (round_pos false (m1 * m2) (e1 + e2) loc_Exact ltac:(lia))
    as (m3 & e3 & Hm3 & _ & ->).
  destruct (e3 <=? 971); cbn [pos_big]; [lia|exact I].
Qed.

Lemma SFdiv_pos_big k1 k2 x m2 e2 :
  pos_big k1 x -> digits m2 + e2 <= k2 -> -1073 <= k1 - k2 ->
  pos_big (k1 - k2) (SFdiv prec emax x (S754_finite false m2 e2)).
Proof.
  intros Hx Hy Hk.
  destruct x as [|[]| |[] m1 e1]; cbn [pos_big] in Hx; try contradiction;
    cbn [SFdiv xorb]; [exact I|].
  unfold SFdiv_core_binary. cbn [Zdigits2]. fold (digits m1) (digits m2).
  set (Mq := digits m1 + e1 - (digits m2 + e2)).
  set (e' := Z.min (fexp64 Mq) (e1 - e2)).
  set (s := e1 - e2 - e').
  assert (HMq : -1073 <= Mq) by (subst Mq; lia).
  assert (He' : e' <= Mq - 1 /\ e' <= fexp64 Mq /\ e' <= e1 - e2).
  { subst e'. rewrite fexp64_eq. lia. }
  assert (Hs : 0 <= s) by (subst s; lia).
  set (m' := match s with
             | 0 => Zpos m1
             | Zpos _ => Z.shiftl (Zpos m1) s
             | Zneg _ => 0
             end).
  assert (Hm' : m' = Zpos m1 * 2 ^ s).
  { subst m'. destruct s as [|p|p] eqn:Es; [cbn; lia| |lia].
    now rewrite Z.shiftl_mul_pow2 by lia. }
  assert (Hq : 2 ^ (Mq - 1 - e') <= m' / Zpos m2).
  { apply Z.div_le_lower_bound; [lia|]. rewrite Hm'.
    pose proof (digits_bounds m1) as [L1 _]. pose proof (digits_bounds m2) as [_ U2].
    pose proof (digits_pos m1). pose proof (digits_pos m2).
    assert (Hk0 : 0 <= Mq - 1 - e') by lia.
    assert (Hsplit : 2 ^ (digits m2) * 2 ^ (Mq - 1 - e') = 2 ^ (digits m1 - 1) * 2 ^ s).
    { rewrite <- !Z.pow_add_r by lia. f_equal. subst s Mq. lia. }
    assert (0 < 2 ^ (Mq - 1 - e')) by (apply Z.pow_pos_nonneg; lia).
    assert (0 < 2 ^ s) by (apply Z.pow_pos_nonneg; lia).
    nia. }
  unfold Z.div in Hq. destruct (Z.div_eucl m' (Zpos m2)) as [q r].
  assert (0 < 2 ^ (Mq - 1 - e')) by (apply Z.pow_pos_nonneg; lia).
  destruct q as [|q'|q']; try lia.
  pose proof (digits_ge q' (Mq - 1 - e') ltac:(lia) Hq) as Hdig.
  destruct (round_pos false q' e' (new_location (Zpos m2) r) ltac:(lia))
    as (m3 & e3 & Hm3 & _ & ->).
  destruct (e3 <=? 971); cbn [pos_big]; [subst Mq; lia|exact I].
Qed.

Lemma pos_big_positive k (f : float) :
  pos_big k (Prim2SF f) -> (0 <? f)%float = true.
Proof.
  rewrite FloatAxioms.ltb_spec. change (Prim2SF 0%float) with (S754_zero false).
  unfold SFltb.
  destruct (Prim2SF f) as [|[]| |[] m e]; cbn; try contradiction; reflexivity.
Qed.

(** ** The score is positive *)

Lemma cost_benefit_positive (u : float) (now_time modify_time : Z) :
  ((0 <=? u) && (u <? 1))%float = true -> (u =? 0)%float = false ->
  let age_segment := double_of_int64 modify_time in
  let age_now := double_of_int64 now_time in
  (0 <? (if (age_segment <? age_now)%float
         then (1 - u) * (age_now - age_segment) / (2 * u)
         else (1 - u) / (2 * u)))%float = true.
Proof.
  intros Hu Hnz age_segment age_now.
  destruct (unit_interval_finite u Hu Hnz) as (m & e & Eu & Hcan & Hmag & Hlt).
  assert (Hone : pos_big (-52) (Prim2SF (1 - u)%float)).
  { rewrite sub_spec, Eu.
    change (Prim2SF 1%float) with (S754_finite false 4503599627370496 (-52)).
    now apply one_minus_pos_big. }
  destruct (twice_finite m e Hcan Hmag) as (m2 & e2 & Etwo & Hmag2).
  assert (Htwo : Prim2SF (2 * u)%float = S754_finite false m2 e2).
  { rewrite mul_spec, Eu.
    change (Prim2SF 2%float) with (S754_finite false 4503599627370496 (-51)).
    exact Etwo. }
  destruct (age_segment <? age_now)%float eqn:Hage.
  - assert (Hd : pos_big (-51) (Prim2SF (age_now - age_segment)%float)).
    { rewrite sub_spec. rewrite FloatAxioms.ltb_spec in Hage.
      apply SFsub_gt; try apply Prim2SF_valid.
      - unfold age_now.
        destruct (double_of_int64_spec now_time) as [_ [-> |H]]; [exact I|].
        destruct (Prim2SF (double_of_int64 now_time)); cbn in *; tauto.
      - unfold age_segment.
        destruct (double_of_int64_spec modify_time) as [_ [-> |H]]; [exact I|].
        destruct (Prim2SF (double_of_int64 modify_time)); cbn in *; tauto.
      - unfold SFltb in Hage. destruct (SFcompare _ _) as [[]|]; try discriminate.
        reflexivity. }
    apply pos_big_positive with (-105 - 2).
    rewrite div_spec, Htwo. apply SFdiv_pos_big; [|exact Hmag2|lia].
    rewrite mul_spec. replace (-105) with (-52 + -51 - 1 - 1) by lia.
    eapply pos_big_weaken; [|apply (SFmul_pos_big (-52) (-51)); [exact Hone|exact Hd|lia]].
    lia.
  - apply pos_big_positive with (-52 - 2).
    rewrite div_spec, Htwo. apply SFdiv_pos_big; [exact Hone|exact Hmag2|lia].
Qed.

(** * C3: victim selection over the directory *)

Section victim_selection_directory.
Context `{async_cleaner_h}.

(** Segment [id] of the directory is one the selector scores: CLOSED and
    not in the journal. *)
Definition reclaim_candidate (c : cleaner_t) (id : segment_id_t)
    (info : segment_info_t) : Prop :=
  is_segment_id id /\
  segment_map_get (segments (c_segments c)) id = Some info /\
  state info = CLOSED /\
  is_in_journal info (get_journal_tail c) = false.

(** The assertion of [calc_gc_benefit_cost] on the utilization. *)
Definition utilization_ok (c : cleaner_t) (id : segment_id_t) : Prop :=
  ((0 <=? calc_utilization c id) && (calc_utilization c id <? 1))%float = true.

Lemma candidate_reclaim_candidate c id info :
  candidate c (id, info) = true <->
  state info = CLOSED /\ is_in_journal info (get_journal_tail c) = false.
Proof.
  unfold candidate, is_closed. cbn [snd].
  rewrite andb_true_iff, bool_decide_eq_true, negb_true_iff. reflexivity.
Qed.

(** With the utilization in [0, 1) the score of a segment of the directory
    is computed. *)
Lemma score_computed c id info now_time bound_time :
  utilization_ok c id ->
  segment_map_get (segments (c_segments c)) id = Some info ->
  is_Some (calc_gc_benefit_cost c id now_time bound_time).
Proof.
  intros Hu Hget. unfold utilization_ok in Hu.
  unfold calc_gc_benefit_cost, calc_gc_benefit_cost_with, gc_formula. cbv zeta.
  rewrite Hu, Hget.
  destruct (calc_utilization c id =? 0)%float; [eauto|].
  destruct (double_of_int64 (modify_time info) <? double_of_int64 now_time)%float;
    eauto.
Qed.

(** The score is above 0 whenever it is computed. *)
Lemma score_positive c id now_time bound_time s :
  calc_gc_benefit_cost c id now_time bound_time = Some s -> (0 <? s)%float = true.
Proof.
  unfold calc_gc_benefit_cost, calc_gc_benefit_cost_with, gc_formula. cbv zeta.
  destruct ((0 <=? calc_utilization c id) && (calc_utilization c id <? 1))%float
    eqn:Hu; [|discriminate].
  destruct (calc_utilization c id =? 0)%float eqn:Hz.
  - intros [= <-]. reflexivity.
  - destruct (segment_map_get (segments (c_segments c)) id) as [info|]; [|discriminate].
    pose proof (cost_benefit_positive (calc_utilization c id) now_time
                  (modify_time info) Hu Hz) as Hpos.
    cbv zeta in Hpos.
    destruct (double_of_int64 (modify_time info) <? double_of_int64 now_time)%float;
      intros [= <-]; exact Hpos.
Qed.

(** A candidate whose score aborts aborts the loop. *)
Lemma reclaim_loop_aborts c now_time bound_time items : forall id0 max0 p,
  p ∈ items -> candidate c p = true -> score c now_time bound_time p = None ->
  reclaim_loop c now_time bound_time items id0 max0 = None.
Proof.
  induction items as [|[_id info] items IH]; intros id0 max0 p Hin Hc Hs;
    [inversion Hin|].
  cbn [reclaim_loop].
  change (is_closed info && negb (is_in_journal info (get_journal_tail c)))
    with (candidate c (_id, info)).
  apply elem_of_cons in Hin. destruct Hin as [->|Hin].
  - rewrite Hc. unfold score in Hs. cbn [fst] in Hs. now rewrite Hs.
  - destruct (candidate c (_id, info)); [|now apply IH with p].
    destruct (calc_gc_benefit_cost c _id now_time bound_time); [|reflexivity].
    destruct (_ <? _)%float; now apply IH with p.
Qed.

(** Two doubles above 0 are comparable. *)
Lemma SFcompare_swap a b c :
  SFcompare a b = Some c -> SFcompare b a = Some (CompOpp c).
Proof.
  destruct a as [sa|sa| |sa ma ea], b as [sb|sb| |sb mb eb]; cbn [SFcompare];
    try discriminate; try (destruct sa, sb; intros [= <-]; reflexivity);
    try (destruct sa; intros [= <-]; reflexivity);
    try (destruct sb; intros [= <-]; reflexivity);
    try (intros [= <-]; reflexivity).
  change (PosDef.Pos.compare_cont Eq) with Pos.compare.
  rewrite (Z.compare_antisym ea eb), (Pos.compare_antisym ma mb).
  destruct sa, sb; intros [= <-]; try reflexivity;
    destruct (ea ?= eb); cbn [CompOpp]; try reflexivity;
    destruct (ma ?= mb)%positive; reflexivity.
Qed.

Lemma double_positive_compare (a b : float) :
  (0 <? a)%float = true -> (0 <? b)%float = true ->
  ((a <? b)%float = false -> (b <=? a)%float = true) /\
  ((a <=? b)%float = false -> (b <? a)%float = true).
Proof.
  rewrite !FloatAxioms.ltb_spec, !FloatAxioms.leb_spec.
  change (Prim2SF 0%float) with (S754_zero false). unfold SFltb, SFleb.
  intros Ha Hb.
  assert (Hc : exists c, SFcompare (Prim2SF a) (Prim2SF b) = Some c).
  { destruct (Prim2SF a) as [| | |], (Prim2SF b) as [| | |]; cbn [SFcompare] in *;
      try discriminate; eauto. }
  destruct Hc as [c Hc]. rewrite Hc, (SFcompare_swap _ _ _ Hc).
  destruct c; cbn [CompOpp]; split; congruence.
Qed.

Lemma lookup_ascending_lt (l : list Z) i j x y :
  ascending l -> l !! i = Some x -> l !! j = Some y -> x < y -> (i < j)%nat.
Proof.
  intros Hasc Hi Hj Hxy.
  destruct (lt_eq_lt_dec i j) as [[Hlt|Heq]|Hgt]; [exact Hlt| |].
  - subst j. rewrite Hi in Hj. injection Hj as <-. lia.
  - pose proof (Hasc j i y x Hgt Hj Hi). lia.
Qed.

(** C3: in a directory whose segments are all on devices of type SEGMENT,
    [get_next_reclaim_segment] scores exactly the segments that are CLOSED
    and not in the journal: each of them is scored (one whose score asserts
    aborts the selector) and the others play no part in the result.  The
    segment it returns is such a candidate, with a score above 0 that is at
    least the score of every candidate and above the score of every
    candidate of a smaller id, which the iteration meets earlier: the first
    found of the best.  Without a
    candidate it aborts.  With a candidate, and the utilization of every
    candidate in [0, 1) as [calc_gc_benefit_cost] asserts, it returns. *)
Theorem get_next_reclaim_segment_spec (c : cleaner_t) (clock_now : sea_time_point) :
  (length (device_to_segments (segments (c_segments c))) <= 256)%nat ->
  Forall (fun dev : list segment_info_t =>
            Z.of_nat (length dev) <= DEVICE_SEGMENT_ID_MAX)
         (device_to_segments (segments (c_segments c))) ->
  iterator_ids_valid (segments (c_segments c)) = true ->
  (forall id,
      get_next_reclaim_segment c clock_now = Some id ->
      segment_id_of_internal id = Some id /\ id <> NULL_SEG_ID /\
      exists info s,
        reclaim_candidate c id info /\
        calc_gc_benefit_cost c id clock_now NULL_TIME = Some s /\
        (0 <? s)%float = true /\
        forall id' info' s',
          reclaim_candidate c id' info' ->
          calc_gc_benefit_cost c id' clock_now NULL_TIME = Some s' ->
          (s' <=? s)%float = true /\ (id' < id -> (s' <? s)%float = true)) /\
  ((forall id info, ~ reclaim_candidate c id info) ->
   get_next_reclaim_segment c clock_now = None) /\
  (forall id info,
      reclaim_candidate c id info ->
      calc_gc_benefit_cost c id clock_now NULL_TIME = None ->
      get_next_reclaim_segment c clock_now = None) /\
  get_next_reclaim_segment c clock_now
  = match reclaim_loop c clock_now NULL_TIME
            (filter (fun p => candidate c p = true)
                    (segment_map_items (segments (c_segments c))))
            NULL_SEG_ID 0%float with
    | None => None
    | Some (id, _) => if id =? NULL_SEG_ID then None else Some id
    end /\
  ((forall id info, reclaim_candidate c id info -> utilization_ok c id) ->
   (exists id info, reclaim_candidate c id info) ->
   exists id, get_next_reclaim_segment c clock_now = Some id).
Proof.
  intros Houter Hlen Hvalid.
  set (items := segment_map_items (segments (c_segments c))).
  assert (Hinner : Forall (fun dev : list segment_info_t =>
                             Z.of_nat (length dev) <= 2 ^ 24)
                     (device_to_segments (segments (c_segments c)))).
  { eapply Forall_impl; [exact Hlen|]. intros dev Hdev. cbv beta in Hdev.
    change DEVICE_SEGMENT_ID_MAX with (2 ^ 24 - 1) in Hdev. lia. }
  pose proof (segment_map_items_ascending _ Houter Hinner) as Hasc. fold items in Hasc.
  assert (Hitem : forall id info,
             In (id, info) items <->
             is_segment_id id /\
             segment_map_get (segments (c_segments c)) id = Some info).
  { intros id info. now apply segment_map_items_get. }
  assert (Hcand : forall id info,
             reclaim_candidate c id info <->
             (id, info) ∈ items /\ candidate c (id, info) = true).
  { intros id info. unfold reclaim_candidate.
    rewrite candidate_reclaim_candidate, list_elem_of_In, Hitem. tauto. }
  assert (Hnull : forall id info, (id, info) ∈ items -> id <> NULL_SEG_ID).
  { intros id info Hin Heq. apply list_elem_of_In, Hitem in Hin.
    destruct Hin as [_ Hget]. subst id. unfold segment_map_get in Hget.
    destruct (device_to_segments (segments (c_segments c))
                !! Z.to_nat (device_id NULL_SEG_ID)) as [dev|] eqn:Hd; [|discriminate].
    eapply Forall_lookup_1 in Hlen; [|exact Hd]. cbv beta in Hlen.
    apply lookup_lt_Some in Hget.
    change (device_segment_id NULL_SEG_ID) with (2 ^ 24 - 1) in Hget.
    change DEVICE_SEGMENT_ID_MAX with (2 ^ 24 - 1) in Hlen. lia. }
  destruct (get_next_reclaim_segment_items c clock_now)
    as (Hwin & Hnone & Hfilter & Hreturns).
  cbv zeta in Hwin, Hnone, Hfilter, Hreturns. fold items in Hwin, Hnone, Hfilter, Hreturns.
  split; [|split; [|split; [|split]]].
  - intros id Hrun. destruct (Hwin id Hrun) as (k & s & Hk).
    destruct Hk as ((info & Hat) & (p & Hp & Hpc & Hps) & Hpos & Hbefore & Hafter).
    rewrite Hat in Hp. injection Hp as <-.
    assert (Hin : (id, info) ∈ items) by (eapply list_elem_of_lookup_2; exact Hat).
    split; [eapply iterator_ids_valid_in; [exact Hvalid|apply list_elem_of_In; exact Hin]|].
    split; [now apply (Hnull id info)|].
    exists info, s. split; [apply Hcand; now split|].
    split; [exact Hps|]. split; [exact Hpos|].
    intros id' info' s' Hc' Hs'.
    destruct (double_positive_compare s s' Hpos
                (score_positive c id' clock_now NULL_TIME s' Hs')) as [Hcmp1 Hcmp2].
    enough ((s <? s')%float = false /\ (id' < id -> (s <=? s')%float = false))
      as [H1 H2] by (split; [exact (Hcmp1 H1)|intros Hid'; exact (Hcmp2 (H2 Hid'))]).
    apply Hcand in Hc'. destruct Hc' as [Hin' Hpc'].
    apply list_elem_of_lookup_1 in Hin'. destruct Hin' as [k' Hat'].
    assert (Hsc' : scored_at c clock_now NULL_TIME items k' s').
    { exists (id', info'). split; [exact Hat'|]. split; [exact Hpc'|exact Hs']. }
    assert (Hid : map fst items !! k = Some id) by (now rewrite list_lookup_fmap, Hat).
    assert (Hid' : map fst items !! k' = Some id') by (now rewrite list_lookup_fmap, Hat').
    destruct (lt_eq_lt_dec k' k) as [[Hlt|Heq]|Hgt].
    + pose proof (Hbefore k' s' Hlt Hsc') as Hle. split; [|intros _; exact Hle].
      destruct (s <? s')%float eqn:E; [|reflexivity].
      apply double_lt_le in E. congruence.
    + subst k'. rewrite Hat in Hat'. injection Hat' as <- <-.
      unfold score in Hps. cbn [fst] in Hps. rewrite Hps in Hs'. injection Hs' as <-.
      split; [apply double_lt_irrefl|lia].
    + split; [exact (Hafter k' s' Hgt Hsc')|].
      intros Hlt. pose proof (Hasc k k' id id' Hgt Hid Hid'). lia.
  - intros Hno. apply Hnone. intros [id info] Hin.
    destruct (candidate c (id, info)) eqn:Hc; [|reflexivity].
    exfalso. apply (Hno id info). apply Hcand. now split.
  - intros id info Hc Hs. apply Hcand in Hc. destruct Hc as [Hin Hpc].
    unfold get_next_reclaim_segment, gc_formula. cbv zeta. fold items.
    now rewrite (reclaim_loop_aborts c clock_now NULL_TIME items NULL_SEG_ID 0%float
                   (id, info) Hin Hpc Hs).
  - exact Hfilter.
  - intros Hutil (id & info & Hc). apply Hreturns.
    + intros [id' info'] Hin' Hpc'. unfold score. cbn [fst].
      assert (Hc' : reclaim_candidate c id' info') by (apply Hcand; now split).
      apply (score_computed c id' info'); [now apply (Hutil id' info')|].
      now destruct Hc' as (_ & Hget & _).
    + intros [id' info'] Hin'. cbn [fst]. now apply (Hnull id' info').
    + destruct (score_computed c id info clock_now NULL_TIME) as [s Hs];
        [now apply (Hutil id info)|now destruct Hc as (_ & Hget & _)|].
      apply Hcand in Hc. destruct Hc as [Hin Hpc].
      apply list_elem_of_lookup_1 in Hin. destruct Hin as [k Hat].
      exists k, s. split; [|now apply (score_positive c id clock_now NULL_TIME)].
      exists (id, info). split; [exact Hat|]. split; [exact Hpc|exact Hs].
Qed.
End victim_selection_directory.

(** Scenario 6: segments 0 and 1 are the candidates, both at 20%
    utilization; segment 0, the older one, is returned. *)
Lemma scenario6_candidates id info :
  reclaim_candidate scenario6 id info -> id = 0 \/ id = 1.
Proof.
  intros (Hid & Hget & Hst & _).
  assert (Hin : In (id, info) (segment_map_items (segments (c_segments scenario6)))).
  { apply segment_map_items_get; [vm_compute; lia| |now split].
    apply Forall_forall. intros dev Hdev. apply list_elem_of_In in Hdev.
    vm_compute in Hdev.
    repeat (destruct Hdev as [<-|Hdev]; [vm_compute; discriminate|]).
    destruct Hdev. }
  vm_compute in Hin.
  destruct Hin as [E|[E|[E|[E|[]]]]]; injection E as <- <-; auto;
    vm_compute in Hst; discriminate.
Qed.

Lemma get_next_reclaim_segment_spec_witness :
  get_next_reclaim_segment scenario6 scenario6_now = Some 0 /\
  (exists info s,
      reclaim_candidate scenario6 0 info /\
      calc_gc_benefit_cost scenario6 0 scenario6_now NULL_TIME = Some s /\
      (0 <? s)%float = true /\
      forall id' info' s',
        reclaim_candidate scenario6 id' info' ->
        calc_gc_benefit_cost scenario6 id' scenario6_now NULL_TIME = Some s' ->
        (s' <=? s)%float = true /\ (id' < 0 -> (s' <? s)%float = true)) /\
  (forall id info, reclaim_candidate scenario6 id info -> utilization_ok scenario6 id) /\
  (exists id, get_next_reclaim_segment scenario6 scenario6_now = Some id).
Proof.
  assert (Houter : (length (device_to_segments (segments (c_segments scenario6)))
                    <= 256)%nat) by (vm_compute; lia).
  assert (Hlen : Forall (fun dev : list segment_info_t =>
                           Z.of_nat (length dev) <= DEVICE_SEGMENT_ID_MAX)
                   (device_to_segments (segments (c_segments scenario6)))).
  { apply Forall_forall. intros dev Hdev. apply list_elem_of_In in Hdev.
    vm_compute in Hdev.
    repeat (destruct Hdev as [<-|Hdev]; [vm_compute; discriminate|]).
    destruct Hdev. }
  assert (Hvalid : iterator_ids_valid (segments (c_segments scenario6)) = true)
    by (vm_compute; reflexivity).
  destruct (@get_next_reclaim_segment_spec example_header scenario6 scenario6_now
              Houter Hlen Hvalid) as (Hwin & _ & _ & _ & Hreturns).
  assert (Hrun : get_next_reclaim_segment scenario6 scenario6_now = Some 0)
    by (vm_compute; reflexivity).
  assert (Hutil : forall id info,
             reclaim_candidate scenario6 id info -> utilization_ok scenario6 id).
  { intros id info Hc. destruct (scenario6_candidates id info Hc) as [->| ->];
      vm_compute; reflexivity. }
  split; [exact Hrun|]. split; [exact (proj2 (proj2 (Hwin 0 Hrun)))|].
  split; [exact Hutil|]. apply (Hreturns Hutil).
  exists 0, (mk_segment_info CLOSED 1 OOL DATA 1 1000000000 3 5000).
  split; [vm_compute; split; [discriminate|reflexivity]|].
  split; [vm_compute; reflexivity|]. split; [reflexivity|].
  vm_compute. reflexivity.
Defined.
